(** * Synthetic-WF: a verification development for the workflow engine

    Source: [src/synthetic_wf_engine.py].  The development embeds the graph
    model ([Step], [Workflow]), the validator ([validate_workflow]), the
    level computation and the two scheduling strategies, the condition
    evaluator and the execution engine (readiness update, dispatch, retry,
    skip cascade, sequential loop, and the parallel loop as an interleaving
    of its atomic sections). *)

From Stdlib Require Import List String Ascii Bool Arith ZArith Lia.
From Stdlib Require DecimalString DecimalNat.
Import ListNotations.
Local Open Scope string_scope.
Local Open Scope list_scope.
Local Open Scope nat_scope.

Set Implicit Arguments.

(* ================================================================== *)
(** * Python exceptions and results *)
(* ================================================================== *)

(** The exceptions the modelled code can raise; [OtherError] stands for
    an exception of any other class, which only a command can raise. *)
Inductive exn : Type :=
| KeyError (key : string)
| ValueError (msg : string)
| IndexError
| OtherError (class_name : string).

(** Outcome of a modelled call: a value, a raised exception, or no result
    within the recursion/loop budget of the model (within any budget, when
    the call never returns). *)
Inductive result (A : Type) : Type :=
| Ok (a : A)
| Raise (e : exn)
| OutOfFuel.

Arguments Ok {A} a.
Arguments Raise {A} e.
Arguments OutOfFuel {A}.

Definition bind {A B : Type} (r : result A) (k : A -> result B) : result B :=
  match r with
  | Ok a => k a
  | Raise e => Raise e
  | OutOfFuel => OutOfFuel
  end.

Notation "x <- c ;; k" := (bind c (fun x => k))
  (at level 61, c at next level, right associativity).
Notation "' p <- c ;; k" := (bind c (fun p => k))
  (at level 61, p pattern, c at next level, right associativity).

(* ================================================================== *)
(** * Python string operations used by the engine *)
(* ================================================================== *)

(** Strings are sequences of code points below 256. *)
Module PyStr.

(** [str.isspace] on one character (code points below 256). *)
Definition isspace (c : ascii) : bool :=
  let n := nat_of_ascii c in
  ((9 <=? n) && (n <=? 13)) || ((28 <=? n) && (n <=? 32))
  || (n =? 133) || (n =? 160).

(** [str.lower] on one character. *)
Definition lower_char (c : ascii) : ascii :=
  let n := nat_of_ascii c in
  if ((65 <=? n) && (n <=? 90))
     || ((192 <=? n) && (n <=? 222) && negb (n =? 215))
  then ascii_of_nat (n + 32) else c.

Fixpoint lower (s : string) : string :=
  match s with
  | EmptyString => EmptyString
  | String c r => String (lower_char c) (lower r)
  end.

(** [s.replace("==", " == ")]: leftmost, non-overlapping occurrences. *)
Fixpoint replace_eqeq (s : string) : string :=
  match s with
  | EmptyString => EmptyString
  | String c r =>
      match r with
      | String c' r' =>
          if (Ascii.eqb c "=" && Ascii.eqb c' "=")%bool
          then " == " ++ replace_eqeq r'
          else String c (replace_eqeq r)
      | EmptyString => String c EmptyString
      end
  end.

(** [words s] is the token that starts at the head of [s] (empty when [s]
    starts with white space) and the tokens after it. *)
Fixpoint words (s : string) : string * list string :=
  match s with
  | EmptyString => (EmptyString, [])
  | String c r =>
      let '(t, ts) := words r in
      if isspace c
      then (EmptyString, match t with EmptyString => ts | _ => t :: ts end)
      else (String c t, ts)
  end.

(** [s.split()]: split on runs of white space, no empty tokens. *)
Definition split (s : string) : list string :=
  let '(t, ts) := words s in
  match t with EmptyString => ts | _ => t :: ts end.

Definition in_chars (chars : string) (c : ascii) : bool :=
  existsb (Ascii.eqb c) (list_ascii_of_string chars).

(** [s.lstrip(chars)] *)
Fixpoint lstrip (chars : string) (s : string) : string :=
  match s with
  | EmptyString => EmptyString
  | String c r => if in_chars chars c then lstrip chars r else s
  end.

(** [s.rstrip(chars)] *)
Fixpoint rstrip (chars : string) (s : string) : string :=
  match s with
  | EmptyString => EmptyString
  | String c r =>
      match rstrip chars r with
      | EmptyString => if in_chars chars c then EmptyString else String c EmptyString
      | r' => String c r'
      end
  end.

(** [s.strip(chars)] *)
Definition strip (chars : string) (s : string) : string :=
  rstrip chars (lstrip chars s).

(** The characters [str.strip()] removes when called without argument. *)
Fixpoint lstrip_ws (s : string) : string :=
  match s with
  | EmptyString => EmptyString
  | String c r => if isspace c then lstrip_ws r else s
  end.

Fixpoint rstrip_ws (s : string) : string :=
  match s with
  | EmptyString => EmptyString
  | String c r =>
      match rstrip_ws r with
      | EmptyString => if isspace c then EmptyString else String c EmptyString
      | r' => String c r'
      end
  end.

Definition strip_ws (s : string) : string := rstrip_ws (lstrip_ws s).

(** [s.startswith(p)] *)
Definition startswith (p s : string) : bool := String.prefix p s.

(** [s.split(sep, 1)] for a one-character separator: the part before the
    first separator and, when there is one, the part after it. *)
Fixpoint split1 (sep : ascii) (s : string) : string * option string :=
  match s with
  | EmptyString => (EmptyString, None)
  | String c r =>
      if Ascii.eqb c sep then (EmptyString, Some r)
      else let '(a, b) := split1 sep r in (String c a, b)
  end.

(** [s.split(sep)] for a one-character separator: all fields. *)
Fixpoint fields (sep : ascii) (s : string) : string * list string :=
  match s with
  | EmptyString => (EmptyString, [])
  | String c r =>
      let '(t, ts) := fields sep r in
      if Ascii.eqb c sep then (EmptyString, t :: ts) else (String c t, ts)
  end.

Definition split_on (sep : ascii) (s : string) : list string :=
  let '(t, ts) := fields sep s in t :: ts.

Definition is_digit (c : ascii) : bool :=
  let n := nat_of_ascii c in (48 <=? n) && (n <=? 57).

Definition digit_value (c : ascii) : Z := Z.of_nat (nat_of_ascii c - 48).

(** The digit part of a decimal literal accepted by [int]: digits, with
    single underscores allowed between two digits. *)
Fixpoint digits (acc : Z) (after_digit : bool) (s : string) : option Z :=
  match s with
  | EmptyString => if after_digit then Some acc else None
  | String c r =>
      if is_digit c then digits (10 * acc + digit_value c) true r
      else if Ascii.eqb c "_"
           then if after_digit then digits acc false r else None
           else None
  end.

(** Number of digit characters of [s]. *)
Fixpoint count_digits (s : string) : nat :=
  match s with
  | EmptyString => 0
  | String c r => if is_digit c then S (count_digits r) else count_digits r
  end.

(** The interpreter's default limit on the number of digits [int] converts
    ([sys.get_int_max_str_digits()]); sign, white space and underscores are
    not counted. *)
Definition max_str_digits : nat := 4300.

(** [int(s)] in base 10; [None] stands for [ValueError]: the text is no
    decimal literal, or it has more digits than the limit. *)
Definition int (s : string) : option Z :=
  if max_str_digits <? count_digits s then None
  else
    match strip_ws s with
    | String "+" r => digits 0 false r
    | String "-" r => option_map Z.opp (digits 0 false r)
    | t => digits 0 false t
    end.

End PyStr.

(* ================================================================== *)
(** * Models: [Step] and [Workflow] *)
(* ================================================================== *)

(** The six values the [status] attribute takes. *)
Inductive Status : Type :=
| PENDING | READY | RUNNING | SUCCESS | FAILED | SKIPPED.

(** The string the source stores for each status. *)
Definition status_name (s : Status) : string :=
  match s with
  | PENDING => "PENDING"
  | READY => "READY"
  | RUNNING => "RUNNING"
  | SUCCESS => "SUCCESS"
  | FAILED => "FAILED"
  | SKIPPED => "SKIPPED"
  end.

Definition Status_eqb (a b : Status) : bool :=
  match a, b with
  | PENDING, PENDING | READY, READY | RUNNING, RUNNING
  | SUCCESS, SUCCESS | FAILED, FAILED | SKIPPED, SKIPPED => true
  | _, _ => false
  end.

(** class Step *)
Record Step : Type := mkStep {
  step_id : string;
  command : string;
  dependencies : list string;
  condition : option string;
  failure_strategy : option string;
  parallel_with : list string;
  status : Status;
  retry_count : Z
}.

(** [Step.__init__] *)
Definition new_Step (sid cmd : string) : Step :=
  mkStep sid cmd [] None None [] PENDING 0.

Definition with_status (st : Status) (s : Step) : Step :=
  mkStep (step_id s) (command s) (dependencies s) (condition s)
         (failure_strategy s) (parallel_with s) st (retry_count s).

Definition with_retry_count (n : Z) (s : Step) : Step :=
  mkStep (step_id s) (command s) (dependencies s) (condition s)
         (failure_strategy s) (parallel_with s) (status s) n.

Definition with_dependencies (d : list string) (s : Step) : Step :=
  mkStep (step_id s) (command s) d (condition s)
         (failure_strategy s) (parallel_with s) (status s) (retry_count s).

(** Insertion-ordered dictionaries with string keys.  A key occurs once;
    assigning to a present key keeps its position. *)
Section Dict.
Variable V : Type.

Definition dict : Type := list (string * V).

Fixpoint dict_get (d : dict) (k : string) : option V :=
  match d with
  | [] => None
  | (k', v) :: r => if String.eqb k' k then Some v else dict_get r k
  end.

Fixpoint dict_set (d : dict) (k : string) (v : V) : dict :=
  match d with
  | [] => [(k, v)]
  | (k', v') :: r =>
      if String.eqb k' k then (k', v) :: r else (k', v') :: dict_set r k v
  end.

Definition dict_keys (d : dict) : list string := map fst d.
End Dict.

Arguments dict_get {V} d k.
Arguments dict_set {V} d k v.
Arguments dict_keys {V} d.

(** Membership in a list of strings ([x in l]). *)
Definition mem (x : string) (l : list string) : bool :=
  existsb (String.eqb x) l.

(** [l.remove(x)] once [x in l] has been checked: the first occurrence. *)
Fixpoint remove_first (x : string) (l : list string) : list string :=
  match l with
  | [] => []
  | y :: r => if String.eqb y x then r else y :: remove_first x r
  end.

(** The [steps] dictionary.  Its only assignment is
    [self.steps[step.id] = step], so a key is always the id of the step it
    maps to: the dictionary is kept as the list of its values, in insertion
    order, looked up by [step_id]. *)
Definition step_table : Type := list Step.

Fixpoint find_step (t : step_table) (k : string) : option Step :=
  match t with
  | [] => None
  | s :: r => if String.eqb (step_id s) k then Some s else find_step r k
  end.

(** [steps[step.id] = step] *)
Fixpoint put_step (t : step_table) (s : Step) : step_table :=
  match t with
  | [] => [s]
  | s' :: r =>
      if String.eqb (step_id s') (step_id s) then s :: r
      else s' :: put_step r s
  end.

(** In-place mutation of the step object stored under [k]. *)
Fixpoint update_step (f : Step -> Step) (t : step_table) (k : string)
  : step_table :=
  match t with
  | [] => []
  | s :: r =>
      if String.eqb (step_id s) k then f s :: r
      else s :: update_step f r k
  end.

Definition step_ids (t : step_table) : list string := map step_id t.

(** class Workflow *)
Record Workflow : Type := mkWorkflow {
  name : string;
  steps : step_table;
  inverse_dependencies : dict (list string)
}.

Definition new_Workflow (n : string) : Workflow := mkWorkflow n [] [].

(** [Workflow.add_step] *)
Definition add_step (w : Workflow) (s : Step) : Workflow :=
  mkWorkflow (name w)
             (put_step (steps w) s)
             (dict_set (inverse_dependencies w) (step_id s) []).

(** [Workflow.add_dependency] *)
Definition add_dependency (w : Workflow) (dependent_id dependency_id : string)
  : result Workflow :=
  if mem dependent_id (step_ids (steps w)) && mem dependency_id (step_ids (steps w))
  then
    match dict_get (inverse_dependencies w) dependency_id with
    | None => Raise (KeyError dependency_id)
    | Some inv =>
        Ok (mkWorkflow (name w)
              (update_step (fun s => with_dependencies (dependencies s ++ [dependency_id]) s)
                           (steps w) dependent_id)
              (dict_set (inverse_dependencies w) dependency_id (inv ++ [dependent_id])))
    end
  else Ok w.

(** [workflow.steps[k]] *)
Definition get_step (w : Workflow) (k : string) : result Step :=
  match find_step (steps w) k with
  | Some s => Ok s
  | None => Raise (KeyError k)
  end.

(** [workflow.inverse_dependencies[k]] *)
Definition get_inverse (w : Workflow) (k : string) : result (list string) :=
  match dict_get (inverse_dependencies w) k with
  | Some l => Ok l
  | None => Raise (KeyError k)
  end.

Definition set_status (w : Workflow) (k : string) (st : Status) : Workflow :=
  mkWorkflow (name w) (update_step (with_status st) (steps w) k)
             (inverse_dependencies w).

Definition set_retry_count (w : Workflow) (k : string) (n : Z) : Workflow :=
  mkWorkflow (name w) (update_step (with_retry_count n) (steps w) k)
             (inverse_dependencies w).

(** The step definitions a workflow file holds, after [json.load]: the
    part of [parse_workflow] that builds the graph. *)
Record StepDef : Type := mkStepDef {
  def_step_id : string;
  def_run : string;
  def_if : option string;
  def_on_failure : option string;
  def_depends_on : list string
}.

Definition step_of_def (d : StepDef) : Step :=
  mkStep (def_step_id d) (def_run d) [] (def_if d) (def_on_failure d) []
         PENDING 0.

Fixpoint add_dependencies (w : Workflow) (sid : string) (deps : list string)
  : result Workflow :=
  match deps with
  | [] => Ok w
  | d :: r => w' <- add_dependency w sid d ;; add_dependencies w' sid r
  end.

Fixpoint second_pass (w : Workflow) (data : list StepDef) : result Workflow :=
  match data with
  | [] => Ok w
  | d :: r =>
      w' <- add_dependencies w (def_step_id d) (def_depends_on d) ;;
      second_pass w' r
  end.

(** [parse_workflow], from the decoded step list on. *)
Definition build_workflow (wname : string) (data : list StepDef)
  : result Workflow :=
  second_pass (fold_left (fun w d => add_step w (step_of_def d)) data
                         (new_Workflow wname))
              data.

(* ================================================================== *)
(** * Validation *)
(* ================================================================== *)

(** The two sets of [validate_workflow]. *)
Record Marks : Type := mkMarks {
  visited : list string;
  temp_visited : list string
}.

(** [set.add] *)
Definition set_add (x : string) (l : list string) : list string :=
  if mem x l then l else x :: l.

(** [set.remove]: [KeyError] when the element is missing. *)
Definition set_remove (x : string) (l : list string) : result (list string) :=
  if mem x l then Ok (remove_first x l) else Raise (KeyError x).

(** The loop [for dep_id in step.dependencies] of [has_cycle], over the
    recursive call [rec]; it stops at the first dependency that reports a
    cycle. *)
Definition cycle_over_deps (rec : Marks -> string -> result (bool * Marks))
  : list string -> Marks -> result (bool * Marks) :=
  fix over_deps (deps : list string) (m : Marks) : result (bool * Marks) :=
    match deps with
    | [] => Ok (false, m)
    | dep_id :: rest =>
        '(b, m') <- rec m dep_id ;;
        if b then Ok (true, m') else over_deps rest m'
    end.

(** The nested function [has_cycle]; [fuel] bounds the recursion depth. *)
Fixpoint has_cycle (fuel : nat) (w : Workflow) (m : Marks) (sid : string)
  : result (bool * Marks) :=
  match fuel with
  | O => OutOfFuel
  | S fuel' =>
      if mem sid (temp_visited m) then Ok (true, m)
      else if mem sid (visited m) then Ok (false, m)
      else
        let m1 := mkMarks (visited m) (set_add sid (temp_visited m)) in
        step <- get_step w sid ;;
        '(found, m2) <- cycle_over_deps (has_cycle fuel' w) (dependencies step) m1 ;;
        if found then Ok (true, m2)
        else
          temp' <- set_remove sid (temp_visited m2) ;;
          Ok (false, mkMarks (set_add sid (visited m2)) temp')
  end.

Definition cycle_message (sid : string) : string :=
  "Cycle detected in workflow involving step " ++ sid.

(** The loop over [workflow.steps] of [validate_workflow]. *)
Fixpoint validate_from (fuel : nat) (w : Workflow) (m : Marks)
         (ids : list string) : result bool :=
  match ids with
  | [] => Ok true
  | sid :: rest =>
      '(b, m') <- has_cycle fuel w m sid ;;
      if b then Raise (ValueError (cycle_message sid))
      else validate_from fuel w m' rest
  end.

(** [validate_workflow].  The recursion of [has_cycle] never goes deeper
    than the number of steps plus one (lemma [has_cycle_spec]). *)
Definition validate_workflow (w : Workflow) : result bool :=
  validate_from (S (List.length (steps w))) w (mkMarks [] []) (step_ids (steps w)).

(* ================================================================== *)
(** * Scheduling strategies *)
(* ================================================================== *)

(** [max(get_level(dep) for dep in ...)] once the first value [best] has
    been drawn, over the recursive call [rec]; the memo table is threaded
    through the calls. *)
Definition level_max (rec : dict nat -> string -> result (nat * dict nat))
  : list string -> nat -> dict nat -> result (nat * dict nat) :=
  fix over_deps (deps : list string) (best : nat) (lv : dict nat)
    : result (nat * dict nat) :=
    match deps with
    | [] => Ok (best, lv)
    | d :: r =>
        '(l, lv') <- rec lv d ;;
        over_deps r (Nat.max best l) lv'
    end.

(** The nested function [get_level] of [_calculate_levels], threading the
    memo table [levels]; [fuel] bounds the recursion depth. *)
Fixpoint get_level (fuel : nat) (w : Workflow) (levels : dict nat)
         (sid : string) : result (nat * dict nat) :=
  match fuel with
  | O => OutOfFuel
  | S fuel' =>
      match dict_get levels sid with
      | Some l => Ok (l, levels)
      | None =>
          step <- get_step w sid ;;
          match dependencies step with
          | [] => Ok (0, dict_set levels sid 0)
          | dep :: rest =>
              '(l0, lv0) <- get_level fuel' w levels dep ;;
              '(m, lv) <- level_max (get_level fuel' w) rest l0 lv0 ;;
              Ok (1 + m, dict_set lv sid (1 + m))
          end
      end
  end.

Fixpoint levels_from (fuel : nat) (w : Workflow) (levels : dict nat)
         (ids : list string) : result (dict nat) :=
  match ids with
  | [] => Ok levels
  | sid :: rest =>
      '(_, lv) <- get_level fuel w levels sid ;;
      levels_from fuel w lv rest
  end.

(** [_calculate_levels] *)
Definition _calculate_levels (w : Workflow) : result (dict nat) :=
  levels_from (S (List.length (steps w))) w [] (step_ids (steps w)).

(** The two concrete strategies, each holding its level table. *)
Inductive SchedulingStrategy : Type :=
| BreadthFirstStrategy (levels : dict nat)
| DepthFirstStrategy (levels : dict nat).

Definition strategy_levels (s : SchedulingStrategy) : dict nat :=
  match s with
  | BreadthFirstStrategy l => l
  | DepthFirstStrategy l => l
  end.

(** [BreadthFirstStrategy(workflow)], [DepthFirstStrategy(workflow)] *)
Definition new_BreadthFirstStrategy (w : Workflow) : result SchedulingStrategy :=
  lv <- _calculate_levels w ;; Ok (BreadthFirstStrategy lv).

Definition new_DepthFirstStrategy (w : Workflow) : result SchedulingStrategy :=
  lv <- _calculate_levels w ;; Ok (DepthFirstStrategy lv).

(** The key function [lambda s: self.levels[s.id]]. *)
Definition level_key (levels : dict nat) (sid : string) : result nat :=
  match dict_get levels sid with
  | Some l => Ok l
  | None => Raise (KeyError sid)
  end.

(** The scan of [min(..., key=...)] and [max(..., key=...)]: the current
    best is replaced only by a strictly better key, so the first of several
    equal candidates is kept. *)
Fixpoint select_by (better : nat -> nat -> bool) (levels : dict nat)
         (best : string) (kbest : nat) (l : list string) : result string :=
  match l with
  | [] => Ok best
  | x :: r =>
      k <- level_key levels x ;;
      if better k kbest then select_by better levels x k r
      else select_by better levels best kbest r
  end.

Definition select (better : nat -> nat -> bool) (levels : dict nat)
           (l : list string) : result string :=
  match l with
  | [] => Raise (ValueError "empty sequence")
  | x :: r => k <- level_key levels x ;; select_by better levels x k r
  end.

(** [get_next_steps]; steps are named by their ids. *)
Definition get_next_steps (s : SchedulingStrategy) (ready_steps : list string)
  : result (list string) :=
  match ready_steps with
  | [] => Ok []
  | _ =>
      match s with
      | BreadthFirstStrategy levels =>
          x <- select Nat.ltb levels ready_steps ;; Ok [x]
      | DepthFirstStrategy levels =>
          x <- select (fun k kb => Nat.ltb kb k) levels ready_steps ;; Ok [x]
      end
  end.

(* ================================================================== *)
(** * The workflow engine *)
(* ================================================================== *)

(** class WorkflowEngine.  The step objects in [ready_queue] are the ones
    stored in [workflow.steps]; the queue holds their ids and every read or
    write of a queued step goes through the workflow, so that a status
    written through one reference is seen through the other. *)
Record WorkflowEngine : Type := mkEngine {
  workflow : Workflow;
  ready_queue : list string;
  strategy : option SchedulingStrategy;
  max_parallel : nat;
  execution_order : list string
}.

(** [WorkflowEngine.__init__] *)
Definition new_WorkflowEngine (w : Workflow) (s : option SchedulingStrategy)
           (mp : nat) : WorkflowEngine :=
  mkEngine w [] s mp [].

Definition with_workflow (w : Workflow) (e : WorkflowEngine) : WorkflowEngine :=
  mkEngine w (ready_queue e) (strategy e) (max_parallel e) (execution_order e).

Definition with_queue (q : list string) (e : WorkflowEngine) : WorkflowEngine :=
  mkEngine (workflow e) q (strategy e) (max_parallel e) (execution_order e).

Definition with_log (l : list string) (e : WorkflowEngine) : WorkflowEngine :=
  mkEngine (workflow e) (ready_queue e) (strategy e) (max_parallel e) l.

Definition quote_chars : string :=
  String "'" (String "034"%char EmptyString).

(** Truth value of an optional string: [None] and [""] are false. *)
Definition truthy (o : option string) : bool :=
  match o with
  | None => false
  | Some EmptyString => false
  | Some _ => true
  end.

(** [_evaluate_condition] *)
Definition _evaluate_condition (w : Workflow) (cond : option string)
  : result bool :=
  match cond with
  | None => Ok true
  | Some EmptyString => Ok true
  | Some c =>
      let parts := PyStr.split (PyStr.replace_eqeq c) in
      match parts with
      | var_name :: _ :: third :: _ =>
          let expected_value := PyStr.strip quote_chars third in
          if PyStr.startswith "status_" var_name
             || PyStr.startswith "result_" var_name
          then
            match PyStr.split1 "_" var_name with
            | (_, None) => Raise IndexError
            | (_, Some sid) =>
                match find_step (steps w) sid with
                | Some s =>
                    Ok (String.eqb (PyStr.lower (status_name (status s)))
                                   (PyStr.lower expected_value))
                | None => Ok true
                end
            end
          else Ok true
      | _ => Ok true
      end
  end.

(** The generator expression of [_update_ready_queue]; [all] stops at the
    first dependency that is not [SUCCESS]. *)
Fixpoint deps_satisfied (w : Workflow) (deps : list string) : result bool :=
  match deps with
  | [] => Ok true
  | dep_id :: rest =>
      s <- get_step w dep_id ;;
      if Status_eqb (status s) SUCCESS then deps_satisfied w rest
      else Ok false
  end.

(** One iteration of the loop of [_update_ready_queue], for the step
    stored under [sid]. *)
Definition update_one (e : WorkflowEngine) (sid : string)
  : result WorkflowEngine :=
  step <- get_step (workflow e) sid ;;
  if negb (Status_eqb (status step) PENDING) then Ok e
  else
    sat <- deps_satisfied (workflow e) (dependencies step) ;;
    if sat then
      c <- _evaluate_condition (workflow e) (condition step) ;;
      if c then
        Ok (with_queue (ready_queue e ++ [sid])
                       (with_workflow (set_status (workflow e) sid READY) e))
      else if truthy (condition step) then
        c' <- _evaluate_condition (workflow e) (condition step) ;;
        if negb c'
        then Ok (with_workflow (set_status (workflow e) sid SKIPPED) e)
        else Ok e
      else Ok e
    else Ok e.

Fixpoint update_over (e : WorkflowEngine) (ids : list string)
  : result WorkflowEngine :=
  match ids with
  | [] => Ok e
  | sid :: rest => e' <- update_one e sid ;; update_over e' rest
  end.

(** [_update_ready_queue] *)
Definition _update_ready_queue (e : WorkflowEngine) : result WorkflowEngine :=
  update_over e (step_ids (steps (workflow e))).

(** The [while to_skip] loop of [_skip_dependents]; [fuel] bounds the
    number of iterations. *)
Fixpoint skip_loop (fuel : nat) (e : WorkflowEngine)
         (to_skip skipped : list string) : result WorkflowEngine :=
  match to_skip with
  | [] => Ok e
  | skip_id :: rest =>
      match fuel with
      | O => OutOfFuel
      | S fuel' =>
          if mem skip_id skipped then skip_loop fuel' e rest skipped
          else
            skip_step <- get_step (workflow e) skip_id ;;
            if Status_eqb (status skip_step) PENDING
               || Status_eqb (status skip_step) READY
            then
              let e1 := with_workflow (set_status (workflow e) skip_id SKIPPED) e in
              let e2 := if mem skip_id (ready_queue e1)
                        then with_queue (remove_first skip_id (ready_queue e1)) e1
                        else e1 in
              inv <- get_inverse (workflow e2) skip_id ;;
              skip_loop fuel' e2 (rest ++ inv) (set_add skip_id skipped)
            else skip_loop fuel' e rest skipped
      end
  end.

(** Number of entries of the reverse-dependency index. *)
Definition inverse_size (w : Workflow) : nat :=
  list_sum (map (fun kv => List.length (snd kv)) (inverse_dependencies w)).

(** [_skip_dependents].  Every iteration pops one id, and the dependents
    of a step are pushed at most once (when it turns [SKIPPED]), so the loop
    makes at most [length initial + inverse_size] iterations. *)
Definition _skip_dependents (e : WorkflowEngine) (sid : string)
  : result WorkflowEngine :=
  init <- get_inverse (workflow e) sid ;;
  skip_loop (List.length init + inverse_size (workflow e)) e init [].

(** [_get_next_step]: the chosen step (or [None]) and the engine, whose
    queue has lost its head when no strategy is set. *)
Definition _get_next_step (e : WorkflowEngine)
  : result (option string * WorkflowEngine) :=
  match strategy e with
  | Some s =>
      next_steps <- get_next_steps s (ready_queue e) ;;
      Ok (hd_error next_steps, e)
  | None =>
      match ready_queue e with
      | [] => Ok (None, e)
      | x :: r => Ok (Some x, with_queue r e)
      end
  end.

(** [int(step.failure_strategy.split(":")[1].strip())] *)
Definition max_retries_of (fs : string) : result Z :=
  match PyStr.split_on ":" fs with
  | _ :: second :: _ =>
      match PyStr.int (PyStr.strip_ws second) with
      | Some n => Ok n
      | None => Raise (ValueError "invalid literal for int() with base 10")
      end
  | _ => Raise IndexError
  end.

(** The part of [_execute_step] after the command has returned:
    [success] is the outcome of the command. *)
Definition apply_outcome (success : bool) (e : WorkflowEngine) (sid : string)
  : result (bool * WorkflowEngine) :=
  if success then
    Ok (true, with_workflow (set_status (workflow e) sid SUCCESS) e)
  else
    step <- get_step (workflow e) sid ;;
    let fail := Ok (false, with_workflow (set_status (workflow e) sid FAILED) e) in
    match failure_strategy step with
    | Some fs =>
        if truthy (Some fs) && PyStr.startswith "retry:" fs then
          max_retries <- max_retries_of fs ;;
          if (retry_count step <? max_retries)%Z then
            let w1 := set_retry_count (workflow e) sid (retry_count step + 1)%Z in
            Ok (false, with_workflow (set_status w1 sid PENDING) e)
          else fail
        else fail
    | None => fail
    end.

(** What the call [subprocess.run(step.command, shell=True, check=True,
    capture_output=True, text=True)] of [_execute_step] does.  The command
    ends and the call returns when the exit status is 0, and raises
    [CalledProcessError], which [_execute_step] catches, when it is not:
    [Exited true] and [Exited false].  The call may also raise another
    exception, which nothing catches (for instance [UnicodeDecodeError], a
    [ValueError], when the output of the command is not text): [Raised].
    Or the command never ends and the call never returns: [NeverEnds]. *)
Inductive CommandOutcome : Type :=
| Exited (zero : bool)
| Raised (x : exn)
| NeverEnds.

(** A boolean read as an outcome is a command that ends: [true] with exit
    status 0, [false] with another one. *)
Coercion Exited : bool >-> CommandOutcome.

(** The command executor: what running a step's command does, given the
    execution log at the time of the call (which ends with the step being
    run) and the command string. *)
Definition Executor : Type := list string -> string -> CommandOutcome.

(** [_execute_step] *)
Definition _execute_step (run : Executor) (e : WorkflowEngine) (sid : string)
  : result (bool * WorkflowEngine) :=
  step <- get_step (workflow e) sid ;;
  let e1 := with_log (execution_order e ++ [sid]) e in
  match run (execution_order e1) (command step) with
  | Exited success => apply_outcome success e1 sid
  | Raised x => Raise x
  | NeverEnds => OutOfFuel
  end.

(** [if step in self.ready_queue: self.ready_queue.remove(step)] followed
    by [step.status = "RUNNING"]. *)
Definition mark_running (e : WorkflowEngine) (sid : string) : WorkflowEngine :=
  let e1 := if mem sid (ready_queue e)
            then with_queue (remove_first sid (ready_queue e)) e else e in
  with_workflow (set_status (workflow e1) sid RUNNING) e1.

(** The lines after [_execute_step] returns, in [_execute_sequential] and,
    under the lock, in [_execute_step_threaded]. *)
Definition settle (success : bool) (e : WorkflowEngine) (sid : string)
  : result WorkflowEngine :=
  step <- get_step (workflow e) sid ;;
  e1 <- (if negb success && Status_eqb (status step) FAILED
         then _skip_dependents e (step_id step) else Ok e) ;;
  _update_ready_queue e1.

(** [_execute_sequential]; [fuel] bounds the number of iterations. *)
Fixpoint _execute_sequential (run : Executor) (fuel : nat) (e : WorkflowEngine)
  : result WorkflowEngine :=
  match ready_queue e with
  | [] => Ok e
  | _ :: _ =>
      match fuel with
      | O => OutOfFuel
      | S fuel' =>
          '(next, e1) <- _get_next_step e ;;
          match next with
          | None => Ok e1
          | Some sid =>
              let e2 := mark_running e1 sid in
              '(success, e3) <- _execute_step run e2 sid ;;
              e4 <- settle success e3 sid ;;
              _execute_sequential run fuel' e4
          end
      end
  end.

(** [execute] with [max_parallel == 1]. *)
Definition execute_sequentially (run : Executor) (fuel : nat) (e : WorkflowEngine)
  : result WorkflowEngine :=
  e0 <- _update_ready_queue e ;;
  _execute_sequential run fuel e0.

(** ** The parallel loop

    A worker thread runs [_execute_step] and then, holding the lock, the
    cascade and the readiness update.  The main thread reaps dead threads
    and dispatches.  The loop is modelled as the interleaving of these
    sections, each taken as one step.  The commands of the workers end,
    with an arbitrary exit status, or never end (their worker then takes
    no step); a worker whose [_execute_step] raises in [int], on a retry
    policy without integer, ends there without taking the lock, and its
    step stays [RUNNING].  A command that makes [subprocess.run] raise
    another exception than [CalledProcessError] is outside these runs; the
    runs of [pstep_exn], further down, have them. *)

Inductive Phase : Type :=
| Started                      (* created, [_execute_step] not yet run *)
| Finished (success : bool)    (* [_execute_step] returned, waiting for the lock *)
| Dead.                        (* the thread has ended *)

Record Thread : Type := mkThread {
  thread_step : string;
  phase : Phase
}.

Definition is_alive (t : Thread) : bool :=
  match phase t with Dead => false | _ => true end.

Record System : Type := mkSystem {
  engine : WorkflowEngine;
  running_threads : list Thread
}.

Inductive Event : Type :=
| EvReap
| EvDispatch (sid : string)
| EvRun (sid : string) (success : bool)
| EvCrash (sid : string)
| EvSettle (sid : string).

Inductive pstep : System -> Event -> System -> Prop :=
| pstep_reap e ts :
    pstep (mkSystem e ts) EvReap (mkSystem e (filter is_alive ts))
| pstep_dispatch e ts e1 sid :
    List.length ts < max_parallel e ->
    ready_queue e <> [] ->
    _get_next_step e = Ok (Some sid, e1) ->
    pstep (mkSystem e ts) (EvDispatch sid)
          (mkSystem (mark_running e1 sid) (ts ++ [mkThread sid Started]))
| pstep_run e ts1 ts2 sid (outcome : bool) success e' :
    _execute_step (fun _ _ => Exited outcome) e sid = Ok (success, e') ->
    pstep (mkSystem e (ts1 ++ mkThread sid Started :: ts2)) (EvRun sid outcome)
          (mkSystem e' (ts1 ++ mkThread sid (Finished success) :: ts2))
| pstep_crash e ts1 ts2 sid (outcome : bool) x :
    _execute_step (fun _ _ => Exited outcome) e sid = Raise x ->
    pstep (mkSystem e (ts1 ++ mkThread sid Started :: ts2)) (EvCrash sid)
          (mkSystem (with_log (execution_order e ++ [sid]) e)
                    (ts1 ++ mkThread sid Dead :: ts2))
| pstep_settle e ts1 ts2 sid success e' :
    settle success e sid = Ok e' ->
    pstep (mkSystem e (ts1 ++ mkThread sid (Finished success) :: ts2)) (EvSettle sid)
          (mkSystem e' (ts1 ++ mkThread sid Dead :: ts2)).

(** A workflow as [parse_workflow] leaves it: every step [PENDING] with no
    retry spent. *)
Definition fresh (w : Workflow) : Prop :=
  forall s, In s (steps w) -> status s = PENDING /\ retry_count s = 0%Z.

(** The states of a run of [execute], sequential or parallel, with the
    events that led there. *)
Inductive reachable (w : Workflow) (strat : option SchedulingStrategy) (mp : nat)
  : list Event -> System -> Prop :=
| reach_start e :
    _update_ready_queue (new_WorkflowEngine w strat mp) = Ok e ->
    reachable w strat mp [] (mkSystem e [])
| reach_step t S ev S' :
    reachable w strat mp t S ->
    pstep S ev S' ->
    reachable w strat mp (t ++ [ev]) S'.

(* ================================================================== *)
(** * The condition grammar of the specification *)
(* ================================================================== *)

Definition string_forall (p : ascii -> bool) (s : string) : bool :=
  forallb p (list_ascii_of_string s).

(** A run of white space, possibly empty. *)
Definition is_blank (s : string) : bool := string_forall PyStr.isspace s.

(** A token: not empty, no white space, no equals sign. *)
Definition is_token (s : string) : bool :=
  negb (String.eqb s "")
  && string_forall (fun c => negb (PyStr.isspace c) && negb (Ascii.eqb c "=")) s.

(** The two kinds of reference. *)
Inductive RefKind : Type := StatusRef | ResultRef.

Definition ref_prefix (k : RefKind) : string :=
  match k with StatusRef => "status_" | ResultRef => "result_" end.

(** The text of [<reference> == <literal>]. *)
Definition equality_text (k : RefKind) (sid ws1 ws2 literal : string) : string :=
  (ref_prefix k ++ sid) ++ ws1 ++ "==" ++ ws2 ++ literal.

(** The grammar [<reference> == <literal>] of the specification: a
    reference [status_<step_id>] or [result_<step_id>], the operator, a
    bare or quoted literal, with optional white space around the
    operator. *)
Inductive EqualityForm : string -> Prop :=
| equality_form k sid ws1 ws2 literal :
    is_token (ref_prefix k ++ sid) = true ->
    is_token literal = true ->
    is_blank ws1 = true ->
    is_blank ws2 = true ->
    EqualityForm (equality_text k sid ws1 ws2 literal).

(** The tokens [_evaluate_condition] works on. *)
Definition condition_tokens (c : string) : list string :=
  PyStr.split (PyStr.replace_eqeq c).

(** Case-insensitive comparison of a status with a literal, quotes
    stripped. *)
Definition status_matches (st : Status) (literal : string) : bool :=
  String.eqb (PyStr.lower (status_name st))
             (PyStr.lower (PyStr.strip quote_chars literal)).

(* ================================================================== *)
(** * Small workflows used as examples *)
(* ================================================================== *)

(** One step [A], [PENDING]. *)
Definition wf_single : Workflow :=
  add_step (new_Workflow "w") (new_Step "A" "true").

(** Step [B], whose condition names a step that does not exist. *)
Definition wf_dangling_condition : Workflow :=
  add_step (new_Workflow "w")
           (mkStep "B" "true" [] (Some "status_X == 'SUCCESS'") None [] PENDING 0).

(* ================================================================== *)
(** * Well-formed graphs, dependency paths and cycles *)
(* ================================================================== *)

(** What [add_step] (with fresh ids) and [add_dependency] maintain: ids
    are unique, every dependency names a step, and the reverse index has
    the keys of [steps] and mirrors the dependency lists. *)
Record wf_workflow (w : Workflow) : Prop := mk_wf {
  wf_nodup : NoDup (step_ids (steps w));
  wf_deps : forall s d, In s (steps w) -> In d (dependencies s) ->
                        In d (step_ids (steps w));
  wf_inv_keys : dict_keys (inverse_dependencies w) = step_ids (steps w);
  wf_inv : forall x y sy l,
      dict_get (inverse_dependencies w) x = Some l ->
      find_step (steps w) y = Some sy ->
      (In y l <-> In x (dependencies sy));
  wf_inv_ids : forall x l y,
      dict_get (inverse_dependencies w) x = Some l -> In y l ->
      In y (step_ids (steps w))
}.

(** [edge w x y]: step [x] declares [y] as a dependency. *)
Definition edge (w : Workflow) (x y : string) : Prop :=
  exists s, find_step (steps w) x = Some s /\ In y (dependencies s).

(** A non-empty chain of dependencies from [x] to [y]. *)
Inductive path (w : Workflow) : string -> string -> Prop :=
| path_edge x y : edge w x y -> path w x y
| path_cons x y z : edge w x y -> path w y z -> path w x z.

(** A step lies on a dependency cycle. *)
Definition on_cycle (w : Workflow) (x : string) : Prop := path w x x.

Definition cyclic (w : Workflow) : Prop := exists x, on_cycle w x.

Definition acyclic (w : Workflow) : Prop := forall x, ~ on_cycle w x.

(** [y] is a descendant of [x]: it depends on [x], directly or through
    other steps. *)
Definition descendant (w : Workflow) (x y : string) : Prop := path w y x.

(** A list of step ids in which every step comes after (to the left of)
    all its dependencies. *)
Inductive topo (w : Workflow) : list string -> Prop :=
| topo_nil : topo w []
| topo_cons x V s :
    topo w V ->
    ~ In x V ->
    find_step (steps w) x = Some s ->
    (forall d, In d (dependencies s) -> In d V) ->
    topo w (x :: V).

(** Position of [x] in [V], counted from the right, starting at 1; 0 when
    [x] is not in [V]. *)
Fixpoint rank (V : list string) (x : string) : nat :=
  match V with
  | [] => 0
  | z :: V' => if String.eqb z x then S (List.length V') else rank V' x
  end.

(** The invariant of the two sets of [validate_workflow]. *)
Record marks_ok (w : Workflow) (m : Marks) : Prop := mk_marks_ok {
  mo_topo : topo w (visited m);
  mo_disjoint : forall x, In x (temp_visited m) -> ~ In x (visited m);
  mo_nodup : NoDup (temp_visited m);
  mo_ids : forall x, In x (temp_visited m) -> In x (step_ids (steps w))
}.

(** The in-progress set is the current traversal path: each element
    depends on the next more recent one. *)
Fixpoint chain (w : Workflow) (T : list string) : Prop :=
  match T with
  | [] => True
  | x :: T' =>
      match T' with
      | [] => True
      | y :: _ => edge w y x /\ chain w T'
      end
  end.

(** The step [has_cycle] is called on is a dependency of the most recent
    in-progress step. *)
Definition called_from (w : Workflow) (T : list string) (x : string) : Prop :=
  match T with
  | [] => True
  | y :: _ => edge w y x
  end.

(** A decision procedure for [wf_workflow]. *)
Fixpoint nodupb (l : list string) : bool :=
  match l with
  | [] => true
  | x :: r => negb (mem x r) && nodupb r
  end.

Fixpoint ids_eqb (a b : list string) : bool :=
  match a, b with
  | [], [] => true
  | x :: a', y :: b' => String.eqb x y && ids_eqb a' b'
  | _, _ => false
  end.

Definition wf_check (w : Workflow) : bool :=
  let ids := step_ids (steps w) in
  nodupb ids
  && forallb (fun s => forallb (fun d => mem d ids) (dependencies s)) (steps w)
  && ids_eqb (dict_keys (inverse_dependencies w)) ids
  && forallb (fun kv =>
                forallb (fun y => mem y ids) (snd kv)
                && forallb (fun sy =>
                              Bool.eqb (mem (step_id sy) (snd kv))
                                       (mem (fst kv) (dependencies sy)))
                           (steps w))
             (inverse_dependencies w).

(** The graph [A -> B -> C -> B]: [A] depends on [B], [B] on [C] and [C]
    on [B]; [A] was added first. *)
Definition wf_cycle_tail : Workflow :=
  mkWorkflow "w"
    [ mkStep "A" "a" ["B"] None None [] PENDING 0;
      mkStep "B" "b" ["C"] None None [] PENDING 0;
      mkStep "C" "c" ["B"] None None [] PENDING 0 ]
    [ ("A", []); ("B", ["A"; "C"]); ("C", ["B"]) ].

Definition defs_cycle_tail : list StepDef :=
  [ mkStepDef "A" "a" None None ["B"];
    mkStepDef "B" "b" None None ["C"];
    mkStepDef "C" "c" None None ["B"] ].

(* ================================================================== *)
(** * Levels: what the memo table holds *)
(* ================================================================== *)

Definition level_of (lv : dict nat) (x : string) : nat :=
  match dict_get lv x with Some l => l | None => 0 end.

(** Level of a step from the levels of its dependencies: 0 without
    dependencies, else one more than the largest of them. *)
Definition level_formula (lv : dict nat) (s : Step) : nat :=
  match dependencies s with
  | [] => 0
  | _ :: _ => 1 + list_max (map (level_of lv) (dependencies s))
  end.

(** Every entry of the table is the level of its step, and the
    dependencies of a step that has an entry have one too. *)
Definition levels_ok (w : Workflow) (lv : dict nat) : Prop :=
  forall x l,
    dict_get lv x = Some l ->
    exists s, find_step (steps w) x = Some s
              /\ l = level_formula lv s
              /\ forall d, In d (dependencies s) -> dict_get lv d <> None.

Definition extends (lv lv' : dict nat) : Prop :=
  forall x l, dict_get lv x = Some l -> dict_get lv' x = Some l.

(** [b] is the first element of [l] that no element beats: the elements
    before it are strictly worse, the elements after it are not better. *)
Definition first_best (better : nat -> nat -> bool) (lvl : string -> nat)
           (l : list string) (b : string) : Prop :=
  exists pre post,
    l = pre ++ b :: post
    /\ (forall x, In x pre -> better (lvl b) (lvl x) = true)
    /\ (forall x, In x post -> better (lvl x) (lvl b) = false).

(** Scenario A of the specification: [B] and [C] both depend on [A]. *)
Definition wf_fan : Workflow :=
  mkWorkflow "w"
    [ mkStep "A" "a" [] None None [] PENDING 0;
      mkStep "B" "b" ["A"] None None [] PENDING 0;
      mkStep "C" "c" ["A"] None None [] PENDING 0 ]
    [ ("A", ["B"; "C"]); ("B", []); ("C", []) ].

(* ================================================================== *)
(** * Run-time state: views and invariants *)
(* ================================================================== *)

Definition status_of (w : Workflow) (k : string) : option Status :=
  option_map status (find_step (steps w) k).

Definition retry_of (w : Workflow) (k : string) : option Z :=
  option_map retry_count (find_step (steps w) k).

Definition deps_of (w : Workflow) (k : string) : list string :=
  match find_step (steps w) k with
  | Some s => dependencies s
  | None => []
  end.

Definition inv_of (w : Workflow) (k : string) : list string :=
  match dict_get (inverse_dependencies w) k with
  | Some l => l
  | None => []
  end.

(** The part of a workflow a run never changes: everything but [status]
    and [retry_count]. *)
Definition reset_step (s : Step) : Step :=
  with_retry_count 0 (with_status PENDING s).

Definition skeleton (w : Workflow) : Workflow :=
  mkWorkflow (name w) (map reset_step (steps w)) (inverse_dependencies w).

(** Statuses a step can only have once all its dependencies succeeded. *)
Definition past_ready (st : Status) : bool :=
  match st with
  | READY | RUNNING | SUCCESS | FAILED => true
  | PENDING | SKIPPED => false
  end.

(** Statuses the skip cascade acts on. *)
Definition waiting (st : Status) : bool :=
  match st with
  | PENDING | READY => true
  | _ => false
  end.

(** Invariant of the engine over the graph [g] it was started on: the
    graph itself is untouched, the ready queue holds exactly the [READY]
    steps, once each, and a step that has been made ready has all its
    dependencies in [SUCCESS]. *)
Record engine_ok (g : Workflow) (e : WorkflowEngine) : Prop := mk_engine_ok {
  eo_skeleton : skeleton (workflow e) = skeleton g;
  eo_queue_nodup : NoDup (ready_queue e);
  eo_queue : forall k,
      In k (ready_queue e) <-> status_of (workflow e) k = Some READY;
  eo_deps : forall k st,
      status_of (workflow e) k = Some st -> past_ready st = true ->
      forall d, In d (deps_of g k) -> status_of (workflow e) d = Some SUCCESS
}.

Definition is_started (t : Thread) : bool :=
  match phase t with Started => true | _ => false end.

(** The steps of the threads that have not yet run [_execute_step]. *)
Definition started (ts : list Thread) : list string :=
  map thread_step (filter is_started ts).

(** A worker has seen the command of [k] fail and has not yet taken the
    lock. *)
Definition unsettled (ts : list Thread) (k : string) : Prop :=
  In (mkThread k (Finished false)) ts.

(** A step that can no longer succeed and whose failure has been
    propagated: it failed for good and its worker has run the cascade, or
    it was skipped by a cascade (one of its dependencies is not a
    success). *)
Definition doomed (g : Workflow) (e : WorkflowEngine) (ts : list Thread)
           (k : string) : Prop :=
  (status_of (workflow e) k = Some FAILED /\ ~ unsettled ts k)
  \/ (status_of (workflow e) k = Some SKIPPED
      /\ exists d, In d (deps_of g k) /\ status_of (workflow e) d <> Some SUCCESS).

(** Invariant of a run, sequential or parallel. *)
Record system_ok (g : Workflow) (S : System) : Prop := mk_system_ok {
  so_engine : engine_ok g (engine S);
  so_started_nodup : NoDup (started (running_threads S));
  so_started : forall k,
      In k (started (running_threads S)) ->
      status_of (workflow (engine S)) k = Some RUNNING;
  so_threads : forall t,
      In t (running_threads S) -> In (thread_step t) (step_ids (steps g));
  so_doomed : forall k y,
      doomed g (engine S) (running_threads S) k ->
      In k (deps_of g y) ->
      status_of (workflow (engine S)) y = Some SKIPPED
}.

(** After a readiness update no pending step has all its dependencies in
    [SUCCESS]. *)
Definition no_ready_pending (g : Workflow) (e : WorkflowEngine) : Prop :=
  forall k, status_of (workflow e) k = Some PENDING ->
            exists d, In d (deps_of g k) /\ status_of (workflow e) d <> Some SUCCESS.

(** What an operation of the engine may do to a step: leave its status,
    or move it as the second component says. *)
Definition only_changes (allowed : Status -> Status -> Prop)
           (w w' : Workflow) : Prop :=
  forall k, status_of w' k = status_of w k
            \/ exists a b, status_of w k = Some a /\ status_of w' k = Some b
                           /\ allowed a b.

(** The moves of the readiness update. *)
Inductive update_move : Status -> Status -> Prop :=
| um_ready : update_move PENDING READY
| um_skip : update_move PENDING SKIPPED.

(** The moves of the skip cascade. *)
Inductive cascade_move : Status -> Status -> Prop :=
| cm_pending : cascade_move PENDING SKIPPED
| cm_ready : cascade_move READY SKIPPED.

(** The status of [k] has become [b]; no other status has changed. *)
Definition status_changed (w w' : Workflow) (k : string) (b : Status) : Prop :=
  forall k', status_of w' k' = if String.eqb k k' then Some b else status_of w k'.

(** What the readiness update and the cascade leave alone. *)
Record same_books (e e' : WorkflowEngine) : Prop := mk_same_books {
  sb_log : execution_order e' = execution_order e;
  sb_retry : forall k, retry_of (workflow e') k = retry_of (workflow e) k;
  sb_strategy : strategy e' = strategy e;
  sb_max_parallel : max_parallel e' = max_parallel e
}.

(** The three things one iteration of the readiness update can do to the
    step [k]. *)
Definition update_outcome (g : Workflow) (e : WorkflowEngine) (k : string)
           (e' : WorkflowEngine) : Prop :=
  (e' = e
   /\ (status_of (workflow e) k <> Some PENDING
       \/ exists d, In d (deps_of g k)
                    /\ status_of (workflow e) d <> Some SUCCESS))
  \/ (status_of (workflow e) k = Some PENDING
      /\ (forall d, In d (deps_of g k) -> status_of (workflow e) d = Some SUCCESS)
      /\ exists s c,
          find_step (steps (workflow e)) k = Some s
          /\ _evaluate_condition (workflow e) (condition s) = Ok c
          /\ status_changed (workflow e) (workflow e') k (if c then READY else SKIPPED)
          /\ ready_queue e' = (if c then ready_queue e ++ [k] else ready_queue e)).

(** Number of reverse-dependency entries the cascade may still push: those
    of the steps that are [PENDING] or [READY]. *)
Definition weight_of (g : Workflow) (t : step_table) : nat :=
  list_sum (map (fun s => if waiting (status s)
                          then List.length (inv_of g (step_id s)) else 0) t).

Definition pending_weight (g w : Workflow) : nat := weight_of g (steps w).

(** The status of [y] is one the cascade does not act on. *)
Definition not_waiting (w : Workflow) (y : string) : Prop :=
  exists st, status_of w y = Some st /\ waiting st = false.

(** What [_execute_step] does to the step [k] it runs, apart from logging
    the attempt: success; a failure within the retry budget; a final
    failure. *)
Definition exec_outcome (e : WorkflowEngine) (k : string) (outcome success : bool)
           (e' : WorkflowEngine) : Prop :=
  execution_order e' = execution_order e ++ [k]
  /\ ready_queue e' = ready_queue e
  /\ strategy e' = strategy e
  /\ max_parallel e' = max_parallel e
  /\ (forall k', k' <> k -> retry_of (workflow e') k' = retry_of (workflow e) k')
  /\ success = outcome
  /\ exists s,
      find_step (steps (workflow e)) k = Some s
      /\ ((outcome = true
           /\ status_changed (workflow e) (workflow e') k SUCCESS
           /\ retry_of (workflow e') k = Some (retry_count s))
          \/ (outcome = false
              /\ (exists fs n,
                     failure_strategy s = Some fs
                     /\ PyStr.startswith "retry:" fs = true
                     /\ max_retries_of fs = Ok n
                     /\ (retry_count s < n)%Z)
              /\ status_changed (workflow e) (workflow e') k PENDING
              /\ retry_of (workflow e') k = Some (retry_count s + 1)%Z)
          \/ (outcome = false
              /\ (forall fs n,
                     failure_strategy s = Some fs ->
                     PyStr.startswith "retry:" fs = true ->
                     max_retries_of fs = Ok n ->
                     (n <= retry_count s)%Z)
              /\ status_changed (workflow e) (workflow e') k FAILED
              /\ retry_of (workflow e') k = Some (retry_count s))).

(** A run continued from a state [S]. *)
Inductive psteps : System -> list Event -> System -> Prop :=
| psteps_nil S : psteps S [] S
| psteps_cons S ev S1 t S2 :
    pstep S ev S1 -> psteps S1 t S2 -> psteps S (ev :: t) S2.

(** The engine with every condition rewritten by [f]: the graph, the
    statuses, the queue and the log are kept. *)
Definition with_condition (f : option string -> option string) (s : Step) : Step :=
  mkStep (step_id s) (command s) (dependencies s) (f (condition s))
         (failure_strategy s) (parallel_with s) (status s) (retry_count s).

Definition map_conditions (f : option string -> option string)
           (e : WorkflowEngine) : WorkflowEngine :=
  with_workflow
    (mkWorkflow (name (workflow e))
                (map (with_condition f) (steps (workflow e)))
                (inverse_dependencies (workflow e)))
    e.

(** Number of entries of the execution log for the step [k]. *)
Definition attempts (e : WorkflowEngine) (k : string) : nat :=
  count_occ string_dec (execution_order e) k.

(** Scenario A with the initial readiness update done: [A] is [READY] and
    queued. *)
Definition fan_started : WorkflowEngine :=
  mkEngine
    (mkWorkflow "w"
       [ mkStep "A" "a" [] None None [] READY 0;
         mkStep "B" "b" ["A"] None None [] PENDING 0;
         mkStep "C" "c" ["A"] None None [] PENDING 0 ]
       [ ("A", ["B"; "C"]); ("B", []); ("C", []) ])
    ["A"] None 1 [].

(** A decision procedure for [fresh]. *)
Definition fresh_check (w : Workflow) : bool :=
  forallb (fun s => Status_eqb (status s) PENDING && (retry_count s =? 0)%Z)
          (steps w).

(** The engine after a sequential run of Scenario A in which every
    command succeeds. *)
Definition fan_done : WorkflowEngine :=
  Eval vm_compute in
    match execute_sequentially (fun _ _ => true) 5 (new_WorkflowEngine wf_fan None 1) with
    | Ok e => e
    | _ => new_WorkflowEngine wf_fan None 1
    end.


Definition result_map {A B : Type} (f : A -> B) (r : result A) : result B :=
  match r with
  | Ok a => Ok (f a)
  | Raise x => Raise x
  | OutOfFuel => OutOfFuel
  end.

(** Scenario A when the command of [A] has just failed for good: its
    worker has not yet taken the lock. *)
Definition fan_failed : WorkflowEngine :=
  mkEngine
    (mkWorkflow "w"
       [ mkStep "A" "a" [] None None [] FAILED 0;
         mkStep "B" "b" ["A"] None None [] PENDING 0;
         mkStep "C" "c" ["A"] None None [] PENDING 0 ]
       [ ("A", ["B"; "C"]); ("B", []); ("C", []) ])
    [] None 1 ["A"].

(* ================================================================== *)
(** * Counting the attempts of a step in a run *)
(* ================================================================== *)

Definition is_run (k : string) (o : bool) (ev : Event) : bool :=
  match ev with
  | EvRun x o' => String.eqb x k && Bool.eqb o o'
  | _ => false
  end.

Definition is_dispatch (k : string) (ev : Event) : bool :=
  match ev with
  | EvDispatch x => String.eqb x k
  | _ => false
  end.

Definition count_events (p : Event -> bool) (t : list Event) : nat :=
  List.length (filter p t).

(** Number of times the command of [k] has failed, has succeeded, and
    number of times [k] has been dispatched. *)
Definition failures (t : list Event) (k : string) : nat :=
  count_events (is_run k false) t.

Definition successes (t : list Event) (k : string) : nat :=
  count_events (is_run k true) t.

Definition dispatches (t : list Event) (k : string) : nat :=
  count_events (is_dispatch k) t.

Definition indicator (b : bool) : nat := if b then 1 else 0.

(** The books of a step [k] whose retry policy allows [N] retries: the
    retry counter counts the failed attempts that were retried. *)
Definition retry_books (k : string) (N : Z) (t : list Event) (S : System) : Prop :=
  exists st rc,
    status_of (workflow (engine S)) k = Some st
    /\ retry_of (workflow (engine S)) k = Some rc
    /\ (0 <= rc <= Z.max 0 N)%Z
    /\ Z.of_nat (failures t k) = (rc + Z.of_nat (indicator (Status_eqb st FAILED)))%Z
    /\ successes t k = indicator (Status_eqb st SUCCESS)
    /\ (st = FAILED -> rc = Z.max 0 N)
    /\ attempts (engine S) k = successes t k + failures t k
    /\ dispatches t k = attempts (engine S) k + indicator (Status_eqb st RUNNING).


(** Scenario C of the specification: [A] may be retried twice; [B]
    depends on [A]. *)
Definition wf_retry : Workflow :=
  mkWorkflow "w"
    [ mkStep "A" "a" [] None (Some "retry:2") [] PENDING 0;
      mkStep "B" "b" ["A"] (Some "status_A == 'SUCCESS'") None [] PENDING 0 ]
    [ ("A", ["B"]); ("B", []) ].


(** The same run when the third attempt of [A] succeeds. *)
Definition retry_third : Executor :=
  fun log _ => Nat.ltb 2 (List.length log).

Definition retry_succeeded : WorkflowEngine :=
  Eval vm_compute in
    match execute_sequentially retry_third 5 (new_WorkflowEngine wf_retry None 1) with
    | Ok e => e
    | _ => new_WorkflowEngine wf_retry None 1
    end.

(* ================================================================== *)
(** * Termination of the sequential loop *)
(* ================================================================== *)

(** Every [retry:] policy of the graph carries an integer. *)
Definition policies_ok (g : Workflow) : Prop :=
  forall s fs, In s (steps g) -> failure_strategy s = Some fs ->
               PyStr.startswith "retry:" fs = true ->
               exists n, max_retries_of fs = Ok n.

(** The level table of the strategy, if there is one, covers the graph. *)
Definition strategy_ok (g : Workflow) (strat : option SchedulingStrategy) : Prop :=
  match strat with
  | None => True
  | Some s => forall k, In k (step_ids (steps g)) ->
                        dict_get (strategy_levels s) k <> None
  end.

(** The retry limit of a step: the integer of its [retry:] policy, 0
    without one. *)
Definition limit (g : Workflow) (k : string) : Z :=
  match find_step (steps g) k with
  | Some s =>
      match failure_strategy s with
      | Some fs =>
          if PyStr.startswith "retry:" fs
          then match max_retries_of fs with Ok n => n | _ => 0%Z end
          else 0%Z
      | None => 0%Z
      end
  | None => 0%Z
  end.

(** Statuses from which a step may still be run. *)
Definition live (st : Status) : bool :=
  match st with
  | PENDING | READY | RUNNING => true
  | _ => false
  end.

(** Number of dispatches a step may still get: none once it is [SUCCESS],
    [FAILED] or [SKIPPED], else one plus the retries it has left. *)
Definition budget (g w : Workflow) (k : string) : nat :=
  match status_of w k, retry_of w k with
  | Some st, Some rc =>
      if live st then S (Z.to_nat (limit g k - rc)) else 0
  | _, _ => 0
  end.

Definition run_measure (g w : Workflow) : nat :=
  list_sum (map (budget g w) (step_ids (steps g))).

(** Between two iterations of the sequential loop: the readiness update
    has just run and no step is [RUNNING]. *)
Definition quiescent (g : Workflow) (e : WorkflowEngine) : Prop :=
  no_ready_pending g e
  /\ forall k, status_of (workflow e) k <> Some RUNNING.

(** A step skipped by its own condition: it is [SKIPPED] although all its
    dependencies are [SUCCESS]. *)
Definition condition_skipped (g : Workflow) (e : WorkflowEngine) (a : string) : Prop :=
  status_of (workflow e) a = Some SKIPPED
  /\ forall d, In d (deps_of g a) -> status_of (workflow e) d = Some SUCCESS.

(** [A], then [B] which runs only if [A] failed, then [C] which depends
    on [B]. *)
Definition wf_condition_chain : Workflow :=
  mkWorkflow "w"
    [ mkStep "A" "a" [] None None [] PENDING 0;
      mkStep "B" "b" ["A"] (Some "status_A == FAILED") None [] PENDING 0;
      mkStep "C" "c" ["B"] None None [] PENDING 0 ]
    [ ("A", ["B"]); ("B", ["C"]); ("C", []) ].

(** The engine after the sequential run of [wf_condition_chain] in which
    every command succeeds. *)
Definition condition_chain_done : WorkflowEngine :=
  Eval vm_compute in
    match execute_sequentially (fun _ _ => true) 5
                               (new_WorkflowEngine wf_condition_chain None 1) with
    | Ok e => e
    | _ => new_WorkflowEngine wf_condition_chain None 1
    end.

(** A single step whose retry policy carries no integer. *)
Definition wf_bad_policy : Workflow :=
  mkWorkflow "w"
    [ mkStep "A" "a" [] None (Some "retry:twice") [] PENDING 0 ]
    [ ("A", []) ].


(* ================================================================== *)
(** * The workflow file *)
(* ================================================================== *)

(** One element of the step list of a workflow file, after [json.load]:
    the keys [step_id] and [run], which [parse_workflow] reads
    unconditionally, and the keys [if], [on_failure], [parallel_with] and
    [depends_on], which it reads when they are present.  A key that is
    absent is [None]. *)
Record StepEntry : Type := mkStepEntry {
  entry_step_id : option string;
  entry_run : option string;
  entry_if : option string;
  entry_on_failure : option string;
  entry_parallel_with : option (list string);
  entry_depends_on : option (list string)
}.

(** The two shapes of file [parse_workflow] accepts: a bare list of steps,
    or an object with the keys [workflow] and [steps]. *)
Inductive Document : Type :=
| DocList (data : list StepEntry)
| DocObject (workflow_key : option string) (steps_key : option (list StepEntry)).

(** [step_def[key]] *)
Definition entry_key {A : Type} (key : string) (o : option A) : result A :=
  match o with
  | Some a => Ok a
  | None => Raise (KeyError key)
  end.

(** The body of the first loop of [parse_workflow], up to the call of
    [add_step]. *)
Definition step_of_entry (d : StepEntry) : result Step :=
  sid <- entry_key "step_id" (entry_step_id d) ;;
  cmd <- entry_key "run" (entry_run d) ;;
  Ok (mkStep sid cmd [] (entry_if d) (entry_on_failure d)
             (match entry_parallel_with d with Some l => l | None => [] end)
             PENDING 0).

(** First pass: create all steps. *)
Fixpoint create_steps (w : Workflow) (data : list StepEntry) : result Workflow :=
  match data with
  | [] => Ok w
  | d :: r => s <- step_of_entry d ;; create_steps (add_step w s) r
  end.

(** Second pass: add dependencies. *)
Fixpoint link_steps (w : Workflow) (data : list StepEntry) : result Workflow :=
  match data with
  | [] => Ok w
  | d :: r =>
      sid <- entry_key "step_id" (entry_step_id d) ;;
      w' <- match entry_depends_on d with
            | Some deps => add_dependencies w sid deps
            | None => Ok w
            end ;;
      link_steps w' r
  end.

(** [parse_workflow], from the value [json.load] returns. *)
Definition parse_workflow (doc : Document) : result Workflow :=
  '(workflow_name, data) <-
    match doc with
    | DocList data => Ok ("default", data)
    | DocObject n (Some data) =>
        Ok (match n with Some x => x | None => "default" end, data)
    | DocObject _ None =>
        Raise (ValueError "No steps found in workflow definition")
    end ;;
  w <- create_steps (new_Workflow workflow_name) data ;;
  link_steps w data.

(** The step list and the name a document gives. *)
Definition document_steps (doc : Document) : option (list StepEntry) :=
  match doc with
  | DocList data => Some data
  | DocObject _ o => o
  end.

Definition document_name (doc : Document) : string :=
  match doc with
  | DocObject (Some n) _ => n
  | _ => "default"
  end.

(** An entry with its two mandatory keys. *)
Definition complete (d : StepEntry) : Prop :=
  entry_step_id d <> None /\ entry_run d <> None.

(** The id of an entry ([""] when the key is missing). *)
Definition entry_id (d : StepEntry) : string :=
  match entry_step_id d with Some x => x | None => "" end.

(** The step [parse_workflow] builds from an entry of a file whose step
    ids are [ids]: the dependencies are the entries of [depends_on] that
    name a step of the file, in their order. *)
Definition parsed_step (ids : list string) (d : StepEntry) : Step :=
  mkStep (entry_id d)
         (match entry_run d with Some c => c | None => "" end)
         (filter (fun x => mem x ids)
                 (match entry_depends_on d with Some l => l | None => [] end))
         (entry_if d) (entry_on_failure d)
         (match entry_parallel_with d with Some l => l | None => [] end)
         PENDING 0.


(** A graph in which no dependency has been declared yet, as the first
    pass of [parse_workflow] builds it. *)
Definition unlinked (w : Workflow) : Prop :=
  NoDup (step_ids (steps w))
  /\ dict_keys (inverse_dependencies w) = step_ids (steps w)
  /\ (forall s, In s (steps w) ->
                dependencies s = [] /\ status s = PENDING /\ retry_count s = 0%Z)
  /\ (forall x l, dict_get (inverse_dependencies w) x = Some l -> l = []).

(** What [add_dependency] does to the dependent step. *)
Definition add_dep (b : string) (s : Step) : Step :=
  with_dependencies (dependencies s ++ [b]) s.


(** A dependency cycle can be reached from [x]: [x] lies on a cycle, or
    has a chain of dependencies that leads to a step on a cycle. *)
Definition reaches_cycle (w : Workflow) (x : string) : Prop :=
  exists c, on_cycle w c /\ (x = c \/ path w x c).


(** A chain of [n] dependencies that starts at the step [x]. *)
Inductive dep_chain (w : Workflow) : string -> nat -> Prop :=
| dep_chain_stop x : dep_chain w x 0
| dep_chain_next x y n : edge w x y -> dep_chain w y n -> dep_chain w x (S n).


(** The execution log is in dependency order: a step that succeeded has an
    entry, every entry comes after an entry of each dependency of its step,
    and the dependencies of a logged step are [SUCCESS]. *)
Definition log_ok (g : Workflow) (e : WorkflowEngine) : Prop :=
  (forall d, status_of (workflow e) d = Some SUCCESS -> In d (execution_order e))
  /\ (forall l1 k l2, execution_order e = l1 ++ k :: l2 ->
                      forall d, In d (deps_of g k) -> In d l1)
  /\ (forall k, In k (execution_order e) ->
                forall d, In d (deps_of g k) ->
                          status_of (workflow e) d = Some SUCCESS).


(** Some worker has run its command and has not yet taken the lock. *)
Definition settling (ts : list Thread) : Prop :=
  exists k b, In (mkThread k (Finished b)) ts.

(** What holds between the locked blocks of the workers: a pending step
    whose dependencies are all [SUCCESS] is waiting for the readiness
    update of a worker that has not yet taken the lock, and a [RUNNING]
    step is held by a worker that has not yet run it. *)
Definition pool_ok (g : Workflow) (S : System) : Prop :=
  (no_ready_pending g (engine S) \/ settling (running_threads S))
  /\ forall k, status_of (workflow (engine S)) k = Some RUNNING ->
               In k (started (running_threads S)).


(** The step [k] of the graph has no retry policy: no [on_failure] value,
    or one that does not start with [retry:]. *)
Definition no_retry_policy (g : Workflow) (k : string) : Prop :=
  exists s,
    find_step (steps g) k = Some s
    /\ forall fs, failure_strategy s = Some fs -> PyStr.startswith "retry:" fs = false.


(** [str(n)] for a natural number: its decimal digits. *)
Definition str_of_nat (n : nat) : string :=
  DecimalString.NilEmpty.string_of_uint (Nat.to_uint n).


(** [run_workflow] with [parallel=False], from the value [json.load]
    returns: parse, validate, choose the strategy by its name, run the
    engine.  The final statuses it prints are those of the workflow of the
    engine returned. *)
Definition run_workflow (run : Executor) (fuel : nat) (doc : Document)
           (strategy_name : string) : result WorkflowEngine :=
  w <- parse_workflow doc ;;
  _ <- validate_workflow w ;;
  strat <-
    (if String.eqb (PyStr.lower strategy_name) "bfs"
     then s <- new_BreadthFirstStrategy w ;; Ok (Some s)
     else if String.eqb (PyStr.lower strategy_name) "dfs"
          then s <- new_DepthFirstStrategy w ;; Ok (Some s)
          else Ok None) ;;
  execute_sequentially run fuel (new_WorkflowEngine w strat 1).

(** The [on_failure] values of the file that start with [retry:] carry an
    integer. *)
Definition entries_policies_ok (data : list StepEntry) : Prop :=
  forall d fs, In d data -> entry_on_failure d = Some fs ->
               PyStr.startswith "retry:" fs = true ->
               exists n, max_retries_of fs = Ok n.


(** A file with two steps: [A], which may be retried twice, and [B],
    which depends on [A]. *)
Definition doc_retry : Document :=
  DocList [ mkStepEntry (Some "A") (Some "a") None (Some "retry:2") None None;
            mkStepEntry (Some "B") (Some "b") None None None (Some ["A"]) ].


(* ================================================================== *)
(** * The status table *)
(* ================================================================== *)

(** [sep.join(l)] *)
Fixpoint join (sep : string) (l : list string) : string :=
  match l with
  | [] => ""
  | x :: r =>
      match r with
      | [] => x
      | _ :: _ => x ++ sep ++ join sep r
      end
  end.

(** [s[:n]] *)
Fixpoint take (n : nat) (s : string) : string :=
  match n, s with
  | S n', String c r => String c (take n' r)
  | _, _ => ""
  end.

(** [c * n] for a one-character string [c]. *)
Fixpoint repeat_char (c : ascii) (n : nat) : string :=
  match n with
  | O => ""
  | S n' => String c (repeat_char c n')
  end.

(** The format [<n] applied to a string: padded on the right with spaces
    to [n] characters, never cut. *)
Definition ljust (n : nat) (s : string) : string :=
  s ++ repeat_char " " (n - String.length s).

(** [str(z)] for an integer. *)
Definition str_of_int (z : Z) : string :=
  match z with
  | Zneg p => "-" ++ str_of_nat (Pos.to_nat p)
  | _ => str_of_nat (Z.to_nat z)
  end.

(** The two cells [visualize_workflow] shortens. *)
Definition deps_cell (step : Step) : string :=
  let deps := match dependencies step with
              | [] => "N/A"
              | _ :: _ => join ", " (dependencies step)
              end in
  if 15 <? String.length deps then take 12 deps ++ "..." else deps.

Definition command_cell (step : Step) : string :=
  if 25 <? String.length (command step)
  then take 22 (command step) ++ "..."
  else command step.

(** The line [visualize_workflow] prints for one step. *)
Definition table_row (step : Step) : string :=
  ljust 10 (step_id step) ++ " " ++
  ljust 10 (status_name (status step)) ++ " " ++
  ljust 15 (deps_cell step) ++ " " ++
  ljust 25 (command_cell step) ++ " " ++
  ljust 8 (str_of_int (retry_count step)).

Definition table_header : string :=
  ljust 10 "Step ID" ++ " " ++ ljust 10 "Status" ++ " " ++
  ljust 15 "Dependencies" ++ " " ++ ljust 25 "Command" ++ " " ++ ljust 8 "Retries".

(** [visualize_workflow]: the lines it prints, one string per call of
    [print]. *)
Definition visualize_workflow (w : Workflow) : list string :=
  [ String "010"%char (repeat_char "=" 80);
    table_header;
    repeat_char "-" 80 ]
  ++ map table_row (steps w)
  ++ [ repeat_char "=" 80 ].


(** Every command the executor is given ends, with exit status 0 or
    another one: [subprocess.run] returns or raises [CalledProcessError];
    it raises nothing else and does not block. *)
Definition commands_end (run : Executor) : Prop :=
  forall log cmd, exists zero : bool, run log cmd = Exited zero.


(* ================================================================== *)
(** * Workers killed by an exception *)
(* ================================================================== *)

(** [_execute_step] catches [CalledProcessError] only (l.278): any other
    exception of [subprocess.run], like an exception of [int] (l.285),
    leaves [_execute_step_threaded] before the lock is taken and ends the
    worker.  The log has the entry of l.270 and no status was written: the
    step stays [RUNNING].  [pstep_exn] is the parallel loop with these
    workers: the steps of [pstep], and the end of a worker whose
    [_execute_step] raises, whatever the command did. *)
Inductive pstep_exn : System -> Event -> System -> Prop :=
| pstep_exn_pstep S ev S' :
    pstep S ev S' -> pstep_exn S ev S'
| pstep_exn_abort e ts1 ts2 sid (run : Executor) x :
    _execute_step run e sid = Raise x ->
    pstep_exn (mkSystem e (ts1 ++ mkThread sid Started :: ts2)) (EvCrash sid)
              (mkSystem (with_log (execution_order e ++ [sid]) e)
                        (ts1 ++ mkThread sid Dead :: ts2)).

(** The states of a run of [execute] in which workers may be killed by an
    exception, with the events that led there. *)
Inductive reachable_exn (w : Workflow) (strat : option SchedulingStrategy) (mp : nat)
  : list Event -> System -> Prop :=
| reach_exn_start e :
    _update_ready_queue (new_WorkflowEngine w strat mp) = Ok e ->
    reachable_exn w strat mp [] (mkSystem e [])
| reach_exn_step t S ev S' :
    reachable_exn w strat mp t S ->
    pstep_exn S ev S' ->
    reachable_exn w strat mp (t ++ [ev]) S'.

(** The worker of the step [k], which has no retry policy, was killed by
    an exception of its command: [k] was dispatched once, is in the log
    once, and stays [RUNNING] with no worker to run it. *)
Definition aborted (k : string) (t : list Event) (S : System) : Prop :=
  status_of (workflow (engine S)) k = Some RUNNING
  /\ retry_of (workflow (engine S)) k = Some 0%Z
  /\ attempts (engine S) k = 1
  /\ dispatches t k = 1
  /\ failures t k = 0
  /\ successes t k = 0
  /\ ~ In k (started (running_threads S)).

(** A command whose output is not text in the encoding of the locale:
    [subprocess.run(..., text=True)] raises [UnicodeDecodeError]. *)
Definition run_undecodable : Executor :=
  fun _ _ => Raised (OtherError "UnicodeDecodeError").

(** [wf_single] in a parallel run, after the readiness update, and when the
    worker of [A] has been killed by an exception of its command and
    reaped. *)
Definition single_started : WorkflowEngine :=
  Eval vm_compute in
    match _update_ready_queue (new_WorkflowEngine wf_single None 2) with
    | Ok e => e
    | _ => new_WorkflowEngine wf_single None 2
    end.

Definition single_aborted : WorkflowEngine :=
  Eval vm_compute in
    match _get_next_step single_started with
    | Ok (Some sid, e1) =>
        with_log (execution_order (mark_running e1 sid) ++ [sid]) (mark_running e1 sid)
    | _ => single_started
    end.

(* ================================================================== *)
(** * Two ready steps of the same level *)
(* ================================================================== *)

(** Two steps without dependencies, both of level 0; [A] may be retried
    once. *)
Definition wf_tie : Workflow :=
  mkWorkflow "w"
    [ mkStep "A" "a" [] None (Some "retry:1") [] PENDING 0;
      mkStep "B" "b" [] None None [] PENDING 0 ]
    [ ("A", []); ("B", []) ].

Definition tie_levels : dict nat := [("A", 0); ("B", 0)].

(** The engine on [wf_tie] with the breadth-first strategy after the first
    readiness update: the queue is [A], [B]. *)
Definition tie_started : WorkflowEngine :=
  Eval vm_compute in
    match _update_ready_queue
            (new_WorkflowEngine wf_tie (Some (BreadthFirstStrategy tie_levels)) 1) with
    | Ok e => e
    | _ => new_WorkflowEngine wf_tie (Some (BreadthFirstStrategy tie_levels)) 1
    end.

(** [A] has been chosen and its command has failed: the attempt is
    retried, [A] is [PENDING] again. *)
Definition tie_retried : WorkflowEngine :=
  Eval vm_compute in
    match _execute_step (fun _ _ => false) (mark_running tie_started "A") "A" with
    | Ok (_, e) => e
    | _ => tie_started
    end.

(** After the readiness update that follows: [A] is queued again, behind
    [B]. *)
Definition tie_requeued : WorkflowEngine :=
  Eval vm_compute in
    match settle false tie_retried "A" with
    | Ok e => e
    | _ => tie_retried
    end.

(* ################################################################## *)
(** * Part II: lemmas and theorems *)
(* ################################################################## *)

Lemma bind_Ok_inv {A B : Type} (r : result A) (k : A -> result B) (b : B) :
  bind r k = Ok b -> exists a, r = Ok a /\ k a = Ok b.
Proof. destruct r; simpl; intros H; try discriminate. eauto. Qed.

Lemma Status_eqb_spec (a b : Status) : reflect (a = b) (Status_eqb a b).
Proof. destruct a, b; simpl; constructor; congruence. Qed.

Lemma Status_eqb_refl (a : Status) : Status_eqb a a = true.
Proof. destruct a; reflexivity. Qed.

Lemma Status_eq_dec (a b : Status) : {a = b} + {a <> b}.
Proof. decide equality. Defined.

(* ================================================================== *)
(** * Basic facts about lists of ids and the step table *)
(* ================================================================== *)

Lemma mem_In (x : string) (l : list string) : mem x l = true <-> In x l.
Proof.
  unfold mem. rewrite existsb_exists. split.
  - intros [y [Hy He]]. apply String.eqb_eq in He. now subst.
  - intros H. exists x. split; [assumption | apply String.eqb_refl].
Qed.

Lemma mem_false (x : string) (l : list string) : mem x l = false <-> ~ In x l.
Proof.
  rewrite <- mem_In. destruct (mem x l); split; congruence.
Qed.

Lemma In_remove_first (x y : string) (l : list string) :
  In y (remove_first x l) -> In y l.
Proof.
  induction l as [|z l IH]; simpl; [tauto|].
  destruct (String.eqb_spec z x); simpl; intuition.
Qed.

Lemma In_remove_first_neq (x y : string) (l : list string) :
  y <> x -> In y l -> In y (remove_first x l).
Proof.
  intros Hn. induction l as [|z l IH]; simpl; [tauto|].
  destruct (String.eqb_spec z x); simpl; intros [H|H]; subst; intuition congruence.
Qed.

Lemma NoDup_remove_first (x : string) (l : list string) :
  NoDup l -> NoDup (remove_first x l) /\ ~ In x (remove_first x l).
Proof.
  induction 1 as [|z l Hz Hl IH]; simpl.
  - split; [constructor | tauto].
  - destruct (String.eqb_spec z x).
    + subst. split; assumption.
    + destruct IH as [IH1 IH2]. split.
      * constructor; [|assumption]. intros H. apply Hz. eapply In_remove_first; eauto.
      * simpl. intros [H|H]; [congruence | tauto].
Qed.

Lemma find_step_In (t : step_table) (k : string) (s : Step) :
  find_step t k = Some s -> In s t /\ step_id s = k.
Proof.
  induction t as [|s' t IH]; simpl; [discriminate|].
  destruct (String.eqb_spec (step_id s') k).
  - intros [= <-]. auto.
  - intros H. destruct (IH H). auto.
Qed.

Lemma find_step_None (t : step_table) (k : string) :
  find_step t k = None <-> ~ In k (step_ids t).
Proof.
  induction t as [|s' t IH]; simpl; [tauto|].
  destruct (String.eqb_spec (step_id s') k).
  - split; [discriminate | intros H; exfalso; apply H; auto].
  - rewrite IH. intuition.
Qed.

Lemma find_step_Some_ids (t : step_table) (k : string) :
  In k (step_ids t) <-> exists s, find_step t k = Some s.
Proof.
  destruct (find_step t k) eqn:E.
  - split; [eauto|]. intros _. apply find_step_In in E. destruct E as [Hi <-].
    unfold step_ids. now apply in_map.
  - apply find_step_None in E. split; [tauto | intros [s Hs]; discriminate].
Qed.

Lemma In_find_step (t : step_table) (s : Step) :
  NoDup (step_ids t) -> In s t -> find_step t (step_id s) = Some s.
Proof.
  induction t as [|s' t IH]; simpl; [tauto|].
  intros Hnd [->|Hin].
  - now rewrite String.eqb_refl.
  - inversion Hnd as [|? ? Hni Hnd']; subst.
    destruct (String.eqb_spec (step_id s') (step_id s)) as [E|E].
    + exfalso. apply Hni. rewrite E. unfold step_ids. now apply in_map.
    + auto.
Qed.

Lemma step_ids_update_step (f : Step -> Step) (t : step_table) (k : string) :
  (forall s, step_id (f s) = step_id s) ->
  step_ids (update_step f t k) = step_ids t.
Proof.
  intros Hf. induction t as [|s t IH]; simpl; [reflexivity|].
  destruct (String.eqb (step_id s) k); simpl; [now rewrite Hf | now rewrite IH].
Qed.

Lemma find_update_step (f : Step -> Step) (t : step_table) (k k' : string) :
  (forall s, step_id (f s) = step_id s) ->
  find_step (update_step f t k) k' =
  if String.eqb k k' then option_map f (find_step t k') else find_step t k'.
Proof.
  intros Hf. induction t as [|s t IH]; simpl.
  - now destruct (String.eqb k k').
  - destruct (String.eqb_spec (step_id s) k) as [E|E]; simpl.
    + rewrite Hf. subst k. destruct (String.eqb_spec (step_id s) k'); reflexivity.
    + rewrite IH. destruct (String.eqb_spec (step_id s) k') as [E'|E'];
        [|reflexivity].
      destruct (String.eqb_spec k k'); [congruence | reflexivity].
Qed.

Lemma find_put_step (t : step_table) (s : Step) (k : string) :
  find_step (put_step t s) k =
  if String.eqb (step_id s) k then Some s else find_step t k.
Proof.
  induction t as [|s' t IH]; simpl.
  - reflexivity.
  - destruct (String.eqb_spec (step_id s') (step_id s)) as [E|E]; simpl.
    + rewrite E. now destruct (String.eqb (step_id s) k).
    + rewrite IH. destruct (String.eqb_spec (step_id s') k) as [E'|E'];
        [|reflexivity].
      destruct (String.eqb_spec (step_id s) k); [congruence | reflexivity].
Qed.

Lemma step_ids_put_step (t : step_table) (s : Step) :
  step_ids (put_step t s) =
  if mem (step_id s) (step_ids t) then step_ids t else step_ids t ++ [step_id s].
Proof.
  induction t as [|s' t IH]; simpl; [reflexivity|].
  rewrite (String.eqb_sym (step_id s) (step_id s')).
  destruct (String.eqb_spec (step_id s') (step_id s)) as [E|E]; simpl.
  - now rewrite E.
  - rewrite IH. fold (mem (step_id s) (step_ids t)).
    now destruct (mem (step_id s) (step_ids t)).
Qed.

Lemma dict_get_set {V : Type} (d : dict V) (k k' : string) (v : V) :
  dict_get (dict_set d k v) k' =
  if String.eqb k k' then Some v else dict_get d k'.
Proof.
  induction d as [|[k0 v0] d IH]; simpl.
  - reflexivity.
  - destruct (String.eqb_spec k0 k) as [E|E]; simpl.
    + subst. now destruct (String.eqb k k').
    + rewrite IH. destruct (String.eqb_spec k0 k') as [E'|E']; [|reflexivity].
      destruct (String.eqb_spec k k'); [congruence | reflexivity].
Qed.

Lemma dict_keys_set {V : Type} (d : dict V) (k : string) (v : V) :
  dict_keys (dict_set d k v) =
  if mem k (dict_keys d) then dict_keys d else dict_keys d ++ [k].
Proof.
  induction d as [|[k0 v0] d IH]; simpl; [reflexivity|].
  rewrite (String.eqb_sym k k0).
  destruct (String.eqb_spec k0 k) as [E|E]; simpl.
  - reflexivity.
  - rewrite IH. fold (mem k (dict_keys d)). now destruct (mem k (dict_keys d)).
Qed.

Lemma dict_get_In_keys {V : Type} (d : dict V) (k : string) :
  In k (dict_keys d) <-> exists v, dict_get d k = Some v.
Proof.
  induction d as [|[k0 v0] d IH]; simpl.
  - split; [tauto | intros [v Hv]; discriminate].
  - destruct (String.eqb_spec k0 k) as [E|E].
    + split; eauto.
    + rewrite <- IH. intuition.
Qed.

(* ================================================================== *)
(** * Tokenising a condition *)
(* ================================================================== *)

Lemma append_assoc (a b c : string) : ((a ++ b) ++ c = a ++ (b ++ c))%string.
Proof. induction a as [|x a IH]; simpl; [reflexivity | now rewrite IH]. Qed.

Lemma append_empty_r (a : string) : (a ++ "")%string = a.
Proof. induction a as [|x a IH]; simpl; [reflexivity | now rewrite IH]. Qed.

Lemma string_forall_cons (p : ascii -> bool) (c : ascii) (s : string) :
  string_forall p (String c s) = p c && string_forall p s.
Proof. reflexivity. Qed.

Lemma string_forall_app (p : ascii -> bool) (a b : string) :
  string_forall p (a ++ b) = string_forall p a && string_forall p b.
Proof.
  induction a as [|x a IH]; simpl; [reflexivity|].
  rewrite !string_forall_cons, IH. now rewrite andb_assoc.
Qed.

Lemma isspace_not_eq (c : ascii) : PyStr.isspace c = true -> Ascii.eqb c "=" = false.
Proof.
  destruct (Ascii.eqb_spec c "="%char) as [->|]; [|reflexivity].
  vm_compute. discriminate.
Qed.

Lemma replace_eqeq_cons (c : ascii) (s : string) :
  Ascii.eqb c "=" = false ->
  PyStr.replace_eqeq (String c s) = String c (PyStr.replace_eqeq s).
Proof.
  intros H. simpl. destruct s; [reflexivity|]. now rewrite H.
Qed.

Lemma replace_eqeq_app (a s : string) :
  string_forall (fun c => negb (Ascii.eqb c "=")) a = true ->
  PyStr.replace_eqeq (a ++ s) = (a ++ PyStr.replace_eqeq s)%string.
Proof.
  induction a as [|x a IH]; intros H; [reflexivity|].
  rewrite string_forall_cons in H. apply andb_prop in H. destruct H as [Hx Ha].
  apply negb_true_iff in Hx.
  change (String x a ++ s)%string with (String x (a ++ s)).
  rewrite replace_eqeq_cons by assumption. simpl. now rewrite IH.
Qed.

Lemma replace_eqeq_none (a : string) :
  string_forall (fun c => negb (Ascii.eqb c "=")) a = true ->
  PyStr.replace_eqeq a = a.
Proof.
  intros H. rewrite <- (append_empty_r a) at 1.
  rewrite replace_eqeq_app by assumption. simpl. apply append_empty_r.
Qed.

Lemma replace_eqeq_op (s : string) :
  PyStr.replace_eqeq ("==" ++ s) = (" == " ++ PyStr.replace_eqeq s)%string.
Proof. reflexivity. Qed.

Lemma string_forall_impl (p q : ascii -> bool) (s : string) :
  (forall c, p c = true -> q c = true) ->
  string_forall p s = true -> string_forall q s = true.
Proof.
  intros Hpq. unfold string_forall. rewrite !forallb_forall. auto.
Qed.

Lemma blank_no_eq (ws : string) :
  is_blank ws = true -> string_forall (fun c => negb (Ascii.eqb c "=")) ws = true.
Proof.
  apply string_forall_impl. intros c H. now rewrite isspace_not_eq.
Qed.

Lemma token_parts (t : string) :
  is_token t = true ->
  t <> ""%string
  /\ string_forall (fun c => negb (PyStr.isspace c)) t = true
  /\ string_forall (fun c => negb (Ascii.eqb c "=")) t = true.
Proof.
  unfold is_token. intros H. apply andb_prop in H. destruct H as [H1 H2].
  split; [|split].
  - intros ->. discriminate.
  - revert H2. apply string_forall_impl. intros c H.
    apply andb_prop in H. tauto.
  - revert H2. apply string_forall_impl. intros c H.
    apply andb_prop in H. tauto.
Qed.

(** What [words] does in front of a string that is empty or starts with
    white space. *)
Definition at_boundary (s : string) : Prop :=
  match s with
  | EmptyString => True
  | String c _ => PyStr.isspace c = true
  end.

Lemma words_boundary (s : string) :
  at_boundary s -> PyStr.words s = (EmptyString, PyStr.split s).
Proof.
  destruct s as [|c s]; simpl; [reflexivity|].
  intros H. unfold PyStr.split. simpl.
  destruct (PyStr.words s) as [t ts]. now rewrite H.
Qed.

Lemma words_token (t s : string) :
  string_forall (fun c => negb (PyStr.isspace c)) t = true ->
  at_boundary s ->
  PyStr.words (t ++ s) = (t, PyStr.split s).
Proof.
  intros Ht Hs. induction t as [|x t IH]; simpl.
  - now apply words_boundary.
  - rewrite string_forall_cons in Ht. apply andb_prop in Ht.
    destruct Ht as [Hx Ht]. apply negb_true_iff in Hx.
    rewrite (IH Ht), Hx. reflexivity.
Qed.

Lemma split_token (t s : string) :
  t <> ""%string ->
  string_forall (fun c => negb (PyStr.isspace c)) t = true ->
  at_boundary s ->
  PyStr.split (t ++ s) = t :: PyStr.split s.
Proof.
  intros Hne Ht Hs. unfold PyStr.split at 1.
  rewrite (words_token _ _ Ht Hs). destruct t; [congruence | reflexivity].
Qed.

Lemma split_space (c : ascii) (s : string) :
  PyStr.isspace c = true -> PyStr.split (String c s) = PyStr.split s.
Proof.
  intros H. unfold PyStr.split. simpl.
  destruct (PyStr.words s) as [t ts]. now rewrite H.
Qed.

Lemma split_blank (ws s : string) :
  is_blank ws = true -> PyStr.split (ws ++ s) = PyStr.split s.
Proof.
  induction ws as [|x ws IH]; intros H; [reflexivity|].
  unfold is_blank in H. rewrite string_forall_cons in H.
  apply andb_prop in H. destruct H as [Hx Hws].
  simpl. rewrite split_space by assumption. now apply IH.
Qed.

Lemma at_boundary_blank_app (ws s : string) :
  is_blank ws = true -> at_boundary s -> at_boundary (ws ++ s).
Proof.
  destruct ws as [|x ws]; simpl; [tauto|].
  unfold is_blank. rewrite string_forall_cons. intros H _.
  apply andb_prop in H. tauto.
Qed.

(** The tokens of a well-formed equality: reference, operator, literal. *)
Lemma condition_tokens_equality (ref ws1 ws2 literal : string) :
  is_token ref = true -> is_token literal = true ->
  is_blank ws1 = true -> is_blank ws2 = true ->
  condition_tokens (ref ++ ws1 ++ "==" ++ ws2 ++ literal)
  = [ref; "=="%string; literal].
Proof.
  intros Hr Hl H1 H2.
  destruct (token_parts _ Hr) as (Hr0 & Hr1 & Hr2).
  destruct (token_parts _ Hl) as (Hl0 & Hl1 & Hl2).
  unfold condition_tokens.
  rewrite replace_eqeq_app by assumption.
  rewrite replace_eqeq_app by now apply blank_no_eq.
  rewrite replace_eqeq_op.
  rewrite replace_eqeq_app by now apply blank_no_eq.
  rewrite replace_eqeq_none by assumption.
  rewrite split_token; [ | assumption | assumption
                         | apply at_boundary_blank_app; [assumption | reflexivity] ].
  rewrite split_blank by assumption.
  change (" == " ++ ws2 ++ literal)%string
    with (String " " ("==" ++ String " " (ws2 ++ literal)))%string.
  rewrite split_space by reflexivity.
  rewrite split_token; [ | discriminate | reflexivity | reflexivity ].
  rewrite split_space by reflexivity.
  rewrite split_blank by assumption.
  rewrite <- (append_empty_r literal) at 1.
  rewrite split_token; [ reflexivity | assumption | assumption | exact I ].
Qed.

Lemma split1_prefix (k : RefKind) (sid : string) :
  PyStr.split1 "_" (ref_prefix k ++ sid)
  = (match k with StatusRef => "status" | ResultRef => "result" end, Some sid)%string.
Proof. destruct k; reflexivity. Qed.

Lemma startswith_prefix (k : RefKind) (sid : string) :
  PyStr.startswith "status_" (ref_prefix k ++ sid)
  || PyStr.startswith "result_" (ref_prefix k ++ sid) = true.
Proof.
  destruct k; unfold PyStr.startswith; simpl;
    destruct sid; reflexivity.
Qed.

Lemma equality_text_nonempty (k : RefKind) (sid ws1 ws2 literal : string) :
  exists c r, equality_text k sid ws1 ws2 literal = String c r.
Proof. destruct k; simpl; do 2 eexists; reflexivity. Qed.

(** [_evaluate_condition] on a well-formed equality. *)
Lemma evaluate_equality (w : Workflow) (k : RefKind) (sid ws1 ws2 literal : string) :
  is_token (ref_prefix k ++ sid) = true -> is_token literal = true ->
  is_blank ws1 = true -> is_blank ws2 = true ->
  _evaluate_condition w (Some (equality_text k sid ws1 ws2 literal))
  = match find_step (steps w) sid with
    | Some s => Ok (status_matches (status s) literal)
    | None => Ok true
    end.
Proof.
  intros Hr Hl H1 H2.
  destruct (equality_text_nonempty k sid ws1 ws2 literal) as (c & r & E).
  unfold _evaluate_condition. rewrite E, <- E.
  pose proof (condition_tokens_equality _ _ _ _ Hr Hl H1 H2) as T.
  unfold condition_tokens in T. unfold equality_text. rewrite T.
  rewrite startswith_prefix, split1_prefix. reflexivity.
Qed.

Lemma evaluate_total (w : Workflow) (c : option string) :
  exists b, _evaluate_condition w c = Ok b.
Proof.
  unfold _evaluate_condition.
  destruct c as [[|x c]|]; eauto.
  destruct (PyStr.split _) as [|v [|o [|t rest]]]; eauto.
  destruct (PyStr.startswith "status_" v) eqn:E1; simpl.
  - unfold PyStr.startswith in E1.
    destruct v as [|c1 [|c2 [|c3 [|c4 [|c5 [|c6 [|c7 v]]]]]]]; simpl in E1;
      repeat match type of E1 with
             | (if ?d then _ else _) = true => destruct d; try discriminate
             end; try discriminate; subst; simpl;
      destruct (find_step (steps w) v); eauto.
  - destruct (PyStr.startswith "result_" v) eqn:E2; simpl; eauto.
    unfold PyStr.startswith in E2.
    destruct v as [|c1 [|c2 [|c3 [|c4 [|c5 [|c6 [|c7 v]]]]]]]; simpl in E2;
      repeat match type of E2 with
             | (if ?d then _ else _) = true => destruct d; try discriminate
             end; try discriminate; subst; simpl;
      destruct (find_step (steps w) v); eauto.
Qed.

(* ================================================================== *)
(** * Graph model: adding a step *)
(* ================================================================== *)

(** C9 (as stated it fails): adding a step under an id that is already
    present would leave the stored step as it was.  Here the graph holds a
    step [A] with command [true]; after [add_step] of another step [A] the
    graph holds the new one. *)
Lemma add_step_existing_counterexample :
  ~ (forall (w : Workflow) (s : Step),
        In (step_id s) (step_ids (steps w)) ->
        find_step (steps (add_step w s)) (step_id s)
        = find_step (steps w) (step_id s)).
Proof.
  intros H.
  specialize (H wf_single (new_Step "A" "false")).
  simpl in H. specialize (H (or_introl eq_refl)). discriminate H.
Qed.

(** C9 (amended): [add_step] never fails; when the id is already present
    the new step replaces the stored one, at the same place in the
    iteration order, every other step is kept, and the reverse-dependency
    list of that id is reset to the empty list. *)
Theorem add_step_existing (w : Workflow) (s : Step) :
  In (step_id s) (step_ids (steps w)) ->
  find_step (steps (add_step w s)) (step_id s) = Some s
  /\ step_ids (steps (add_step w s)) = step_ids (steps w)
  /\ (forall k, k <> step_id s ->
                find_step (steps (add_step w s)) k = find_step (steps w) k)
  /\ dict_get (inverse_dependencies (add_step w s)) (step_id s) = Some []
  /\ (forall k, k <> step_id s ->
                dict_get (inverse_dependencies (add_step w s)) k
                = dict_get (inverse_dependencies w) k).
Proof.
  intros Hin. unfold add_step; simpl. repeat split.
  - rewrite find_put_step. now rewrite String.eqb_refl.
  - rewrite step_ids_put_step. apply mem_In in Hin. now rewrite Hin.
  - intros k Hk. rewrite find_put_step.
    destruct (String.eqb_spec (step_id s) k); [congruence | reflexivity].
  - rewrite dict_get_set. now rewrite String.eqb_refl.
  - intros k Hk. rewrite dict_get_set.
    destruct (String.eqb_spec (step_id s) k); [congruence | reflexivity].
Qed.

Lemma add_step_existing_witness :
  find_step (steps (add_step wf_single (new_Step "A" "false"))) "A"
  = Some (new_Step "A" "false").
Proof.
  exact (proj1 (add_step_existing wf_single (new_Step "A" "false")
                                  (or_introl eq_refl))).
Defined.

(* ================================================================== *)
(** * Condition evaluation *)
(* ================================================================== *)

Lemma not_equality_form_neq : ~ EqualityForm "status_A != FAILED".
Proof.
  intros H. inversion H as [k sid ws1 ws2 lit Hr Hl H1 H2 E].
  pose proof (condition_tokens_equality _ _ _ _ Hr Hl H1 H2) as T.
  unfold equality_text in E. rewrite E in T. vm_compute in T. discriminate T.
Qed.

(** C4 (as stated it fails): an expression that is not of the form
    [<reference> == <literal>] would evaluate to true.  The expression
    [status_A != FAILED] is not of that form, and with [A] pending it
    evaluates to false: the second token is not examined. *)
Lemma condition_evaluation_counterexample :
  ~ (forall (w : Workflow) (c : string),
        ~ EqualityForm c -> _evaluate_condition w (Some c) = Ok true).
Proof.
  intros H.
  specialize (H wf_single "status_A != FAILED"%string not_equality_form_neq).
  vm_compute in H. discriminate H.
Qed.

(** C4 (amended): a well-formed [<reference> == <literal>] whose reference
    names a step of the graph evaluates to the case-insensitive equality of
    that step's status name with the literal, quotes stripped.  An
    expression with fewer than three tokens, or whose first token does not
    start with [status_] or [result_], evaluates to true.  Any other
    expression is evaluated on its first and third tokens alone, whatever
    the second token is and whatever follows the third. *)
Theorem condition_evaluation :
  (forall w k sid ws1 ws2 literal s,
      is_token (ref_prefix k ++ sid) = true -> is_token literal = true ->
      is_blank ws1 = true -> is_blank ws2 = true ->
      find_step (steps w) sid = Some s ->
      _evaluate_condition w (Some (equality_text k sid ws1 ws2 literal))
      = Ok (status_matches (status s) literal))
  /\ (forall w c,
         List.length (condition_tokens c) < 3 ->
         _evaluate_condition w (Some c) = Ok true)
  /\ (forall w c v rest,
         condition_tokens c = v :: rest ->
         PyStr.startswith "status_" v = false ->
         PyStr.startswith "result_" v = false ->
         _evaluate_condition w (Some c) = Ok true)
  /\ (forall w c k sid op third rest s,
         c <> ""%string ->
         condition_tokens c = (ref_prefix k ++ sid)%string :: op :: third :: rest ->
         find_step (steps w) sid = Some s ->
         _evaluate_condition w (Some c) = Ok (status_matches (status s) third)).
Proof.
  split; [|split; [|split]].
  - intros w k sid ws1 ws2 literal s Hr Hl H1 H2 Hf.
    rewrite evaluate_equality by assumption. now rewrite Hf.
  - intros w c Hlen. unfold _evaluate_condition. destruct c as [|x c]; [reflexivity|].
    unfold condition_tokens in Hlen.
    destruct (PyStr.split _) as [|v [|o [|t rest]]]; try reflexivity.
    simpl in Hlen. lia.
  - intros w c v rest Ht H1 H2. unfold _evaluate_condition.
    destruct c as [|x c]; [reflexivity|].
    unfold condition_tokens in Ht. rewrite Ht.
    destruct rest as [|o [|t rest]]; try reflexivity.
    now rewrite H1, H2.
  - intros w c k sid op third rest s Hne Ht Hf. unfold _evaluate_condition.
    destruct c as [|x c]; [congruence|].
    unfold condition_tokens in Ht. rewrite Ht.
    rewrite startswith_prefix, split1_prefix, Hf. reflexivity.
Qed.

Lemma condition_evaluation_witness :
  _evaluate_condition wf_single (Some "status_A == 'pending'") = Ok true
  /\ _evaluate_condition wf_single (Some "status_A") = Ok true.
Proof.
  split.
  - exact (proj1 condition_evaluation wf_single StatusRef "A" " " " " "'pending'"
                 (new_Step "A" "true") eq_refl eq_refl eq_refl eq_refl eq_refl)%string.
  - apply (proj1 (proj2 condition_evaluation)). vm_compute. lia.
Defined.

(** C10: a well-formed condition whose reference names no step of the
    graph evaluates to true, and a pending step carrying it whose
    dependencies are satisfied is made [READY] and enqueued by the
    readiness update, as a step without condition is. *)
Theorem missing_reference_is_true
        (e : WorkflowEngine) (k : RefKind) (sid ws1 ws2 literal : string) :
  is_token (ref_prefix k ++ sid) = true -> is_token literal = true ->
  is_blank ws1 = true -> is_blank ws2 = true ->
  find_step (steps (workflow e)) sid = None ->
  let c := Some (equality_text k sid ws1 ws2 literal) in
  _evaluate_condition (workflow e) c = Ok true
  /\ _evaluate_condition (workflow e) c = _evaluate_condition (workflow e) None
  /\ (forall x step,
         get_step (workflow e) x = Ok step ->
         status step = PENDING ->
         condition step = c ->
         deps_satisfied (workflow e) (dependencies step) = Ok true ->
         update_one e x
         = Ok (with_queue (ready_queue e ++ [x])
                 (with_workflow (set_status (workflow e) x READY) e))).
Proof.
  intros Hr Hl H1 H2 Hf c.
  assert (E : _evaluate_condition (workflow e) c = Ok true).
  { unfold c. rewrite evaluate_equality by assumption. now rewrite Hf. }
  split; [exact E|]. split; [exact E|].
  intros x step Hg Hs Hc Hd. unfold update_one.
  rewrite Hg. simpl. rewrite Hs. simpl. rewrite Hd. simpl.
  rewrite Hc, E. reflexivity.
Qed.

Lemma missing_reference_is_true_witness :
  _evaluate_condition wf_dangling_condition (Some "status_X == 'SUCCESS'") = Ok true.
Proof.
  exact (proj1 (missing_reference_is_true
                  (new_WorkflowEngine wf_dangling_condition None 1)
                  StatusRef "X" " " " " "'SUCCESS'"
                  eq_refl eq_refl eq_refl eq_refl eq_refl))%string.
Defined.

(* ================================================================== *)
(** * Dependency paths and topological orders *)
(* ================================================================== *)

Lemma edge_In_ids (w : Workflow) (x y : string) :
  edge w x y -> In x (step_ids (steps w)).
Proof.
  intros (s & Hs & _). apply find_step_Some_ids. eauto.
Qed.

Lemma edge_target_ids (w : Workflow) (x y : string) :
  wf_workflow w -> edge w x y -> In y (step_ids (steps w)).
Proof.
  intros Hwf (s & Hs & Hd). apply find_step_In in Hs.
  eapply wf_deps; eauto. tauto.
Qed.

Lemma path_snoc (w : Workflow) (x y z : string) :
  path w x y -> edge w y z -> path w x z.
Proof.
  induction 1 as [x y H|x y y' H Hp IH]; intros He.
  - eapply path_cons; [eassumption | now apply path_edge].
  - eapply path_cons; [eassumption | now apply IH].
Qed.

Lemma path_trans (w : Workflow) (x y z : string) :
  path w x y -> path w y z -> path w x z.
Proof.
  induction 1 as [x y H|x y y' H Hp IH]; intros Hq.
  - eapply path_cons; eassumption.
  - eapply path_cons; [eassumption | now apply IH].
Qed.

Lemma path_In_ids (w : Workflow) (x y : string) :
  path w x y -> In x (step_ids (steps w)).
Proof. destruct 1; eapply edge_In_ids; eassumption. Qed.

Lemma rank_le (V : list string) (x : string) : rank V x <= List.length V.
Proof.
  induction V as [|z V IH]; simpl; [lia|].
  destruct (String.eqb z x); lia.
Qed.

Lemma rank_pos (V : list string) (x : string) : In x V -> 0 < rank V x.
Proof.
  induction V as [|z V IH]; simpl; [tauto|].
  destruct (String.eqb_spec z x); [lia|]. intros [H|H]; [congruence | auto].
Qed.

Lemma topo_NoDup (w : Workflow) (V : list string) : topo w V -> NoDup V.
Proof. induction 1; constructor; assumption. Qed.

Lemma topo_In_ids (w : Workflow) (V : list string) (x : string) :
  topo w V -> In x V -> In x (step_ids (steps w)).
Proof.
  induction 1 as [|z V s HV IH Hz Hs Hd]; simpl; [tauto|].
  intros [<-|H]; [|auto]. apply find_step_Some_ids. eauto.
Qed.

Lemma topo_length (w : Workflow) (V : list string) :
  topo w V -> List.length V <= List.length (steps w).
Proof.
  intros H. replace (List.length (steps w)) with (List.length (step_ids (steps w)))
    by apply length_map.
  apply NoDup_incl_length; [eapply topo_NoDup; eassumption|].
  intros x Hx. eapply topo_In_ids; eassumption.
Qed.

Lemma topo_edge_rank (w : Workflow) (V : list string) (x y : string) :
  topo w V -> In x V -> edge w x y -> In y V /\ rank V y < rank V x.
Proof.
  induction 1 as [|z V s HV IH Hz Hs Hd]; simpl; [tauto|].
  intros Hin He.
  destruct (String.eqb_spec z x) as [E|E].
  - subst z. destruct He as (s' & Hs' & Hy). rewrite Hs in Hs'.
    injection Hs' as <-. specialize (Hd _ Hy). split; [auto|].
    destruct (String.eqb_spec x y) as [E'|E']; [subst; contradiction|].
    pose proof (rank_le V y). lia.
  - destruct Hin as [Hin|Hin]; [congruence|].
    destruct (IH Hin He) as [Hy Hr]. split; [auto|].
    destruct (String.eqb_spec z y) as [E'|E']; [subst; contradiction | assumption].
Qed.

Lemma topo_path_rank (w : Workflow) (V : list string) (x y : string) :
  topo w V -> path w x y -> In x V -> In y V /\ rank V y < rank V x.
Proof.
  intros HV. induction 1 as [x y H|x y z H Hp IH]; intros Hin.
  - eapply topo_edge_rank; eassumption.
  - destruct (topo_edge_rank HV Hin H) as [Hy Hr].
    destruct (IH Hy) as [Hz Hr']. split; [assumption | lia].
Qed.

Lemma topo_acyclic (w : Workflow) (V : list string) :
  topo w V -> (forall x, In x (step_ids (steps w)) -> In x V) -> acyclic w.
Proof.
  intros HV Hall x Hc. unfold on_cycle in Hc.
  pose proof (path_In_ids Hc) as Hx.
  destruct (topo_path_rank HV Hc (Hall _ Hx)) as [_ Hr]. lia.
Qed.

(* ================================================================== *)
(** * The validator *)
(* ================================================================== *)

Lemma chain_reach (w : Workflow) (T : list string) (x y : string) (T' : list string) :
  chain w T -> T = y :: T' -> In x T -> x = y \/ path w x y.
Proof.
  revert y T'. induction T as [|t T IH]; intros y T' Hc E Hin; [discriminate|].
  injection E as -> ->. simpl in Hc. destruct T' as [|z T''].
  - destruct Hin as [H|[]]. auto.
  - destruct Hc as [He Hc]. destruct Hin as [H|Hin]; [auto|].
    right. destruct (IH z T'' Hc eq_refl Hin) as [->|Hp].
    + now apply path_edge.
    + eapply path_snoc; eassumption.
Qed.

Lemma in_progress_cycle (w : Workflow) (T : list string) (x : string) :
  chain w T -> called_from w T x -> In x T -> cyclic w.
Proof.
  intros Hc Hf Hin. destruct T as [|y T']; [contradiction|].
  simpl in Hf. exists x. unfold on_cycle.
  destruct (chain_reach w x Hc eq_refl Hin) as [->|Hp].
  - now apply path_edge.
  - eapply path_snoc; eassumption.
Qed.

Lemma set_remove_head (x : string) (l : list string) :
  set_remove x (x :: l) = Ok l.
Proof.
  unfold set_remove, mem. simpl. now rewrite String.eqb_refl.
Qed.

(** [has_cycle] returns, given enough fuel for the steps not yet in
    progress.  When it reports a cycle there is one; when it does not, the
    step has been added to [visited], the in-progress set is as before and
    the invariant of the two sets is kept. *)
Lemma has_cycle_spec (w : Workflow) :
  wf_workflow w ->
  forall fuel m x,
    marks_ok w m -> chain w (temp_visited m) -> called_from w (temp_visited m) x ->
    In x (step_ids (steps w)) ->
    List.length (steps w) < fuel + List.length (temp_visited m) ->
    exists b m',
      has_cycle fuel w m x = Ok (b, m')
      /\ (b = true -> cyclic w)
      /\ (b = false ->
          marks_ok w m' /\ temp_visited m' = temp_visited m
          /\ incl (visited m) (visited m') /\ In x (visited m')).
Proof.
  intros Hwf. induction fuel as [|fuel IH]; intros m x Hm Hc Hf Hx Hfuel.
  - exfalso. destruct Hm as [_ _ Hnd Hids].
    assert (List.length (temp_visited m) <= List.length (step_ids (steps w)))
      by (apply NoDup_incl_length; assumption).
    unfold step_ids in H. rewrite length_map in H. lia.
  - simpl. destruct (mem x (temp_visited m)) eqn:Et.
    { exists true, m. split; [reflexivity|]. split; [|discriminate].
      intros _. apply mem_In in Et. eapply in_progress_cycle; eassumption. }
    destruct (mem x (visited m)) eqn:Ev.
    { exists false, m. split; [reflexivity|]. split; [discriminate|].
      intros _. apply mem_In in Ev.
      split; [assumption|]. split; [reflexivity|].
      split; [apply incl_refl | assumption]. }
    apply mem_false in Et. apply mem_false in Ev.
    destruct (proj1 (find_step_Some_ids _ _) Hx) as [step Hstep].
    unfold get_step. rewrite Hstep. simpl.
    assert (Eadd : set_add x (temp_visited m) = x :: temp_visited m).
    { unfold set_add. apply mem_false in Et. now rewrite Et. }
    rewrite Eadd.
    set (m1 := mkMarks (visited m) (x :: temp_visited m)).
    assert (Hm1 : marks_ok w m1).
    { destruct Hm as [Ht Hd Hnd Hids]. constructor; simpl.
      - assumption.
      - intros y [<-|Hy]; auto.
      - constructor; assumption.
      - intros y [<-|Hy]; auto. }
    assert (Hc1 : chain w (temp_visited m1)).
    { simpl. destruct (temp_visited m) as [|y T']; [exact I|]. split; assumption. }
    assert (Loop : forall ds m0,
               (forall d, In d ds -> In d (dependencies step)) ->
               marks_ok w m0 -> temp_visited m0 = x :: temp_visited m ->
               exists b m2,
                 cycle_over_deps (has_cycle fuel w) ds m0 = Ok (b, m2)
                 /\ (b = true -> cyclic w)
                 /\ (b = false ->
                     marks_ok w m2 /\ temp_visited m2 = x :: temp_visited m
                     /\ incl (visited m0) (visited m2)
                     /\ forall d, In d ds -> In d (visited m2))).
    { induction ds as [|d ds IHds]; intros m0 Hds Hm0 Et0.
      - exists false, m0. split; [reflexivity|]. split; [discriminate|].
        intros _. split; [assumption|]. split; [assumption|].
        split; [apply incl_refl | intros d []].
      - simpl.
        destruct (IH m0 d Hm0) as (b & m' & Hr & Hb1 & Hb0).
        + rewrite Et0. exact Hc1.
        + rewrite Et0. simpl. exists step. split; [assumption|]. apply Hds. now left.
        + apply (wf_deps Hwf step d);
            [apply (find_step_In _ _ Hstep) | apply Hds; now left].
        + rewrite Et0. simpl. lia.
        + rewrite Hr. simpl. destruct b.
          * exists true, m'. split; [reflexivity|]. split; [assumption | discriminate].
          * destruct (Hb0 eq_refl) as (Hm' & Et' & Hinc & Hd).
            destruct (IHds m') as (b2 & m2 & Hr2 & Hc2 & Hf2).
            { intros d0 H0. apply Hds. now right. }
            { assumption. }
            { congruence. }
            exists b2, m2. split; [assumption|]. split; [assumption|].
            intros E. destruct (Hf2 E) as (A & B & C & D).
            split; [assumption|]. split; [assumption|].
            split; [eapply incl_tran; eassumption|].
            intros d0 [<-|H0]; auto. }
    destruct (Loop (dependencies step) m1 (fun d H => H) Hm1 eq_refl)
      as (b & m2 & Hr & Hb1 & Hb0).
    rewrite Hr. simpl. destruct b.
    + exists true, m2. split; [reflexivity|]. split; [assumption | discriminate].
    + destruct (Hb0 eq_refl) as (Hm2 & Et2 & Hinc & Hd).
      rewrite Et2, set_remove_head. simpl.
      assert (Hxv : ~ In x (visited m2)).
      { apply (mo_disjoint Hm2). rewrite Et2. now left. }
      assert (Eadd2 : set_add x (visited m2) = x :: visited m2).
      { unfold set_add. apply mem_false in Hxv. now rewrite Hxv. }
      rewrite Eadd2.
      eexists false, _. split; [reflexivity|]. split; [discriminate|].
      intros _. simpl. repeat split; simpl.
      * econstructor; eauto. apply (mo_topo Hm2).
      * intros y Hy [<-|Hyv]; [contradiction|].
        apply (mo_disjoint Hm2 y); [rewrite Et2; now right | assumption].
      * apply (mo_nodup Hm).
      * apply (mo_ids Hm).
      * intros y Hy. right. now apply Hinc.
      * now left.
Qed.

Lemma validate_from_spec (w : Workflow) :
  wf_workflow w ->
  forall ids m,
    marks_ok w m -> temp_visited m = [] ->
    incl ids (step_ids (steps w)) ->
    (validate_from (S (List.length (steps w))) w m ids = Ok true
     /\ exists V, topo w V /\ incl (visited m) V /\ incl ids V)
    \/ (exists r, validate_from (S (List.length (steps w))) w m ids
                  = Raise (ValueError (cycle_message r))
                  /\ In r ids /\ cyclic w).
Proof.
  intros Hwf. induction ids as [|x ids IH]; intros m Hm Et Hids.
  - left. split; [reflexivity|]. exists (visited m).
    split; [apply (mo_topo Hm)|]. split; [apply incl_refl | intros y []].
  - simpl.
    destruct (@has_cycle_spec w Hwf (S (List.length (steps w))) m x Hm)
      as (b & m' & Hr & Hb1 & Hb0).
    + rewrite Et. exact I.
    + rewrite Et. exact I.
    + apply Hids. now left.
    + lia.
    + simpl in Hr. rewrite Hr. simpl. destruct b.
      * right. exists x. split; [reflexivity|]. split; [now left | auto].
      * destruct (Hb0 eq_refl) as (Hm' & Et' & Hinc & Hx).
        destruct (IH m' Hm') as [(Hv & V & HV & Hi & Hi')|(r & Hv & Hr' & Hcy)].
        { congruence. }
        { intros y Hy. apply Hids. now right. }
        { left. split; [assumption|]. exists V. split; [assumption|].
          split; [eapply incl_tran; eassumption|].
          intros y [<-|Hy]; [now apply Hi | now apply Hi']. }
        { right. exists r. split; [assumption|]. split; [now right | assumption]. }
Qed.

Lemma marks_ok_empty (w : Workflow) : marks_ok w (mkMarks [] []).
Proof.
  constructor; simpl; try tauto; constructor.
Qed.

(** A validated graph has a topological order of all its steps. *)
Lemma validate_topo (w : Workflow) :
  wf_workflow w -> validate_workflow w = Ok true ->
  exists V, topo w V /\ forall x, In x (step_ids (steps w)) -> In x V.
Proof.
  intros Hwf Hv. unfold validate_workflow in Hv.
  destruct (@validate_from_spec w Hwf (step_ids (steps w)) _ (marks_ok_empty w) eq_refl
                               (incl_refl _))
    as [(_ & V & HV & _ & Hi)|(r & Hr & _)].
  - exists V. split; assumption.
  - rewrite Hr in Hv. discriminate.
Qed.

Lemma validate_sound (w : Workflow) :
  wf_workflow w -> validate_workflow w = Ok true -> acyclic w.
Proof.
  intros Hwf Hv. destruct (validate_topo Hwf Hv) as (V & HV & Hall).
  eapply topo_acyclic; eassumption.
Qed.

Lemma validate_complete (w : Workflow) :
  wf_workflow w -> acyclic w -> validate_workflow w = Ok true.
Proof.
  intros Hwf Ha. unfold validate_workflow.
  destruct (@validate_from_spec w Hwf (step_ids (steps w)) _ (marks_ok_empty w) eq_refl
                               (incl_refl _))
    as [(Hv & _)|(r & _ & _ & x & Hx)].
  - assumption.
  - exfalso. exact (Ha x Hx).
Qed.

Lemma validate_cyclic (w : Workflow) :
  wf_workflow w -> cyclic w ->
  exists r, validate_workflow w = Raise (ValueError (cycle_message r))
            /\ In r (step_ids (steps w)).
Proof.
  intros Hwf [x Hx]. unfold validate_workflow.
  destruct (@validate_from_spec w Hwf (step_ids (steps w)) _ (marks_ok_empty w) eq_refl
                               (incl_refl _))
    as [(Hv & V & HV & _ & Hi)|(r & Hr & Hin & _)].
  - exfalso. exact (topo_acyclic HV Hi Hx).
  - exists r. split; assumption.
Qed.

(* ================================================================== *)
(** * Checking well-formedness by computation *)
(* ================================================================== *)

Lemma nodupb_NoDup (l : list string) : nodupb l = true -> NoDup l.
Proof.
  induction l as [|x l IH]; simpl; intros H; constructor.
  - apply andb_prop in H. destruct H as [H _].
    apply negb_true_iff in H. now apply mem_false.
  - apply andb_prop in H. tauto.
Qed.

Lemma ids_eqb_eq (a b : list string) : ids_eqb a b = true -> a = b.
Proof.
  revert b. induction a as [|x a IH]; destruct b as [|y b]; simpl;
    try discriminate; [reflexivity|].
  intros H. apply andb_prop in H. destruct H as [H1 H2].
  apply String.eqb_eq in H1. f_equal; auto.
Qed.

Lemma dict_get_In {V : Type} (d : dict V) (k : string) (v : V) :
  dict_get d k = Some v -> In (k, v) d.
Proof.
  induction d as [|[k0 v0] d IH]; simpl; [discriminate|].
  destruct (String.eqb_spec k0 k).
  - intros [= ->]. subst. now left.
  - auto.
Qed.

Lemma mem_iff_eqb (x y : string) (l l' : list string) :
  Bool.eqb (mem x l) (mem y l') = true -> (In x l <-> In y l').
Proof.
  intros H. apply Bool.eqb_prop in H. rewrite <- !mem_In, H. tauto.
Qed.

Lemma wf_check_sound (w : Workflow) : wf_check w = true -> wf_workflow w.
Proof.
  unfold wf_check. intros H.
  apply andb_prop in H. destruct H as [H H4].
  apply andb_prop in H. destruct H as [H H3].
  apply andb_prop in H. destruct H as [H1 H2].
  rewrite forallb_forall in H2, H4.
  constructor.
  - now apply nodupb_NoDup.
  - intros s d Hs Hd. specialize (H2 s Hs). rewrite forallb_forall in H2.
    apply mem_In. auto.
  - now apply ids_eqb_eq.
  - intros x y sy l Hg Hf. apply dict_get_In in Hg. specialize (H4 _ Hg).
    apply andb_prop in H4. destruct H4 as [_ H4]. rewrite forallb_forall in H4.
    destruct (find_step_In _ _ Hf) as [Hin <-].
    apply mem_iff_eqb. exact (H4 sy Hin).
  - intros x l y Hg Hy. apply dict_get_In in Hg. specialize (H4 _ Hg).
    apply andb_prop in H4. destruct H4 as [H4 _]. rewrite forallb_forall in H4.
    apply mem_In. auto.
Qed.

(* ================================================================== *)
(** * Validation: which step the error names *)
(* ================================================================== *)

Lemma build_cycle_tail : build_workflow "w" defs_cycle_tail = Ok wf_cycle_tail.
Proof. reflexivity. Qed.

Lemma cycle_tail_edges (x y : string) :
  edge wf_cycle_tail x y -> y = "B"%string \/ y = "C"%string.
Proof.
  intros (s & Hs & Hy). apply find_step_In in Hs. destruct Hs as [Hs _].
  simpl in Hs. destruct Hs as [<-|[<-|[<-|[]]]]; simpl in Hy;
    destruct Hy as [<-|[]]; auto.
Qed.

Lemma cycle_tail_paths (x y : string) :
  path wf_cycle_tail x y -> y = "B"%string \/ y = "C"%string.
Proof.
  induction 1 as [x y H|x y z H Hp IH]; [eapply cycle_tail_edges; eassumption | assumption].
Qed.

(** C6 (the code departs from the claim): on the graph
    [A -> B -> C -> B], built with [A] first, validation fails, as it must,
    but the step its error names is [A], the root the traversal started
    from.  [A] lies on no cycle; [B] and [C] do. *)
Theorem validate_names_root_not_cycle_member :
  wf_workflow wf_cycle_tail
  /\ validate_workflow wf_cycle_tail
     = Raise (ValueError "Cycle detected in workflow involving step A")
  /\ ~ on_cycle wf_cycle_tail "A"
  /\ on_cycle wf_cycle_tail "B".
Proof.
  split; [apply wf_check_sound; reflexivity|].
  split; [reflexivity|]. split.
  - intros H. apply cycle_tail_paths in H. destruct H; discriminate.
  - unfold on_cycle. eapply path_cons.
    + exists (mkStep "B" "b" ["C"] None None [] PENDING 0). split; [reflexivity | now left].
    + apply path_edge.
      exists (mkStep "C" "c" ["B"] None None [] PENDING 0). split; [reflexivity | now left].
Qed.

(* ================================================================== *)
(** * Level computation *)
(* ================================================================== *)

Lemma extends_refl (lv : dict nat) : extends lv lv.
Proof. intros x l H. exact H. Qed.

Lemma extends_trans (a b c : dict nat) : extends a b -> extends b c -> extends a c.
Proof. intros H1 H2 x l H. auto. Qed.

Lemma level_of_extends (lv lv' : dict nat) (d : string) :
  extends lv lv' -> dict_get lv d <> None -> level_of lv' d = level_of lv d.
Proof.
  intros He Hd. unfold level_of. destruct (dict_get lv d) as [l|] eqn:E; [|congruence].
  now rewrite (He _ _ E).
Qed.

Lemma level_formula_extends (lv lv' : dict nat) (s : Step) :
  extends lv lv' ->
  (forall d, In d (dependencies s) -> dict_get lv d <> None) ->
  level_formula lv' s = level_formula lv s.
Proof.
  intros He Hd. unfold level_formula.
  destruct (dependencies s) as [|d ds] eqn:E; [reflexivity|].
  f_equal. f_equal. apply map_ext_in. intros a Ha.
  apply level_of_extends; auto.
Qed.

Lemma extends_set_new (lv : dict nat) (x : string) (l : nat) :
  dict_get lv x = None -> extends lv (dict_set lv x l).
Proof.
  intros Hx y l' Hy. rewrite dict_get_set.
  destruct (String.eqb_spec x y); [congruence | assumption].
Qed.

Lemma levels_ok_set (w : Workflow) (lv : dict nat) (x : string) (s : Step) :
  levels_ok w lv -> dict_get lv x = None ->
  find_step (steps w) x = Some s ->
  (forall d, In d (dependencies s) -> dict_get lv d <> None) ->
  levels_ok w (dict_set lv x (level_formula lv s)).
Proof.
  intros Hok Hx Hs Hd y l Hy.
  pose proof (extends_set_new lv x (level_formula lv s) Hx) as He.
  rewrite dict_get_set in Hy. destruct (String.eqb_spec x y) as [E|E].
  - subst y. injection Hy as <-. exists s. split; [assumption|].
    split.
    + symmetry. now apply level_formula_extends.
    + intros d Hin. specialize (Hd d Hin).
      destruct (dict_get lv d) eqn:Ed; [|congruence]. now rewrite (He _ _ Ed).
  - destruct (Hok y l Hy) as (s' & Hs' & Hl & Hd').
    exists s'. split; [assumption|]. split.
    + rewrite Hl. symmetry. now apply level_formula_extends.
    + intros d Hin. specialize (Hd' d Hin).
      destruct (dict_get lv d) eqn:Ed; [|congruence]. now rewrite (He _ _ Ed).
Qed.

(** [get_level] on a step of a topologically ordered graph: it returns
    when the fuel exceeds the rank of the step, the table it returns is
    correct, keeps the earlier entries, holds the step, and has gained
    entries only for steps of rank at most that of the step. *)
Lemma get_level_spec (w : Workflow) (V : list string) :
  wf_workflow w -> topo w V ->
  (forall x, In x (step_ids (steps w)) -> In x V) ->
  forall fuel lv x,
    levels_ok w lv -> In x (step_ids (steps w)) -> rank V x < fuel ->
    exists l lv',
      get_level fuel w lv x = Ok (l, lv')
      /\ levels_ok w lv' /\ extends lv lv'
      /\ dict_get lv' x = Some l
      /\ (forall y, dict_get lv' y <> None ->
                    dict_get lv y <> None \/ rank V y <= rank V x).
Proof.
  intros Hwf HV Hall. induction fuel as [|fuel IH]; intros lv x Hok Hx Hfuel; [lia|].
  simpl. destruct (dict_get lv x) as [l|] eqn:Ex.
  { exists l, lv. split; [reflexivity|]. split; [assumption|].
    split; [apply extends_refl|]. split; [assumption | intros y Hy; now left]. }
  destruct (proj1 (find_step_Some_ids _ _) Hx) as [s Hs].
  unfold get_step. rewrite Hs. simpl.
  assert (Hedge : forall d, In d (dependencies s) ->
                            In d (step_ids (steps w)) /\ rank V d < fuel).
  { intros d Hd. assert (He : edge w x d) by (exists s; auto).
    split; [eapply edge_target_ids; eassumption|].
    destruct (topo_edge_rank HV (Hall _ Hx) He). lia. }
  assert (Hrk : forall d, In d (dependencies s) -> rank V d < rank V x).
  { intros d Hd. assert (He : edge w x d) by (exists s; auto).
    now destruct (topo_edge_rank HV (Hall _ Hx) He). }
  destruct (dependencies s) as [|d0 ds] eqn:Eds.
  { exists 0, (dict_set lv x 0). split; [reflexivity|].
    assert (E0 : level_formula lv s = 0) by (unfold level_formula; now rewrite Eds).
    rewrite <- E0. split.
    - apply levels_ok_set; auto. rewrite Eds. intros d [].
    - split; [now apply extends_set_new|]. split.
      + rewrite dict_get_set. now rewrite String.eqb_refl.
      + intros y Hy. rewrite dict_get_set in Hy.
        destruct (String.eqb_spec x y); [subst; right; lia | now left]. }
  assert (Loop : forall deps best lv0,
             (forall d, In d deps -> In d (d0 :: ds)) ->
             levels_ok w lv0 ->
             exists m lv1,
               level_max (get_level fuel w) deps best lv0 = Ok (m, lv1)
               /\ levels_ok w lv1 /\ extends lv0 lv1
               /\ m = Nat.max best (list_max (map (level_of lv1) deps))
               /\ (forall d, In d deps -> dict_get lv1 d <> None)
               /\ (forall y, dict_get lv1 y <> None ->
                             dict_get lv0 y <> None \/ rank V y < rank V x)).
  { induction deps as [|d deps IHd]; intros best lv0 Hsub Hok0.
    - exists best, lv0. simpl. split; [reflexivity|]. split; [assumption|].
      split; [apply extends_refl|]. split; [lia|].
      split; [intros d [] | intros y Hy; now left].
    - simpl.
      destruct (Hedge d (Hsub d (or_introl eq_refl))) as [Hd1 Hd2].
      destruct (IH lv0 d Hok0 Hd1 Hd2) as (l & lv' & Hr & Hok' & Hex & Hg & Hnew).
      rewrite Hr. simpl.
      destruct (IHd (Nat.max best l) lv') as (m & lv1 & Hr1 & Hok1 & Hex1 & Hm & Hin1 & Hnew1).
      { intros d' Hd'. apply Hsub. now right. }
      { assumption. }
      exists m, lv1. split; [assumption|]. split; [assumption|].
      split; [eapply extends_trans; eassumption|]. split.
      + rewrite Hm. unfold level_of at 2. rewrite (Hex1 _ _ Hg). lia.
      + split.
        * intros d' [<-|Hd']; [rewrite (Hex1 _ _ Hg); discriminate | auto].
        * intros y Hy. destruct (Hnew1 y Hy) as [H|H]; [|now right].
          destruct (Hnew y H) as [H'|H']; [now left|]. right.
          pose proof (Hrk d (Hsub d (or_introl eq_refl))). lia. }
  destruct (Hedge d0 (or_introl eq_refl)) as [Hd1 Hd2].
  destruct (IH lv d0 Hok Hd1 Hd2) as (l0 & lv0 & Hr0 & Hok0 & Hex0 & Hg0 & Hnew0).
  rewrite Hr0. simpl.
  destruct (Loop ds l0 lv0) as (m & lv1 & Hr1 & Hok1 & Hex1 & Hm & Hin1 & Hnew1).
  { intros d Hd. now right. }
  { assumption. }
  rewrite Hr1. simpl.
  assert (Hx1 : dict_get lv1 x = None).
  { destruct (dict_get lv1 x) eqn:E; [|reflexivity]. exfalso.
    assert (Hne : dict_get lv1 x <> None) by congruence.
    destruct (Hnew1 x Hne) as [H|H]; [|lia].
    destruct (Hnew0 x H) as [H'|H']; [congruence|].
    pose proof (Hrk d0 (or_introl eq_refl)). lia. }
  assert (Hdeps : forall d, In d (dependencies s) -> dict_get lv1 d <> None).
  { rewrite Eds. intros d [<-|Hd]; [rewrite (Hex1 _ _ Hg0); discriminate | auto]. }
  assert (Ef : level_formula lv1 s = S m).
  { unfold level_formula. rewrite Eds. simpl. f_equal.
    rewrite Hm. unfold level_of at 1. now rewrite (Hex1 _ _ Hg0). }
  exists (S m), (dict_set lv1 x (S m)). split; [reflexivity|].
  rewrite <- Ef. split; [apply levels_ok_set; auto|].
  split.
  - eapply extends_trans; [eassumption|].
    eapply extends_trans; [eassumption|]. now apply extends_set_new.
  - split; [rewrite dict_get_set; now rewrite String.eqb_refl|].
    intros y Hy. rewrite dict_get_set in Hy.
    destruct (String.eqb_spec x y) as [E|E]; [subst; right; lia|].
    destruct (Hnew1 y Hy) as [H|H]; [|right; lia].
    destruct (Hnew0 y H) as [H'|H']; [now left|].
    right. pose proof (Hrk d0 (or_introl eq_refl)). lia.
Qed.

Lemma levels_from_spec (w : Workflow) (V : list string) :
  wf_workflow w -> topo w V ->
  (forall x, In x (step_ids (steps w)) -> In x V) ->
  forall ids lv,
    levels_ok w lv -> incl ids (step_ids (steps w)) ->
    exists lv',
      levels_from (S (List.length (steps w))) w lv ids = Ok lv'
      /\ levels_ok w lv' /\ extends lv lv'
      /\ forall x, In x ids -> dict_get lv' x <> None.
Proof.
  intros Hwf HV Hall. induction ids as [|x ids IH]; intros lv Hok Hids.
  - exists lv. split; [reflexivity|]. split; [assumption|].
    split; [apply extends_refl | intros x []].
  - simpl.
    destruct (@get_level_spec w V Hwf HV Hall (S (List.length (steps w))) lv x Hok)
      as (l & lv1 & Hr & Hok1 & Hex1 & Hg & _).
    + apply Hids. now left.
    + pose proof (rank_le V x). pose proof (topo_length HV). lia.
    + simpl in Hr. rewrite Hr. simpl.
      destruct (IH lv1 Hok1) as (lv' & Hr' & Hok' & Hex' & Hin').
      { intros y Hy. apply Hids. now right. }
      exists lv'. split; [assumption|]. split; [assumption|].
      split; [eapply extends_trans; eassumption|].
      intros y [<-|Hy]; [rewrite (Hex' _ _ Hg); discriminate | auto].
Qed.

(** On a validated graph [_calculate_levels] returns a table that gives
    every step its level. *)
Lemma calculate_levels_spec (w : Workflow) :
  wf_workflow w -> validate_workflow w = Ok true ->
  exists lv,
    _calculate_levels w = Ok lv
    /\ forall s, In s (steps w) ->
                 dict_get lv (step_id s) = Some (level_formula lv s).
Proof.
  intros Hwf Hv. destruct (validate_topo Hwf Hv) as (V & HV & Hall).
  destruct (@levels_from_spec w V Hwf HV Hall (step_ids (steps w)) [])
    as (lv & Hr & Hok & _ & Hin).
  - intros x l H. discriminate.
  - apply incl_refl.
  - exists lv. split; [exact Hr|]. intros s Hs.
    assert (Hid : In (step_id s) (step_ids (steps w))) by (unfold step_ids; now apply in_map).
    specialize (Hin _ Hid). destruct (dict_get lv (step_id s)) as [l|] eqn:E; [|congruence].
    destruct (Hok _ _ E) as (s' & Hs' & Hl & _).
    rewrite (In_find_step _ _ (wf_nodup Hwf) Hs) in Hs'. injection Hs' as <-.
    now rewrite Hl.
Qed.

(* ================================================================== *)
(** * Strategy selection *)
(* ================================================================== *)

Section Select.
Variable better : nat -> nat -> bool.
Hypothesis better_trans :
  forall a b c, better a b = true -> better b c = true -> better a c = true.
Hypothesis better_weak :
  forall a b c, better a b = true -> better c b = false -> better a c = true.
Variable lv : dict nat.

Lemma select_by_spec (l : list string) :
  forall done b,
    first_best better (level_of lv) done b ->
    (forall x, In x l -> dict_get lv x <> None) ->
    exists r, select_by better lv b (level_of lv b) l = Ok r
              /\ first_best better (level_of lv) (done ++ l) r.
Proof.
  induction l as [|x l IH]; intros done b Hb Hdef.
  - exists b. rewrite app_nil_r. split; [reflexivity | assumption].
  - simpl. unfold level_key.
    destruct (dict_get lv x) as [k|] eqn:Ex;
      [|exfalso; apply (Hdef x (or_introl eq_refl) Ex)].
    simpl. assert (Ek : level_of lv x = k) by (unfold level_of; now rewrite Ex).
    destruct Hb as (pre & post & Hd & Hpre & Hpost).
    replace (done ++ x :: l) with ((done ++ [x]) ++ l)
      by (rewrite <- app_assoc; reflexivity).
    destruct (better k (level_of lv b)) eqn:Eb.
    + rewrite <- Ek. apply IH; [|intros y Hy; apply Hdef; now right].
      exists done, []. split; [reflexivity|]. split; [|intros y []].
      intros y Hy. rewrite Ek. rewrite Hd in Hy. apply in_app_or in Hy.
      destruct Hy as [Hy|[<-|Hy]].
      * eapply better_trans; [exact Eb | now apply Hpre].
      * exact Eb.
      * eapply better_weak; [exact Eb | now apply Hpost].
    + apply IH; [|intros y Hy; apply Hdef; now right].
      exists pre, (post ++ [x]). split.
      * rewrite Hd, <- app_assoc. reflexivity.
      * split; [assumption|]. intros y Hy. apply in_app_or in Hy.
        destruct Hy as [Hy|[<-|[]]]; [now apply Hpost | now rewrite Ek].
Qed.

Lemma select_spec (l : list string) :
  l <> [] ->
  (forall x, In x l -> dict_get lv x <> None) ->
  exists r, select better lv l = Ok r /\ first_best better (level_of lv) l r.
Proof.
  intros Hne Hdef. destruct l as [|x l]; [congruence|].
  simpl. unfold level_key.
  destruct (dict_get lv x) as [k|] eqn:Ex;
    [|exfalso; apply (Hdef x (or_introl eq_refl) Ex)].
  simpl. assert (Ek : level_of lv x = k) by (unfold level_of; now rewrite Ex).
  rewrite <- Ek.
  destruct (@select_by_spec l [x] x) as (r & Hr & Hf).
  - exists [], []. split; [reflexivity|]. split; intros y [].
  - intros y Hy. apply Hdef. now right.
  - exists r. split; assumption.
Qed.
End Select.

Lemma first_best_In (better : nat -> nat -> bool) (lvl : string -> nat)
      (l : list string) (b : string) :
  first_best better lvl l b -> In b l.
Proof.
  intros (pre & post & -> & _). apply in_or_app. right. now left.
Qed.

Lemma first_min_le (lvl : string -> nat) (l : list string) (b : string) :
  first_best Nat.ltb lvl l b -> forall x, In x l -> lvl b <= lvl x.
Proof.
  intros (pre & post & -> & Hpre & Hpost) x Hx. apply in_app_or in Hx.
  destruct Hx as [Hx|[<-|Hx]].
  - specialize (Hpre x Hx). apply Nat.ltb_lt in Hpre. lia.
  - lia.
  - specialize (Hpost x Hx). apply Nat.ltb_ge in Hpost. lia.
Qed.

Lemma first_max_ge (lvl : string -> nat) (l : list string) (b : string) :
  first_best (fun k kb => Nat.ltb kb k) lvl l b -> forall x, In x l -> lvl x <= lvl b.
Proof.
  intros (pre & post & -> & Hpre & Hpost) x Hx. apply in_app_or in Hx.
  destruct Hx as [Hx|[<-|Hx]].
  - specialize (Hpre x Hx). apply Nat.ltb_lt in Hpre. lia.
  - lia.
  - specialize (Hpost x Hx). apply Nat.ltb_ge in Hpost. lia.
Qed.

Lemma ltb_trans (a b c : nat) :
  Nat.ltb a b = true -> Nat.ltb b c = true -> Nat.ltb a c = true.
Proof. rewrite !Nat.ltb_lt. lia. Qed.

Lemma ltb_weak (a b c : nat) :
  Nat.ltb a b = true -> Nat.ltb c b = false -> Nat.ltb a c = true.
Proof. rewrite !Nat.ltb_lt, Nat.ltb_ge. lia. Qed.

Lemma gtb_trans (a b c : nat) :
  Nat.ltb b a = true -> Nat.ltb c b = true -> Nat.ltb c a = true.
Proof. rewrite !Nat.ltb_lt. lia. Qed.

Lemma gtb_weak (a b c : nat) :
  Nat.ltb b a = true -> Nat.ltb b c = false -> Nat.ltb c a = true.
Proof. rewrite !Nat.ltb_lt, Nat.ltb_ge. lia. Qed.

(** C8 (amended): on a validated graph the level table gives every step
    level 0 when it has no dependencies and one more than the largest
    level of its dependencies otherwise.  On a non-empty ready queue the
    breadth-first strategy returns exactly one step, of minimum level, and
    the depth-first strategy exactly one step, of maximum level; among
    several steps of that level it is the one nearest the head of the
    queue, so the step is fixed by the levels and the order of the queue,
    not by the set of ready steps.  On the empty queue both return
    nothing. *)
Theorem strategy_selection (w : Workflow) :
  wf_workflow w -> validate_workflow w = Ok true ->
  exists lv,
    new_BreadthFirstStrategy w = Ok (BreadthFirstStrategy lv)
    /\ new_DepthFirstStrategy w = Ok (DepthFirstStrategy lv)
    /\ (forall s, In s (steps w) ->
                  dict_get lv (step_id s) = Some (level_formula lv s))
    /\ get_next_steps (BreadthFirstStrategy lv) [] = Ok []
    /\ get_next_steps (DepthFirstStrategy lv) [] = Ok []
    /\ forall ready,
        ready <> [] -> incl ready (step_ids (steps w)) ->
        exists b d,
          get_next_steps (BreadthFirstStrategy lv) ready = Ok [b]
          /\ first_best Nat.ltb (level_of lv) ready b
          /\ (forall x, In x ready -> level_of lv b <= level_of lv x)
          /\ get_next_steps (DepthFirstStrategy lv) ready = Ok [d]
          /\ first_best (fun k kb => Nat.ltb kb k) (level_of lv) ready d
          /\ (forall x, In x ready -> level_of lv x <= level_of lv d).
Proof.
  intros Hwf Hv. destruct (calculate_levels_spec Hwf Hv) as (lv & Hlv & Hform).
  exists lv. unfold new_BreadthFirstStrategy, new_DepthFirstStrategy.
  rewrite Hlv. simpl. do 5 (split; [auto|]).
  intros ready Hne Hinc.
  assert (Hdef : forall x, In x ready -> dict_get lv x <> None).
  { intros x Hx. specialize (Hinc x Hx). unfold step_ids in Hinc.
    apply in_map_iff in Hinc. destruct Hinc as (s & <- & Hs).
    rewrite (Hform s Hs). discriminate. }
  destruct (@select_spec Nat.ltb ltb_trans ltb_weak lv ready Hne Hdef) as (b & Hb & Fb).
  destruct (@select_spec (fun k kb => Nat.ltb kb k) gtb_trans gtb_weak lv ready Hne Hdef)
    as (d & Hd & Fd).
  exists b, d. unfold get_next_steps. rewrite Hb, Hd.
  destruct ready as [|r0 ready]; [congruence|].
  split; [reflexivity|]. split; [assumption|].
  split; [now apply first_min_le|]. split; [reflexivity|].
  split; [assumption | now apply first_max_ge].
Qed.

Lemma strategy_selection_witness :
  exists lv,
    new_BreadthFirstStrategy wf_fan = Ok (BreadthFirstStrategy lv)
    /\ exists b d,
        get_next_steps (BreadthFirstStrategy lv) ["B"; "A"; "C"]%string = Ok [b]
        /\ get_next_steps (DepthFirstStrategy lv) ["B"; "A"; "C"]%string = Ok [d].
Proof.
  destruct (@strategy_selection wf_fan (wf_check_sound wf_fan eq_refl) eq_refl)
    as (lv & Hb & _ & _ & _ & _ & Hsel).
  exists lv. split; [exact Hb|].
  destruct (Hsel ["B"; "A"; "C"]%string) as (b & d & H1 & _ & _ & H2 & _).
  - discriminate.
  - intros x Hx. simpl in Hx. simpl. tauto.
  - exists b, d. split; assumption.
Defined.

(* ================================================================== *)
(** * Views of the run-time state *)
(* ================================================================== *)

Lemma status_of_set_status (w : Workflow) (k k' : string) (st : Status) :
  status_of (set_status w k st) k' =
  if String.eqb k k' then option_map (fun _ => st) (status_of w k')
  else status_of w k'.
Proof.
  unfold status_of, set_status. simpl.
  rewrite find_update_step by reflexivity.
  destruct (String.eqb k k'); [|reflexivity].
  now destruct (find_step (steps w) k').
Qed.

Lemma status_of_set_retry (w : Workflow) (k k' : string) (n : Z) :
  status_of (set_retry_count w k n) k' = status_of w k'.
Proof.
  unfold status_of, set_retry_count. simpl.
  rewrite find_update_step by reflexivity.
  destruct (String.eqb k k'); [|reflexivity].
  now destruct (find_step (steps w) k').
Qed.

Lemma retry_of_set_status (w : Workflow) (k k' : string) (st : Status) :
  retry_of (set_status w k st) k' = retry_of w k'.
Proof.
  unfold retry_of, set_status. simpl.
  rewrite find_update_step by reflexivity.
  destruct (String.eqb k k'); [|reflexivity].
  now destruct (find_step (steps w) k').
Qed.

Lemma retry_of_set_retry (w : Workflow) (k k' : string) (n : Z) :
  retry_of (set_retry_count w k n) k' =
  if String.eqb k k' then option_map (fun _ => n) (retry_of w k')
  else retry_of w k'.
Proof.
  unfold retry_of, set_retry_count. simpl.
  rewrite find_update_step by reflexivity.
  destruct (String.eqb k k'); [|reflexivity].
  now destruct (find_step (steps w) k').
Qed.

Lemma map_reset_update (f : Step -> Step) (t : step_table) (k : string) :
  (forall s, reset_step (f s) = reset_step s) ->
  map reset_step (update_step f t k) = map reset_step t.
Proof.
  intros Hf. induction t as [|s t IH]; simpl; [reflexivity|].
  destruct (String.eqb (step_id s) k); simpl; [now rewrite Hf | now rewrite IH].
Qed.

Lemma skeleton_set_status (w : Workflow) (k : string) (st : Status) :
  skeleton (set_status w k st) = skeleton w.
Proof.
  unfold skeleton, set_status. simpl. f_equal.
  apply map_reset_update. reflexivity.
Qed.

Lemma skeleton_set_retry (w : Workflow) (k : string) (n : Z) :
  skeleton (set_retry_count w k n) = skeleton w.
Proof.
  unfold skeleton, set_retry_count. simpl. f_equal.
  apply map_reset_update. reflexivity.
Qed.

Lemma find_step_reset (t : step_table) (k : string) :
  find_step (map reset_step t) k = option_map reset_step (find_step t k).
Proof.
  induction t as [|s t IH]; simpl; [reflexivity|].
  destruct (String.eqb (step_id s) k); [reflexivity | assumption].
Qed.

Section Skeleton.
Variables (g w : Workflow).
Hypothesis Hsk : skeleton w = skeleton g.

Lemma skeleton_steps : map reset_step (steps w) = map reset_step (steps g).
Proof. now injection Hsk. Qed.

Lemma skeleton_inverse : inverse_dependencies w = inverse_dependencies g.
Proof. now injection Hsk. Qed.

Lemma skeleton_ids : step_ids (steps w) = step_ids (steps g).
Proof.
  pose proof skeleton_steps as H. apply (f_equal (map step_id)) in H.
  rewrite !map_map in H. exact H.
Qed.

Lemma skeleton_length : List.length (steps w) = List.length (steps g).
Proof.
  pose proof skeleton_ids as H. apply (f_equal (@List.length string)) in H.
  unfold step_ids in H. now rewrite !length_map in H.
Qed.

Lemma skeleton_find (k : string) :
  option_map reset_step (find_step (steps w) k)
  = option_map reset_step (find_step (steps g) k).
Proof. rewrite <- !find_step_reset. now rewrite skeleton_steps. Qed.

Lemma skeleton_step (k : string) (s : Step) :
  find_step (steps w) k = Some s ->
  exists s0, find_step (steps g) k = Some s0
             /\ dependencies s = dependencies s0
             /\ condition s = condition s0
             /\ failure_strategy s = failure_strategy s0
             /\ command s = command s0
             /\ step_id s = step_id s0.
Proof.
  intros Hs. pose proof (skeleton_find k) as H. rewrite Hs in H.
  destruct (find_step (steps g) k) as [s0|]; [|discriminate].
  exists s0. split; [reflexivity|]. simpl in H. injection H.
  intros. auto.
Qed.

Lemma skeleton_deps (k : string) : deps_of w k = deps_of g k.
Proof.
  unfold deps_of. pose proof (skeleton_find k) as H.
  destruct (find_step (steps w) k) as [s|], (find_step (steps g) k) as [s0|];
    try discriminate; [|reflexivity].
  simpl in H. now injection H.
Qed.

Lemma skeleton_inv_of (k : string) : inv_of w k = inv_of g k.
Proof. unfold inv_of. now rewrite skeleton_inverse. Qed.

Lemma skeleton_status_ids (k : string) :
  In k (step_ids (steps g)) <-> exists st, status_of w k = Some st.
Proof.
  rewrite <- skeleton_ids, find_step_Some_ids. unfold status_of.
  destruct (find_step (steps w) k) as [s|]; simpl.
  - split; eauto.
  - split; intros [x Hx]; discriminate.
Qed.
End Skeleton.

Lemma status_of_find (w : Workflow) (k : string) (s : Step) :
  find_step (steps w) k = Some s -> status_of w k = Some (status s).
Proof. unfold status_of. now intros ->. Qed.

Lemma status_of_inv (w : Workflow) (k : string) (st : Status) :
  status_of w k = Some st ->
  exists s, find_step (steps w) k = Some s /\ status s = st.
Proof.
  unfold status_of. destruct (find_step (steps w) k) as [s|]; simpl; [|discriminate].
  intros [= <-]. eauto.
Qed.

Lemma deps_of_find (w : Workflow) (k : string) (s : Step) :
  find_step (steps w) k = Some s -> deps_of w k = dependencies s.
Proof. unfold deps_of. now intros ->. Qed.

Lemma edge_deps_of (w : Workflow) (x y : string) :
  edge w x y <-> In y (deps_of w x).
Proof.
  unfold edge, deps_of. destruct (find_step (steps w) x) as [s|].
  - split; [intros (s' & [= <-] & H); exact H | eauto].
  - split; [intros (s' & H & _); discriminate | intros []].
Qed.

Lemma deps_of_ids (g : Workflow) (k d : string) :
  wf_workflow g -> In d (deps_of g k) ->
  In k (step_ids (steps g)) /\ In d (step_ids (steps g)).
Proof.
  intros Hwf Hd. apply edge_deps_of in Hd. split.
  - eapply edge_In_ids; eassumption.
  - eapply edge_target_ids; eassumption.
Qed.

Lemma inv_of_get (g : Workflow) (k : string) :
  wf_workflow g -> In k (step_ids (steps g)) ->
  get_inverse g k = Ok (inv_of g k).
Proof.
  intros Hwf Hk. unfold get_inverse, inv_of.
  rewrite <- (wf_inv_keys Hwf) in Hk. apply dict_get_In_keys in Hk.
  destruct Hk as [l Hl]. now rewrite Hl.
Qed.

Lemma inv_of_deps (g : Workflow) (k y : string) :
  wf_workflow g -> In k (step_ids (steps g)) -> In y (step_ids (steps g)) ->
  (In y (inv_of g k) <-> In k (deps_of g y)).
Proof.
  intros Hwf Hk Hy. unfold inv_of, deps_of.
  rewrite <- (wf_inv_keys Hwf) in Hk. apply dict_get_In_keys in Hk.
  destruct Hk as [l Hl]. rewrite Hl.
  apply find_step_Some_ids in Hy. destruct Hy as [sy Hsy]. rewrite Hsy.
  eapply wf_inv; eassumption.
Qed.

Lemma inv_of_ids (g : Workflow) (k y : string) :
  wf_workflow g -> In y (inv_of g k) -> In y (step_ids (steps g)).
Proof.
  intros Hwf. unfold inv_of.
  destruct (dict_get (inverse_dependencies g) k) as [l|] eqn:E; [|intros []].
  intros Hy. eapply wf_inv_ids; eassumption.
Qed.

(* ================================================================== *)
(** * One status change at a time *)
(* ================================================================== *)

Lemma status_changed_set (w : Workflow) (k : string) (a b : Status) :
  status_of w k = Some a -> status_changed w (set_status w k b) k b.
Proof.
  intros Ha k'. rewrite status_of_set_status.
  destruct (String.eqb_spec k k'); [subst; now rewrite Ha | reflexivity].
Qed.

Lemma status_changed_same (w w' : Workflow) (k k' : string) (b : Status) :
  status_changed w w' k b -> k' <> k -> status_of w' k' = status_of w k'.
Proof.
  intros H Hn. rewrite H. destruct (String.eqb_spec k k'); [congruence | reflexivity].
Qed.

Lemma status_changed_at (w w' : Workflow) (k : string) (b : Status) :
  status_changed w w' k b -> status_of w' k = Some b.
Proof. intros H. rewrite H. now rewrite String.eqb_refl. Qed.

Lemma same_books_refl (e : WorkflowEngine) : same_books e e.
Proof. constructor; auto. Qed.

Lemma same_books_trans (a b c : WorkflowEngine) :
  same_books a b -> same_books b c -> same_books a c.
Proof.
  intros [A1 A2 A3 A4] [B1 B2 B3 B4].
  constructor; [congruence | intros k; rewrite B2; apply A2 | congruence | congruence].
Qed.

Section Change.
Variables (g : Workflow) (e e' : WorkflowEngine) (k : string) (a b : Status).
Hypothesis Hok : engine_ok g e.
Hypothesis Ha : status_of (workflow e) k = Some a.
Hypothesis Hns : a <> SUCCESS.
Hypothesis Hsk : skeleton (workflow e') = skeleton g.
Hypothesis Hch : status_changed (workflow e) (workflow e') k b.
Hypothesis Hdeps :
  past_ready b = true ->
  forall d, In d (deps_of g k) -> status_of (workflow e) d = Some SUCCESS.

Lemma change_deps (k' : string) (st : Status) :
  status_of (workflow e') k' = Some st -> past_ready st = true ->
  forall d, In d (deps_of g k') -> status_of (workflow e') d = Some SUCCESS.
Proof.
  intros Hst Hp d Hd.
  assert (Hold : status_of (workflow e) d = Some SUCCESS).
  { destruct (String.eqb_spec k' k) as [->|Hn].
    - rewrite (status_changed_at Hch) in Hst. injection Hst as <-. auto.
    - rewrite (status_changed_same Hch Hn) in Hst.
      eapply (eo_deps Hok); eassumption. }
  rewrite (status_changed_same Hch); [assumption|].
  intros ->. congruence.
Qed.

(** Neither the old nor the new status is [READY]: the queue is kept. *)
Lemma change_keep :
  a <> READY -> b <> READY -> ready_queue e' = ready_queue e -> engine_ok g e'.
Proof.
  intros Har Hbr Hq. constructor.
  - assumption.
  - rewrite Hq. apply (eo_queue_nodup Hok).
  - intros k'. rewrite Hq, (eo_queue Hok). rewrite Hch.
    destruct (String.eqb_spec k k') as [<-|Hn]; [|tauto].
    rewrite Ha. split; congruence.
  - exact change_deps.
Qed.

(** The step becomes [READY] and is appended to the queue. *)
Lemma change_enqueue :
  a <> READY -> b = READY -> ready_queue e' = ready_queue e ++ [k] ->
  engine_ok g e'.
Proof.
  intros Har Hbr Hq.
  assert (Hnq : ~ In k (ready_queue e)).
  { rewrite (eo_queue Hok). congruence. }
  constructor.
  - assumption.
  - rewrite Hq. apply NoDup_app; [apply (eo_queue_nodup Hok) | repeat constructor; intros [] |].
    intros x Hx [<-|[]]. contradiction.
  - intros k'. rewrite Hq, in_app_iff, (eo_queue Hok), Hch. simpl.
    destruct (String.eqb_spec k k') as [<-|Hn].
    + subst b. rewrite Ha. split; [reflexivity | auto].
    + split; [intros [H|[H|[]]]; [assumption | contradiction] | auto].
  - exact change_deps.
Qed.

(** The step was [READY] and leaves the queue. *)
Lemma change_dequeue :
  a = READY -> b <> READY -> ready_queue e' = remove_first k (ready_queue e) ->
  engine_ok g e'.
Proof.
  intros Har Hbr Hq.
  destruct (NoDup_remove_first k (eo_queue_nodup Hok)) as [Hnd Hnk].
  constructor.
  - assumption.
  - now rewrite Hq.
  - intros k'. rewrite Hq, Hch.
    destruct (String.eqb_spec k k') as [<-|Hn].
    + split; [contradiction | congruence].
    + rewrite <- (eo_queue Hok). split.
      * apply In_remove_first.
      * apply In_remove_first_neq. congruence.
  - exact change_deps.
Qed.

(** The threads that have not run yet still see their step [RUNNING]. *)
Lemma change_started (l : list string) :
  (forall x, In x l -> status_of (workflow e) x = Some RUNNING) ->
  b = RUNNING \/ ~ In k l ->
  forall x, In x l -> status_of (workflow e') x = Some RUNNING.
Proof.
  intros Hst Hb x Hx. rewrite Hch.
  destruct (String.eqb_spec k x) as [<-|Hn]; [|auto].
  destruct Hb as [->|Hb]; [reflexivity | contradiction].
Qed.

(** Propagated failures stay propagated, when the step that changes is
    not itself doomed afterwards. *)
Lemma change_doomed (ts : list Thread) :
  a <> SKIPPED ->
  ~ doomed g e' ts k ->
  (forall k0 y, doomed g e ts k0 -> In k0 (deps_of g y) ->
                status_of (workflow e) y = Some SKIPPED) ->
  forall k0 y, doomed g e' ts k0 -> In k0 (deps_of g y) ->
               status_of (workflow e') y = Some SKIPPED.
Proof.
  intros Hsk' Hnd Hold k0 y Hd Hy.
  assert (Hk0 : k0 <> k) by (intros ->; contradiction).
  assert (Hd0 : doomed g e ts k0).
  { destruct Hd as [[H1 H2]|[H1 (d & Hd1 & Hd2)]].
    - left. rewrite (status_changed_same Hch Hk0) in H1. auto.
    - right. rewrite (status_changed_same Hch Hk0) in H1. split; [assumption|].
      exists d. split; [assumption|].
      destruct (String.eqb_spec d k) as [->|Hn]; [congruence|].
      now rewrite (status_changed_same Hch Hn) in Hd2. }
  specialize (Hold k0 y Hd0 Hy).
  rewrite (status_changed_same Hch); [assumption|].
  intros ->. congruence.
Qed.
End Change.

(* ================================================================== *)
(** * The readiness update *)
(* ================================================================== *)

Lemma deps_satisfied_spec (w : Workflow) (ds : list string) :
  (forall d, In d ds -> In d (step_ids (steps w))) ->
  exists b, deps_satisfied w ds = Ok b
            /\ (b = true <-> forall d, In d ds -> status_of w d = Some SUCCESS).
Proof.
  induction ds as [|d ds IH]; intros Hin; simpl.
  - exists true. split; [reflexivity|]. split; [intros _ d [] | reflexivity].
  - destruct (proj1 (find_step_Some_ids _ _) (Hin d (or_introl eq_refl))) as [s Hs].
    unfold get_step. rewrite Hs. simpl.
    destruct (Status_eqb_spec (status s) SUCCESS) as [E|E].
    + destruct IH as (b & Hb & Hiff); [intros; apply Hin; now right|].
      exists b. split; [assumption|]. rewrite Hiff. split.
      * intros H d' [<-|Hd']; [|auto]. rewrite (status_of_find _ _ Hs). now rewrite E.
      * intros H d' Hd'. apply H. now right.
    + exists false. split; [reflexivity|]. split; [discriminate|].
      intros H. specialize (H d (or_introl eq_refl)).
      rewrite (status_of_find _ _ Hs) in H. congruence.
Qed.

Lemma truthy_evaluate_false (w : Workflow) (c : option string) :
  _evaluate_condition w c = Ok false -> truthy c = true.
Proof.
  destruct c as [[|x c]|]; simpl; try discriminate. reflexivity.
Qed.

Lemma started_running_not (g : Workflow) (e : WorkflowEngine) (ts : list Thread)
      (k : string) (a : Status) :
  system_ok g (mkSystem e ts) -> status_of (workflow e) k = Some a ->
  a <> RUNNING -> ~ In k (started ts).
Proof.
  intros Hok Ha Hn Hin. pose proof (so_started Hok k Hin) as H. simpl in H. congruence.
Qed.

(** One iteration of the readiness update keeps the invariant of the run
    and does one of the three things of [update_outcome]. *)
Lemma update_one_spec (g : Workflow) (e : WorkflowEngine) (ts : list Thread)
      (k : string) :
  wf_workflow g -> system_ok g (mkSystem e ts) -> In k (step_ids (steps g)) ->
  exists e', update_one e k = Ok e'
             /\ system_ok g (mkSystem e' ts)
             /\ same_books e e'
             /\ update_outcome g e k e'.
Proof.
  intros Hwf Hok Hk. pose proof (so_engine Hok) as Heo. simpl in Heo.
  pose proof (eo_skeleton Heo) as Hsk.
  assert (Hk' : In k (step_ids (steps (workflow e)))) by now rewrite (skeleton_ids Hsk).
  destruct (proj1 (find_step_Some_ids _ _) Hk') as [s Hs].
  pose proof (status_of_find _ _ Hs) as Hst.
  unfold update_one, get_step. rewrite Hs. simpl.
  destruct (Status_eqb_spec (status s) PENDING) as [Ep|Ep]; simpl.
  2:{ exists e. split; [reflexivity|]. split; [assumption|].
      split; [apply same_books_refl|]. left. split; [reflexivity|].
      left. rewrite Hst. congruence. }
  rewrite Ep in Hst.
  assert (Ed : dependencies s = deps_of g k).
  { rewrite <- (skeleton_deps Hsk). symmetry. now apply deps_of_find. }
  destruct (@deps_satisfied_spec (workflow e) (dependencies s)) as (sat & Hsat & Hiff).
  { intros d Hd. rewrite (skeleton_ids Hsk). rewrite Ed in Hd.
    now apply (@deps_of_ids g k d Hwf). }
  rewrite Hsat. simpl. rewrite Ed in Hiff. destruct sat.
  2:{ exists e. split; [reflexivity|]. split; [assumption|].
      split; [apply same_books_refl|]. left. split; [reflexivity|]. right.
      assert (Hex : ~ (forall d, In d (deps_of g k) ->
                                 status_of (workflow e) d = Some SUCCESS))
        by (intros H; apply Hiff in H; discriminate).
      clear Hiff Hsat Ed. induction (deps_of g k) as [|d ds IH].
      - exfalso. apply Hex. intros d [].
      - destruct (status_of (workflow e) d) as [[]|] eqn:E;
          try (exists d; split; [now left | congruence]).
        destruct IH as (d' & Hd' & Hn).
        + intros H. apply Hex. intros d' [<-|Hd']; auto.
        + exists d'. split; [now right | assumption]. }
  assert (Hall : forall d, In d (deps_of g k) -> status_of (workflow e) d = Some SUCCESS)
    by now apply Hiff.
  destruct (evaluate_total (workflow e) (condition s)) as [c Hc].
  rewrite Hc. simpl.
  assert (Hnst : ~ In k (started ts)).
  { eapply started_running_not; [eassumption | eassumption | discriminate]. }
  destruct c.
  - set (e' := with_queue (ready_queue e ++ [k])
                          (with_workflow (set_status (workflow e) k READY) e)).
    assert (Hch : status_changed (workflow e) (workflow e') k READY)
      by (eapply status_changed_set; eassumption).
    exists e'. split; [reflexivity|]. split; [|split].
    + constructor; cbn [engine running_threads].
      * eapply change_enqueue with (a := PENDING) (b := READY); eauto; try discriminate.
        simpl. now rewrite skeleton_set_status.
      * apply (so_started_nodup Hok).
      * eapply change_started; eauto. apply (so_started Hok).
      * apply (so_threads Hok).
      * eapply change_doomed with (a := PENDING); eauto; try discriminate.
        -- intros [[H _]|[H _]]; rewrite (status_changed_at Hch) in H; discriminate.
        -- apply (so_doomed Hok).
    + constructor; simpl; auto. intros k'. apply retry_of_set_status.
    + right. split; [assumption|]. split; [assumption|].
      exists s, true. auto.
  - rewrite (truthy_evaluate_false _ _ Hc). simpl.
    set (e' := with_workflow (set_status (workflow e) k SKIPPED) e).
    assert (Hch : status_changed (workflow e) (workflow e') k SKIPPED)
      by (eapply status_changed_set; eassumption).
    exists e'. split; [reflexivity|]. split; [|split].
    + constructor; cbn [engine running_threads].
      * eapply change_keep with (a := PENDING) (b := SKIPPED); eauto; try discriminate.
        simpl. now rewrite skeleton_set_status.
      * apply (so_started_nodup Hok).
      * eapply change_started; eauto. apply (so_started Hok).
      * apply (so_threads Hok).
      * eapply change_doomed with (a := PENDING); eauto; try discriminate.
        -- intros [[H _]|[_ (d & Hd & Hn)]].
           ++ rewrite (status_changed_at Hch) in H. discriminate.
           ++ apply Hn. rewrite (status_changed_same Hch).
              ** now apply Hall.
              ** intros ->. specialize (Hall _ Hd). congruence.
        -- apply (so_doomed Hok).
    + constructor; simpl; auto. intros k'. apply retry_of_set_status.
    + right. split; [assumption|]. split; [assumption|].
      exists s, false. auto.
Qed.

Lemma only_changes_refl (R : Status -> Status -> Prop) (w : Workflow) :
  only_changes R w w.
Proof. intros k. now left. Qed.

Lemma only_changes_trans (R : Status -> Status -> Prop) (w1 w2 w3 : Workflow) :
  (forall a b c, R a b -> R b c -> R a c) ->
  only_changes R w1 w2 -> only_changes R w2 w3 -> only_changes R w1 w3.
Proof.
  intros HR H12 H23 k.
  destruct (H12 k) as [E|(a & b & Ea & Eb & Hab)];
    destruct (H23 k) as [E'|(a' & b' & Ea' & Eb' & Hab')].
  - left. congruence.
  - right. exists a', b'. rewrite <- E. auto.
  - right. exists a, b. rewrite E'. auto.
  - right. exists a, b'. rewrite Eb in Ea'. injection Ea' as <-. eauto.
Qed.

Lemma only_changes_changed (R : Status -> Status -> Prop) (w w' : Workflow)
      (k : string) (a b : Status) :
  status_of w k = Some a -> status_changed w w' k b -> R a b ->
  only_changes R w w'.
Proof.
  intros Ha Hch Hab k'. destruct (String.eqb_spec k' k) as [->|Hn].
  - right. exists a, b. split; [assumption|]. split; [|assumption].
    now apply (status_changed_at Hch).
  - left. now apply (status_changed_same Hch).
Qed.

Lemma update_move_trans (a b c : Status) :
  update_move a b -> update_move b c -> update_move a c.
Proof. intros H1 H2. destruct H1; inversion H2. Qed.

Lemma cascade_move_trans (a b c : Status) :
  cascade_move a b -> cascade_move b c -> cascade_move a c.
Proof. intros H1 H2. destruct H1; inversion H2. Qed.

Lemma update_keeps (w w' : Workflow) (k : string) (st : Status) :
  only_changes update_move w w' ->
  status_of w k = Some st -> st <> PENDING -> status_of w' k = Some st.
Proof.
  intros H Hs Hn. destruct (H k) as [E|(a & b & Ea & Eb & Hab)]; [congruence|].
  rewrite Hs in Ea. injection Ea as <-. destruct Hab; congruence.
Qed.

Lemma update_old_status (w w' : Workflow) (k : string) (st : Status) :
  only_changes update_move w w' ->
  status_of w' k = Some st -> st <> READY -> st <> SKIPPED -> status_of w k = Some st.
Proof.
  intros H Hs Hn1 Hn2. destruct (H k) as [E|(a & b & Ea & Eb & Hab)]; [congruence|].
  rewrite Hs in Eb. injection Eb as <-. destruct Hab; congruence.
Qed.


Lemma update_outcome_changes (g : Workflow) (e e' : WorkflowEngine) (k : string) :
  update_outcome g e k e' -> only_changes update_move (workflow e) (workflow e').
Proof.
  intros [[-> _]|(Hp & _ & s & c & _ & _ & Hch & _)].
  - apply only_changes_refl.
  - eapply only_changes_changed; [eassumption | eassumption |].
    destruct c; constructor.
Qed.

(** A pass of the readiness update over the steps [ids]. *)
Lemma update_over_spec (g : Workflow) (ts : list Thread) :
  wf_workflow g ->
  forall ids e,
    system_ok g (mkSystem e ts) -> incl ids (step_ids (steps g)) ->
    exists e',
      update_over e ids = Ok e'
      /\ system_ok g (mkSystem e' ts)
      /\ same_books e e'
      /\ only_changes update_move (workflow e) (workflow e')
      /\ (forall k, status_of (workflow e) k = Some PENDING ->
                    status_of (workflow e') k = Some READY ->
                    forall d, In d (deps_of g k) ->
                              status_of (workflow e) d = Some SUCCESS)
      /\ (forall k, In k ids -> status_of (workflow e') k = Some PENDING ->
                    exists d, In d (deps_of g k)
                              /\ status_of (workflow e') d <> Some SUCCESS)
      /\ (forall x, In x (ready_queue e) -> In x (ready_queue e')).
Proof.
  intros Hwf. induction ids as [|k ids IH]; intros e Hok Hids.
  - exists e. split; [reflexivity|]. split; [assumption|].
    split; [apply same_books_refl|]. split; [apply only_changes_refl|].
    split; [intros k H1 H2; congruence|]. split; [intros k []|auto].
  - simpl.
    destruct (@update_one_spec g e ts k Hwf Hok (Hids k (or_introl eq_refl)))
      as (e1 & Hr & Hok1 & Hb1 & Hout).
    rewrite Hr. simpl.
    destruct (IH e1 Hok1) as (e' & Hr' & Hok' & Hb' & Hch' & Hrd' & Hpd' & Hq').
    { intros x Hx. apply Hids. now right. }
    pose proof (update_outcome_changes Hout) as Hch1.
    exists e'. split; [assumption|]. split; [assumption|].
    split; [eapply same_books_trans; eassumption|].
    split; [eapply only_changes_trans; eauto using update_move_trans|].
    split; [|split].
    + intros x Hx Hx' d Hd.
      destruct Hout as [[-> _]|(Hp & Hall & s & c & Hs & Hc & Hch & Hq)].
      * eapply Hrd'; eassumption.
      * destruct (String.eqb_spec x k) as [->|Hn]; [now apply Hall|].
        assert (H1 : status_of (workflow e1) x = Some PENDING)
          by now rewrite (status_changed_same Hch Hn).
        specialize (Hrd' x H1 Hx' d Hd).
        eapply update_old_status; [exact Hch1 | exact Hrd' | discriminate | discriminate].
    + intros x [<-|Hx] Hx'; [|now apply Hpd'].
      assert (H1 : status_of (workflow e1) k = Some PENDING)
        by (eapply update_old_status; [exact Hch' | exact Hx' | discriminate | discriminate]).
      destruct Hout as [[-> [Hn|(d & Hd & Hn)]]|(Hp & Hall & s & c & Hs & Hc & Hch & Hq)].
      * contradiction.
      * exists d. split; [assumption|]. intros H. apply Hn.
        eapply update_old_status; [exact Hch' | exact H | discriminate | discriminate].
      * rewrite (status_changed_at Hch) in H1. destruct c; discriminate.
    + intros x Hx. apply Hq'.
      destruct Hout as [[-> _]|(Hp & Hall & s & c & Hs & Hc & Hch & Hq)]; [assumption|].
      rewrite Hq. destruct c; [apply in_or_app; now left | assumption].
Qed.

(** [_update_ready_queue] returns, keeps the invariant of the run, only
    moves pending steps to [READY] or [SKIPPED], makes a step ready only
    when all its dependencies are [SUCCESS], and leaves no pending step
    whose dependencies are all [SUCCESS]. *)
Lemma update_ready_queue_spec (g : Workflow) (e : WorkflowEngine) (ts : list Thread) :
  wf_workflow g -> system_ok g (mkSystem e ts) ->
  exists e',
    _update_ready_queue e = Ok e'
    /\ system_ok g (mkSystem e' ts)
    /\ same_books e e'
    /\ only_changes update_move (workflow e) (workflow e')
    /\ (forall k, status_of (workflow e) k = Some PENDING ->
                  status_of (workflow e') k = Some READY ->
                  forall d, In d (deps_of g k) ->
                            status_of (workflow e) d = Some SUCCESS)
    /\ no_ready_pending g e'
    /\ (forall x, In x (ready_queue e) -> In x (ready_queue e')).
Proof.
  intros Hwf Hok. unfold _update_ready_queue.
  pose proof (eo_skeleton (so_engine Hok)) as Hsk. simpl in Hsk.
  destruct (@update_over_spec g ts Hwf (step_ids (steps (workflow e))) e Hok)
    as (e' & Hr & Hok' & Hb & Hch & Hrd & Hpd & Hq).
  { rewrite (skeleton_ids Hsk). apply incl_refl. }
  exists e'. split; [assumption|]. split; [assumption|]. split; [assumption|].
  split; [assumption|]. split; [assumption|]. split; [|assumption].
  intros k Hk. apply Hpd; [|assumption].
  rewrite (skeleton_ids Hsk).
  pose proof (eo_skeleton (so_engine Hok')) as Hsk'. simpl in Hsk'.
  apply (skeleton_status_ids Hsk'). eauto.
Qed.

(* ================================================================== *)
(** * The skip cascade *)
(* ================================================================== *)

Lemma weight_skip (g : Workflow) (t : step_table) (y : string) (s : Step) :
  find_step t y = Some s -> waiting (status s) = true ->
  weight_of g (update_step (with_status SKIPPED) t y) + List.length (inv_of g y)
  = weight_of g t.
Proof.
  unfold weight_of. induction t as [|s0 t IH]; simpl; [discriminate|].
  destruct (String.eqb_spec (step_id s0) y) as [E|E].
  - intros [= ->] Hw. simpl. rewrite Hw, E. lia.
  - intros Hs Hw. simpl. specialize (IH Hs Hw). lia.
Qed.

Lemma dict_values_by_key {V : Type} (d : dict (list V)) :
  NoDup (dict_keys d) ->
  map (fun k => match dict_get d k with Some l => l | None => [] end) (dict_keys d)
  = map snd d.
Proof.
  induction d as [|[k0 v0] d IH]; simpl; intros Hnd; [reflexivity|].
  inversion Hnd as [|? ? Hni Hnd']; subst.
  rewrite String.eqb_refl. f_equal. rewrite <- (IH Hnd').
  apply map_ext_in. intros k Hk.
  destruct (String.eqb_spec k0 k); [subst; contradiction | reflexivity].
Qed.

Lemma weight_le_all (g : Workflow) (t : step_table) :
  weight_of g t
  <= list_sum (map (fun k => List.length (inv_of g k)) (step_ids t)).
Proof.
  unfold weight_of, step_ids. induction t as [|s t IH]; simpl; [lia|].
  destruct (waiting (status s)); lia.
Qed.

Lemma weight_le_inverse (g w : Workflow) :
  wf_workflow g -> skeleton w = skeleton g -> pending_weight g w <= inverse_size g.
Proof.
  intros Hwf Hsk. unfold pending_weight.
  eapply Nat.le_trans; [apply weight_le_all|].
  rewrite (skeleton_ids Hsk), <- (wf_inv_keys Hwf). unfold inverse_size.
  assert (Hnd : NoDup (dict_keys (inverse_dependencies g))).
  { rewrite (wf_inv_keys Hwf). apply (wf_nodup Hwf). }
  pose proof (dict_values_by_key _ Hnd) as H.
  apply (f_equal (map (@List.length string))) in H. rewrite !map_map in H.
  unfold inv_of. rewrite <- H. apply Nat.le_refl.
Qed.

Lemma cascade_keeps (w w' : Workflow) (k : string) (st : Status) :
  only_changes cascade_move w w' ->
  status_of w k = Some st -> waiting st = false -> status_of w' k = Some st.
Proof.
  intros H Hs Hn. destruct (H k) as [E|(a & b & Ea & Eb & Hab)]; [congruence|].
  rewrite Hs in Ea. injection Ea as <-. destruct Hab; discriminate.
Qed.

Lemma cascade_old_status (w w' : Workflow) (k : string) (st : Status) :
  only_changes cascade_move w w' ->
  status_of w' k = Some st -> st <> SKIPPED -> status_of w k = Some st.
Proof.
  intros H Hs Hn. destruct (H k) as [E|(a & b & Ea & Eb & Hab)]; [congruence|].
  rewrite Hs in Eb. injection Eb as <-. destruct Hab; congruence.
Qed.

Lemma cascade_not_waiting (w w' : Workflow) (y : string) :
  only_changes cascade_move w w' -> not_waiting w y -> not_waiting w' y.
Proof.
  intros H (st & Hs & Hw). exists st. split; [|assumption].
  eapply cascade_keeps; eassumption.
Qed.

Lemma get_inverse_skeleton (g w : Workflow) (k : string) :
  wf_workflow g -> skeleton w = skeleton g -> In k (step_ids (steps g)) ->
  get_inverse w k = Ok (inv_of g k).
Proof.
  intros Hwf Hsk Hk. unfold get_inverse. rewrite (skeleton_inverse Hsk).
  now apply inv_of_get.
Qed.

(** The loop of the cascade returns when its fuel covers the queue and the
    entries still to be pushed.  It keeps the engine invariant, turns only
    waiting steps to [SKIPPED], leaves no waiting step among the ids it was
    given nor among the dependents of the steps it skipped. *)
Lemma skip_loop_spec (g : Workflow) :
  wf_workflow g ->
  forall fuel e to_skip skipped,
    engine_ok g e ->
    List.length to_skip + pending_weight g (workflow e) <= fuel ->
    (forall y, In y to_skip -> In y (step_ids (steps g))) ->
    (forall y, In y skipped -> status_of (workflow e) y = Some SKIPPED) ->
    exists e',
      skip_loop fuel e to_skip skipped = Ok e'
      /\ engine_ok g e'
      /\ same_books e e'
      /\ only_changes cascade_move (workflow e) (workflow e')
      /\ (forall y, In y to_skip -> not_waiting (workflow e') y)
      /\ (forall x a, status_of (workflow e) x = Some a -> waiting a = true ->
                      status_of (workflow e') x = Some SKIPPED ->
                      forall y, In y (inv_of g x) -> not_waiting (workflow e') y)
      /\ (forall x, In x (ready_queue e') -> In x (ready_queue e)).
Proof.
  intros Hwf. induction fuel as [|fuel IH]; intros e to_skip skipped Hok Hfuel Hids Hsk.
  - destruct to_skip as [|y rest]; [|simpl in Hfuel; lia].
    exists e. simpl. split; [reflexivity|]. split; [assumption|].
    split; [apply same_books_refl|]. split; [apply only_changes_refl|].
    split; [intros y []|]. split; [|auto].
    intros x a Ha Hw Hs. rewrite Ha in Hs. injection Hs as ->. discriminate.
  - destruct to_skip as [|y rest].
    { exists e. simpl. split; [reflexivity|]. split; [assumption|].
      split; [apply same_books_refl|]. split; [apply only_changes_refl|].
      split; [intros y []|]. split; [|auto].
      intros x a Ha Hw Hs. rewrite Ha in Hs. injection Hs as ->. discriminate. }
    simpl in Hfuel. simpl.
    pose proof (eo_skeleton Hok) as Hske.
    assert (Hy : In y (step_ids (steps g))) by (apply Hids; now left).
    assert (Hrest : forall z, In z rest -> In z (step_ids (steps g)))
      by (intros z Hz; apply Hids; now right).
    destruct (mem y skipped) eqn:Em.
    { apply mem_In in Em. pose proof (Hsk y Em) as Hsy.
      destruct (IH e rest skipped Hok) as (e' & Hr & Hok' & Hb & Hch & Hcl & Hex & Hq);
        [lia | assumption | assumption |].
      exists e'. split; [assumption|]. split; [assumption|]. split; [assumption|].
      split; [assumption|]. split; [|split; assumption].
      intros z [<-|Hz]; [|auto]. exists SKIPPED. split; [|reflexivity].
      eapply cascade_keeps; eauto. }
    assert (Hy' : In y (step_ids (steps (workflow e)))) by now rewrite (skeleton_ids Hske).
    destruct (proj1 (find_step_Some_ids _ _) Hy') as [s Hs].
    pose proof (status_of_find _ _ Hs) as Hst.
    unfold get_step. rewrite Hs. simpl.
    destruct (Status_eqb (status s) PENDING || Status_eqb (status s) READY) eqn:Ew.
    2:{ destruct (IH e rest skipped Hok) as (e' & Hr & Hok' & Hb & Hch & Hcl & Hex & Hq);
          [lia | assumption | assumption |].
        exists e'. split; [assumption|]. split; [assumption|]. split; [assumption|].
        split; [assumption|]. split; [|split; assumption].
        intros z [<-|Hz]; [|auto]. exists (status s). split.
        - eapply cascade_keeps; eauto. destruct (status s); simpl in *; congruence.
        - destruct (status s); simpl in *; congruence. }
    assert (Hw : waiting (status s) = true)
      by (destruct (status s); simpl in *; congruence).
    set (e1 := with_workflow (set_status (workflow e) y SKIPPED) e).
    set (e2 := if mem y (ready_queue e)
               then with_queue (remove_first y (ready_queue e)) e1 else e1).
    assert (Hw2 : workflow e2 = set_status (workflow e) y SKIPPED)
      by (unfold e2; destruct (mem y (ready_queue e)); reflexivity).
    assert (Hch2 : status_changed (workflow e) (workflow e2) y SKIPPED)
      by (rewrite Hw2; eapply status_changed_set; eassumption).
    assert (Hsk2 : skeleton (workflow e2) = skeleton g)
      by (rewrite Hw2, skeleton_set_status; assumption).
    assert (Hok2 : engine_ok g e2).
    { destruct (Status_eq_dec (status s) READY) as [Er|Er].
      - eapply change_dequeue with (a := READY) (b := SKIPPED) (k := y); eauto;
          try discriminate; try congruence.
        unfold e2. assert (Hin : In y (ready_queue e)).
        { simpl. apply (eo_queue Hok). congruence. }
        apply mem_In in Hin. rewrite Hin. reflexivity.
      - eapply change_keep with (a := status s) (b := SKIPPED) (k := y); eauto;
          try discriminate.
        + intros E. rewrite E in Hw. discriminate.
        + unfold e2. assert (Hin : ~ In y (ready_queue e)).
          { simpl. rewrite (eo_queue Hok). congruence. }
          apply mem_false in Hin. rewrite Hin. reflexivity. }
    assert (Hb2 : same_books e e2).
    { unfold e2. destruct (mem y (ready_queue e)); constructor; simpl; auto;
        intros k'; apply retry_of_set_status. }
    assert (Hq2 : forall x, In x (ready_queue e2) -> In x (ready_queue e)).
    { unfold e2. destruct (mem y (ready_queue e)); simpl; auto.
      intros x. apply In_remove_first. }
    rewrite (get_inverse_skeleton y Hwf Hsk2 Hy). simpl.
    destruct (IH e2 (rest ++ inv_of g y) (set_add y skipped) Hok2)
      as (e' & Hr & Hok' & Hb & Hch & Hcl & Hex & Hq).
    { rewrite length_app. unfold pending_weight. rewrite Hw2. simpl.
      pose proof (weight_skip g _ _ Hs Hw). unfold pending_weight in Hfuel. lia. }
    { intros z Hz. apply in_app_or in Hz. destruct Hz as [Hz|Hz]; [auto|].
      eapply inv_of_ids; eassumption. }
    { intros z Hz. unfold set_add in Hz. rewrite Em in Hz.
      destruct Hz as [<-|Hz]; [now apply (status_changed_at Hch2)|].
      rewrite (status_changed_same Hch2); [auto|].
      intros ->. apply mem_false in Em. contradiction. }
    assert (Hch02 : only_changes cascade_move (workflow e) (workflow e2)).
    { eapply only_changes_changed; [eassumption | eassumption |].
      destruct (status s); try discriminate; constructor. }
    exists e'. split; [assumption|]. split; [assumption|].
    split; [eapply same_books_trans; eassumption|].
    split; [eapply only_changes_trans; eauto using cascade_move_trans|].
    split; [|split].
    + intros z [<-|Hz]; [|apply Hcl; apply in_or_app; now left].
      exists SKIPPED. split; [|reflexivity].
      eapply cascade_keeps; [exact Hch | now apply (status_changed_at Hch2) | reflexivity].
    + intros x a Ha Hwa Hs' z Hz.
      destruct (String.eqb_spec x y) as [->|Hn].
      * apply Hcl. apply in_or_app. now right.
      * eapply Hex; [|exact Hwa | exact Hs' | exact Hz].
        now rewrite (status_changed_same Hch2 Hn).
    + intros x Hx. auto.
Qed.

(** [_skip_dependents] returns and does what its loop does. *)
Lemma skip_dependents_spec (g : Workflow) (e : WorkflowEngine) (k : string) :
  wf_workflow g -> engine_ok g e -> In k (step_ids (steps g)) ->
  exists e',
    _skip_dependents e k = Ok e'
    /\ engine_ok g e'
    /\ same_books e e'
    /\ only_changes cascade_move (workflow e) (workflow e')
    /\ (forall y, In y (inv_of g k) -> not_waiting (workflow e') y)
    /\ (forall x a, status_of (workflow e) x = Some a -> waiting a = true ->
                    status_of (workflow e') x = Some SKIPPED ->
                    forall y, In y (inv_of g x) -> not_waiting (workflow e') y)
    /\ (forall x, In x (ready_queue e') -> In x (ready_queue e)).
Proof.
  intros Hwf Hok Hk. unfold _skip_dependents.
  pose proof (eo_skeleton Hok) as Hsk.
  rewrite (get_inverse_skeleton k Hwf Hsk Hk). simpl.
  apply skip_loop_spec; auto.
  - pose proof (weight_le_inverse Hwf Hsk).
    unfold inverse_size in *. rewrite (skeleton_inverse Hsk). lia.
  - intros y Hy. eapply inv_of_ids; eassumption.
  - intros y [].
Qed.

(* ================================================================== *)
(** * Threads *)
(* ================================================================== *)

Lemma started_app (ts1 ts2 : list Thread) :
  started (ts1 ++ ts2) = started ts1 ++ started ts2.
Proof. unfold started. now rewrite filter_app, map_app. Qed.

Lemma started_cons (t : Thread) (ts : list Thread) :
  started (t :: ts) = if is_started t then thread_step t :: started ts else started ts.
Proof. unfold started. simpl. now destruct (is_started t). Qed.

Lemma started_replace (ts1 ts2 : list Thread) (k : string) (ph : Phase) :
  ph <> Started ->
  started (ts1 ++ mkThread k ph :: ts2) = started ts1 ++ started ts2.
Proof.
  intros H. rewrite started_app, started_cons. unfold is_started. simpl.
  destruct ph; congruence.
Qed.

Lemma started_at (ts1 ts2 : list Thread) (k : string) :
  started (ts1 ++ mkThread k Started :: ts2) = started ts1 ++ k :: started ts2.
Proof. rewrite started_app, started_cons. reflexivity. Qed.

Lemma unsettled_replace (ts1 ts2 : list Thread) (k k0 : string) (ph ph' : Phase) :
  k0 <> k ->
  unsettled (ts1 ++ mkThread k ph :: ts2) k0 ->
  unsettled (ts1 ++ mkThread k ph' :: ts2) k0.
Proof.
  unfold unsettled. intros Hn H. apply in_app_or in H. apply in_or_app.
  destruct H as [H|[H|H]]; [now left | congruence | right; now right].
Qed.

Lemma unsettled_replace_phase (ts1 ts2 : list Thread) (k k0 : string) (ph ph' : Phase) :
  ph <> Finished false ->
  unsettled (ts1 ++ mkThread k ph :: ts2) k0 ->
  unsettled (ts1 ++ mkThread k ph' :: ts2) k0.
Proof.
  unfold unsettled. intros Hn H. apply in_app_or in H. apply in_or_app.
  destruct H as [H|[H|H]]; [now left | congruence | right; now right].
Qed.

Lemma threads_replace (ids : list string) (ts1 ts2 : list Thread) (k : string)
      (ph ph' : Phase) :
  (forall t, In t (ts1 ++ mkThread k ph :: ts2) -> In (thread_step t) ids) ->
  forall t, In t (ts1 ++ mkThread k ph' :: ts2) -> In (thread_step t) ids.
Proof.
  intros H t Ht. apply in_app_or in Ht. destruct Ht as [Ht|[<-|Ht]].
  - apply H. apply in_or_app. now left.
  - apply (H (mkThread k ph)). apply in_or_app. right. now left.
  - apply H. apply in_or_app. right. now right.
Qed.

(* ================================================================== *)
(** * Dispatch *)
(* ================================================================== *)

Lemma select_by_In (better : nat -> nat -> bool) (lv : dict nat) (l : list string) :
  forall best kbest r,
    select_by better lv best kbest l = Ok r -> r = best \/ In r l.
Proof.
  induction l as [|x l IH]; intros best kbest r; simpl.
  - intros [= <-]. now left.
  - destruct (level_key lv x) as [k| |]; simpl; try discriminate.
    destruct (better k kbest); intros H; apply IH in H; destruct H; auto.
Qed.

Lemma select_In (better : nat -> nat -> bool) (lv : dict nat) (l : list string)
      (r : string) :
  select better lv l = Ok r -> In r l.
Proof.
  destruct l as [|x l]; simpl; [discriminate|].
  destruct (level_key lv x) as [k| |]; simpl; try discriminate.
  intros H. apply select_by_In in H. destruct H; auto.
Qed.

Lemma get_next_steps_In (s : SchedulingStrategy) (l next : list string) (k : string) :
  get_next_steps s l = Ok next -> hd_error next = Some k -> In k l.
Proof.
  unfold get_next_steps. destruct l as [|x l]; [intros [= <-]; discriminate|].
  destruct s as [lv|lv].
  - destruct (select Nat.ltb lv (x :: l)) as [r| |] eqn:E; simpl; try discriminate.
    intros [= <-] [= <-]. exact (@select_In _ _ _ _ E).
  - destruct (select _ lv (x :: l)) as [r| |] eqn:E; simpl; try discriminate.
    intros [= <-] [= <-]. exact (@select_In _ _ _ _ E).
Qed.

(** The step [_get_next_step] returns is in the ready queue, and once it
    has been marked running the queue has lost exactly that step. *)
Lemma get_next_step_spec (e e1 : WorkflowEngine) (k : string) :
  NoDup (ready_queue e) ->
  _get_next_step e = Ok (Some k, e1) ->
  In k (ready_queue e)
  /\ workflow e1 = workflow e
  /\ execution_order e1 = execution_order e
  /\ strategy e1 = strategy e
  /\ max_parallel e1 = max_parallel e
  /\ mark_running e1 k
     = with_workflow (set_status (workflow e) k RUNNING)
                     (with_queue (remove_first k (ready_queue e)) e).
Proof.
  intros Hnd. unfold _get_next_step. destruct (strategy e) as [s|] eqn:Es.
  - destruct (get_next_steps s (ready_queue e)) as [next| |] eqn:En; simpl; try discriminate.
    intros [= Hh <-]. pose proof (get_next_steps_In _ _ En Hh) as Hin.
    repeat (split; [auto|]). unfold mark_running.
    apply mem_In in Hin. rewrite Hin. reflexivity.
  - destruct (ready_queue e) as [|x r] eqn:Eq; [discriminate|].
    intros [= -> <-]. split; [now left|]. repeat (split; [auto|]).
    unfold mark_running. simpl.
    inversion Hnd as [|? ? Hni _]; subst. apply mem_false in Hni. rewrite Hni.
    rewrite String.eqb_refl. unfold with_workflow, with_queue. simpl.
    now rewrite Es.
Qed.

(** Dispatching keeps the invariant of the run; the dispatched step was
    [READY], so all its dependencies are [SUCCESS]. *)
Lemma dispatch_spec (g : Workflow) (e e1 : WorkflowEngine) (ts : list Thread)
      (k : string) :
  wf_workflow g -> system_ok g (mkSystem e ts) ->
  _get_next_step e = Ok (Some k, e1) ->
  system_ok g (mkSystem (mark_running e1 k) (ts ++ [mkThread k Started]))
  /\ status_of (workflow e) k = Some READY
  /\ (forall d, In d (deps_of g k) -> status_of (workflow e) d = Some SUCCESS)
  /\ status_changed (workflow e) (workflow (mark_running e1 k)) k RUNNING
  /\ same_books e (mark_running e1 k).
Proof.
  intros Hwf Hok Hn. pose proof (so_engine Hok) as Heo. simpl in Heo.
  destruct (get_next_step_spec e (eo_queue_nodup Heo) Hn)
    as (Hin & Hw & Hl & Hs & Hm & Hmr).
  rewrite Hmr. clear Hmr.
  set (e' := with_workflow (set_status (workflow e) k RUNNING)
                           (with_queue (remove_first k (ready_queue e)) e)).
  assert (Hst : status_of (workflow e) k = Some READY) by now apply (eo_queue Heo).
  assert (Hch : status_changed (workflow e) (workflow e') k RUNNING)
    by (eapply status_changed_set; eassumption).
  assert (Hd : forall d, In d (deps_of g k) -> status_of (workflow e) d = Some SUCCESS)
    by (eapply (eo_deps Heo); [eassumption | reflexivity]).
  assert (Hkid : In k (step_ids (steps g))).
  { apply (skeleton_status_ids (eo_skeleton Heo)). eauto. }
  split; [|split; [assumption|]; split; [assumption|]; split; [assumption|]].
  - constructor; cbn [engine running_threads].
    + eapply change_dequeue with (a := READY) (b := RUNNING) (k := k); eauto;
        try discriminate.
      simpl. rewrite skeleton_set_status. apply (eo_skeleton Heo).
    + rewrite started_app. simpl. apply NoDup_app.
      * apply (so_started_nodup Hok).
      * repeat constructor. intros [].
      * intros x Hx Hx'. simpl in Hx'. destruct Hx' as [<-|[]].
        pose proof (so_started Hok _ Hx) as H. simpl in H. congruence.
    + intros x Hx. rewrite started_app in Hx. apply in_app_or in Hx.
      destruct Hx as [Hx|[<-|[]]]; [|now apply (status_changed_at Hch)].
      eapply change_started; eauto. apply (so_started Hok).
    + intros t Ht. apply in_app_or in Ht. destruct Ht as [Ht|[<-|[]]]; [|assumption].
      now apply (so_threads Hok).
    + assert (Hun : forall k0, unsettled (ts ++ [mkThread k Started]) k0 <-> unsettled ts k0).
      { intros k0. unfold unsettled. rewrite in_app_iff. simpl.
        split; [intros [H|[H|[]]]; [assumption | discriminate] | auto]. }
      assert (Hdm : forall k0, doomed g e' (ts ++ [mkThread k Started]) k0 <-> doomed g e' ts k0).
      { intros k0. unfold doomed. now rewrite Hun. }
      intros k0 y Hk0 Hy. apply Hdm in Hk0. revert k0 y Hk0 Hy.
      eapply change_doomed with (a := READY); eauto; try discriminate.
      * intros [[H _]|[H _]]; rewrite (status_changed_at Hch) in H; discriminate.
      * apply (so_doomed Hok).
  - constructor; simpl; auto. intros k'. apply retry_of_set_status.
Qed.

(* ================================================================== *)
(** * Running a step *)
(* ================================================================== *)

Lemma engine_ok_same (g : Workflow) (e e' : WorkflowEngine) :
  workflow e' = workflow e -> ready_queue e' = ready_queue e ->
  engine_ok g e -> engine_ok g e'.
Proof.
  intros Hw Hq [H1 H2 H3 H4]. constructor; rewrite ?Hw, ?Hq; assumption.
Qed.

Lemma doomed_same (g : Workflow) (e e' : WorkflowEngine) (ts ts' : list Thread)
      (k0 : string) :
  workflow e' = workflow e ->
  (unsettled ts k0 -> unsettled ts' k0) ->
  doomed g e' ts' k0 -> doomed g e ts k0.
Proof.
  intros Hw Hu [[H1 H2]|H]; [left | right]; rewrite Hw in *; auto.
Qed.

(** A started thread finishes [_execute_step]: the status of its step,
    which was [RUNNING], becomes [b]. *)
Lemma exec_change (g : Workflow) (e e' : WorkflowEngine) (ts1 ts2 : list Thread)
      (k : string) (b : Status) (success : bool) :
  system_ok g (mkSystem e (ts1 ++ mkThread k Started :: ts2)) ->
  skeleton (workflow e') = skeleton g ->
  status_changed (workflow e) (workflow e') k b ->
  ready_queue e' = ready_queue e ->
  b <> READY -> b <> SKIPPED ->
  (b = FAILED -> success = false) ->
  system_ok g (mkSystem e' (ts1 ++ mkThread k (Finished success) :: ts2)).
Proof.
  intros Hok Hsk Hch Hq Hb1 Hb2 Hbf.
  pose proof (so_engine Hok) as Heo. simpl in Heo.
  pose proof (so_started_nodup Hok) as Hnd. simpl in Hnd. rewrite started_at in Hnd.
  assert (Hrun : status_of (workflow e) k = Some RUNNING).
  { apply (so_started Hok). simpl. rewrite started_at. apply in_or_app. right. now left. }
  assert (Hd : forall d, In d (deps_of g k) -> status_of (workflow e) d = Some SUCCESS)
    by (eapply (eo_deps Heo); [eassumption | reflexivity]).
  assert (Est : started (ts1 ++ mkThread k (Finished success) :: ts2)
                = started ts1 ++ started ts2)
    by (apply started_replace; discriminate).
  assert (Hsub : forall x, In x (started ts1 ++ started ts2) ->
                           In x (started (ts1 ++ mkThread k Started :: ts2))).
  { intros x Hx. rewrite started_at. apply in_app_or in Hx. apply in_or_app.
    destruct Hx; [now left | right; now right]. }
  constructor; cbn [engine running_threads].
  - eapply change_keep with (a := RUNNING) (b := b) (k := k); eauto; discriminate.
  - rewrite Est. eapply NoDup_remove_1; eassumption.
  - rewrite Est. eapply change_started; eauto.
    + intros x Hx. apply (so_started Hok). simpl. auto.
    + right. eapply NoDup_remove_2; eassumption.
  - eapply threads_replace. apply (so_threads Hok).
  - eapply change_doomed with (a := RUNNING); eauto; try discriminate.
    + intros [[H Hu]|[H _]]; rewrite (status_changed_at Hch) in H; injection H as ->.
      * apply Hu. rewrite (Hbf eq_refl). unfold unsettled.
        apply in_or_app. right. now left.
      * congruence.
    + intros k0 y Hk0 Hy. apply (@so_doomed _ _ Hok k0 y); [|assumption]. simpl.
      eapply doomed_same; [reflexivity | | exact Hk0].
      apply unsettled_replace_phase. discriminate.
Qed.

Lemma startswith_retry_truthy (fs : string) :
  PyStr.startswith "retry:" fs = true -> truthy (Some fs) = true.
Proof. destruct fs; [discriminate | reflexivity]. Qed.

(** The part of [_execute_step] after the command, on the step of a
    started thread. *)
Lemma apply_outcome_spec (g : Workflow) (outcome : bool) (e e' : WorkflowEngine)
      (ts1 ts2 : list Thread) (k : string) (success : bool) (s : Step) :
  system_ok g (mkSystem e (ts1 ++ mkThread k Started :: ts2)) ->
  find_step (steps (workflow e)) k = Some s ->
  apply_outcome outcome (with_log (execution_order e ++ [k]) e) k = Ok (success, e') ->
  system_ok g (mkSystem e' (ts1 ++ mkThread k (Finished success) :: ts2))
  /\ exec_outcome e k outcome success e'.
Proof.
  intros Hok Hs. pose proof (so_engine Hok) as Heo. simpl in Heo.
  pose proof (eo_skeleton Heo) as Hsk.
  pose proof (status_of_find _ _ Hs) as Hst.
  set (e1 := with_log (execution_order e ++ [k]) e).
  unfold apply_outcome. destruct outcome eqn:Eo.
  - intros [= <- <-].
    assert (Hch : status_changed (workflow e) (set_status (workflow e) k SUCCESS) k SUCCESS)
      by (eapply status_changed_set; eassumption).
    split.
    + eapply exec_change with (b := SUCCESS); eauto; try discriminate.
      simpl. now rewrite skeleton_set_status.
    + unfold exec_outcome. simpl.
      repeat (split; [auto|]).
      * intros k' _. apply retry_of_set_status.
      * exists s. split; [assumption|]. left. split; [reflexivity|]. split; [assumption|].
        rewrite retry_of_set_status. unfold retry_of. now rewrite Hs.
  - unfold get_step. change (workflow e1) with (workflow e). rewrite Hs. simpl.
    assert (Fail :
               (forall fs n, failure_strategy s = Some fs ->
                             PyStr.startswith "retry:" fs = true ->
                             max_retries_of fs = Ok n -> (n <= retry_count s)%Z) ->
               Ok (false, with_workflow (set_status (workflow e) k FAILED) e1)
               = Ok (success, e') ->
               system_ok g (mkSystem e' (ts1 ++ mkThread k (Finished success) :: ts2))
               /\ exec_outcome e k false success e').
    { intros Hbud [= <- <-].
      assert (Hch : status_changed (workflow e) (set_status (workflow e) k FAILED) k FAILED)
        by (eapply status_changed_set; eassumption).
      split.
      - eapply exec_change with (b := FAILED); eauto; try discriminate.
        simpl. now rewrite skeleton_set_status.
      - unfold exec_outcome. simpl.
        repeat (split; [auto|]).
        + intros k' _. apply retry_of_set_status.
        + exists s. split; [assumption|]. right. right.
          split; [reflexivity|]. split; [assumption|]. split; [assumption|].
          rewrite retry_of_set_status. unfold retry_of. now rewrite Hs. }
    destruct (failure_strategy s) as [fs|] eqn:Efs.
    2:{ apply Fail. intros fs n H. discriminate. }
    destruct (PyStr.startswith "retry:" fs) eqn:Epre.
    2:{ rewrite andb_false_r. apply Fail. intros fs' n [= <-] H. congruence. }
    change (match fs with EmptyString => false | String _ _ => true end)
      with (truthy (Some fs)).
    rewrite (startswith_retry_truthy _ Epre). simpl.
    destruct (max_retries_of fs) as [n| |] eqn:En; simpl; try discriminate.
    destruct (Z.ltb_spec (retry_count s) n) as [Hlt|Hge].
    2:{ apply Fail. intros fs' n' [= <-] _ Hn'. rewrite En in Hn'.
        injection Hn' as <-. assumption. }
    intros [= <- <-].
    set (w1 := set_retry_count (workflow e) k (retry_count s + 1)).
    assert (Hch : status_changed (workflow e) (set_status w1 k PENDING) k PENDING).
    { intros k'. rewrite status_of_set_status. unfold w1. rewrite status_of_set_retry.
      destruct (String.eqb_spec k k'); [subst; now rewrite Hst | reflexivity]. }
    split.
    + eapply exec_change with (b := PENDING); eauto; try discriminate.
      simpl. unfold w1. now rewrite skeleton_set_status, skeleton_set_retry.
    + unfold exec_outcome. simpl.
      repeat (split; [auto|]).
      * intros k' Hk'. rewrite retry_of_set_status. unfold w1. rewrite retry_of_set_retry.
        destruct (String.eqb_spec k k'); [congruence | reflexivity].
      * exists s. split; [assumption|]. right. left.
        split; [reflexivity|]. split; [exists fs, n; auto|]. split; [assumption|].
        rewrite retry_of_set_status. unfold w1. rewrite retry_of_set_retry.
        rewrite String.eqb_refl. unfold retry_of. now rewrite Hs.
Qed.

(** [_execute_step] on the step of a started thread: when it returns, the
    command has ended, with the exit status [_execute_step] reports. *)
Lemma execute_step_spec (g : Workflow) (run : Executor) (e e' : WorkflowEngine)
      (ts1 ts2 : list Thread) (k : string) (success : bool) (s : Step) :
  system_ok g (mkSystem e (ts1 ++ mkThread k Started :: ts2)) ->
  find_step (steps (workflow e)) k = Some s ->
  _execute_step run e k = Ok (success, e') ->
  system_ok g (mkSystem e' (ts1 ++ mkThread k (Finished success) :: ts2))
  /\ run (execution_order e ++ [k]) (command s) = Exited success
  /\ exec_outcome e k success success e'.
Proof.
  intros Hok Hs. unfold _execute_step, get_step. rewrite Hs. simpl.
  destruct (run (execution_order e ++ [k]) (command s)) as [b|x|];
    [|discriminate|discriminate].
  intros Hrun.
  destruct (@apply_outcome_spec g b e e' ts1 ts2 k success s Hok Hs Hrun) as [H1 H2].
  assert (E : success = b) by (destruct H2 as (_ & _ & _ & _ & _ & E & _); exact E).
  subst b. auto.
Qed.

(** A thread dies in [_execute_step]: only the log has grown. *)
Lemma crash_spec (g : Workflow) (e : WorkflowEngine) (ts1 ts2 : list Thread)
      (k : string) :
  system_ok g (mkSystem e (ts1 ++ mkThread k Started :: ts2)) ->
  system_ok g (mkSystem (with_log (execution_order e ++ [k]) e)
                        (ts1 ++ mkThread k Dead :: ts2)).
Proof.
  intros Hok.
  pose proof (so_started_nodup Hok) as Hnd. simpl in Hnd. rewrite started_at in Hnd.
  assert (Est : started (ts1 ++ mkThread k Dead :: ts2) = started ts1 ++ started ts2)
    by (apply started_replace; discriminate).
  constructor; cbn [engine running_threads].
  - eapply engine_ok_same; [| |apply (so_engine Hok)]; reflexivity.
  - rewrite Est. eapply NoDup_remove_1; eassumption.
  - rewrite Est. intros x Hx. apply (so_started Hok). simpl. rewrite started_at.
    apply in_app_or in Hx. apply in_or_app. destruct Hx; [now left | right; now right].
  - eapply threads_replace. apply (so_threads Hok).
  - intros k0 y Hk0 Hy. apply (@so_doomed _ _ Hok k0 y); [|assumption]. simpl.
    eapply doomed_same; [reflexivity | | exact Hk0].
    apply unsettled_replace_phase. discriminate.
Qed.

(* ================================================================== *)
(** * After the command: cascade and readiness update *)
(* ================================================================== *)

Lemma not_waiting_skipped (g : Workflow) (e : WorkflowEngine) (y z : string) :
  engine_ok g e -> not_waiting (workflow e) y ->
  In z (deps_of g y) -> status_of (workflow e) z <> Some SUCCESS ->
  status_of (workflow e) y = Some SKIPPED.
Proof.
  intros Hok (st & Hst & Hw) Hz Hn.
  destruct (past_ready st) eqn:Ep.
  - exfalso. apply Hn. eapply (eo_deps Hok); eassumption.
  - rewrite Hst. destruct st; simpl in *; congruence.
Qed.

Section Cascade.
Variables (g : Workflow) (e e1 : WorkflowEngine) (ts : list Thread) (k : string).
Hypothesis Hwf : wf_workflow g.
Hypothesis Hok : system_ok g (mkSystem e ts).
Hypothesis Hok1 : engine_ok g e1.
Hypothesis Hfail : status_of (workflow e) k = Some FAILED.
Hypothesis Hch : only_changes cascade_move (workflow e) (workflow e1).
Hypothesis Hroot : forall y, In y (inv_of g k) -> not_waiting (workflow e1) y.
Hypothesis Hexp :
  forall x a, status_of (workflow e) x = Some a -> waiting a = true ->
              status_of (workflow e1) x = Some SKIPPED ->
              forall y, In y (inv_of g x) -> not_waiting (workflow e1) y.

Lemma cascade_dependents_of_skipped (z y : string) :
  status_of (workflow e1) z = Some SKIPPED ->
  (exists d, In d (deps_of g z) /\ status_of (workflow e) d <> Some SUCCESS) ->
  In z (deps_of g y) ->
  status_of (workflow e1) y = Some SKIPPED.
Proof.
  intros Hz Hd Hy.
  destruct (@deps_of_ids g y z Hwf Hy) as [Hyid Hzid].
  pose proof (so_engine Hok) as Heo. simpl in Heo.
  destruct (proj1 (skeleton_status_ids (eo_skeleton Heo) z) Hzid) as [a Ha].
  destruct (waiting a) eqn:Ew.
  - eapply not_waiting_skipped; [exact Hok1 | | exact Hy | congruence].
    eapply Hexp; [exact Ha | exact Ew | exact Hz |].
    now apply inv_of_deps.
  - assert (Ha' : status_of (workflow e1) z = Some a)
      by (eapply cascade_keeps; eassumption).
    assert (a = SKIPPED) by congruence. subst a.
    eapply cascade_keeps; [exact Hch | | reflexivity].
    eapply (@so_doomed _ _ Hok z y); [|exact Hy]. simpl.
    right. split; assumption.
Qed.

(** Right after the cascade from the failed step [k], every step that
    depends on [k], directly or not, is [SKIPPED]. *)
Lemma cascade_descendants (y : string) :
  path g y k ->
  status_of (workflow e1) y = Some SKIPPED
  /\ exists d, In d (deps_of g y) /\ status_of (workflow e) d <> Some SUCCESS.
Proof.
  intros Hp. remember k as k' eqn:Ek. induction Hp as [y k' He|y z k' He Hp IH]; subst k'.
  - apply edge_deps_of in He. split.
    + destruct (@deps_of_ids g y k Hwf He) as [Hyid Hkid].
      eapply not_waiting_skipped; [exact Hok1 | | exact He |].
      * apply Hroot. now apply inv_of_deps.
      * rewrite (@cascade_keeps _ _ _ _ Hch Hfail eq_refl). discriminate.
    + exists k. split; [assumption | congruence].
  - destruct (IH eq_refl Hfail Hroot) as [Hz Hd]. apply edge_deps_of in He. split.
    + eapply cascade_dependents_of_skipped; eassumption.
    + exists z. split; [assumption|]. intros H.
      rewrite (@cascade_keeps _ _ _ _ Hch H eq_refl) in Hz. discriminate.
Qed.

(** The invariant of the run holds again once the worker of [k] is done
    with the cascade. *)
Lemma cascade_system_ok (ts' : list Thread) :
  started ts' = started ts ->
  (forall t, In t ts' -> In (thread_step t) (step_ids (steps g))) ->
  (forall k0, k0 <> k -> unsettled ts k0 -> unsettled ts' k0) ->
  system_ok g (mkSystem e1 ts').
Proof.
  intros Hst Hth Hun. constructor; cbn [engine running_threads].
  - assumption.
  - rewrite Hst. apply (so_started_nodup Hok).
  - rewrite Hst. intros x Hx.
    eapply cascade_keeps; [exact Hch | apply (so_started Hok); exact Hx | reflexivity].
  - assumption.
  - intros k0 y Hk0 Hy. destruct Hk0 as [[Hf Hu]|[Hs (d & Hd & Hn)]].
    + destruct (String.eqb_spec k0 k) as [->|Hne].
      * apply cascade_descendants. apply path_edge. now apply edge_deps_of.
      * assert (Hf0 : status_of (workflow e) k0 = Some FAILED)
          by (eapply cascade_old_status; [exact Hch | exact Hf | discriminate]).
        eapply cascade_keeps; [exact Hch | | reflexivity].
        eapply (@so_doomed _ _ Hok k0 y); [|exact Hy]. simpl.
        left. split; [assumption|]. intros H. apply Hu. now apply Hun.
    + eapply cascade_dependents_of_skipped; [exact Hs | | exact Hy].
      exists d. split; [assumption|]. intros H. apply Hn.
      eapply cascade_keeps; [exact Hch | exact H | reflexivity].
Qed.
End Cascade.

(** The lines run after [_execute_step] returned. *)
Lemma settle_spec (g : Workflow) (e : WorkflowEngine) (ts1 ts2 : list Thread)
      (k : string) (success : bool) :
  wf_workflow g ->
  system_ok g (mkSystem e (ts1 ++ mkThread k (Finished success) :: ts2)) ->
  exists e1 e',
    settle success e k = Ok e'
    /\ system_ok g (mkSystem e' (ts1 ++ mkThread k Dead :: ts2))
    /\ same_books e e'
    /\ no_ready_pending g e'
    /\ ((success = false /\ status_of (workflow e) k = Some FAILED
         /\ _skip_dependents e k = Ok e1
         /\ forall y, path g y k -> status_of (workflow e1) y = Some SKIPPED)
        \/ (e1 = e /\ (success = true \/ status_of (workflow e) k <> Some FAILED)))
    /\ engine_ok g e1
    /\ only_changes cascade_move (workflow e) (workflow e1)
    /\ (forall x, In x (ready_queue e1) -> In x (ready_queue e))
    /\ _update_ready_queue e1 = Ok e'
    /\ only_changes update_move (workflow e1) (workflow e')
    /\ (forall x, status_of (workflow e1) x = Some PENDING ->
                  status_of (workflow e') x = Some READY ->
                  forall d, In d (deps_of g x) ->
                            status_of (workflow e1) d = Some SUCCESS).
Proof.
  intros Hwf Hok. pose proof (so_engine Hok) as Heo. simpl in Heo.
  pose proof (eo_skeleton Heo) as Hsk.
  set (ts := ts1 ++ mkThread k (Finished success) :: ts2) in *.
  set (ts' := ts1 ++ mkThread k Dead :: ts2).
  assert (Hkid : In k (step_ids (steps g))).
  { apply (so_threads Hok (mkThread k (Finished success))). simpl. unfold ts.
    apply in_or_app. right. now left. }
  assert (Hk' : In k (step_ids (steps (workflow e)))) by now rewrite (skeleton_ids Hsk).
  destruct (proj1 (find_step_Some_ids _ _) Hk') as [s Hs].
  pose proof (status_of_find _ _ Hs) as Hst.
  assert (Eid : step_id s = k) by apply (find_step_In _ _ Hs).
  assert (Est : started ts' = started ts).
  { unfold ts, ts'. rewrite !started_replace by discriminate. reflexivity. }
  assert (Hth : forall t, In t ts' -> In (thread_step t) (step_ids (steps g))).
  { unfold ts'. eapply threads_replace. apply (so_threads Hok). }
  assert (Hmid : exists e1,
             (if negb success && Status_eqb (status s) FAILED
              then _skip_dependents e (step_id s) else Ok e) = Ok e1
             /\ system_ok g (mkSystem e1 ts')
             /\ same_books e e1
             /\ ((success = false /\ status_of (workflow e) k = Some FAILED
                  /\ _skip_dependents e k = Ok e1
                  /\ forall y, path g y k -> status_of (workflow e1) y = Some SKIPPED)
                 \/ (e1 = e /\ (success = true \/ status_of (workflow e) k <> Some FAILED)))
             /\ only_changes cascade_move (workflow e) (workflow e1)
             /\ (forall x, In x (ready_queue e1) -> In x (ready_queue e))).
  { destruct (negb success && Status_eqb (status s) FAILED) eqn:Ec.
    - apply andb_prop in Ec. destruct Ec as [Ec1 Ec2].
      apply negb_true_iff in Ec1.
      destruct (Status_eqb_spec (status s) FAILED) as [Ef|]; [|discriminate].
      rewrite Ef in Hst. rewrite Eid.
      destruct (skip_dependents_spec k Hwf Heo Hkid)
        as (e1 & Hr & Hok1 & Hb & Hch & Hroot & Hexp & Hq).
      exists e1. split; [assumption|]. split.
      + eapply cascade_system_ok with (e := e) (ts := ts) (k := k); eauto.
        intros k0 Hne. unfold ts, ts'. now apply unsettled_replace.
      + split; [assumption|]. split; [|split; assumption].
        left. split; [assumption|]. split; [assumption|]. split; [assumption|].
        intros y Hy.
        apply (@cascade_descendants g e e1 ts k Hwf Hok Hok1 Hst Hch Hroot Hexp y Hy).
    - exists e. split; [reflexivity|]. split.
      + constructor; cbn [engine running_threads].
        * assumption.
        * rewrite Est. apply (so_started_nodup Hok).
        * rewrite Est. apply (so_started Hok).
        * assumption.
        * intros k0 y Hk0 Hy. apply (@so_doomed _ _ Hok k0 y); [|assumption]. simpl.
          destruct Hk0 as [[Hf Hu]|Hk0]; [left | right; exact Hk0].
          split; [assumption|]. intros Hu'. apply Hu. revert Hu'.
          destruct (String.eqb_spec k0 k) as [->|Hne].
          -- rewrite Hst in Hf. injection Hf as Hf. rewrite Hf in Ec. simpl in Ec.
             rewrite andb_true_r in Ec. apply negb_false_iff in Ec. subst success.
             unfold ts, ts'. apply unsettled_replace_phase. discriminate.
          -- unfold ts, ts'. now apply unsettled_replace.
      + split; [apply same_books_refl|]. split; [|split; [apply only_changes_refl | auto]].
        right. split; [reflexivity|]. destruct success; [now left | right].
        simpl in Ec. rewrite Hst. intros [= Hf]. rewrite Hf in Ec. discriminate. }
  destruct Hmid as (e1 & Hr1 & Hok1 & Hb1 & Hcase & Hch1 & Hq1).
  destruct (update_ready_queue_spec Hwf Hok1) as (e' & Hr & Hok' & Hb & Hch & Hrd & Hnp & Hq).
  exists e1, e'. unfold settle, get_step. rewrite Hs. simpl. rewrite Hr1. simpl.
  split; [assumption|]. split; [assumption|].
  split; [eapply same_books_trans; eassumption|]. split; [assumption|].
  split; [assumption|]. split; [apply (so_engine Hok1)|].
  split; [assumption|]. split; [assumption|]. split; [assumption|].
  split; assumption.
Qed.

(* ================================================================== *)
(** * The invariant holds in every state of a run *)
(* ================================================================== *)

Lemma filter_started_alive (ts : list Thread) :
  filter is_started (filter is_alive ts) = filter is_started ts.
Proof.
  induction ts as [|t ts IH]; simpl; [reflexivity|].
  destruct t as [k ph]. destruct ph; simpl; now rewrite ?IH.
Qed.

Lemma reap_spec (g : Workflow) (e : WorkflowEngine) (ts : list Thread) :
  system_ok g (mkSystem e ts) -> system_ok g (mkSystem e (filter is_alive ts)).
Proof.
  intros Hok.
  assert (Est : started (filter is_alive ts) = started ts).
  { unfold started. now rewrite filter_started_alive. }
  constructor; cbn [engine running_threads].
  - apply (so_engine Hok).
  - rewrite Est. apply (so_started_nodup Hok).
  - rewrite Est. apply (so_started Hok).
  - intros t Ht. apply filter_In in Ht. apply (so_threads Hok). tauto.
  - intros k0 y Hk0 Hy. apply (@so_doomed _ _ Hok k0 y); [|assumption]. simpl.
    eapply doomed_same; [reflexivity | | exact Hk0].
    unfold unsettled. intros H. apply filter_In. split; [assumption | reflexivity].
Qed.

Lemma fresh_status (g : Workflow) (k : string) (st : Status) :
  fresh g -> status_of g k = Some st -> st = PENDING.
Proof.
  intros Hf Hs. apply status_of_inv in Hs. destruct Hs as (s & Hs & <-).
  apply find_step_In in Hs. now apply Hf.
Qed.

Lemma initial_ok (g : Workflow) (strat : option SchedulingStrategy) (mp : nat) :
  fresh g -> system_ok g (mkSystem (new_WorkflowEngine g strat mp) []).
Proof.
  intros Hf. constructor; cbn [engine running_threads].
  - constructor; simpl.
    + reflexivity.
    + constructor.
    + intros k. split; [intros [] | intros H]. apply (fresh_status _ Hf) in H. discriminate.
    + intros k st Hs Hp. apply (fresh_status _ Hf) in Hs. subst. discriminate.
  - constructor.
  - intros k [].
  - intros t [].
  - intros k y [[H _]|[H _]]; simpl in H; apply (fresh_status _ Hf) in H; discriminate.
Qed.

Lemma pstep_ok (g : Workflow) (S S' : System) (ev : Event) :
  wf_workflow g -> system_ok g S -> pstep S ev S' -> system_ok g S'.
Proof.
  intros Hwf Hok Hst. destruct Hst.
  - now apply reap_spec.
  - now apply (dispatch_spec Hwf Hok H1).
  - assert (Hk : In sid (step_ids (steps (workflow e)))).
    { pose proof (eo_skeleton (so_engine Hok)) as Hsk. simpl in Hsk.
      rewrite (skeleton_ids Hsk).
      apply (so_threads Hok (mkThread sid Started)). simpl.
      apply in_or_app. right. now left. }
    destruct (proj1 (find_step_Some_ids _ _) Hk) as [s Hs].
    eapply execute_step_spec; eassumption.
  - now apply crash_spec.
  - destruct (@settle_spec g e ts1 ts2 sid success Hwf Hok) as (e1 & e2 & Hr & Hok' & _).
    rewrite Hr in H. injection H as <-. assumption.
Qed.

(** Every state of a run, sequential or parallel, satisfies the run
    invariant. *)
Lemma reachable_ok (g : Workflow) (strat : option SchedulingStrategy) (mp : nat)
      (t : list Event) (S : System) :
  wf_workflow g -> fresh g -> reachable g strat mp t S -> system_ok g S.
Proof.
  intros Hwf Hf Hr. induction Hr as [e He|t S ev S' Hr IH Hst].
  - destruct (@update_ready_queue_spec g _ [] Hwf (@initial_ok g strat mp Hf))
      as (e' & Hr & Hok & _).
    rewrite Hr in He. injection He as <-. assumption.
  - eapply pstep_ok; eassumption.
Qed.

Lemma reachable_psteps (g : Workflow) (strat : option SchedulingStrategy) (mp : nat)
      (t t' : list Event) (S S' : System) :
  reachable g strat mp t S -> psteps S t' S' -> reachable g strat mp (t ++ t') S'.
Proof.
  intros Hr Hp. revert t Hr. induction Hp as [S|S ev S1 t' S2 Hst Hp IH]; intros t Hr.
  - now rewrite app_nil_r.
  - replace (t ++ ev :: t') with ((t ++ [ev]) ++ t') by (rewrite <- app_assoc; reflexivity).
    apply IH. eapply reach_step; eassumption.
Qed.

Lemma psteps_ok (g : Workflow) (S S' : System) (t : list Event) :
  wf_workflow g -> system_ok g S -> psteps S t S' -> system_ok g S'.
Proof.
  intros Hwf Hok Hp. induction Hp as [S|S ev S1 t' S2 Hst Hp IH]; [assumption|].
  apply IH. eapply pstep_ok; eassumption.
Qed.

Lemma started_In (ts1 ts2 : list Thread) (k : string) :
  In k (started (ts1 ++ mkThread k Started :: ts2)).
Proof. rewrite started_at. apply in_or_app. right. now left. Qed.

(** What one step of a run does to the statuses: the dispatched step goes
    from [READY] to [RUNNING], the step a thread runs leaves [RUNNING], the
    settling thread first cascades and then updates readiness. *)
Lemma pstep_status (g : Workflow) (S S' : System) (ev : Event) :
  wf_workflow g -> system_ok g S -> pstep S ev S' ->
  match ev with
  | EvReap => workflow (engine S') = workflow (engine S)
              /\ execution_order (engine S') = execution_order (engine S)
  | EvDispatch k =>
      status_of (workflow (engine S)) k = Some READY
      /\ (forall d, In d (deps_of g k) ->
                    status_of (workflow (engine S)) d = Some SUCCESS)
      /\ status_changed (workflow (engine S)) (workflow (engine S')) k RUNNING
      /\ same_books (engine S) (engine S')
  | EvRun k outcome =>
      status_of (workflow (engine S)) k = Some RUNNING
      /\ exists success, exec_outcome (engine S) k outcome success (engine S')
  | EvCrash k =>
      status_of (workflow (engine S)) k = Some RUNNING
      /\ workflow (engine S') = workflow (engine S)
      /\ execution_order (engine S') = execution_order (engine S) ++ [k]
  | EvSettle k =>
      same_books (engine S) (engine S')
      /\ exists e1,
          only_changes cascade_move (workflow (engine S)) (workflow e1)
          /\ only_changes update_move (workflow e1) (workflow (engine S'))
          /\ (forall x, status_of (workflow e1) x = Some PENDING ->
                        status_of (workflow (engine S')) x = Some READY ->
                        forall d, In d (deps_of g x) ->
                                  status_of (workflow e1) d = Some SUCCESS)
  end.
Proof.
  intros Hwf Hok Hst. destruct Hst; cbn [engine running_threads].
  - split; reflexivity.
  - destruct (dispatch_spec Hwf Hok H1) as (_ & A & B & C & D). auto.
  - pose proof (so_started Hok sid (started_In ts1 ts2 sid)) as Hrun. simpl in Hrun.
    split; [assumption|]. exists success.
    destruct (status_of_inv _ _ Hrun) as (s & Hs & _).
    destruct (@execute_step_spec g _ e e' ts1 ts2 sid success s Hok Hs H)
      as (_ & Eo & Hout).
    cbv beta in Eo. injection Eo as ->. exact Hout.
  - pose proof (so_started Hok sid (started_In ts1 ts2 sid)) as Hrun. simpl in Hrun.
    split; [assumption|]. split; reflexivity.
  - destruct (@settle_spec g e ts1 ts2 sid success Hwf Hok)
      as (e1 & e2 & Hr & _ & Hb & _ & _ & _ & Hc & _ & _ & Hu & Hrd).
    rewrite Hr in H. injection H as <-. split; [assumption|].
    exists e1. auto.
Qed.

Lemma attempts_app (e : WorkflowEngine) (k x : string) (l : list string) :
  execution_order e = l ++ [x] ->
  attempts e k = count_occ string_dec l k + (if string_dec x k then 1 else 0).
Proof.
  intros H. unfold attempts. rewrite H, count_occ_app. simpl.
  destruct (string_dec x k); reflexivity.
Qed.

(** A skipped step stays skipped: no step of a run dispatches it, runs
    it, or changes its status, and the log gains no entry for it. *)
Lemma skipped_stable (g : Workflow) (S S' : System) (ev : Event) (k : string) :
  wf_workflow g -> system_ok g S -> pstep S ev S' ->
  status_of (workflow (engine S)) k = Some SKIPPED ->
  status_of (workflow (engine S')) k = Some SKIPPED
  /\ ev <> EvDispatch k /\ (forall o, ev <> EvRun k o)
  /\ attempts (engine S') k = attempts (engine S) k.
Proof.
  intros Hwf Hok Hst Hk. pose proof (pstep_status Hwf Hok Hst) as H.
  destruct ev as [|x|x o|x|x].
  - destruct H as [Hw Hl]. unfold attempts. rewrite Hw, Hl.
    repeat split; auto; discriminate.
  - destruct H as (Hr & _ & Hch & Hb).
    assert (Hn : k <> x) by (intros ->; congruence).
    rewrite (status_changed_same Hch Hn). unfold attempts. rewrite (sb_log Hb).
    repeat split; auto; congruence.
  - destruct H as (Hr & success & Hout).
    assert (Hn : k <> x) by (intros ->; congruence).
    destruct Hout as (Hl & _ & _ & _ & _ & _ & s & _ & Hcase).
    assert (Hsame : status_of (workflow (engine S')) k = status_of (workflow (engine S)) k).
    { destruct Hcase as [(_ & Hch & _)|[(_ & _ & Hch & _)|(_ & _ & Hch & _)]];
        apply (status_changed_same Hch Hn). }
    rewrite Hsame. split; [assumption|]. split; [discriminate|].
    split; [intros o' [= E _]; congruence|].
    rewrite (@attempts_app _ k _ _ Hl). unfold attempts.
    destruct (string_dec x k); [congruence | lia].
  - destruct H as (Hr & Hw & Hl).
    assert (Hn : k <> x) by (intros ->; congruence).
    rewrite Hw. split; [assumption|]. split; [discriminate|]. split; [discriminate|].
    rewrite (@attempts_app _ k _ _ Hl). unfold attempts.
    destruct (string_dec x k); [congruence | lia].
  - destruct H as (Hb & e1 & Hc & Hu & _).
    split.
    + eapply update_keeps; [exact Hu | | discriminate].
      eapply cascade_keeps; [exact Hc | exact Hk | reflexivity].
    + split; [discriminate|]. split; [discriminate|].
      unfold attempts. now rewrite (sb_log Hb).
Qed.

Lemma skipped_forever (g : Workflow) (S S' : System) (t : list Event) (k : string) :
  wf_workflow g -> system_ok g S -> psteps S t S' ->
  status_of (workflow (engine S)) k = Some SKIPPED ->
  status_of (workflow (engine S')) k = Some SKIPPED
  /\ ~ In (EvDispatch k) t /\ (forall o, ~ In (EvRun k o) t)
  /\ attempts (engine S') k = attempts (engine S) k
  /\ ~ In k (ready_queue (engine S')).
Proof.
  intros Hwf Hok Hp Hk. induction Hp as [S|S ev S1 t' S2 Hst Hp IH].
  - repeat split; auto. rewrite (eo_queue (so_engine Hok)). congruence.
  - destruct (skipped_stable k Hwf Hok Hst Hk) as (H1 & H2 & H3 & H4).
    destruct (IH (pstep_ok Hwf Hok Hst) H1) as (A & B & C & D & E).
    split; [assumption|]. split; [intros [X|X]; [congruence | contradiction]|].
    split; [intros o [X|X]; [exact (H3 o X) | exact (C o X)]|].
    split; [congruence | assumption].
Qed.

(** Below a step whose failure has been propagated every step is
    [SKIPPED]. *)
Lemma doomed_descendants (g : Workflow) (e : WorkflowEngine) (ts : list Thread)
      (k y : string) :
  system_ok g (mkSystem e ts) -> doomed g e ts k -> path g y k ->
  status_of (workflow e) y = Some SKIPPED
  /\ exists d, In d (deps_of g y) /\ status_of (workflow e) d <> Some SUCCESS.
Proof.
  intros Hok Hd Hp. revert Hd.
  induction Hp as [y k He|y z k He Hp IH]; intros Hd.
  - apply edge_deps_of in He. split.
    + exact (@so_doomed _ _ Hok k y Hd He).
    + exists k. split; [assumption|]. destruct Hd as [[H _]|[H _]]; simpl in H; congruence.
  - destruct (IH Hd) as [Hz Hdz]. apply edge_deps_of in He. split.
    + apply (@so_doomed _ _ Hok z y); [|assumption]. simpl. right. split; assumption.
    + exists z. split; [assumption | congruence].
Qed.

(* ================================================================== *)
(** * The sequential loop is a run *)
(* ================================================================== *)

Lemma pstep_config (g : Workflow) (S S' : System) (ev : Event) :
  wf_workflow g -> system_ok g S -> pstep S ev S' ->
  strategy (engine S') = strategy (engine S)
  /\ max_parallel (engine S') = max_parallel (engine S).
Proof.
  intros Hwf Hok Hst. pose proof (pstep_status Hwf Hok Hst) as H.
  destruct Hst; cbn [engine running_threads] in *.
  - auto.
  - destruct H as (_ & _ & _ & Hb). split; [apply (sb_strategy Hb) | apply (sb_max_parallel Hb)].
  - destruct H as (_ & s & _ & _ & A & B & _). auto.
  - auto.
  - destruct H as (Hb & _). split; [apply (sb_strategy Hb) | apply (sb_max_parallel Hb)].
Qed.

Lemma reachable_config (g : Workflow) (strat : option SchedulingStrategy) (mp : nat)
      (t : list Event) (S : System) :
  wf_workflow g -> fresh g -> reachable g strat mp t S ->
  strategy (engine S) = strat /\ max_parallel (engine S) = mp.
Proof.
  intros Hwf Hf Hr. induction Hr as [e He|t S ev S' Hr IH Hst].
  - destruct (@update_ready_queue_spec g _ [] Hwf (@initial_ok g strat mp Hf))
      as (e' & Hr & _ & Hb & _).
    rewrite Hr in He. injection He as <-. simpl.
    split; [apply (sb_strategy Hb) | apply (sb_max_parallel Hb)].
  - destruct (pstep_config Hwf (reachable_ok Hwf Hf Hr) Hst) as [A B].
    destruct IH as [C D]. split; congruence.
Qed.

Lemma get_next_step_some (e e1 : WorkflowEngine) :
  ready_queue e <> [] -> _get_next_step e <> Ok (None, e1).
Proof.
  intros Hne. unfold _get_next_step. destruct (strategy e) as [s|].
  - unfold get_next_steps. destruct (ready_queue e) as [|x l]; [congruence|].
    destruct s as [lv|lv].
    + destruct (select Nat.ltb lv (x :: l)); simpl; discriminate.
    + destruct (select _ lv (x :: l)); simpl; discriminate.
  - destruct (ready_queue e); [congruence | discriminate].
Qed.

Lemma execute_step_run_eq (run : Executor) (e : WorkflowEngine) (k : string) (s : Step) :
  find_step (steps (workflow e)) k = Some s ->
  _execute_step run e k
  = _execute_step (fun _ _ => run (execution_order e ++ [k]) (command s)) e k.
Proof.
  intros Hs. unfold _execute_step, get_step. rewrite Hs. reflexivity.
Qed.

(** One iteration of the sequential loop is a dispatch, the run of the
    step and its settling, with a single thread. *)
Lemma sequential_iteration (g : Workflow) (strat : option SchedulingStrategy)
      (mp : nat) (run : Executor) (t : list Event)
      (e e1 e3 e4 : WorkflowEngine) (sid : string) (success : bool) :
  wf_workflow g -> fresh g -> 1 <= mp ->
  reachable g strat mp t (mkSystem e []) ->
  ready_queue e <> [] ->
  _get_next_step e = Ok (Some sid, e1) ->
  _execute_step run (mark_running e1 sid) sid = Ok (success, e3) ->
  settle success e3 sid = Ok e4 ->
  exists o,
    reachable g strat mp (t ++ [EvDispatch sid; EvRun sid o; EvSettle sid; EvReap])
              (mkSystem e4 []).
Proof.
  intros Hwf Hf Hmp Hr Hq Hn Hx Hs.
  destruct (reachable_config Hwf Hf Hr) as [_ Hm]. simpl in Hm.
  assert (S1 : pstep (mkSystem e []) (EvDispatch sid)
                     (mkSystem (mark_running e1 sid) ([] ++ [mkThread sid Started]))).
  { apply pstep_dispatch; [simpl; lia | assumption | assumption]. }
  pose proof (reach_step Hr S1) as R1.
  pose proof (reachable_ok Hwf Hf R1) as Hok1.
  assert (Hk : exists s, find_step (steps (workflow (mark_running e1 sid))) sid = Some s).
  { apply find_step_Some_ids.
    pose proof (eo_skeleton (so_engine Hok1)) as Hsk. cbn [engine] in Hsk.
    rewrite (skeleton_ids Hsk).
    apply (so_threads Hok1 (mkThread sid Started)). simpl. now left. }
  destruct Hk as [s Hfs].
  destruct (@execute_step_spec g run (mark_running e1 sid) e3 [] [] sid success s
              Hok1 Hfs Hx) as (_ & Eo & _).
  rewrite (execute_step_run_eq _ _ _ Hfs), Eo in Hx.
  exists success.
  assert (S2 : pstep (mkSystem (mark_running e1 sid) ([] ++ mkThread sid Started :: []))
                     (EvRun sid success)
                     (mkSystem e3 ([] ++ mkThread sid (Finished success) :: [])))
    by (eapply pstep_run; eassumption).
  pose proof (reach_step R1 S2) as R2.
  assert (S3 : pstep (mkSystem e3 ([] ++ mkThread sid (Finished success) :: []))
                     (EvSettle sid)
                     (mkSystem e4 ([] ++ mkThread sid Dead :: [])))
    by (eapply pstep_settle; eassumption).
  pose proof (reach_step R2 S3) as R3.
  pose proof (reach_step R3 (pstep_reap e4 ([] ++ mkThread sid Dead :: []))) as R4.
  simpl in R4. repeat rewrite <- app_assoc in R4. exact R4.
Qed.

(** The state in which [_execute_sequential] returns is a state of a run,
    with no thread left and an empty ready queue. *)
Lemma sequential_reachable (g : Workflow) (strat : option SchedulingStrategy)
      (mp : nat) (run : Executor) :
  wf_workflow g -> fresh g -> 1 <= mp ->
  forall fuel t e e',
    reachable g strat mp t (mkSystem e []) ->
    _execute_sequential run fuel e = Ok e' ->
    exists t', reachable g strat mp (t ++ t') (mkSystem e' [])
               /\ ready_queue e' = [].
Proof.
  intros Hwf Hf Hmp. induction fuel as [|fuel IH]; intros t e e' Hr.
  - simpl. destruct (ready_queue e) eqn:Eq; [|discriminate].
    intros [= <-]. exists []. rewrite app_nil_r. auto.
  - simpl. destruct (ready_queue e) as [|q0 q] eqn:Eq.
    { intros [= <-]. exists []. rewrite app_nil_r. auto. }
    destruct (_get_next_step e) as [[next e1]| |] eqn:En; simpl; try discriminate.
    destruct next as [sid|].
    2:{ exfalso. eapply get_next_step_some; [|exact En]. rewrite Eq. discriminate. }
    destruct (_execute_step run (mark_running e1 sid) sid) as [[success e3]| |] eqn:Ex;
      simpl; try discriminate.
    destruct (settle success e3 sid) as [e4| |] eqn:Es; simpl; try discriminate.
    intros Hrest.
    destruct (@sequential_iteration g strat mp run t e e1 e3 e4 sid success
                                    Hwf Hf Hmp Hr) as [o Hr4]; auto.
    { rewrite Eq. discriminate. }
    destruct (IH _ e4 e' Hr4 Hrest) as (t' & Hr' & Hq').
    eexists. rewrite <- app_assoc in Hr'. split; eassumption.
Qed.

Lemma execute_sequentially_reachable (g : Workflow) (strat : option SchedulingStrategy)
      (mp : nat) (run : Executor) (fuel : nat) (e' : WorkflowEngine) :
  wf_workflow g -> fresh g -> 1 <= mp ->
  execute_sequentially run fuel (new_WorkflowEngine g strat mp) = Ok e' ->
  exists t, reachable g strat mp t (mkSystem e' []) /\ ready_queue e' = [].
Proof.
  intros Hwf Hf Hmp. unfold execute_sequentially.
  destruct (_update_ready_queue (new_WorkflowEngine g strat mp)) as [e0| |] eqn:E0;
    simpl; try discriminate.
  intros Hx.
  destruct (@sequential_reachable g strat mp run Hwf Hf Hmp fuel [] e0 e'
                                  (reach_start _ _ _ E0) Hx) as (t' & Hr & Hq).
  exists t'. auto.
Qed.

(* ================================================================== *)
(** * Causal order *)
(* ================================================================== *)

Lemma success_stable (g : Workflow) (S S' : System) (ev : Event) (d : string) :
  wf_workflow g -> system_ok g S -> pstep S ev S' ->
  status_of (workflow (engine S)) d = Some SUCCESS ->
  status_of (workflow (engine S')) d = Some SUCCESS.
Proof.
  intros Hwf Hok Hst Hd. pose proof (pstep_status Hwf Hok Hst) as H.
  destruct ev as [|x|x o|x|x].
  - destruct H as [Hw _]. now rewrite Hw.
  - destruct H as (Hr & _ & Hch & _).
    rewrite (status_changed_same Hch); [assumption | intros ->; congruence].
  - destruct H as (Hr & success & Hout).
    assert (Hn : d <> x) by (intros ->; congruence).
    destruct Hout as (_ & _ & _ & _ & _ & _ & s & _ & Hcase).
    destruct Hcase as [(_ & Hch & _)|[(_ & _ & Hch & _)|(_ & _ & Hch & _)]];
      now rewrite (status_changed_same Hch Hn).
  - destruct H as (_ & Hw & _). now rewrite Hw.
  - destruct H as (_ & e1 & Hc & Hu & _).
    eapply update_keeps; [exact Hu | | discriminate].
    eapply cascade_keeps; [exact Hc | exact Hd | reflexivity].
Qed.

Lemma pstep_readied (g : Workflow) (S S' : System) (ev : Event) (k : string) :
  wf_workflow g -> system_ok g S -> pstep S ev S' ->
  status_of (workflow (engine S)) k = Some PENDING ->
  status_of (workflow (engine S')) k = Some READY ->
  (exists x, ev = EvSettle x)
  /\ forall d, In d (deps_of g k) -> status_of (workflow (engine S)) d = Some SUCCESS.
Proof.
  intros Hwf Hok Hst Hp Hr. pose proof (pstep_status Hwf Hok Hst) as H.
  destruct ev as [|x|x o|x|x].
  - destruct H as [Hw _]. rewrite Hw in Hr. congruence.
  - destruct H as (Hx & _ & Hch & _). exfalso.
    destruct (String.eqb_spec k x) as [->|Hn]; [congruence|].
    rewrite (status_changed_same Hch Hn) in Hr. congruence.
  - destruct H as (Hx & success & Hout). exfalso.
    destruct (String.eqb_spec k x) as [->|Hn]; [congruence|].
    destruct Hout as (_ & _ & _ & _ & _ & _ & s & _ & Hcase).
    destruct Hcase as [(_ & Hch & _)|[(_ & _ & Hch & _)|(_ & _ & Hch & _)]];
      rewrite (status_changed_same Hch Hn) in Hr; congruence.
  - destruct H as (_ & Hw & _). rewrite Hw in Hr. congruence.
  - destruct H as (_ & e1 & Hc & Hu & Hrd). split; [eauto|].
    assert (Hp1 : status_of (workflow e1) k = Some PENDING).
    { destruct (Hc k) as [E|(a & b & Ea & Eb & Hab)]; [congruence|].
      exfalso. assert (b = SKIPPED) by (destruct Hab; reflexivity). subst b.
      assert (Hs : status_of (workflow (engine S')) k = Some SKIPPED)
        by (eapply update_keeps; [exact Hu | exact Eb | discriminate]).
      congruence. }
    intros d Hd. specialize (Hrd k Hp1 Hr d Hd).
    eapply cascade_old_status; [exact Hc | exact Hrd | discriminate].
Qed.

Lemma fresh_check_sound (w : Workflow) : fresh_check w = true -> fresh w.
Proof.
  unfold fresh_check, fresh. rewrite forallb_forall. intros H s Hs.
  specialize (H s Hs). apply andb_prop in H. destruct H as [H1 H2].
  split.
  - now destruct (Status_eqb_spec (status s) PENDING).
  - now apply Z.eqb_eq.
Qed.

(** C1: in every state of a run, sequential or parallel, a step that is
    [READY], [RUNNING], [SUCCESS] or [FAILED] has all its declared
    dependencies in [SUCCESS].  A dispatch takes a [READY] step, whose
    dependencies are all [SUCCESS] at that moment and stay so; a step goes
    from [PENDING] to [READY] only in the readiness update a worker runs
    after its command, and only with all its dependencies in [SUCCESS];
    [SUCCESS] is never left.  The states the sequential loop returns in
    are states of such a run. *)
Theorem causal_order (g : Workflow) (strat : option SchedulingStrategy) (mp : nat) :
  wf_workflow g -> fresh g ->
  (forall t S,
      reachable g strat mp t S ->
      (forall k st,
          status_of (workflow (engine S)) k = Some st -> past_ready st = true ->
          forall d, In d (deps_of g k) ->
                    status_of (workflow (engine S)) d = Some SUCCESS)
      /\ forall ev S',
          pstep S ev S' ->
          (forall k, ev = EvDispatch k ->
                     status_of (workflow (engine S)) k = Some READY
                     /\ status_of (workflow (engine S')) k = Some RUNNING
                     /\ forall d, In d (deps_of g k) ->
                                  status_of (workflow (engine S)) d = Some SUCCESS
                                  /\ status_of (workflow (engine S')) d = Some SUCCESS)
          /\ (forall k,
                 status_of (workflow (engine S)) k = Some PENDING ->
                 status_of (workflow (engine S')) k = Some READY ->
                 (exists x, ev = EvSettle x)
                 /\ forall d, In d (deps_of g k) ->
                              status_of (workflow (engine S)) d = Some SUCCESS
                              /\ status_of (workflow (engine S')) d = Some SUCCESS)
          /\ (forall d, status_of (workflow (engine S)) d = Some SUCCESS ->
                        status_of (workflow (engine S')) d = Some SUCCESS))
  /\ (forall run fuel e',
         1 <= mp ->
         execute_sequentially run fuel (new_WorkflowEngine g strat mp) = Ok e' ->
         exists t, reachable g strat mp t (mkSystem e' [])).
Proof.
  intros Hwf Hf. split.
  - intros t S Hr. pose proof (reachable_ok Hwf Hf Hr) as Hok. split.
    + apply (eo_deps (so_engine Hok)).
    + intros ev S' Hst. split; [|split].
      * intros k ->. destruct (pstep_status Hwf Hok Hst) as (A & B & C & _).
        split; [assumption|]. split; [now apply (status_changed_at C)|].
        intros d Hd. split; [auto|]. eapply success_stable; eauto.
      * intros k Hp Hrd. destruct (pstep_readied k Hwf Hok Hst Hp Hrd) as [A B].
        split; [assumption|]. intros d Hd. split; [auto|].
        eapply success_stable; eauto.
      * intros d. eapply success_stable; eauto.
  - intros run fuel e' Hmp Hx.
    destruct (@execute_sequentially_reachable g strat mp run fuel e' Hwf Hf Hmp Hx)
      as (t & Hr & _).
    eauto.
Qed.

Lemma fan_run :
  execute_sequentially (fun _ _ => true) 5 (new_WorkflowEngine wf_fan None 1)
  = Ok fan_done.
Proof. vm_compute. reflexivity. Qed.

Lemma causal_order_witness :
  status_of (workflow fan_done) "B" = Some SUCCESS
  /\ forall d, In d (deps_of wf_fan "B") ->
               status_of (workflow fan_done) d = Some SUCCESS.
Proof.
  split; [reflexivity|].
  destruct (@causal_order wf_fan None 1 (wf_check_sound wf_fan eq_refl)
                          (fresh_check_sound wf_fan eq_refl)) as [Hrun Hseq].
  destruct (Hseq (fun _ _ => true) 5 fan_done (le_n 1) fan_run) as [t Hr].
  destruct (Hrun t _ Hr) as [Hinv _].
  apply (Hinv "B"%string SUCCESS); reflexivity.
Defined.

(* ================================================================== *)
(** * Condition gating *)
(* ================================================================== *)




(* ================================================================== *)
(** * The skip cascade in a run *)
(* ================================================================== *)

Lemma find_step_with_condition (f : option string -> option string)
      (t : step_table) (k : string) :
  find_step (map (with_condition f) t) k
  = option_map (with_condition f) (find_step t k).
Proof.
  induction t as [|s t IH]; simpl; [reflexivity|].
  destruct (String.eqb (step_id s) k); [reflexivity | assumption].
Qed.

Lemma update_step_with_condition (f : option string -> option string)
      (st : Status) (t : step_table) (k : string) :
  update_step (with_status st) (map (with_condition f) t) k
  = map (with_condition f) (update_step (with_status st) t k).
Proof.
  induction t as [|s t IH]; simpl; [reflexivity|].
  destruct (String.eqb (step_id s) k); simpl; [reflexivity | now rewrite IH].
Qed.

(** The loop of the cascade does not look at conditions: rewriting them
    all beforehand or afterwards gives the same engine. *)
Lemma skip_loop_conditions (f : option string -> option string) :
  forall fuel e to_skip skipped,
    skip_loop fuel (map_conditions f e) to_skip skipped
    = result_map (map_conditions f) (skip_loop fuel e to_skip skipped).
Proof.
  induction fuel as [|fuel IH]; intros e to_skip skipped.
  - destruct to_skip; reflexivity.
  - destruct to_skip as [|y rest]; [reflexivity|]. simpl.
    destruct (mem y skipped); [apply IH|].
    unfold get_step. simpl. rewrite find_step_with_condition.
    destruct (find_step (steps (workflow e)) y) as [s|]; simpl; [|reflexivity].
    destruct (Status_eqb (status s) PENDING || Status_eqb (status s) READY);
      [|apply IH].
    destruct (mem y (ready_queue e)); unfold get_inverse; simpl;
      (destruct (dict_get (inverse_dependencies (workflow e)) y) as [inv|];
       [|reflexivity]);
      simpl; rewrite <- IH; f_equal;
      unfold map_conditions, with_workflow, with_queue, set_status; simpl;
      now rewrite update_step_with_condition.
Qed.

Lemma skip_dependents_conditions (f : option string -> option string)
      (e : WorkflowEngine) (k : string) :
  _skip_dependents (map_conditions f e) k
  = result_map (map_conditions f) (_skip_dependents e k).
Proof.
  unfold _skip_dependents, get_inverse. simpl.
  destruct (dict_get (inverse_dependencies (workflow e)) k) as [inv|]; [|reflexivity].
  simpl. unfold inverse_size. simpl. apply skip_loop_conditions.
Qed.

(** C2: when a worker has seen its step [k] fail for good, the cascade it
    runs returns; after it every step that depends on [k], directly or
    through others, is [SKIPPED] and out of the ready queue; the cascade
    only moves [PENDING] and [READY] steps to [SKIPPED], so a step in any
    other status keeps it; its result does not depend on any condition
    expression; and however the run goes on, the descendants of [k] stay
    [SKIPPED].  At the end of a sequential run every descendant of a
    [FAILED] step is [SKIPPED]. *)
Theorem skip_cascade (g : Workflow) (strat : option SchedulingStrategy) (mp : nat) :
  wf_workflow g -> fresh g ->
  (forall t e ts1 ts2 k,
      reachable g strat mp t
                (mkSystem e (ts1 ++ mkThread k (Finished false) :: ts2)) ->
      status_of (workflow e) k = Some FAILED ->
      exists e1 e',
        _skip_dependents e k = Ok e1
        /\ settle false e k = Ok e'
        /\ (forall y, descendant g k y ->
                      status_of (workflow e1) y = Some SKIPPED
                      /\ ~ In y (ready_queue e1))
        /\ (forall x st, status_of (workflow e) x = Some st -> waiting st = false ->
                         status_of (workflow e1) x = Some st)
        /\ only_changes cascade_move (workflow e) (workflow e1)
        /\ (forall f, _skip_dependents (map_conditions f e) k
                      = Ok (map_conditions f e1))
        /\ (forall t' S',
               psteps (mkSystem e' (ts1 ++ mkThread k Dead :: ts2)) t' S' ->
               forall y, descendant g k y ->
                         status_of (workflow (engine S')) y = Some SKIPPED))
  /\ (forall run fuel e',
         1 <= mp ->
         execute_sequentially run fuel (new_WorkflowEngine g strat mp) = Ok e' ->
         forall k y, status_of (workflow e') k = Some FAILED -> descendant g k y ->
                     status_of (workflow e') y = Some SKIPPED).
Proof.
  intros Hwf Hf. split.
  - intros t e ts1 ts2 k Hr Hfail.
    pose proof (reachable_ok Hwf Hf Hr) as Hok.
    destruct (@settle_spec g e ts1 ts2 k false Hwf Hok)
      as (e1 & e' & Hs & Hok' & _ & _ & Hcase & Hok1 & Hch & _ & _ & Hu & _).
    destruct Hcase as [(_ & _ & Hsd & Hdesc)|(_ & [H|H])];
      [|discriminate | contradiction].
    exists e1, e'. split; [assumption|]. split; [assumption|].
    split; [|split; [|split; [assumption|split]]].
    + intros y Hy. split; [now apply Hdesc|].
      rewrite (eo_queue Hok1), (Hdesc y Hy). discriminate.
    + intros x st Hx Hw. eapply cascade_keeps; eassumption.
    + intros f. rewrite skip_dependents_conditions, Hsd. reflexivity.
    + intros t' S' Hps y Hy.
      assert (Hy' : status_of (workflow e') y = Some SKIPPED)
        by (eapply update_keeps; [exact Hu | now apply Hdesc | discriminate]).
      now destruct (@skipped_forever g _ S' t' y Hwf Hok' Hps Hy').
  - intros run fuel e' Hmp Hx k y Hk Hy.
    destruct (@execute_sequentially_reachable g strat mp run fuel e' Hwf Hf Hmp Hx)
      as (t & Hr & _).
    pose proof (reachable_ok Hwf Hf Hr) as Hok.
    apply (@doomed_descendants g e' [] k y Hok); [|exact Hy].
    left. split; [assumption | intros []].
Qed.

Lemma fan_failed_reachable :
  reachable wf_fan None 1 [EvDispatch "A"; EvRun "A" false]
            (mkSystem fan_failed [mkThread "A" (Finished false)]).
Proof.
  assert (R0 : reachable wf_fan None 1 [] (mkSystem fan_started []))
    by (apply reach_start; reflexivity).
  assert (S1 : pstep (mkSystem fan_started []) (EvDispatch "A")
                     (mkSystem (mark_running (with_queue [] fan_started) "A")
                               ([] ++ [mkThread "A" Started]))).
  { apply pstep_dispatch; [simpl; lia | discriminate | reflexivity]. }
  pose proof (reach_step R0 S1) as R1.
  assert (S2 : pstep (mkSystem (mark_running (with_queue [] fan_started) "A")
                               ([] ++ mkThread "A" Started :: []))
                     (EvRun "A" false)
                     (mkSystem fan_failed ([] ++ mkThread "A" (Finished false) :: []))).
  { apply pstep_run. reflexivity. }
  exact (reach_step R1 S2).
Qed.

Lemma skip_cascade_witness :
  exists e1,
    _skip_dependents fan_failed "A" = Ok e1
    /\ status_of (workflow e1) "B" = Some SKIPPED
    /\ status_of (workflow e1) "C" = Some SKIPPED.
Proof.
  destruct (@skip_cascade wf_fan None 1 (wf_check_sound wf_fan eq_refl)
                          (fresh_check_sound wf_fan eq_refl)) as [Hrun _].
  destruct (Hrun _ fan_failed [] [] "A"%string fan_failed_reachable eq_refl)
    as (e1 & e' & H1 & _ & H2 & _).
  exists e1. split; [assumption|]. split; apply H2; unfold descendant; apply path_edge.
  - exists (mkStep "B" "b" ["A"%string] None None [] PENDING 0).
    split; [reflexivity | now left].
  - exists (mkStep "C" "c" ["A"%string] None None [] PENDING 0).
    split; [reflexivity | now left].
Defined.

(* ================================================================== *)
(** * Retries *)
(* ================================================================== *)

Lemma count_events_snoc (p : Event -> bool) (t : list Event) (ev : Event) :
  count_events p (t ++ [ev]) = count_events p t + indicator (p ev).
Proof.
  unfold count_events. rewrite filter_app, length_app. simpl.
  destruct (p ev); reflexivity.
Qed.

Lemma is_run_other (k x : string) (o o' : bool) :
  x <> k -> is_run k o (EvRun x o') = false.
Proof.
  intros H. simpl. destruct (String.eqb_spec x k); [congruence | reflexivity].
Qed.

Lemma is_dispatch_other (k x : string) :
  x <> k -> is_dispatch k (EvDispatch x) = false.
Proof.
  intros H. simpl. destruct (String.eqb_spec x k); [congruence | reflexivity].
Qed.

Lemma attempts_same (e e' : WorkflowEngine) (k : string) :
  execution_order e' = execution_order e -> attempts e' k = attempts e k.
Proof. unfold attempts. now intros ->. Qed.

Lemma attempts_snoc (e e' : WorkflowEngine) (k x : string) :
  execution_order e' = execution_order e ++ [x] ->
  attempts e' k = attempts e k + indicator (String.eqb x k).
Proof.
  intros H. rewrite (@attempts_app e' k x _ H). unfold attempts.
  destruct (string_dec x k) as [->|Hn].
  - now rewrite String.eqb_refl.
  - destruct (String.eqb_spec x k); [congruence | reflexivity].
Qed.


(** A step of a run that neither dispatches nor runs [k] keeps its books,
    provided it leaves alone the log entries and the retry counter of [k]
    and moves [k] only between [PENDING], [READY] and [SKIPPED]. *)
Lemma retry_books_frame (k : string) (N : Z) (t : list Event) (S S' : System)
      (ev : Event) :
  retry_books k N t S ->
  (forall o, is_run k o ev = false) -> is_dispatch k ev = false ->
  attempts (engine S') k = attempts (engine S) k ->
  retry_of (workflow (engine S')) k = retry_of (workflow (engine S)) k ->
  (forall st, status_of (workflow (engine S)) k = Some st ->
              exists st', status_of (workflow (engine S')) k = Some st'
                          /\ (st' = st
                              \/ (Status_eqb st FAILED = false
                                  /\ Status_eqb st SUCCESS = false
                                  /\ Status_eqb st RUNNING = false
                                  /\ Status_eqb st' FAILED = false
                                  /\ Status_eqb st' SUCCESS = false
                                  /\ Status_eqb st' RUNNING = false))) ->
  retry_books k N (t ++ [ev]) S'.
Proof.
  intros (st & rc & Hst & Hrc & Hb & Hf & Hs & Hfin & Ha & Hd) Hrun Hdis Hatt Hret Hmove.
  destruct (Hmove st Hst) as (st' & Hst' & Hcase).
  exists st', rc. unfold failures, successes, dispatches in *.
  rewrite !count_events_snoc, !Hrun, Hdis, Hatt, Hret. simpl. rewrite !Nat.add_0_r.
  split; [assumption|]. split; [assumption|]. split; [assumption|].
  destruct Hcase as [->|(A1 & A2 & A3 & B1 & B2 & B3)]; [tauto|].
  rewrite A1 in Hf. rewrite A2 in Hs. rewrite A3 in Hd. rewrite B1, B2, B3.
  repeat split; auto.
  intros ->. discriminate.
Qed.

Lemma settle_moves (w w1 w' : Workflow) (k : string) (st : Status) :
  only_changes cascade_move w w1 -> only_changes update_move w1 w' ->
  status_of w k = Some st ->
  exists st', status_of w' k = Some st'
              /\ (st' = st
                  \/ (Status_eqb st FAILED = false
                      /\ Status_eqb st SUCCESS = false
                      /\ Status_eqb st RUNNING = false
                      /\ Status_eqb st' FAILED = false
                      /\ Status_eqb st' SUCCESS = false
                      /\ Status_eqb st' RUNNING = false)).
Proof.
  intros Hc Hu Hst.
  destruct (Hc k) as [E|(a & b & Ea & Eb & Hab)];
    destruct (Hu k) as [E'|(a' & b' & Ea' & Eb' & Hab')].
  - exists st. split; [congruence | now left].
  - exists b'. split; [assumption|]. right.
    assert (a' = st) by congruence. subst a'. destruct Hab'; repeat split.
  - exists b. split; [congruence|]. right.
    assert (a = st) by congruence. subst a. destruct Hab; repeat split.
  - exists b'. split; [assumption|]. right.
    assert (a = st) by congruence. subst a. destruct Hab, Hab'; repeat split.
Qed.









(** Scenario C: [A] fails twice and succeeds at the third attempt. *)
Example scenario_retry_then_success :
  execute_sequentially retry_third 5 (new_WorkflowEngine wf_retry None 1)
  = Ok retry_succeeded
  /\ status_of (workflow retry_succeeded) "A" = Some SUCCESS
  /\ retry_of (workflow retry_succeeded) "A" = Some 2%Z
  /\ execution_order retry_succeeded = ["A"; "A"; "A"; "B"]%string.
Proof. vm_compute. repeat split; reflexivity. Qed.

(* ================================================================== *)
(** * Draining the graph *)
(* ================================================================== *)

Lemma condition_chain_run :
  execute_sequentially (fun _ _ => true) 5
                       (new_WorkflowEngine wf_condition_chain None 1)
  = Ok condition_chain_done.
Proof. vm_compute. reflexivity. Qed.

(** C7 (as stated it fails): in a run of the sequential loop on a
    validated graph in which no command fails, no step would be left
    [PENDING].  On the chain [A], [B] (which runs only if [A] failed), [C],
    with every command succeeding, [B] is skipped by its condition, no
    cascade is run for it, and [C] is still [PENDING] when the loop
    returns. *)
Lemma drain_counterexample :
  ~ (forall g strat fuel e',
        wf_workflow g -> fresh g -> validate_workflow g = Ok true ->
        execute_sequentially (fun _ _ => true) fuel (new_WorkflowEngine g strat 1)
        = Ok e' ->
        forall k st, status_of (workflow e') k = Some st ->
                     st = SUCCESS \/ st = FAILED \/ st = SKIPPED).
Proof.
  intros H.
  specialize (H wf_condition_chain None 5 condition_chain_done
                (wf_check_sound wf_condition_chain eq_refl)
                (fresh_check_sound wf_condition_chain eq_refl)
                eq_refl condition_chain_run "C"%string PENDING eq_refl).
  destruct H as [H|[H|H]]; discriminate H.
Qed.

(** The final state of that run: nothing failed, the queue is empty, and
    [C] waits for ever behind the skipped [B]. *)
Example condition_chain_final :
  ready_queue condition_chain_done = []
  /\ execution_order condition_chain_done = ["A"]%string
  /\ status_of (workflow condition_chain_done) "A" = Some SUCCESS
  /\ status_of (workflow condition_chain_done) "B" = Some SKIPPED
  /\ status_of (workflow condition_chain_done) "C" = Some PENDING.
Proof. vm_compute. repeat split; reflexivity. Qed.

(** A failing command does abort the run when the retry policy of its step
    carries no integer: [int] raises [ValueError] out of [_execute_step]
    and out of the loop. *)
Example malformed_policy_aborts :
  validate_workflow wf_bad_policy = Ok true
  /\ execute_sequentially (fun _ _ => false) 5 (new_WorkflowEngine wf_bad_policy None 1)
     = Raise (ValueError "invalid literal for int() with base 10").
Proof. vm_compute. split; reflexivity. Qed.

Lemma sum_map_le (f h : string -> nat) (l : list string) :
  (forall x, In x l -> f x <= h x) ->
  list_sum (map f l) <= list_sum (map h l).
Proof.
  induction l as [|x l IH]; intros H; simpl; [lia|].
  pose proof (H x (or_introl eq_refl)).
  assert (list_sum (map f l) <= list_sum (map h l))
    by (apply IH; intros y Hy; apply H; now right).
  lia.
Qed.

Lemma sum_map_lt (f h : string -> nat) (l : list string) (k : string) :
  (forall x, In x l -> f x <= h x) -> In k l -> f k < h k ->
  list_sum (map f l) < list_sum (map h l).
Proof.
  induction l as [|x l IH]; intros H Hk Hlt; simpl; [contradiction|].
  pose proof (H x (or_introl eq_refl)).
  assert (Hl : list_sum (map f l) <= list_sum (map h l))
    by (apply sum_map_le; intros y Hy; apply H; now right).
  destruct Hk as [->|Hk]; [lia|].
  assert (list_sum (map f l) < list_sum (map h l))
    by (apply IH; auto; intros y Hy; apply H; now right).
  lia.
Qed.

Lemma budget_same (g w w' : Workflow) (k : string) :
  status_of w' k = status_of w k -> retry_of w' k = retry_of w k ->
  budget g w' k = budget g w k.
Proof. unfold budget. now intros -> ->. Qed.

Lemma budget_live (g w w' : Workflow) (k : string) (st st' : Status) :
  status_of w k = Some st -> status_of w' k = Some st' ->
  retry_of w' k = retry_of w k ->
  (live st' = true -> live st = true) ->
  budget g w' k <= budget g w k.
Proof.
  unfold budget. intros -> -> -> H.
  destruct (retry_of w k) as [rc|]; [|lia].
  destruct (live st'); [rewrite (H eq_refl); lia | lia].
Qed.

Lemma settle_live (w w1 w' : Workflow) (k : string) (st : Status) :
  only_changes cascade_move w w1 -> only_changes update_move w1 w' ->
  status_of w k = Some st ->
  exists st', status_of w' k = Some st'
              /\ (live st' = true -> live st = true)
              /\ (st' = RUNNING -> st = RUNNING).
Proof.
  intros Hc Hu Hst.
  destruct (Hc k) as [E|(a & b & Ea & Eb & Hab)];
    destruct (Hu k) as [E'|(a' & b' & Ea' & Eb' & Hab')].
  - exists st. split; [congruence | auto].
  - exists b'. split; [assumption|].
    assert (a' = st) by congruence. subst a'. destruct Hab'; split; auto; discriminate.
  - exists b. split; [congruence|].
    assert (a = st) by congruence. subst a. destruct Hab; split; auto; discriminate.
  - exists b'. split; [assumption|].
    assert (a = st) by congruence. subst a.
    destruct Hab, Hab'; split; auto; discriminate.
Qed.

Lemma limit_of_current (g w : Workflow) (k : string) (s : Step) (fs : string) (n : Z) :
  skeleton w = skeleton g -> find_step (steps w) k = Some s ->
  failure_strategy s = Some fs -> PyStr.startswith "retry:" fs = true ->
  max_retries_of fs = Ok n -> limit g k = n.
Proof.
  intros Hsk Hs Hfs Hp Hn.
  destruct (skeleton_step Hsk _ Hs) as (s0 & Hs0 & _ & _ & Hf & _).
  unfold limit. rewrite Hs0, <- Hf, Hfs, Hp, Hn. reflexivity.
Qed.

Lemma commands_end_exited (b : bool) : commands_end (fun _ _ => Exited b).
Proof. intros log cmd. exists b. reflexivity. Qed.

(** With policies that parse, [_execute_step] returns when the command
    ends. *)
Lemma execute_step_total (g : Workflow) (run : Executor) (e : WorkflowEngine)
      (k : string) (s : Step) :
  commands_end run ->
  policies_ok g -> skeleton (workflow e) = skeleton g ->
  find_step (steps (workflow e)) k = Some s ->
  exists success e', _execute_step run e k = Ok (success, e').
Proof.
  intros Hend Hpol Hsk Hs.
  destruct (skeleton_step Hsk _ Hs) as (s0 & Hs0 & _ & _ & Hf & _).
  unfold _execute_step, get_step. rewrite Hs. simpl. unfold apply_outcome.
  destruct (Hend (execution_order e ++ [k]) (command s)) as [b Hb]. rewrite Hb.
  destruct b; [eauto|].
  unfold get_step. simpl. rewrite Hs. simpl.
  destruct (failure_strategy s) as [fs|] eqn:Efs; [|eauto].
  destruct (PyStr.startswith "retry:" fs) eqn:Ep;
    [|rewrite andb_false_r; eauto].
  destruct (Hpol s0 fs (proj1 (find_step_In _ _ Hs0)) (eq_sym Hf) Ep) as [n Hn].
  change (match fs with EmptyString => false | String _ _ => true end)
    with (truthy (Some fs)).
  rewrite (startswith_retry_truthy _ Ep), Hn. simpl.
  destruct (retry_count s <? n)%Z; eauto.
Qed.

(** With a level table that covers the graph, [_get_next_step] returns a
    step when the queue is not empty. *)
Lemma get_next_step_total (g : Workflow) (e : WorkflowEngine) :
  strategy_ok g (strategy e) ->
  (forall k, In k (ready_queue e) -> In k (step_ids (steps g))) ->
  ready_queue e <> [] ->
  exists sid e1, _get_next_step e = Ok (Some sid, e1).
Proof.
  intros Hs Hq Hne. unfold _get_next_step.
  destruct (strategy e) as [s|].
  - simpl in Hs.
    assert (Hdef : forall x, In x (ready_queue e) ->
                             dict_get (strategy_levels s) x <> None) by auto.
    unfold get_next_steps. destruct (ready_queue e) as [|x l] eqn:Eq; [congruence|].
    destruct s as [lv|lv]; simpl in Hdef.
    + destruct (@select_spec Nat.ltb ltb_trans ltb_weak lv (x :: l) Hne Hdef)
        as (r & Hr & _).
      rewrite Hr. simpl. eauto.
    + destruct (@select_spec (fun k kb => Nat.ltb kb k) gtb_trans gtb_weak lv
                             (x :: l) Hne Hdef) as (r & Hr & _).
      rewrite Hr. simpl. eauto.
  - destruct (ready_queue e) as [|x l]; [congruence | eauto].
Qed.

(** One iteration of the sequential loop, from a state between two
    iterations with a non-empty queue: every call returns, the state
    reached is again between two iterations, and the number of dispatches
    still possible has dropped. *)
Lemma sequential_progress (g : Workflow) (strat : option SchedulingStrategy)
      (mp : nat) (run : Executor) (t : list Event) (e : WorkflowEngine) :
  wf_workflow g -> fresh g -> 1 <= mp -> policies_ok g -> strategy_ok g strat ->
  commands_end run ->
  reachable g strat mp t (mkSystem e []) -> quiescent g e -> ready_queue e <> [] ->
  exists sid e1 success e3 e4 t',
    _get_next_step e = Ok (Some sid, e1)
    /\ _execute_step run (mark_running e1 sid) sid = Ok (success, e3)
    /\ settle success e3 sid = Ok e4
    /\ reachable g strat mp (t ++ t') (mkSystem e4 [])
    /\ quiescent g e4
    /\ run_measure g (workflow e4) < run_measure g (workflow e).
Proof.
  intros Hwf Hf Hmp Hpol Hstr Hend Hr [Hq1 Hq2] Hne.
  pose proof (reachable_ok Hwf Hf Hr) as Hok.
  destruct (reachable_config Hwf Hf Hr) as [Hcs _]. simpl in Hcs.
  pose proof (so_engine Hok) as Heo. simpl in Heo.
  pose proof (eo_skeleton Heo) as Hsk.
  destruct (@get_next_step_total g e) as (sid & e1 & Hn); [congruence | | assumption |].
  { intros k Hk. apply (eo_queue Heo) in Hk.
    apply (skeleton_status_ids Hsk). eauto. }
  destruct (dispatch_spec Hwf Hok Hn) as (Hok2 & Hready & _ & Hch2 & Hb2).
  set (e2 := mark_running e1 sid) in *.
  pose proof (so_engine Hok2) as Heo2. cbn [engine] in Heo2.
  pose proof (eo_skeleton Heo2) as Hsk2.
  destruct (status_of_inv _ _ (status_changed_at Hch2)) as (s & Hs & Hss).
  destruct (@execute_step_total g run e2 sid s Hend Hpol Hsk2 Hs) as (success & e3 & Hx).
  destruct (@execute_step_spec g run e2 e3 [] [] sid success s Hok2 Hs Hx)
    as (Hok3 & _ & Hout).
  destruct (@settle_spec g e3 [] [] sid success Hwf Hok3)
    as (e1' & e4 & Hs4 & Hok4 & Hb4 & Hnrp & _ & _ & Hc & _ & _ & Hu & _).
  destruct (@sequential_iteration g strat mp run t e e1 e3 e4 sid success
                                  Hwf Hf Hmp Hr Hne Hn Hx Hs4) as [o Hr4].
  exists sid, e1, success, e3, e4. eexists.
  split; [assumption|]. split; [assumption|]. split; [assumption|].
  split; [exact Hr4|].
  pose proof (eo_skeleton (so_engine Hok3)) as Hsk3. cbn [engine] in Hsk3.
  pose proof (eo_skeleton (so_engine Hok4)) as Hsk4. cbn [engine] in Hsk4.
  destruct Hout as (_ & _ & _ & _ & Hret3 & _ & s' & Hs' & Hcase).
  rewrite Hs in Hs'. injection Hs' as <-.
  assert (Hrc2 : retry_of (workflow e2) sid = Some (retry_count s))
    by (unfold retry_of; now rewrite Hs).
  assert (Hsid : In sid (step_ids (steps g))).
  { apply (skeleton_status_ids Hsk). eauto. }
  (* the status of [sid] after its run *)
  assert (Hafter : exists b, status_changed (workflow e2) (workflow e3) sid b
                             /\ b <> RUNNING
                             /\ budget g (workflow e3) sid < budget g (workflow e2) sid).
  { unfold budget at 2. rewrite (status_changed_at Hch2), Hrc2. simpl.
    destruct Hcase as [(_ & Hch & Hrc)|[(_ & Hbud & Hch & Hrc)|(_ & _ & Hch & Hrc)]].
    - exists SUCCESS. split; [assumption|]. split; [discriminate|].
      unfold budget. rewrite (status_changed_at Hch), Hrc. simpl. lia.
    - exists PENDING. split; [assumption|]. split; [discriminate|].
      destruct Hbud as (fs & n & Hfs & Hp & Hn' & Hlt).
      pose proof (@limit_of_current g (workflow e2) sid s fs n Hsk2 Hs Hfs Hp Hn') as El.
      unfold budget. rewrite (status_changed_at Hch), Hrc, !El. simpl. lia.
    - exists FAILED. split; [assumption|]. split; [discriminate|].
      unfold budget. rewrite (status_changed_at Hch), Hrc. simpl. lia. }
  destruct Hafter as (b & Hch3 & Hbr & Hblt).
  split; [split; [assumption|]|].
  - intros x Hx4.
    assert (Hxid : In x (step_ids (steps g))).
    { apply (skeleton_status_ids Hsk4). eauto. }
    destruct (proj1 (skeleton_status_ids Hsk3 x) Hxid) as [st3 Hst3].
    destruct (settle_live x Hc Hu Hst3) as (st4 & Hst4 & _ & Hrun).
    assert (st4 = RUNNING) by congruence. subst st4.
    rewrite (Hrun eq_refl) in Hst3.
    destruct (String.eqb_spec x sid) as [->|Hn3].
    + rewrite (status_changed_at Hch3) in Hst3. congruence.
    + rewrite (status_changed_same Hch3 Hn3), (status_changed_same Hch2 Hn3) in Hst3.
      exact (Hq2 x Hst3).
  - unfold run_measure.
    apply Nat.le_lt_trans with (list_sum (map (budget g (workflow e3)) (step_ids (steps g)))).
    { apply sum_map_le. intros x Hx'.
      destruct (proj1 (skeleton_status_ids Hsk3 x) Hx') as [st3 Hst3].
      destruct (settle_live x Hc Hu Hst3) as (st4 & Hst4 & Hlive & _).
      eapply budget_live; [exact Hst3 | exact Hst4 | apply (sb_retry Hb4) | exact Hlive]. }
    apply Nat.lt_le_trans with (list_sum (map (budget g (workflow e2)) (step_ids (steps g)))).
    { apply sum_map_lt with (k := sid); [|assumption|assumption].
      intros x Hx'. destruct (String.eqb_spec x sid) as [->|Hn3]; [lia|].
      rewrite (budget_same g _ _ x (status_changed_same Hch3 Hn3) (Hret3 x Hn3)). lia. }
    apply sum_map_le. intros x Hx'.
    destruct (proj1 (skeleton_status_ids Hsk x) Hx') as [st Hst].
    destruct (String.eqb_spec x sid) as [->|Hn3].
    + eapply budget_live;
        [exact Hst | apply (status_changed_at Hch2) | apply (sb_retry Hb2) |].
      intros _. rewrite Hready in Hst. now injection Hst as <-.
    + rewrite (budget_same g _ _ x (status_changed_same Hch2 Hn3) (sb_retry Hb2 x)). lia.
Qed.

(** The sequential loop returns, with fuel for the dispatches still
    possible, in a state with an empty queue that is a state of a run. *)
Lemma sequential_terminates (g : Workflow) (strat : option SchedulingStrategy)
      (mp : nat) (run : Executor) :
  wf_workflow g -> fresh g -> 1 <= mp -> policies_ok g -> strategy_ok g strat ->
  commands_end run ->
  forall n t e,
    reachable g strat mp t (mkSystem e []) -> quiescent g e ->
    run_measure g (workflow e) <= n ->
    exists e' t',
      _execute_sequential run n e = Ok e'
      /\ reachable g strat mp (t ++ t') (mkSystem e' [])
      /\ quiescent g e'
      /\ ready_queue e' = [].
Proof.
  intros Hwf Hf Hmp Hpol Hstr Hend. induction n as [|n IH]; intros t e Hr Hq Hm.
  - destruct (ready_queue e) as [|x l] eqn:Eq.
    + exists e, []. simpl. rewrite Eq, app_nil_r. auto.
    + exfalso.
      destruct (@sequential_progress g strat mp run t e Hwf Hf Hmp Hpol Hstr Hend Hr Hq)
        as (sid & e1 & success & e3 & e4 & t' & _ & _ & _ & _ & _ & Hlt);
        [rewrite Eq; discriminate | lia].
  - destruct (ready_queue e) as [|x l] eqn:Eq.
    + exists e, []. simpl. rewrite Eq, app_nil_r. auto.
    + destruct (@sequential_progress g strat mp run t e Hwf Hf Hmp Hpol Hstr Hend Hr Hq)
        as (sid & e1 & success & e3 & e4 & t' & Hn & Hx & Hs & Hr4 & Hq4 & Hlt);
        [rewrite Eq; discriminate|].
      destruct (IH _ e4 Hr4 Hq4) as (e' & t'' & Hrun & Hr' & Hq' & He'); [lia|].
      exists e', (t' ++ t''). simpl. rewrite Eq, Hn. simpl. rewrite Hx. simpl.
      rewrite Hs. simpl. rewrite app_assoc. auto.
Qed.

Lemma all_success_dec (w : Workflow) (l : list string) :
  (forall d, In d l -> status_of w d = Some SUCCESS)
  \/ (exists d, In d l /\ status_of w d <> Some SUCCESS).
Proof.
  induction l as [|x l IH].
  - left. intros d [].
  - destruct (status_of w x) as [[]|] eqn:E;
      try (right; exists x; split; [now left | congruence]).
    destruct IH as [IH|(d & Hd & Hn)].
    + left. intros d [<-|Hd]; auto.
    + right. exists d. split; [now right | assumption].
Qed.

(** At the end of the sequential loop on an acyclic graph, a step still
    [PENDING] has an ancestor that was skipped by its own condition. *)
Lemma pending_has_skipped_ancestor (g : Workflow) (e : WorkflowEngine)
      (V : list string) :
  wf_workflow g -> system_ok g (mkSystem e []) -> quiescent g e ->
  ready_queue e = [] ->
  topo g V -> (forall x, In x (step_ids (steps g)) -> In x V) ->
  forall n k, rank V k <= n -> status_of (workflow e) k = Some PENDING ->
              exists a, path g k a /\ condition_skipped g e a.
Proof.
  intros Hwf Hok [Hq1 Hq2] Hqe HV Hall.
  pose proof (so_engine Hok) as Heo. simpl in Heo.
  pose proof (eo_skeleton Heo) as Hsk.
  induction n as [|n IH]; intros k Hrk Hk.
  - exfalso.
    assert (In k (step_ids (steps g))) by (apply (skeleton_status_ids Hsk); eauto).
    pose proof (rank_pos V k (Hall _ H)). lia.
  - destruct (Hq1 k Hk) as (d & Hd & Hn).
    assert (He : edge g k d) by now apply edge_deps_of.
    assert (Hkid : In k (step_ids (steps g))) by (eapply edge_In_ids; eassumption).
    assert (Hdid : In d (step_ids (steps g))) by (eapply edge_target_ids; eassumption).
    destruct (topo_edge_rank HV (Hall _ Hkid) He) as [_ Hlt].
    destruct (proj1 (skeleton_status_ids Hsk d) Hdid) as [st Hst].
    assert (Hdoom : doomed g e [] d -> False).
    { intros Hdm. pose proof (@so_doomed _ _ Hok d k Hdm Hd) as Hs. simpl in Hs. congruence. }
    destruct st.
    + destruct (IH d) as (a & Hp & Ha); [lia | assumption |].
      exists a. split; [eapply path_cons; eassumption | assumption].
    + exfalso. apply (eo_queue Heo) in Hst. rewrite Hqe in Hst. exact Hst.
    + exfalso. exact (Hq2 d Hst).
    + contradiction.
    + exfalso. apply Hdoom. left. split; [assumption | intros []].
    + destruct (all_success_dec (workflow e) (deps_of g d)) as [Hs|Hs].
      * exists d. split; [now apply path_edge | split; assumption].
      * exfalso. apply Hdoom. right. split; assumption.
Qed.

Lemma initial_quiescent (g : Workflow) (strat : option SchedulingStrategy)
      (mp : nat) (e0 : WorkflowEngine) :
  wf_workflow g -> fresh g ->
  _update_ready_queue (new_WorkflowEngine g strat mp) = Ok e0 ->
  quiescent g e0.
Proof.
  intros Hwf Hf He.
  destruct (@update_ready_queue_spec g _ [] Hwf (@initial_ok g strat mp Hf))
    as (e' & Hr & Hok & _ & Hch & _ & Hnp & _).
  rewrite Hr in He. injection He as <-. split; [assumption|].
  intros k Hk.
  assert (Hg : status_of g k = Some RUNNING)
    by (eapply update_old_status; [exact Hch | exact Hk | discriminate | discriminate]).
  apply (fresh_status _ Hf) in Hg. discriminate.
Qed.

(** C7 (amended): on a validated graph whose retry policies carry an
    integer, with no strategy or a strategy whose level table covers the
    graph, and commands that all end (with exit status 0 or another one),
    the sequential run returns, whatever the exit statuses are, with an
    empty ready queue and every step [SUCCESS], [FAILED], [SKIPPED] or
    [PENDING].  A step still [PENDING] has an ancestor that was skipped by
    its own condition (it is [SKIPPED] while all its dependencies are
    [SUCCESS]); the descendants of a [FAILED] step are [SKIPPED], not
    [PENDING].  When no step has been skipped by its condition, every step
    is [SUCCESS], [FAILED] or [SKIPPED]. *)
Theorem drain_to_exhaustion (g : Workflow) (strat : option SchedulingStrategy)
        (run : Executor) :
  wf_workflow g -> fresh g -> validate_workflow g = Ok true ->
  policies_ok g -> strategy_ok g strat -> commands_end run ->
  exists fuel e',
    execute_sequentially run fuel (new_WorkflowEngine g strat 1) = Ok e'
    /\ ready_queue e' = []
    /\ (forall k, In k (step_ids (steps g)) ->
                  exists st, status_of (workflow e') k = Some st
                             /\ (st = SUCCESS \/ st = FAILED \/ st = SKIPPED
                                 \/ st = PENDING))
    /\ (forall k, status_of (workflow e') k = Some PENDING ->
                  exists a, path g k a /\ condition_skipped g e' a)
    /\ (forall k y, status_of (workflow e') k = Some FAILED -> descendant g k y ->
                    status_of (workflow e') y = Some SKIPPED)
    /\ ((forall a, ~ condition_skipped g e' a) ->
        forall k, In k (step_ids (steps g)) ->
                  exists st, status_of (workflow e') k = Some st
                             /\ (st = SUCCESS \/ st = FAILED \/ st = SKIPPED)).
Proof.
  intros Hwf Hf Hv Hpol Hstr Hend.
  destruct (validate_topo Hwf Hv) as (V & HV & Hall).
  destruct (@update_ready_queue_spec g _ [] Hwf (@initial_ok g strat 1 Hf))
    as (e0 & Hr0 & _).
  pose proof (initial_quiescent strat 1 Hwf Hf Hr0) as Hq0.
  destruct (@sequential_terminates g strat 1 run Hwf Hf (le_n 1) Hpol Hstr Hend
              (run_measure g (workflow e0)) [] e0 (reach_start _ _ _ Hr0) Hq0 (le_n _))
    as (e' & t' & Hrun & Hr' & Hq' & Hqe).
  exists (run_measure g (workflow e0)), e'.
  pose proof (reachable_ok Hwf Hf Hr') as Hok.
  pose proof (so_engine Hok) as Heo. simpl in Heo.
  pose proof (eo_skeleton Heo) as Hsk.
  assert (Hstat : forall k, In k (step_ids (steps g)) ->
                            exists st, status_of (workflow e') k = Some st
                                       /\ (st = SUCCESS \/ st = FAILED \/ st = SKIPPED
                                           \/ st = PENDING)).
  { intros k Hk. destruct (proj1 (skeleton_status_ids Hsk k) Hk) as [st Hst].
    exists st. split; [assumption|]. destruct st; auto.
    - exfalso. apply (eo_queue Heo) in Hst. rewrite Hqe in Hst. exact Hst.
    - exfalso. exact (proj2 Hq' k Hst). }
  assert (Hpend : forall k, status_of (workflow e') k = Some PENDING ->
                            exists a, path g k a /\ condition_skipped g e' a).
  { intros k Hk.
    eapply (@pending_has_skipped_ancestor g e' V Hwf Hok Hq' Hqe HV Hall (rank V k) k);
      [apply Nat.le_refl | assumption]. }
  split.
  { unfold execute_sequentially. rewrite Hr0. simpl. exact Hrun. }
  split; [assumption|]. split; [assumption|]. split; [assumption|]. split.
  - intros k y Hk Hy. apply (@doomed_descendants g e' [] k y Hok); [|exact Hy].
    left. split; [assumption | intros []].
  - intros Hnone k Hk. destruct (Hstat k Hk) as (st & Hst & Hcase).
    exists st. split; [assumption|].
    destruct Hcase as [H|[H|[H|H]]]; auto.
    exfalso. subst st. destruct (Hpend k Hst) as (a & _ & Ha). exact (Hnone a Ha).
Qed.

Lemma condition_chain_policies : policies_ok wf_condition_chain.
Proof.
  intros s fs Hs Hfs. simpl in Hs.
  destruct Hs as [<-|[<-|[<-|[]]]]; discriminate Hfs.
Qed.

Lemma drain_to_exhaustion_witness :
  exists fuel e',
    execute_sequentially (fun _ _ => true) fuel
                         (new_WorkflowEngine wf_condition_chain None 1) = Ok e'
    /\ ready_queue e' = [].
Proof.
  destruct (@drain_to_exhaustion wf_condition_chain None (fun _ _ => true)
              (wf_check_sound wf_condition_chain eq_refl)
              (fresh_check_sound wf_condition_chain eq_refl)
              eq_refl condition_chain_policies I (commands_end_exited true))
    as (fuel & e' & H1 & H2 & _).
  exists fuel, e'. split; assumption.
Defined.

(* ================================================================== *)
(** * What a run keeps: structure, queue, final statuses *)
(* ================================================================== *)

Lemma reset_step_fresh (s : Step) :
  status s = PENDING -> retry_count s = 0%Z -> reset_step s = s.
Proof.
  destruct s as [i c d cn fs pw st rc]. simpl. intros -> ->. reflexivity.
Qed.

Lemma skeleton_fresh (g : Workflow) : fresh g -> skeleton g = g.
Proof.
  destruct g as [n ss inv]. unfold fresh, skeleton. simpl. intros Hf. f_equal.
  induction ss as [|s ss IH]; [reflexivity|]. simpl. f_equal.
  - destruct (Hf s (or_introl eq_refl)). now apply reset_step_fresh.
  - apply IH. intros s' Hs'. apply Hf. now right.
Qed.

Lemma fan_done_reachable :
  exists t, reachable wf_fan None 1 t (mkSystem fan_done []).
Proof.
  destruct (@execute_sequentially_reachable wf_fan None 1 (fun _ _ => true) 5
              fan_done (wf_check_sound wf_fan eq_refl)
              (fresh_check_sound wf_fan eq_refl) (le_n 1) fan_run)
    as (t & Hr & _).
  exists t. exact Hr.
Qed.

(** A run, sequential or parallel, changes nothing of the graph but the
    [status] and [retry_count] of its steps: with these two fields reset,
    the workflow of every state of the run is the graph the engine was
    started on (same steps in the same order, same commands, dependencies,
    conditions and policies, same reverse index). *)
Theorem run_keeps_graph_structure (g : Workflow) (strat : option SchedulingStrategy)
        (mp : nat) (t : list Event) (S : System) :
  wf_workflow g -> fresh g -> reachable g strat mp t S ->
  skeleton (workflow (engine S)) = g.
Proof.
  intros Hwf Hf Hr.
  rewrite (eo_skeleton (so_engine (reachable_ok Hwf Hf Hr))).
  now apply skeleton_fresh.
Qed.

Lemma run_keeps_graph_structure_witness :
  skeleton (workflow fan_done) = wf_fan.
Proof.
  destruct fan_done_reachable as [t Hr].
  exact (@run_keeps_graph_structure wf_fan None 1 t _
           (wf_check_sound wf_fan eq_refl) (fresh_check_sound wf_fan eq_refl) Hr).
Defined.

(** In every state of a run the ready queue holds exactly the [READY]
    steps, each of them once, and no step is held by two workers that have
    not yet run it: each such worker holds a different step, which is
    [RUNNING]. *)
Theorem ready_queue_holds_ready_steps (g : Workflow)
        (strat : option SchedulingStrategy) (mp : nat) (t : list Event) (S : System) :
  wf_workflow g -> fresh g -> reachable g strat mp t S ->
  NoDup (ready_queue (engine S))
  /\ (forall k, In k (ready_queue (engine S))
                <-> status_of (workflow (engine S)) k = Some READY)
  /\ NoDup (started (running_threads S))
  /\ (forall k, In k (started (running_threads S)) ->
                status_of (workflow (engine S)) k = Some RUNNING).
Proof.
  intros Hwf Hf Hr. pose proof (reachable_ok Hwf Hf Hr) as Hok.
  split; [apply (eo_queue_nodup (so_engine Hok))|].
  split; [apply (eo_queue (so_engine Hok))|].
  split; [apply (so_started_nodup Hok) | apply (so_started Hok)].
Qed.

Lemma ready_queue_holds_ready_steps_witness :
  NoDup (ready_queue fan_done)
  /\ (forall k, In k (ready_queue fan_done)
                <-> status_of (workflow fan_done) k = Some READY).
Proof.
  destruct fan_done_reachable as [t Hr].
  destruct (@ready_queue_holds_ready_steps wf_fan None 1 t _
              (wf_check_sound wf_fan eq_refl) (fresh_check_sound wf_fan eq_refl) Hr)
    as (H1 & H2 & _).
  split; assumption.
Defined.

Lemma terminal_stable (g : Workflow) (S S' : System) (ev : Event) (k : string)
      (st : Status) :
  wf_workflow g -> system_ok g S -> pstep S ev S' ->
  status_of (workflow (engine S)) k = Some st -> live st = false ->
  status_of (workflow (engine S')) k = Some st.
Proof.
  intros Hwf Hok Hst Hk Hl. pose proof (pstep_status Hwf Hok Hst) as H.
  destruct ev as [|x|x o|x|x].
  - destruct H as [Hw _]. now rewrite Hw.
  - destruct H as (Hr & _ & Hch & _).
    rewrite (status_changed_same Hch); [assumption|].
    intros ->. rewrite Hk in Hr. injection Hr as ->. discriminate.
  - destruct H as (Hr & success & Hout).
    assert (Hn : k <> x).
    { intros ->. rewrite Hk in Hr. injection Hr as ->. discriminate. }
    destruct Hout as (_ & _ & _ & _ & _ & _ & s & _ & Hcase).
    destruct Hcase as [(_ & Hch & _)|[(_ & _ & Hch & _)|(_ & _ & Hch & _)]];
      now rewrite (status_changed_same Hch Hn).
  - destruct H as (_ & Hw & _). now rewrite Hw.
  - destruct H as (_ & e1 & Hc & Hu & _).
    eapply update_keeps; [exact Hu | | intros ->; discriminate].
    eapply cascade_keeps; [exact Hc | exact Hk | destruct st; auto; discriminate].
Qed.

(** [SUCCESS], [FAILED] and [SKIPPED] are final: once a step of a run has
    one of these statuses, it keeps it in every later state of the run,
    whatever the other steps and workers do. *)
Theorem terminal_status_is_final (g : Workflow) (strat : option SchedulingStrategy)
        (mp : nat) (t t' : list Event) (S S' : System) (k : string) (st : Status) :
  wf_workflow g -> fresh g -> reachable g strat mp t S -> psteps S t' S' ->
  status_of (workflow (engine S)) k = Some st ->
  st = SUCCESS \/ st = FAILED \/ st = SKIPPED ->
  status_of (workflow (engine S')) k = Some st.
Proof.
  intros Hwf Hf Hr Hp Hk Hst.
  assert (Hl : live st = false) by (destruct Hst as [->|[->| ->]]; reflexivity).
  pose proof (reachable_ok Hwf Hf Hr) as Hok. clear Hr Hst.
  induction Hp as [S|S ev S1 t' S2 Hs Hp IH]; [assumption|].
  apply IH.
  - eapply terminal_stable; eassumption.
  - eapply pstep_ok; eassumption.
Qed.

Lemma terminal_status_is_final_witness :
  status_of (workflow fan_done) "A" = Some SUCCESS.
Proof.
  destruct fan_done_reachable as [t Hr].
  exact (@terminal_status_is_final wf_fan None 1 t [EvReap] _ _ "A"%string SUCCESS
           (wf_check_sound wf_fan eq_refl) (fresh_check_sound wf_fan eq_refl) Hr
           (psteps_cons (pstep_reap fan_done []) (psteps_nil _))
           eq_refl (or_introl eq_refl)).
Defined.

(* ================================================================== *)
(** * Building the graph: [add_dependency] and [parse_workflow] *)
(* ================================================================== *)

Lemma In_update_step (f : Step -> Step) (t : step_table) (k : string) (s : Step) :
  In s (update_step f t k) ->
  In s t \/ exists s0, In s0 t /\ step_id s0 = k /\ s = f s0.
Proof.
  induction t as [|s' t IH]; simpl; [tauto|].
  destruct (String.eqb_spec (step_id s') k) as [E|E]; simpl.
  - intros [<-|H]; [right; exists s'; auto | left; now right].
  - intros [<-|H]; [left; now left|].
    destruct (IH H) as [H'|(s0 & A & B & C)]; [left; now right|].
    right. exists s0. auto.
Qed.

Lemma In_put_step (t : step_table) (s s' : Step) :
  In s' (put_step t s) -> s' = s \/ In s' t.
Proof.
  induction t as [|x t IH]; simpl.
  - intros [<-|[]]. now left.
  - destruct (String.eqb (step_id x) (step_id s)); simpl.
    + intros [<-|H]; [now left | right; now right].
    + intros [<-|H]; [right; now left|].
      destruct (IH H); [now left | right; now right].
Qed.

Lemma put_step_new (t : step_table) (s : Step) :
  ~ In (step_id s) (step_ids t) -> put_step t s = t ++ [s].
Proof.
  induction t as [|x t IH]; simpl; intros H; [reflexivity|].
  destruct (String.eqb_spec (step_id x) (step_id s)) as [E|E]; [tauto|].
  f_equal. apply IH. tauto.
Qed.

Lemma add_dependency_absent (w : Workflow) (a b : string) :
  ~ (In a (step_ids (steps w)) /\ In b (step_ids (steps w))) ->
  add_dependency w a b = Ok w.
Proof.
  intros H. unfold add_dependency.
  destruct (mem a (step_ids (steps w))) eqn:Ea; [|reflexivity].
  destruct (mem b (step_ids (steps w))) eqn:Eb; [|reflexivity].
  exfalso. apply H. split; now apply mem_In.
Qed.

Lemma add_dependency_present (w : Workflow) (a b : string) :
  dict_keys (inverse_dependencies w) = step_ids (steps w) ->
  In a (step_ids (steps w)) -> In b (step_ids (steps w)) ->
  add_dependency w a b
  = Ok (mkWorkflow (name w) (update_step (add_dep b) (steps w) a)
                   (dict_set (inverse_dependencies w) b (inv_of w b ++ [a]))).
Proof.
  intros Hk Ha Hb. unfold add_dependency, inv_of.
  rewrite (proj2 (mem_In _ _) Ha), (proj2 (mem_In _ _) Hb). simpl.
  rewrite <- Hk in Hb. apply dict_get_In_keys in Hb. destruct Hb as [l Hl].
  rewrite Hl. reflexivity.
Qed.

Lemma add_dep_id (b : string) (s : Step) : step_id (add_dep b s) = step_id s.
Proof. reflexivity. Qed.

Lemma add_dependency_wf (w : Workflow) (a b : string) :
  wf_workflow w ->
  In a (step_ids (steps w)) -> In b (step_ids (steps w)) ->
  wf_workflow (mkWorkflow (name w) (update_step (add_dep b) (steps w) a)
                          (dict_set (inverse_dependencies w) b (inv_of w b ++ [a]))).
Proof.
  intros Hwf Ha Hb.
  assert (Hids : step_ids (update_step (add_dep b) (steps w) a) = step_ids (steps w))
    by (apply step_ids_update_step; apply add_dep_id).
  assert (Hb' : exists l0, dict_get (inverse_dependencies w) b = Some l0).
  { apply dict_get_In_keys. now rewrite (wf_inv_keys Hwf). }
  destruct Hb' as [l0 Hl0].
  assert (Einv : inv_of w b = l0) by (unfold inv_of; now rewrite Hl0).
  constructor; simpl.
  - rewrite Hids. apply (wf_nodup Hwf).
  - intros s d Hs Hd. rewrite Hids.
    destruct (In_update_step _ _ _ _ Hs) as [H|(s0 & H0 & _ & ->)].
    + eapply (wf_deps Hwf); eassumption.
    + simpl in Hd. apply in_app_or in Hd. destruct Hd as [Hd|[<-|[]]]; [|assumption].
      eapply (wf_deps Hwf); eassumption.
  - rewrite Hids, dict_keys_set, (wf_inv_keys Hwf).
    now rewrite (proj2 (mem_In _ _) Hb).
  - intros x y sy l. rewrite dict_get_set, find_update_step by apply add_dep_id.
    rewrite Einv.
    destruct (String.eqb_spec b x) as [<-|Hbx];
      destruct (String.eqb_spec a y) as [<-|Hay].
    + intros [= <-] Hsy. destruct (find_step (steps w) a) as [s0|]; [|discriminate].
      injection Hsy as <-. simpl.
      split; intros _; apply in_or_app; right; now left.
    + intros [= <-] Hsy. rewrite <- (wf_inv Hwf b y Hl0 Hsy).
      split; intros H.
      * apply in_app_or in H. destruct H as [H|[H|[]]]; [assumption | congruence].
      * apply in_or_app. now left.
    + intros Hl Hsy. destruct (find_step (steps w) a) as [s0|] eqn:Es0; [|discriminate].
      injection Hsy as <-. simpl. rewrite (wf_inv Hwf x a Hl Es0).
      split; intros H.
      * apply in_or_app. now left.
      * apply in_app_or in H. destruct H as [H|[H|[]]]; [assumption | congruence].
    + intros Hl Hsy. exact (wf_inv Hwf x y Hl Hsy).
  - intros x l y. rewrite dict_get_set, Hids, Einv.
    destruct (String.eqb_spec b x) as [<-|Hbx].
    + intros [= <-] Hy. apply in_app_or in Hy. destruct Hy as [Hy|[<-|[]]]; [|assumption].
      eapply (wf_inv_ids Hwf); eassumption.
    + intros Hl Hy. eapply (wf_inv_ids Hwf); eassumption.
Qed.

(** On a well-formed graph [add_dependency] never raises and leaves a
    well-formed graph with the same steps.  When both ids name a step, the
    dependency is appended to the list of the dependent step and the
    dependent to the reverse index of the dependency, nothing else changes
    (an edge declared twice is listed twice, and a step may be made to
    depend on itself); when one of them names no step, the call does
    nothing at all. *)
Theorem add_dependency_keeps_well_formed (w : Workflow) (a b : string) :
  wf_workflow w ->
  exists w',
    add_dependency w a b = Ok w'
    /\ wf_workflow w'
    /\ step_ids (steps w') = step_ids (steps w)
    /\ (In a (step_ids (steps w)) -> In b (step_ids (steps w)) ->
        deps_of w' a = deps_of w a ++ [b]
        /\ inv_of w' b = inv_of w b ++ [a]
        /\ (forall k, k <> a -> deps_of w' k = deps_of w k)
        /\ (forall k, k <> b -> inv_of w' k = inv_of w k))
    /\ (~ (In a (step_ids (steps w)) /\ In b (step_ids (steps w))) -> w' = w).
Proof.
  intros Hwf.
  destruct (in_dec string_dec a (step_ids (steps w))) as [Ha|Ha];
    [destruct (in_dec string_dec b (step_ids (steps w))) as [Hb|Hb]|].
  - eexists. split; [apply add_dependency_present; [apply (wf_inv_keys Hwf) | |]; assumption|].
    split; [now apply add_dependency_wf|].
    split; [apply step_ids_update_step; apply add_dep_id|].
    split; [|tauto].
    intros _ _. unfold deps_of, inv_of. simpl.
    destruct (proj1 (find_step_Some_ids _ _) Ha) as [sa Hsa].
    split; [|split; [|split]].
    + rewrite find_update_step by apply add_dep_id.
      rewrite String.eqb_refl, Hsa. reflexivity.
    + rewrite dict_get_set, String.eqb_refl. reflexivity.
    + intros k Hk. rewrite find_update_step by apply add_dep_id.
      destruct (String.eqb_spec a k); [congruence | reflexivity].
    + intros k Hk. rewrite dict_get_set.
      destruct (String.eqb_spec b k); [congruence | reflexivity].
  - exists w. split; [apply add_dependency_absent; tauto|].
    split; [assumption|]. split; [reflexivity|]. split; [tauto | reflexivity].
  - exists w. split; [apply add_dependency_absent; tauto|].
    split; [assumption|]. split; [reflexivity|]. split; [tauto | reflexivity].
Qed.

Lemma add_dependency_keeps_well_formed_witness :
  exists w', add_dependency wf_fan "C" "B" = Ok w'
             /\ wf_workflow w'
             /\ deps_of w' "C" = ["A"; "B"]%string.
Proof.
  destruct (@add_dependency_keeps_well_formed wf_fan "C"%string "B"%string
              (wf_check_sound wf_fan eq_refl))
    as (w' & H1 & H2 & _ & H3 & _).
  exists w'. split; [exact H1|]. split; [exact H2|].
  destruct H3 as [H3 _].
  - simpl. tauto.
  - simpl. tauto.
  - exact H3.
Defined.

Lemma unlinked_empty (n : string) : unlinked (new_Workflow n).
Proof.
  split; [constructor|]. split; [reflexivity|].
  split; [intros s []|]. intros x l H. discriminate H.
Qed.

Lemma NoDup_snoc (l : list string) (x : string) :
  NoDup l -> ~ In x l -> NoDup (l ++ [x]).
Proof.
  induction l as [|y l IH]; simpl; intros Hnd Hx.
  - constructor; [intros [] | constructor].
  - inversion Hnd; subst. constructor.
    + rewrite in_app_iff. simpl. intros [H|[H|[]]]; [contradiction|].
      apply Hx. left. now symmetry.
    + apply IH; tauto.
Qed.

Lemma unlinked_add_step (w : Workflow) (s : Step) :
  unlinked w -> dependencies s = [] -> status s = PENDING -> retry_count s = 0%Z ->
  unlinked (add_step w s).
Proof.
  intros (Hnd & Hk & Hs & Hi) Hd Hst Hrc. unfold unlinked, add_step. simpl.
  rewrite step_ids_put_step, dict_keys_set, Hk.
  split; [|split; [|split]].
  - destruct (mem (step_id s) (step_ids (steps w))) eqn:E; [assumption|].
    apply mem_false in E. apply NoDup_snoc; assumption.
  - reflexivity.
  - intros s' H. destruct (In_put_step _ _ _ H) as [->|H']; auto.
  - intros x l. rewrite dict_get_set.
    destruct (String.eqb (step_id s) x); [congruence | apply Hi].
Qed.

Lemma unlinked_wf (w : Workflow) : unlinked w -> wf_workflow w /\ fresh w.
Proof.
  intros (Hnd & Hk & Hs & Hi). split.
  - constructor; try assumption.
    + intros s d H Hd. destruct (Hs s H) as [E _]. rewrite E in Hd. contradiction.
    + intros x y sy l Hl Hsy. rewrite (Hi x l Hl).
      destruct (Hs sy (proj1 (find_step_In _ _ Hsy))) as [E _]. rewrite E. tauto.
    + intros x l y Hl Hy. rewrite (Hi x l Hl) in Hy. contradiction.
  - intros s H. destruct (Hs s H) as (_ & A & B). split; assumption.
Qed.

Lemma filter_mem_nil (l : list string) : filter (fun x => mem x []) l = [].
Proof. induction l; auto. Qed.

Lemma step_of_entry_complete (d : StepEntry) :
  complete d -> step_of_entry d = Ok (parsed_step [] d).
Proof.
  intros [H1 H2]. unfold step_of_entry, parsed_step, entry_id.
  rewrite filter_mem_nil.
  destruct (entry_step_id d); [|congruence].
  destruct (entry_run d); [|congruence]. reflexivity.
Qed.

Lemma create_steps_spec (data : list StepEntry) :
  forall w,
    unlinked w -> (forall d, In d data -> complete d) ->
    exists w',
      create_steps w data = Ok w'
      /\ unlinked w'
      /\ name w' = name w
      /\ (forall x, In x (step_ids (steps w'))
                    <-> In x (step_ids (steps w)) \/ In x (map entry_id data)).
Proof.
  induction data as [|d data IH]; intros w Hu Hc; simpl.
  - exists w. split; [reflexivity|]. split; [assumption|].
    split; [reflexivity | intros x; tauto].
  - rewrite (step_of_entry_complete (Hc d (or_introl eq_refl))). simpl.
    destruct (IH (add_step w (parsed_step [] d))) as (w' & Hr & Hu' & Hn & Hi).
    + apply unlinked_add_step; auto.
      simpl. apply filter_mem_nil.
    + intros d' Hd'. apply Hc. now right.
    + exists w'. split; [assumption|]. split; [assumption|]. split; [assumption|].
      intros x. rewrite Hi. unfold add_step. simpl. rewrite step_ids_put_step.
      change (step_id (parsed_step [] d)) with (entry_id d).
      destruct (mem (entry_id d) (step_ids (steps w))) eqn:E.
      * apply mem_In in E. split; [tauto|].
        intros [H|[<-|H]]; tauto.
      * rewrite in_app_iff. simpl. tauto.
Qed.

Lemma create_steps_distinct (data : list StepEntry) :
  forall w,
    (forall d, In d data -> complete d) ->
    NoDup (map entry_id data) ->
    (forall d, In d data -> ~ In (entry_id d) (step_ids (steps w))) ->
    exists w',
      create_steps w data = Ok w'
      /\ steps w' = steps w ++ map (parsed_step []) data.
Proof.
  induction data as [|d data IH]; intros w Hc Hnd Hnew; simpl.
  - exists w. now rewrite app_nil_r.
  - rewrite (step_of_entry_complete (Hc d (or_introl eq_refl))). simpl.
    inversion Hnd as [|? ? Hd Hnd']; subst.
    destruct (IH (add_step w (parsed_step [] d))) as (w' & Hr & Hs).
    + intros d' Hd'. apply Hc. now right.
    + assumption.
    + intros d' Hd'. unfold add_step. simpl.
      rewrite put_step_new by (apply Hnew; now left).
      unfold step_ids. rewrite map_app, in_app_iff. simpl.
      intros [H|[H|[]]].
      * apply (Hnew d'); [now right | exact H].
      * apply Hd. rewrite H. now apply in_map.
    + exists w'. split; [assumption|]. rewrite Hs. unfold add_step. simpl.
      rewrite put_step_new by (apply Hnew; now left).
      now rewrite <- app_assoc.
Qed.

Lemma add_dependencies_absent (deps : list string) (w : Workflow) (sid : string) :
  ~ In sid (step_ids (steps w)) -> add_dependencies w sid deps = Ok w.
Proof.
  intros H. induction deps as [|d deps IH]; simpl; [reflexivity|].
  rewrite add_dependency_absent by tauto. simpl. exact IH.
Qed.

Lemma fresh_add_dep (w : Workflow) (a b : string) (inv : dict (list string)) :
  fresh w -> fresh (mkWorkflow (name w) (update_step (add_dep b) (steps w) a) inv).
Proof.
  intros Hf s Hs. simpl in Hs.
  destruct (In_update_step _ _ _ _ Hs) as [H|(s0 & H0 & _ & ->)]; [now apply Hf|].
  simpl. now apply Hf.
Qed.

(** The loop [for dep_id in step_def["depends_on"]] for a step of the
    graph: the entries that name a step are appended to its dependencies,
    the others are dropped. *)
Lemma add_dependencies_spec (deps : list string) :
  forall (w : Workflow) (sid : string),
    wf_workflow w -> fresh w -> In sid (step_ids (steps w)) ->
    exists w',
      add_dependencies w sid deps = Ok w'
      /\ wf_workflow w' /\ fresh w'
      /\ step_ids (steps w') = step_ids (steps w)
      /\ name w' = name w
      /\ (forall k,
             find_step (steps w') k
             = if String.eqb sid k
               then option_map
                      (fun s => with_dependencies
                                  (dependencies s
                                   ++ filter (fun x => mem x (step_ids (steps w))) deps) s)
                      (find_step (steps w) k)
               else find_step (steps w) k).
Proof.
  induction deps as [|d deps IH]; intros w sid Hwf Hf Hsid; simpl.
  - exists w. split; [reflexivity|]. split; [assumption|]. split; [assumption|].
    split; [reflexivity|]. split; [reflexivity|]. intros k.
    destruct (String.eqb sid k); [|reflexivity].
    destruct (find_step (steps w) k) as [s|]; [|reflexivity]. simpl.
    rewrite app_nil_r. now destruct s.
  - destruct (mem d (step_ids (steps w))) eqn:Ed.
    + apply mem_In in Ed.
      rewrite (@add_dependency_present w sid d (wf_inv_keys Hwf) Hsid Ed). simpl.
      set (w1 := mkWorkflow (name w) (update_step (add_dep d) (steps w) sid)
                            (dict_set (inverse_dependencies w) d (inv_of w d ++ [sid]))).
      assert (Hids : step_ids (steps w1) = step_ids (steps w))
        by (apply step_ids_update_step; apply add_dep_id).
      destruct (IH w1 sid) as (w' & Hr & Hwf' & Hf' & Hi & Hn & Hfind).
      { now apply add_dependency_wf. }
      { now apply fresh_add_dep. }
      { now rewrite Hids. }
      exists w'. split; [assumption|]. split; [assumption|]. split; [assumption|].
      split; [congruence|]. split; [assumption|].
      intros k. rewrite Hfind, Hids. unfold w1 at 1 2. simpl.
      rewrite find_update_step by apply add_dep_id.
      destruct (String.eqb sid k); [|reflexivity].
      destruct (find_step (steps w) k) as [s|]; [|reflexivity]. simpl.
      unfold add_dep. destruct s; simpl. now rewrite <- app_assoc.
    + rewrite add_dependency_absent
        by (intros [_ H]; apply mem_In in H; congruence).
      simpl. apply IH; assumption.
Qed.

Lemma link_steps_spec (data : list StepEntry) :
  forall w,
    wf_workflow w -> fresh w -> (forall d, In d data -> complete d) ->
    exists w',
      link_steps w data = Ok w'
      /\ wf_workflow w' /\ fresh w'
      /\ step_ids (steps w') = step_ids (steps w)
      /\ name w' = name w.
Proof.
  induction data as [|d data IH]; intros w Hwf Hf Hc; simpl.
  - exists w. auto.
  - destruct (Hc d (or_introl eq_refl)) as [H1 _].
    destruct (entry_step_id d) as [sid|] eqn:Esid; [|congruence]. simpl.
    assert (Hstep : exists w1,
               match entry_depends_on d with
               | Some deps => add_dependencies w sid deps
               | None => Ok w
               end = Ok w1
               /\ wf_workflow w1 /\ fresh w1
               /\ step_ids (steps w1) = step_ids (steps w) /\ name w1 = name w).
    { destruct (entry_depends_on d) as [deps|]; [|exists w; auto].
      destruct (in_dec string_dec sid (step_ids (steps w))) as [Hin|Hin].
      - destruct (@add_dependencies_spec deps w sid Hwf Hf Hin)
          as (w1 & A & B & C & D & E & _).
        exists w1. auto.
      - exists w. split; [now apply add_dependencies_absent | auto]. }
    destruct Hstep as (w1 & Hr1 & Hwf1 & Hf1 & Hi1 & Hn1). rewrite Hr1. simpl.
    destruct (IH w1 Hwf1 Hf1) as (w' & Hr & Hwf' & Hf' & Hi & Hn).
    { intros d' Hd'. apply Hc. now right. }
    exists w'. split; [assumption|]. split; [assumption|]. split; [assumption|].
    split; congruence.
Qed.

Lemma parse_workflow_unfold (doc : Document) (data : list StepEntry) :
  document_steps doc = Some data ->
  parse_workflow doc
  = (w0 <- create_steps (new_Workflow (document_name doc)) data ;; link_steps w0 data).
Proof.
  destruct doc as [data0|[n|] [data0|]]; simpl; intros H; try discriminate;
    injection H as ->; reflexivity.
Qed.

Lemma parse_steps_well_formed (n : string) (data : list StepEntry) :
  (forall d, In d data -> complete d) ->
  exists w,
    (w0 <- create_steps (new_Workflow n) data ;; link_steps w0 data) = Ok w
    /\ name w = n
    /\ wf_workflow w /\ fresh w
    /\ forall x, In x (step_ids (steps w)) <-> In x (map entry_id data).
Proof.
  intros Hc.
  destruct (@create_steps_spec data _ (unlinked_empty n) Hc)
    as (w0 & Hr0 & Hu0 & Hn0 & Hi0).
  rewrite Hr0. simpl. destruct (unlinked_wf Hu0) as [Hwf0 Hf0].
  destruct (@link_steps_spec data w0 Hwf0 Hf0 Hc) as (w & Hr & Hwf & Hf & Hi & Hn).
  exists w. split; [assumption|]. split; [now rewrite Hn, Hn0|].
  split; [assumption|]. split; [assumption|].
  intros x. rewrite Hi, Hi0. simpl. tauto.
Qed.

(** [parse_workflow] returns a well-formed graph for every step list whose
    entries have the keys [step_id] and [run], whatever else the file
    holds (repeated ids, dependencies on unknown steps, cycles): the ids of
    the graph are distinct and are those of the file, every dependency
    names a step, the reverse index mirrors the dependency lists, and every
    step is [PENDING] with [retry_count] 0.  The name is the [workflow] key
    of the file, or [default]. *)
Theorem parse_workflow_well_formed (doc : Document) (data : list StepEntry) :
  document_steps doc = Some data ->
  (forall d, In d data -> complete d) ->
  exists w,
    parse_workflow doc = Ok w
    /\ name w = document_name doc
    /\ wf_workflow w
    /\ fresh w
    /\ forall x, In x (step_ids (steps w)) <-> In x (map entry_id data).
Proof.
  intros Hdoc Hc. rewrite (parse_workflow_unfold _ Hdoc).
  now apply parse_steps_well_formed.
Qed.

Lemma parse_workflow_well_formed_witness :
  exists w,
    parse_workflow
      (DocList [ mkStepEntry (Some "A") (Some "a") None None None None;
                 mkStepEntry (Some "B") (Some "b") None None None (Some ["A"; "Z"]) ])
    = Ok w
    /\ wf_workflow w /\ fresh w.
Proof.
  destruct (@parse_workflow_well_formed
              (DocList [ mkStepEntry (Some "A"%string) (Some "a"%string)
                                     None None None None;
                         mkStepEntry (Some "B"%string) (Some "b"%string)
                                     None None None (Some ["A"; "Z"]%string) ])
              _ eq_refl)
    as (w & H1 & _ & H2 & H3 & _).
  - intros d [<-|[<-|[]]]; split; discriminate.
  - exists w. split; [exact H1|]. split; assumption.
Defined.

Lemma link_steps_find (post : list StepEntry) :
  forall w,
    wf_workflow w -> fresh w -> (forall d, In d post -> complete d) ->
    NoDup (map entry_id post) ->
    (forall d, In d post -> In (entry_id d) (step_ids (steps w))) ->
    exists w',
      link_steps w post = Ok w'
      /\ step_ids (steps w') = step_ids (steps w)
      /\ (forall d, In d post ->
                    find_step (steps w') (entry_id d)
                    = option_map
                        (fun s => with_dependencies
                                    (dependencies s
                                     ++ filter (fun x => mem x (step_ids (steps w)))
                                               (match entry_depends_on d with
                                                | Some l => l
                                                | None => []
                                                end)) s)
                        (find_step (steps w) (entry_id d)))
      /\ (forall k, ~ In k (map entry_id post) ->
                    find_step (steps w') k = find_step (steps w) k).
Proof.
  induction post as [|d post IH]; intros w Hwf Hf Hc Hnd Hin; simpl.
  - exists w. split; [reflexivity|]. split; [reflexivity|].
    split; [intros d [] | reflexivity].
  - destruct (Hc d (or_introl eq_refl)) as [H1 _].
    assert (Eid : entry_step_id d = Some (entry_id d)).
    { unfold entry_id. destruct (entry_step_id d); [reflexivity | congruence]. }
    rewrite Eid. simpl.
    set (sid := entry_id d) in *.
    set (deps := match entry_depends_on d with Some l => l | None => [] end).
    assert (Es : match entry_depends_on d with
                 | Some deps => add_dependencies w sid deps
                 | None => Ok w
                 end = add_dependencies w sid deps).
    { unfold deps. destruct (entry_depends_on d); reflexivity. }
    rewrite Es.
    destruct (@add_dependencies_spec deps w sid Hwf Hf (Hin d (or_introl eq_refl)))
      as (w1 & Hr1 & Hwf1 & Hf1 & Hi1 & _ & Hfind1).
    rewrite Hr1. simpl.
    inversion Hnd as [|? ? Hd Hnd']; subst.
    destruct (IH w1 Hwf1 Hf1) as (w' & Hr & Hi & Hfind & Hother).
    { intros d' Hd'. apply Hc. now right. }
    { assumption. }
    { intros d' Hd'. rewrite Hi1. apply Hin. now right. }
    exists w'. split; [assumption|]. split; [congruence|]. split.
    + intros d0 [<-|Hd0].
      * rewrite (Hother _ Hd), Hfind1. fold sid. now rewrite String.eqb_refl.
      * rewrite (Hfind d0 Hd0), Hfind1, Hi1.
        destruct (String.eqb_spec sid (entry_id d0)) as [E|E]; [|reflexivity].
        exfalso. apply Hd. fold sid. rewrite E. now apply in_map.
    + intros k Hk. rewrite Hother by tauto. rewrite Hfind1.
      destruct (String.eqb_spec sid k) as [E|E]; [|reflexivity].
      exfalso. apply Hk. left. exact E.
Qed.

Lemma steps_by_find (t l : step_table) :
  step_ids t = step_ids l -> NoDup (step_ids l) ->
  (forall s, In s l -> find_step t (step_id s) = Some s) ->
  t = l.
Proof.
  revert l. induction t as [|s1 t IH]; intros [|s2 l] Hids Hnd Hfind;
    try discriminate; [reflexivity|].
  simpl in Hids. injection Hids as Eid Hids.
  inversion Hnd as [|? ? Hs2 Hnd']; subst.
  pose proof (Hfind s2 (or_introl eq_refl)) as H2. simpl in H2.
  rewrite Eid, String.eqb_refl in H2. injection H2 as ->.
  f_equal. apply IH; [assumption | assumption|].
  intros s Hs. pose proof (Hfind s (or_intror Hs)) as H. simpl in H.
  destruct (String.eqb_spec (step_id s2) (step_id s)) as [E|E]; [|assumption].
  exfalso. apply Hs2. rewrite E. now apply in_map.
Qed.

Lemma step_ids_parsed (ids : list string) (data : list StepEntry) :
  step_ids (map (parsed_step ids) data) = map entry_id data.
Proof.
  unfold step_ids. rewrite map_map. reflexivity.
Qed.

Lemma parse_steps_distinct (n : string) (data : list StepEntry) :
  (forall d, In d data -> complete d) ->
  NoDup (map entry_id data) ->
  exists w,
    (w0 <- create_steps (new_Workflow n) data ;; link_steps w0 data) = Ok w
    /\ steps w = map (parsed_step (map entry_id data)) data.
Proof.
  intros Hc Hnd.
  destruct (@create_steps_spec data _ (unlinked_empty n) Hc) as (w0 & Hr0 & Hu0 & _).
  destruct (@create_steps_distinct data (new_Workflow n) Hc Hnd)
    as (w0' & Hr0' & Hs0); [intros d _ []|].
  rewrite Hr0 in Hr0'. injection Hr0' as <-. simpl in Hs0.
  rewrite Hr0. simpl. destruct (unlinked_wf Hu0) as [Hwf0 Hf0].
  assert (Hids0 : step_ids (steps w0) = map entry_id data)
    by (rewrite Hs0; apply step_ids_parsed).
  destruct (@link_steps_find data w0 Hwf0 Hf0 Hc Hnd) as (w & Hr & Hi & Hfind & _).
  { intros d Hd. rewrite Hids0. now apply in_map. }
  exists w. split; [assumption|].
  apply steps_by_find.
  - rewrite Hi, Hids0. symmetry. apply step_ids_parsed.
  - now rewrite step_ids_parsed.
  - intros s Hs. apply in_map_iff in Hs. destruct Hs as (d & <- & Hd).
    change (step_id (parsed_step (map entry_id data) d)) with (entry_id d).
    rewrite (Hfind d Hd), Hids0.
    assert (H0 : find_step (steps w0) (entry_id d) = Some (parsed_step [] d)).
    { change (entry_id d) with (step_id (parsed_step [] d)).
      apply In_find_step; [apply (wf_nodup Hwf0)|].
      rewrite Hs0. now apply in_map. }
    rewrite H0. simpl. unfold parsed_step at 2. simpl.
    now rewrite filter_mem_nil.
Qed.

(** For a step list with distinct ids, [parse_workflow] builds the steps
    of the file, in the order of the file, each with its command,
    condition, policy and hints; the dependencies of a step are the entries
    of its [depends_on] list that name a step of the file, in their order
    (repetitions kept).  A dependency on an unknown step is dropped without
    any error. *)
Theorem parse_workflow_distinct_ids (doc : Document) (data : list StepEntry) :
  document_steps doc = Some data ->
  (forall d, In d data -> complete d) ->
  NoDup (map entry_id data) ->
  exists w,
    parse_workflow doc = Ok w
    /\ steps w = map (parsed_step (map entry_id data)) data.
Proof.
  intros Hdoc Hc Hnd. rewrite (parse_workflow_unfold _ Hdoc).
  now apply parse_steps_distinct.
Qed.

Lemma parse_workflow_distinct_ids_witness :
  exists w,
    parse_workflow
      (DocList [ mkStepEntry (Some "A") (Some "a") None None None None;
                 mkStepEntry (Some "B") (Some "b") None None None (Some ["A"; "Z"]) ])
    = Ok w
    /\ steps w = [ mkStep "A" "a" [] None None [] PENDING 0;
                   mkStep "B" "b" ["A"] None None [] PENDING 0 ].
Proof.
  destruct (@parse_workflow_distinct_ids
              (DocList [ mkStepEntry (Some "A"%string) (Some "a"%string)
                                     None None None None;
                         mkStepEntry (Some "B"%string) (Some "b"%string)
                                     None None None (Some ["A"; "Z"]%string) ])
              _ eq_refl)
    as (w & H1 & H2).
  - intros d [<-|[<-|[]]]; split; discriminate.
  - simpl. constructor; [intros [H|[]]; discriminate H|].
    constructor; [intros [] | constructor].
  - exists w. split; [exact H1 | exact H2].
Defined.

Lemma create_steps_app (pre l : list StepEntry) :
  forall w,
    create_steps w (pre ++ l) = (w' <- create_steps w pre ;; create_steps w' l).
Proof.
  induction pre as [|d pre IH]; intros w; simpl; [reflexivity|].
  destruct (step_of_entry d); simpl; auto.
Qed.

(** The first entry of the step list that lacks one of the keys [step_id]
    and [run] makes [parse_workflow] raise [KeyError] with the name of the
    key, [step_id] when both are missing: no graph is returned, whatever
    the other entries hold. *)
Theorem parse_workflow_missing_key (doc : Document) (pre post : list StepEntry)
        (d : StepEntry) :
  document_steps doc = Some (pre ++ d :: post) ->
  (forall d', In d' pre -> complete d') ->
  ~ complete d ->
  parse_workflow doc
  = Raise (KeyError (match entry_step_id d with
                     | None => "step_id"
                     | Some _ => "run"
                     end)).
Proof.
  intros Hdoc Hc Hd.
  assert (Hgo : forall n,
             (w0 <- create_steps (new_Workflow n) (pre ++ d :: post) ;;
              link_steps w0 (pre ++ d :: post))
             = Raise (KeyError (match entry_step_id d with
                                | None => "step_id"
                                | Some _ => "run"
                                end))).
  { intros n. rewrite create_steps_app.
    destruct (@create_steps_spec pre _ (unlinked_empty n) Hc) as (w1 & Hr1 & _).
    rewrite Hr1. simpl. unfold step_of_entry.
    destruct (entry_step_id d) as [i|] eqn:Ei; simpl; [|reflexivity].
    destruct (entry_run d) as [c|] eqn:Er; simpl; [|reflexivity].
    exfalso. apply Hd. unfold complete. rewrite Ei, Er. split; discriminate. }
  destruct doc as [data0|[n|] [data0|]]; simpl in Hdoc; try discriminate;
    injection Hdoc as ->; apply Hgo.
Qed.

Lemma parse_workflow_missing_key_witness :
  parse_workflow
    (DocObject (Some "w")
       (Some [ mkStepEntry (Some "A") (Some "a") None None None None;
               mkStepEntry (Some "B") None None None None None ]))
  = Raise (KeyError "run").
Proof.
  apply (@parse_workflow_missing_key
           (DocObject (Some "w"%string)
              (Some [ mkStepEntry (Some "A"%string) (Some "a"%string)
                                  None None None None;
                      mkStepEntry (Some "B"%string) None None None None None ]))
           [ mkStepEntry (Some "A"%string) (Some "a"%string) None None None None ]
           []
           (mkStepEntry (Some "B"%string) None None None None None)).
  - reflexivity.
  - intros d' [<-|[]]. split; discriminate.
  - intros [_ H]. apply H. reflexivity.
Defined.

(* ================================================================== *)
(** * What the validator reports *)
(* ================================================================== *)

Lemma in_progress_on_cycle (w : Workflow) (T : list string) (x : string) :
  chain w T -> called_from w T x -> In x T -> reaches_cycle w x.
Proof.
  intros Hc Hf Hin. destruct T as [|y T']; [contradiction|].
  simpl in Hf. exists x. split; [|now left]. unfold on_cycle.
  destruct (chain_reach w x Hc eq_refl Hin) as [->|Hp].
  - now apply path_edge.
  - eapply path_snoc; eassumption.
Qed.

Lemma reaches_cycle_edge (w : Workflow) (x d : string) :
  edge w x d -> reaches_cycle w d -> reaches_cycle w x.
Proof.
  intros He (c & Hc & [->|Hp]); exists c; (split; [assumption|]); right.
  - now apply path_edge.
  - eapply path_cons; eassumption.
Qed.

Lemma topo_no_cycle (w : Workflow) (V : list string) (x : string) :
  topo w V -> In x V -> ~ reaches_cycle w x.
Proof.
  intros HV Hx (c & Hc & Hxc).
  assert (Hin : In c V).
  { destruct Hxc as [<-|Hp]; [assumption|].
    apply (topo_path_rank HV Hp Hx). }
  destruct (topo_path_rank HV Hc Hin) as [_ Hlt]. lia.
Qed.

(** [has_cycle] with the step it was called on: when it reports a cycle,
    one can be reached from that step. *)
Lemma has_cycle_reaches (w : Workflow) :
  wf_workflow w ->
  forall fuel m x,
    marks_ok w m -> chain w (temp_visited m) -> called_from w (temp_visited m) x ->
    In x (step_ids (steps w)) ->
    List.length (steps w) < fuel + List.length (temp_visited m) ->
    exists b m',
      has_cycle fuel w m x = Ok (b, m')
      /\ (b = true -> reaches_cycle w x)
      /\ (b = false ->
          marks_ok w m' /\ temp_visited m' = temp_visited m
          /\ incl (visited m) (visited m') /\ In x (visited m')).
Proof.
  intros Hwf. induction fuel as [|fuel IH]; intros m x Hm Hc Hf Hx Hfuel.
  - exfalso. destruct Hm as [_ _ Hnd Hids].
    assert (List.length (temp_visited m) <= List.length (step_ids (steps w)))
      by (apply NoDup_incl_length; assumption).
    unfold step_ids in H. rewrite length_map in H. lia.
  - simpl. destruct (mem x (temp_visited m)) eqn:Et.
    { exists true, m. split; [reflexivity|]. split; [|discriminate].
      intros _. apply mem_In in Et. eapply in_progress_on_cycle; eassumption. }
    destruct (mem x (visited m)) eqn:Ev.
    { exists false, m. split; [reflexivity|]. split; [discriminate|].
      intros _. apply mem_In in Ev.
      split; [assumption|]. split; [reflexivity|].
      split; [apply incl_refl | assumption]. }
    apply mem_false in Et. apply mem_false in Ev.
    destruct (proj1 (find_step_Some_ids _ _) Hx) as [step Hstep].
    unfold get_step. rewrite Hstep. simpl.
    assert (Eadd : set_add x (temp_visited m) = x :: temp_visited m).
    { unfold set_add. apply mem_false in Et. now rewrite Et. }
    rewrite Eadd.
    set (m1 := mkMarks (visited m) (x :: temp_visited m)).
    assert (Hm1 : marks_ok w m1).
    { destruct Hm as [Ht Hd Hnd Hids]. constructor; simpl.
      - assumption.
      - intros y [<-|Hy]; auto.
      - constructor; assumption.
      - intros y [<-|Hy]; auto. }
    assert (Hc1 : chain w (temp_visited m1)).
    { simpl. destruct (temp_visited m) as [|y T']; [exact I|]. split; assumption. }
    assert (Loop : forall ds m0,
               (forall d, In d ds -> In d (dependencies step)) ->
               marks_ok w m0 -> temp_visited m0 = x :: temp_visited m ->
               exists b m2,
                 cycle_over_deps (has_cycle fuel w) ds m0 = Ok (b, m2)
                 /\ (b = true -> reaches_cycle w x)
                 /\ (b = false ->
                     marks_ok w m2 /\ temp_visited m2 = x :: temp_visited m
                     /\ incl (visited m0) (visited m2)
                     /\ forall d, In d ds -> In d (visited m2))).
    { induction ds as [|d ds IHds]; intros m0 Hds Hm0 Et0.
      - exists false, m0. split; [reflexivity|]. split; [discriminate|].
        intros _. split; [assumption|]. split; [assumption|].
        split; [apply incl_refl | intros d []].
      - simpl.
        destruct (IH m0 d Hm0) as (b & m' & Hr & Hb1 & Hb0).
        + rewrite Et0. exact Hc1.
        + rewrite Et0. simpl. exists step. split; [assumption|]. apply Hds. now left.
        + apply (wf_deps Hwf step d);
            [apply (find_step_In _ _ Hstep) | apply Hds; now left].
        + rewrite Et0. simpl. lia.
        + rewrite Hr. simpl. destruct b.
          * exists true, m'. split; [reflexivity|]. split; [|discriminate].
            intros _. apply (@reaches_cycle_edge w x d); [|now apply Hb1].
            exists step. split; [assumption|]. apply Hds. now left.
          * destruct (Hb0 eq_refl) as (Hm' & Et' & Hinc & Hd).
            destruct (IHds m') as (b2 & m2 & Hr2 & Hc2 & Hf2).
            { intros d0 H0. apply Hds. now right. }
            { assumption. }
            { congruence. }
            exists b2, m2. split; [assumption|]. split; [assumption|].
            intros E. destruct (Hf2 E) as (A & B & C & D).
            split; [assumption|]. split; [assumption|].
            split; [eapply incl_tran; eassumption|].
            intros d0 [<-|H0]; auto. }
    destruct (Loop (dependencies step) m1 (fun d H => H) Hm1 eq_refl)
      as (b & m2 & Hr & Hb1 & Hb0).
    rewrite Hr. simpl. destruct b.
    + exists true, m2. split; [reflexivity|]. split; [assumption | discriminate].
    + destruct (Hb0 eq_refl) as (Hm2 & Et2 & Hinc & Hd).
      rewrite Et2, set_remove_head. simpl.
      assert (Hxv : ~ In x (visited m2)).
      { apply (mo_disjoint Hm2). rewrite Et2. now left. }
      assert (Eadd2 : set_add x (visited m2) = x :: visited m2).
      { unfold set_add. apply mem_false in Hxv. now rewrite Hxv. }
      rewrite Eadd2.
      eexists false, _. split; [reflexivity|]. split; [discriminate|].
      intros _. simpl. repeat split; simpl.
      * econstructor; eauto. apply (mo_topo Hm2).
      * intros y Hy [<-|Hyv]; [contradiction|].
        apply (mo_disjoint Hm2 y); [rewrite Et2; now right | assumption].
      * apply (mo_nodup Hm).
      * apply (mo_ids Hm).
      * intros y Hy. right. now apply Hinc.
      * now left.
Qed.

Lemma validate_from_exact (w : Workflow) :
  wf_workflow w ->
  forall ids m,
    marks_ok w m -> temp_visited m = [] ->
    incl ids (step_ids (steps w)) ->
    validate_from (S (List.length (steps w))) w m ids = Ok true
    \/ (exists pre r post,
           ids = pre ++ r :: post
           /\ validate_from (S (List.length (steps w))) w m ids
              = Raise (ValueError (cycle_message r))
           /\ reaches_cycle w r
           /\ forall y, In y pre -> ~ reaches_cycle w y).
Proof.
  intros Hwf. induction ids as [|x ids IH]; intros m Hm Et Hids.
  - left. reflexivity.
  - simpl.
    destruct (@has_cycle_reaches w Hwf (S (List.length (steps w))) m x Hm)
      as (b & m' & Hr & Hb1 & Hb0).
    + rewrite Et. exact I.
    + rewrite Et. exact I.
    + apply Hids. now left.
    + lia.
    + simpl in Hr. rewrite Hr. simpl. destruct b.
      * right. exists [], x, ids. split; [reflexivity|]. split; [reflexivity|].
        split; [auto | intros y []].
      * destruct (Hb0 eq_refl) as (Hm' & Et' & Hinc & Hx).
        destruct (IH m' Hm') as [Hv|(pre & r & post & E & Hv & Hrc & Hpre)].
        { congruence. }
        { intros y Hy. apply Hids. now right. }
        { left. assumption. }
        { right. exists (x :: pre), r, post. split; [now rewrite E|].
          split; [assumption|]. split; [assumption|].
          intros y [<-|Hy]; [|now apply Hpre].
          eapply topo_no_cycle; [apply (mo_topo Hm') | exact Hx]. }
Qed.

(** On a well-formed graph the result of [validate_workflow] is settled
    by the cycles alone: it returns [True] exactly when the graph is
    acyclic; otherwise it raises [ValueError] naming the first step, in the
    order the steps were added, from which a cycle can be reached (a step
    on a cycle or upstream of one).  It raises nothing else. *)
Theorem validate_workflow_exact (w : Workflow) :
  wf_workflow w ->
  (acyclic w /\ validate_workflow w = Ok true)
  \/ (exists pre r post,
         step_ids (steps w) = pre ++ r :: post
         /\ validate_workflow w = Raise (ValueError (cycle_message r))
         /\ reaches_cycle w r
         /\ forall y, In y pre -> ~ reaches_cycle w y).
Proof.
  intros Hwf.
  destruct (@validate_from_exact w Hwf (step_ids (steps w)) _ (marks_ok_empty w) eq_refl
                                (incl_refl _)) as [Hv|H].
  - left. split; [|exact Hv]. now apply validate_sound.
  - right. exact H.
Qed.

Lemma validate_workflow_exact_witness :
  (acyclic wf_cycle_tail /\ validate_workflow wf_cycle_tail = Ok true)
  \/ (exists pre r post,
         step_ids (steps wf_cycle_tail) = pre ++ r :: post
         /\ validate_workflow wf_cycle_tail = Raise (ValueError (cycle_message r))
         /\ reaches_cycle wf_cycle_tail r
         /\ forall y, In y pre -> ~ reaches_cycle wf_cycle_tail y).
Proof.
  exact (@validate_workflow_exact wf_cycle_tail (wf_check_sound wf_cycle_tail eq_refl)).
Defined.

(* ================================================================== *)
(** * Levels are depths *)
(* ================================================================== *)

Lemma list_max_In (l : list nat) : l <> [] -> In (list_max l) l.
Proof.
  induction l as [|a l IH]; [congruence|]. intros _.
  destruct l as [|b l'].
  - simpl. left. lia.
  - change (list_max (a :: b :: l')) with (Nat.max a (list_max (b :: l'))).
    destruct (Nat.max_dec a (list_max (b :: l'))) as [E|E]; rewrite E.
    + now left.
    + right. apply IH. discriminate.
Qed.

Lemma list_max_ge (l : list nat) (n : nat) : In n l -> n <= list_max l.
Proof.
  intros H. pose proof (proj1 (list_max_le l (list_max l)) (Nat.le_refl _)) as HF.
  rewrite Forall_forall in HF. now apply HF.
Qed.

Lemma levels_are_depths (w : Workflow) (V : list string) (lv : dict nat) :
  wf_workflow w -> topo w V ->
  (forall x, In x (step_ids (steps w)) -> In x V) ->
  (forall s, In s (steps w) -> dict_get lv (step_id s) = Some (level_formula lv s)) ->
  forall n x, rank V x <= n -> In x (step_ids (steps w)) ->
              dep_chain w x (level_of lv x)
              /\ forall k, dep_chain w x k -> k <= level_of lv x.
Proof.
  intros Hwf HV Hall Hlv. induction n as [|n IH]; intros x Hrk Hx.
  - pose proof (rank_pos V x (Hall x Hx)). lia.
  - destruct (proj1 (find_step_Some_ids _ _) Hx) as [s Hs].
    destruct (find_step_In _ _ Hs) as [Hin Hid].
    assert (El : level_of lv x = level_formula lv s).
    { unfold level_of. rewrite <- Hid, (Hlv s Hin). reflexivity. }
    rewrite El. unfold level_formula.
    assert (Hdep : forall d, In d (dependencies s) ->
                             dep_chain w d (level_of lv d)
                             /\ forall k, dep_chain w d k -> k <= level_of lv d).
    { intros d Hd.
      assert (He : edge w x d) by (exists s; split; assumption).
      destruct (topo_edge_rank HV (Hall x Hx) He) as [_ Hlt].
      apply IH; [lia|]. eapply (wf_deps Hwf); eassumption. }
    destruct (dependencies s) as [|d0 ds] eqn:Ed.
    + split; [constructor|]. intros k Hk. inversion Hk as [|? y m He Hc]; subst; [lia|].
      destruct He as (s' & Hs' & Hy). rewrite Hs in Hs'. injection Hs' as <-.
      rewrite Ed in Hy. contradiction.
    + split.
      * assert (Hmax : In (list_max (map (level_of lv) (d0 :: ds)))
                          (map (level_of lv) (d0 :: ds)))
          by (apply list_max_In; discriminate).
        apply in_map_iff in Hmax. destruct Hmax as (d & Eq & Hd).
        rewrite <- Eq. apply dep_chain_next with (y := d).
        -- exists s. split; [assumption|]. now rewrite Ed.
        -- now apply Hdep.
      * intros k Hk. inversion Hk as [|? y m He Hc]; subst; [lia|].
        destruct He as (s' & Hs' & Hy). rewrite Hs in Hs'. injection Hs' as <-.
        rewrite Ed in Hy.
        pose proof (proj2 (Hdep y Hy) m Hc) as Hm.
        pose proof (@list_max_ge (map (level_of lv) (d0 :: ds)) (level_of lv y)
                      (in_map _ _ _ Hy)).
        lia.
Qed.

(** On a validated graph [_calculate_levels] returns a table that gives
    every step the length of the longest chain of dependencies below it: 0
    for a step without dependencies, and always more than the level of each
    of its dependencies. *)
Theorem level_is_depth (w : Workflow) :
  wf_workflow w -> validate_workflow w = Ok true ->
  exists lv,
    _calculate_levels w = Ok lv
    /\ forall x, In x (step_ids (steps w)) ->
                 exists l,
                   dict_get lv x = Some l
                   /\ dep_chain w x l
                   /\ (forall k, dep_chain w x k -> k <= l)
                   /\ (forall d m, edge w x d -> dict_get lv d = Some m -> m < l).
Proof.
  intros Hwf Hv.
  destruct (calculate_levels_spec Hwf Hv) as (lv & Hr & Hlv).
  destruct (validate_topo Hwf Hv) as (V & HV & Hall).
  exists lv. split; [assumption|]. intros x Hx.
  destruct (proj1 (find_step_Some_ids _ _) Hx) as [s Hs].
  destruct (find_step_In _ _ Hs) as [Hin Hid].
  exists (level_formula lv s).
  assert (Eg : dict_get lv x = Some (level_formula lv s))
    by (rewrite <- Hid; now apply Hlv).
  assert (El : level_of lv x = level_formula lv s)
    by (unfold level_of; now rewrite Eg).
  destruct (@levels_are_depths w V lv Hwf HV Hall Hlv (rank V x) x (Nat.le_refl _) Hx)
    as [Hc Hmax].
  rewrite El in Hc, Hmax.
  split; [assumption|]. split; [assumption|]. split; [assumption|].
  intros d m He Hd.
  assert (Hdid : In d (step_ids (steps w))) by (eapply edge_target_ids; eassumption).
  destruct (@levels_are_depths w V lv Hwf HV Hall Hlv (rank V d) d (Nat.le_refl _) Hdid)
    as [Hcd _].
  assert (Em : level_of lv d = m) by (unfold level_of; now rewrite Hd).
  rewrite Em in Hcd.
  pose proof (Hmax (S m) (dep_chain_next He Hcd)). lia.
Qed.

Lemma level_is_depth_witness :
  exists lv,
    _calculate_levels wf_fan = Ok lv
    /\ dict_get lv "B" = Some 1.
Proof.
  destruct (@level_is_depth wf_fan (wf_check_sound wf_fan eq_refl) eq_refl)
    as (lv & Hr & _).
  exists lv. split; [exact Hr|].
  vm_compute in Hr. injection Hr as <-. reflexivity.
Defined.

(* ================================================================== *)
(** * Doing the readiness update or the cascade twice *)
(* ================================================================== *)

Lemma update_over_noop (g : Workflow) (ts : list Thread) :
  wf_workflow g ->
  forall ids e,
    system_ok g (mkSystem e ts) -> no_ready_pending g e ->
    incl ids (step_ids (steps g)) ->
    update_over e ids = Ok e.
Proof.
  intros Hwf. induction ids as [|k ids IH]; intros e Hok Hnp Hids; simpl.
  - reflexivity.
  - destruct (@update_one_spec g e ts k Hwf Hok (Hids k (or_introl eq_refl)))
      as (e' & Hr & _ & _ & Hout).
    rewrite Hr. simpl.
    destruct Hout as [[-> _]|(Hp & Hall & _)].
    + apply IH; [assumption | assumption|]. intros y Hy. apply Hids. now right.
    + exfalso. destruct (Hnp k Hp) as (d & Hd & Hn). apply Hn. now apply Hall.
Qed.

(** In every state of a run the readiness update returns without raising,
    and running it a second time right after changes nothing: neither a
    status nor the ready queue (no step is enqueued twice). *)
Theorem update_ready_queue_idempotent (g : Workflow)
        (strat : option SchedulingStrategy) (mp : nat) (t : list Event)
        (e : WorkflowEngine) (ts : list Thread) :
  wf_workflow g -> fresh g -> reachable g strat mp t (mkSystem e ts) ->
  exists e1, _update_ready_queue e = Ok e1 /\ _update_ready_queue e1 = Ok e1.
Proof.
  intros Hwf Hf Hr. pose proof (reachable_ok Hwf Hf Hr) as Hok.
  destruct (@update_ready_queue_spec g e ts Hwf Hok) as (e1 & Hr1 & Hok1 & _ & _ & _ & Hnp & _).
  exists e1. split; [assumption|]. unfold _update_ready_queue.
  apply (@update_over_noop g ts Hwf); [assumption | assumption|].
  pose proof (eo_skeleton (so_engine Hok1)) as Hsk. simpl in Hsk.
  rewrite (skeleton_ids Hsk). apply incl_refl.
Qed.

Lemma update_ready_queue_idempotent_witness :
  exists e1, _update_ready_queue fan_done = Ok e1 /\ _update_ready_queue e1 = Ok e1.
Proof.
  destruct fan_done_reachable as [t Hr].
  exact (@update_ready_queue_idempotent wf_fan None 1 t fan_done []
           (wf_check_sound wf_fan eq_refl) (fresh_check_sound wf_fan eq_refl) Hr).
Defined.

Lemma skip_loop_noop (to_skip : list string) :
  forall fuel e skipped,
    (forall y, In y to_skip -> not_waiting (workflow e) y) ->
    List.length to_skip <= fuel ->
    skip_loop fuel e to_skip skipped = Ok e.
Proof.
  induction to_skip as [|y l IH]; intros fuel e skipped Hnw Hfuel.
  - destruct fuel; reflexivity.
  - destruct fuel as [|fuel]; [simpl in Hfuel; lia|]. simpl in Hfuel. simpl.
    assert (Hrest : skip_loop fuel e l skipped = Ok e).
    { apply IH; [|lia]. intros z Hz. apply Hnw. now right. }
    destruct (mem y skipped); [exact Hrest|].
    destruct (Hnw y (or_introl eq_refl)) as (st & Hst & Hw).
    destruct (status_of_inv _ _ Hst) as (s & Hs & <-).
    unfold get_step. rewrite Hs. simpl.
    destruct (status s); simpl in Hw; try discriminate; exact Hrest.
Qed.

(** In every state of a run the skip cascade from any step returns
    without raising, and running it a second time from the same step
    changes nothing. *)
Theorem skip_dependents_idempotent (g : Workflow)
        (strat : option SchedulingStrategy) (mp : nat) (t : list Event)
        (e : WorkflowEngine) (ts : list Thread) (k : string) :
  wf_workflow g -> fresh g -> reachable g strat mp t (mkSystem e ts) ->
  In k (step_ids (steps g)) ->
  exists e1, _skip_dependents e k = Ok e1 /\ _skip_dependents e1 k = Ok e1.
Proof.
  intros Hwf Hf Hr Hk. pose proof (reachable_ok Hwf Hf Hr) as Hok.
  destruct (@skip_dependents_spec g e k Hwf (so_engine Hok) Hk)
    as (e1 & Hr1 & Hok1 & _ & _ & Hnw & _).
  exists e1. split; [assumption|]. unfold _skip_dependents.
  rewrite (@get_inverse_skeleton g (workflow e1) k Hwf (eo_skeleton Hok1) Hk). simpl.
  apply skip_loop_noop; [assumption | lia].
Qed.

Lemma skip_dependents_idempotent_witness :
  exists e1, _skip_dependents fan_done "A" = Ok e1 /\ _skip_dependents e1 "A" = Ok e1.
Proof.
  destruct fan_done_reachable as [t Hr].
  apply (@skip_dependents_idempotent wf_fan None 1 t fan_done [] "A"%string
           (wf_check_sound wf_fan eq_refl) (fresh_check_sound wf_fan eq_refl) Hr).
  simpl. tauto.
Defined.

(* ================================================================== *)
(** * The execution log *)
(* ================================================================== *)

Lemma snoc_split (l1 l2 l : list string) (k x : string) :
  l1 ++ k :: l2 = l ++ [x] ->
  (l2 = [] /\ l1 = l /\ k = x)
  \/ (exists l2', l2 = l2' ++ [x] /\ l = l1 ++ k :: l2').
Proof.
  destruct l2 as [|y l2' _] using rev_ind; intros H.
  - left. change (l1 ++ [k] = l ++ [x]) in H. apply app_inj_tail in H.
    destruct H. auto.
  - right. exists l2'.
    replace (l1 ++ k :: l2' ++ [y]) with ((l1 ++ k :: l2') ++ [y]) in H
      by (rewrite <- app_assoc; reflexivity).
    apply app_inj_tail in H. destruct H as [-> ->]. auto.
Qed.

(** Appending the entry of a running step keeps the log in order. *)
Lemma log_ok_append (g : Workflow) (S S' : System) (ev : Event) (x : string) :
  wf_workflow g -> system_ok g S -> pstep S ev S' ->
  log_ok g (engine S) ->
  status_of (workflow (engine S)) x = Some RUNNING ->
  execution_order (engine S') = execution_order (engine S) ++ [x] ->
  (forall d, d <> x -> status_of (workflow (engine S')) d
                       = status_of (workflow (engine S)) d) ->
  log_ok g (engine S').
Proof.
  intros Hwf Hok Hst (L1 & L2 & L3) Hx Hl Hsame.
  assert (Hdeps : forall d, In d (deps_of g x) ->
                            status_of (workflow (engine S)) d = Some SUCCESS).
  { intros d Hd. eapply (eo_deps (so_engine Hok)); [exact Hx | reflexivity | exact Hd]. }
  split; [|split].
  - intros d Hd. rewrite Hl. apply in_or_app.
    destruct (String.eqb_spec d x) as [->|Hn]; [right; now left|].
    left. apply L1. now rewrite <- (Hsame d Hn).
  - intros l1 k l2 E. rewrite Hl in E.
    destruct (@snoc_split l1 l2 _ k x (eq_sym E)) as [(_ & -> & ->)|(l2' & _ & E')].
    + intros d Hd. apply L1. now apply Hdeps.
    + now apply (L2 l1 k l2').
  - intros k Hk d Hd. rewrite Hl in Hk. apply in_app_or in Hk.
    apply (success_stable d Hwf Hok Hst).
    destruct Hk as [Hk|[<-|[]]]; [now apply (L3 k) | now apply Hdeps].
Qed.

Lemma log_ok_step (g : Workflow) (S S' : System) (ev : Event) :
  wf_workflow g -> system_ok g S -> pstep S ev S' ->
  log_ok g (engine S) -> log_ok g (engine S').
Proof.
  intros Hwf Hok Hst HL. pose proof (pstep_status Hwf Hok Hst) as H.
  assert (Keep : execution_order (engine S') = execution_order (engine S) ->
                 (forall d, status_of (workflow (engine S')) d = Some SUCCESS ->
                            status_of (workflow (engine S)) d = Some SUCCESS) ->
                 log_ok g (engine S')).
  { intros Hl Hold. destruct HL as (L1 & L2 & L3). split; [|split].
    - intros d Hd. rewrite Hl. apply L1. now apply Hold.
    - intros l1 k l2 E. rewrite Hl in E. now apply (L2 l1 k l2).
    - intros k Hk d Hd. rewrite Hl in Hk.
      apply (success_stable d Hwf Hok Hst). now apply (L3 k). }
  destruct ev as [|x|x o|x|x].
  - destruct H as [Hw Hl]. apply Keep; [assumption|]. now rewrite Hw.
  - destruct H as (_ & _ & Hch & Hb). apply Keep; [apply (sb_log Hb)|].
    intros d Hd. destruct (String.eqb_spec d x) as [->|Hn].
    + rewrite (status_changed_at Hch) in Hd. discriminate.
    + now rewrite <- (status_changed_same Hch Hn).
  - destruct H as (Hx & success & Hout).
    destruct Hout as (Hl & _ & _ & _ & _ & _ & s & _ & Hcase).
    apply (@log_ok_append g S S' (EvRun x o) x Hwf Hok Hst HL Hx Hl).
    intros d Hn.
    destruct Hcase as [(_ & Hch & _)|[(_ & _ & Hch & _)|(_ & _ & Hch & _)]];
      apply (status_changed_same Hch Hn).
  - destruct H as (Hx & Hw & Hl).
    apply (@log_ok_append g S S' (EvCrash x) x Hwf Hok Hst HL Hx Hl).
    intros d _. now rewrite Hw.
  - destruct H as (Hb & e1 & Hc & Hu & _). apply Keep; [apply (sb_log Hb)|].
    intros d Hd.
    eapply cascade_old_status; [exact Hc | | discriminate].
    eapply update_old_status; [exact Hu | exact Hd | discriminate | discriminate].
Qed.

Lemma log_ok_reachable (g : Workflow) (strat : option SchedulingStrategy) (mp : nat)
      (t : list Event) (S : System) :
  wf_workflow g -> fresh g -> reachable g strat mp t S -> log_ok g (engine S).
Proof.
  intros Hwf Hf Hr. induction Hr as [e He|t S ev S' Hr IH Hst].
  - destruct (@update_ready_queue_spec g _ [] Hwf (@initial_ok g strat mp Hf))
      as (e' & Hr & _ & Hb & Hch & _).
    rewrite Hr in He. injection He as <-. cbn [engine].
    assert (Hl : execution_order e' = []) by (rewrite (sb_log Hb); reflexivity).
    split; [|split].
    + intros d Hd. exfalso.
      assert (Hg : status_of g d = Some SUCCESS)
        by (eapply update_old_status; [exact Hch | exact Hd | discriminate | discriminate]).
      apply (fresh_status _ Hf) in Hg. discriminate.
    + intros l1 k l2 E. rewrite Hl in E. destruct l1; discriminate.
    + intros k Hk. rewrite Hl in Hk. contradiction.
  - eapply log_ok_step; [exact Hwf | | exact Hst | exact IH].
    eapply reachable_ok; eassumption.
Qed.

(** The execution log of a run, sequential or parallel, is in dependency
    order: before each entry of a step there is an entry of every one of
    its dependencies, and these dependencies are [SUCCESS]. *)
Theorem log_respects_dependencies (g : Workflow)
        (strat : option SchedulingStrategy) (mp : nat) (t : list Event) (S : System)
        (l1 l2 : list string) (k : string) :
  wf_workflow g -> fresh g -> reachable g strat mp t S ->
  execution_order (engine S) = l1 ++ k :: l2 ->
  forall d, In d (deps_of g k) ->
            In d l1 /\ status_of (workflow (engine S)) d = Some SUCCESS.
Proof.
  intros Hwf Hf Hr E d Hd.
  destruct (log_ok_reachable Hwf Hf Hr) as (_ & L2 & L3). split.
  - now apply (L2 l1 k l2).
  - apply (L3 k); [|assumption]. rewrite E. apply in_or_app. right. now left.
Qed.

Lemma log_respects_dependencies_witness :
  In "A"%string ["A"; "B"]%string
  /\ status_of (workflow fan_done) "A" = Some SUCCESS.
Proof.
  destruct fan_done_reachable as [t Hr].
  apply (@log_respects_dependencies wf_fan None 1 t _ ["A"; "B"]%string [] "C"%string
           (wf_check_sound wf_fan eq_refl) (fresh_check_sound wf_fan eq_refl) Hr
           eq_refl "A"%string).
  simpl. now left.
Defined.

(* ================================================================== *)
(** * The worker pool *)
(* ================================================================== *)

Lemma length_replace (ts1 ts2 : list Thread) (a b : Thread) :
  List.length (ts1 ++ a :: ts2) = List.length (ts1 ++ b :: ts2).
Proof. rewrite !length_app. reflexivity. Qed.

(** The list of worker threads never holds more than [max_parallel]
    threads, dead ones that have not been reaped included; so at most
    [max_parallel] commands are running at any time. *)
Theorem worker_pool_is_bounded (g : Workflow) (strat : option SchedulingStrategy)
        (mp : nat) (t : list Event) (S : System) :
  wf_workflow g -> fresh g -> reachable g strat mp t S ->
  List.length (running_threads S) <= mp
  /\ List.length (filter is_alive (running_threads S)) <= mp.
Proof.
  intros Hwf Hf Hr.
  assert (H : List.length (running_threads S) <= mp).
  { induction Hr as [e He|t S ev S' Hr IH Hst]; [simpl; lia|].
    destruct (reachable_config Hwf Hf Hr) as [_ Hmp].
    destruct Hst; cbn [running_threads engine] in *.
    - pose proof (filter_length_le is_alive ts). lia.
    - rewrite length_app. simpl. lia.
    - now rewrite (length_replace ts1 ts2 _ (mkThread sid Started)).
    - now rewrite (length_replace ts1 ts2 _ (mkThread sid Started)).
    - now rewrite (length_replace ts1 ts2 _ (mkThread sid (Finished success))). }
  split; [assumption|].
  pose proof (filter_length_le is_alive (running_threads S)). lia.
Qed.

Lemma worker_pool_is_bounded_witness :
  List.length (running_threads (mkSystem fan_done [])) <= 1.
Proof.
  destruct fan_done_reachable as [t Hr].
  exact (proj1 (@worker_pool_is_bounded wf_fan None 1 t _
                  (wf_check_sound wf_fan eq_refl)
                  (fresh_check_sound wf_fan eq_refl) Hr)).
Defined.

(** With [max_parallel] 0 the engine never dispatches anything: every
    state of the run is the state the first readiness update left, with no
    worker and an empty log.  When that update made a step ready, the
    condition of the loop of [_execute_parallel] stays true for ever. *)
Theorem zero_parallel_never_dispatches (g : Workflow)
        (strat : option SchedulingStrategy) (t : list Event) (S : System) :
  wf_workflow g -> fresh g -> reachable g strat 0 t S ->
  _update_ready_queue (new_WorkflowEngine g strat 0) = Ok (engine S)
  /\ running_threads S = []
  /\ execution_order (engine S) = []
  /\ forall ev, In ev t -> ev = EvReap.
Proof.
  intros Hwf Hf Hr.
  induction Hr as [e He|t S ev S' Hr IH Hst].
  - split; [assumption|]. split; [reflexivity|]. split; [|intros ev []].
    destruct (@update_ready_queue_spec g _ [] Hwf (@initial_ok g strat 0 Hf))
      as (e' & Hr & _ & Hb & _).
    rewrite Hr in He. injection He as <-. cbn [engine]. now rewrite (sb_log Hb).
  - destruct IH as (He & Hts & Hl & Hev).
    destruct (reachable_config Hwf Hf Hr) as [_ Hmp].
    destruct Hst; cbn [running_threads engine] in *.
    + subst ts. split; [assumption|]. split; [reflexivity|]. split; [assumption|].
      intros ev Hin. apply in_app_or in Hin. destruct Hin as [Hin|[<-|[]]]; auto.
    + exfalso. lia.
    + exfalso. destruct ts1; discriminate.
    + exfalso. destruct ts1; discriminate.
    + exfalso. destruct ts1; discriminate.
Qed.

Lemma zero_parallel_never_dispatches_witness :
  running_threads (mkSystem (mkEngine (workflow fan_started) ["A"] None 0 []) []) = []
  /\ execution_order (mkEngine (workflow fan_started) ["A"] None 0 []) = [].
Proof.
  destruct (@zero_parallel_never_dispatches wf_fan None []
              (mkSystem (mkEngine (workflow fan_started) ["A"%string] None 0 []) [])
              (wf_check_sound wf_fan eq_refl) (fresh_check_sound wf_fan eq_refl)
              (@reach_start wf_fan None 0 _ eq_refl))
    as (_ & Hts & Hl & _).
  split; [exact Hts | exact Hl].
Defined.

(* ================================================================== *)
(** * The state in which the parallel loop exits *)
(* ================================================================== *)

Lemma settling_replace (ts1 ts2 : list Thread) (k : string) (ph ph' : Phase) :
  (forall b, ph <> Finished b) ->
  settling (ts1 ++ mkThread k ph :: ts2) -> settling (ts1 ++ mkThread k ph' :: ts2).
Proof.
  intros Hph (x & b & Hin). exists x, b.
  apply in_app_or in Hin. apply in_or_app.
  destruct Hin as [Hin|[E|Hin]]; [now left | | right; now right].
  exfalso. injection E as _ E. exact (Hph b E).
Qed.

Lemma pool_ok_step (g : Workflow) (S S' : System) (ev : Event) :
  wf_workflow g -> (forall sid, ev <> EvCrash sid) -> system_ok g S -> pool_ok g S ->
  pstep S ev S' -> pool_ok g S'.
Proof.
  intros Hwf Hnc Hok [P1 P2] Hst.
  pose proof (pstep_status Hwf Hok Hst) as H. unfold pool_ok.
  destruct Hst; cbn [engine running_threads] in *.
  - (* reap *)
    split.
    + destruct P1 as [P1|(x & b & Hin)]; [now left|]. right. exists x, b.
      apply filter_In. split; [assumption | reflexivity].
    + intros k Hk. unfold started. rewrite filter_started_alive. now apply P2.
  - (* dispatch *)
    destruct H as (Hr & _ & Hch & _). split.
    + destruct P1 as [P1|(x & b & Hin)].
      * left. intros k Hk.
        assert (Hn : k <> sid).
        { intros ->. rewrite (status_changed_at Hch) in Hk. discriminate. }
        rewrite (status_changed_same Hch Hn) in Hk.
        destruct (P1 k Hk) as (d & Hd & Hns). exists d. split; [assumption|].
        destruct (String.eqb_spec d sid) as [->|Hnd].
        -- rewrite (status_changed_at Hch). discriminate.
        -- now rewrite (status_changed_same Hch Hnd).
      * right. exists x, b. apply in_or_app. now left.
    + intros k Hk. rewrite started_app. apply in_or_app.
      destruct (String.eqb_spec k sid) as [->|Hn].
      * right. simpl. now left.
      * left. apply P2. now rewrite <- (status_changed_same Hch Hn).
  - (* run *)
    destruct H as (Hr & success' & Hout). split.
    + right. exists sid, success. apply in_or_app. right. now left.
    + intros k Hk.
      destruct Hout as (_ & _ & _ & _ & _ & _ & s & _ & Hcase).
      assert (Hn : k <> sid).
      { intros ->.
        destruct Hcase as [(_ & Hch & _)|[(_ & _ & Hch & _)|(_ & _ & Hch & _)]];
          rewrite (status_changed_at Hch) in Hk; discriminate. }
      assert (Hold : status_of (workflow e) k = Some RUNNING).
      { destruct Hcase as [(_ & Hch & _)|[(_ & _ & Hch & _)|(_ & _ & Hch & _)]];
          now rewrite <- (status_changed_same Hch Hn). }
      specialize (P2 k Hold). rewrite started_at in P2.
      rewrite started_replace by discriminate.
      apply in_app_or in P2. apply in_or_app.
      destruct P2 as [P2|[E|P2]]; [now left | congruence | now right].
  - (* crash *)
    exfalso. exact (Hnc sid eq_refl).
  - (* settle *)
    destruct (@settle_spec g e ts1 ts2 sid success Hwf Hok)
      as (e1 & e2 & Hr & _ & _ & Hnp & _).
    rewrite Hr in H0. injection H0 as ->.
    destruct H as (_ & e3 & Hc & Hu & _). split; [now left|].
    intros k Hk.
    assert (Hold : status_of (workflow e) k = Some RUNNING).
    { eapply cascade_old_status; [exact Hc | | discriminate].
      eapply update_old_status; [exact Hu | exact Hk | discriminate | discriminate]. }
    specialize (P2 k Hold).
    rewrite started_replace in P2 by discriminate.
    rewrite started_replace by discriminate. exact P2.
Qed.

(** As long as no worker is killed by an exception, the pool holds every
    [RUNNING] step. *)
Lemma pool_ok_reachable (g : Workflow) (strat : option SchedulingStrategy) (mp : nat)
      (t : list Event) (S : System) :
  wf_workflow g -> fresh g -> (forall sid, ~ In (EvCrash sid) t) ->
  reachable g strat mp t S -> pool_ok g S.
Proof.
  intros Hwf Hf Hnc Hr. induction Hr as [e He|t S ev S' Hr IH Hst].
  - destruct (initial_quiescent strat mp Hwf Hf He) as [Hq1 Hq2].
    split; [now left|]. intros k Hk. exfalso. exact (Hq2 k Hk).
  - eapply pool_ok_step; [exact Hwf | | | apply IH | exact Hst].
    + intros sid ->. apply (Hnc sid). apply in_or_app. right. now left.
    + eapply reachable_ok; eassumption.
    + intros sid Hin. apply (Hnc sid). apply in_or_app. now left.
Qed.

(** A run in which workers may be killed contains the runs of [pstep]. *)
Lemma reachable_exn_of_reachable (g : Workflow) (strat : option SchedulingStrategy)
      (mp : nat) (t : list Event) (S : System) :
  reachable g strat mp t S -> reachable_exn g strat mp t S.
Proof.
  intros Hr. induction Hr as [e He|t S ev S' Hr IH Hst].
  - now apply reach_exn_start.
  - eapply reach_exn_step; [exact IH|]. now apply pstep_exn_pstep.
Qed.

(** A run in which no worker was killed is a run of [pstep]. *)
Lemma reachable_exn_no_crash (g : Workflow) (strat : option SchedulingStrategy)
      (mp : nat) (t : list Event) (S : System) :
  reachable_exn g strat mp t S -> (forall sid, ~ In (EvCrash sid) t) ->
  reachable g strat mp t S.
Proof.
  intros Hr. induction Hr as [e He|t S ev S' Hr IH Hst]; intros Hnc.
  - now apply reach_start.
  - assert (Ht : forall sid, ~ In (EvCrash sid) t).
    { intros sid Hin. apply (Hnc sid). apply in_or_app. now left. }
    destruct Hst as [S ev S' Hst|e ts1 ts2 sid run x Hx].
    + eapply reach_step; [now apply IH | exact Hst].
    + exfalso. apply (Hnc sid). apply in_or_app. right. now left.
Qed.

(** Every state of a run satisfies the run invariant, also when workers
    are killed by exceptions. *)
Lemma reachable_exn_ok (g : Workflow) (strat : option SchedulingStrategy) (mp : nat)
      (t : list Event) (S : System) :
  wf_workflow g -> fresh g -> reachable_exn g strat mp t S -> system_ok g S.
Proof.
  intros Hwf Hf Hr. induction Hr as [e He|t S ev S' Hr IH Hst].
  - eapply reachable_ok; [exact Hwf | exact Hf | apply reach_start; exact He].
  - destruct Hst as [S ev S' Hst|e ts1 ts2 sid run x Hx].
    + eapply pstep_ok; eassumption.
    + now apply crash_spec.
Qed.

(** When every retry policy carries an integer and the commands end, no
    worker is killed. *)
Lemma reachable_no_crash (g : Workflow) (strat : option SchedulingStrategy) (mp : nat)
      (t : list Event) (S : System) :
  wf_workflow g -> fresh g -> policies_ok g -> reachable g strat mp t S ->
  forall sid, ~ In (EvCrash sid) t.
Proof.
  intros Hwf Hf Hpol Hr. induction Hr as [e He|t S ev S' Hr IH Hst]; intros k Hin.
  - exact Hin.
  - apply in_app_or in Hin. destruct Hin as [Hin|[E|[]]]; [exact (IH k Hin)|].
    pose proof (reachable_ok Hwf Hf Hr) as Hok.
    pose proof (pstep_status Hwf Hok Hst) as H.
    destruct Hst; try discriminate E. cbn [engine running_threads] in *.
    destruct H as (Hrun & _ & _).
    destruct (status_of_inv _ _ Hrun) as (s & Hs & _).
    destruct (@execute_step_total g (fun _ _ => Exited outcome) e sid s
                (commands_end_exited outcome) Hpol
                (eo_skeleton (so_engine Hok)) Hs) as (b & e2 & He2).
    congruence.
Qed.

Lemma condition_chain_reachable :
  exists t, reachable_exn wf_condition_chain None 1 t (mkSystem condition_chain_done [])
            /\ forall sid, ~ In (EvCrash sid) t.
Proof.
  destruct (@execute_sequentially_reachable wf_condition_chain None 1 (fun _ _ => true) 5
              condition_chain_done (wf_check_sound wf_condition_chain eq_refl)
              (fresh_check_sound wf_condition_chain eq_refl) (le_n 1)
              condition_chain_run)
    as (t & Hr & _).
  exists t. split; [now apply reachable_exn_of_reachable|].
  exact (reachable_no_crash (wf_check_sound wf_condition_chain eq_refl)
           (fresh_check_sound wf_condition_chain eq_refl)
           condition_chain_policies Hr).
Qed.

(** The state in which the loop of [_execute_parallel] exits, in every
    interleaving of the workers, when no worker was killed by an exception
    (of [subprocess.run] or of [int]) during the run: on a validated
    graph, when no worker is left and the ready queue is empty, every step
    is [SUCCESS], [FAILED], [SKIPPED] or [PENDING] (none is [READY] or
    [RUNNING]); a step still [PENDING] has an ancestor that was skipped by
    its own condition; all descendants of a [FAILED] step are [SKIPPED].
    After a worker was killed the loop exits with its step [RUNNING]
    ([killed_worker_leaves_running]). *)
Theorem parallel_loop_exit_state (g : Workflow) (strat : option SchedulingStrategy)
        (mp : nat) (t : list Event) (e : WorkflowEngine) :
  wf_workflow g -> fresh g -> validate_workflow g = Ok true ->
  reachable_exn g strat mp t (mkSystem e []) ->
  (forall sid, ~ In (EvCrash sid) t) ->
  ready_queue e = [] ->
  (forall k, In k (step_ids (steps g)) ->
             exists st, status_of (workflow e) k = Some st
                        /\ (st = SUCCESS \/ st = FAILED \/ st = SKIPPED
                            \/ st = PENDING))
  /\ (forall k, status_of (workflow e) k = Some PENDING ->
                exists a, path g k a /\ condition_skipped g e a)
  /\ (forall k y, status_of (workflow e) k = Some FAILED -> descendant g k y ->
                  status_of (workflow e) y = Some SKIPPED).
Proof.
  intros Hwf Hf Hv Hx Hnc Hqe.
  pose proof (reachable_exn_no_crash Hx Hnc) as Hr.
  destruct (validate_topo Hwf Hv) as (V & HV & Hall).
  pose proof (reachable_ok Hwf Hf Hr) as Hok.
  destruct (pool_ok_reachable Hwf Hf Hnc Hr) as [P1 P2].
  cbn [engine running_threads] in P1, P2.
  assert (Hq : quiescent g e).
  { split.
    - destruct P1 as [P1|(x & b & [])]. exact P1.
    - intros k Hk. exact (P2 k Hk). }
  pose proof (so_engine Hok) as Heo. simpl in Heo.
  split; [|split].
  - intros k Hk.
    destruct (proj1 (skeleton_status_ids (eo_skeleton Heo) k) Hk) as [st Hst].
    exists st. split; [assumption|]. destruct st; auto.
    + exfalso. apply (eo_queue Heo) in Hst. rewrite Hqe in Hst. exact Hst.
    + exfalso. exact (proj2 Hq k Hst).
  - intros k Hk.
    eapply (@pending_has_skipped_ancestor g e V Hwf Hok Hq Hqe HV Hall (rank V k) k);
      [apply Nat.le_refl | assumption].
  - intros k y Hk Hy. apply (@doomed_descendants g e [] k y Hok); [|exact Hy].
    left. split; [assumption | intros []].
Qed.

Lemma parallel_loop_exit_state_witness :
  exists a, path wf_condition_chain "C" a
            /\ condition_skipped wf_condition_chain condition_chain_done a.
Proof.
  destruct condition_chain_reachable as (t & Hr & Hnc).
  apply (proj1 (proj2 (@parallel_loop_exit_state wf_condition_chain None 1 t
                         condition_chain_done
                         (wf_check_sound wf_condition_chain eq_refl)
                         (fresh_check_sound wf_condition_chain eq_refl)
                         eq_refl Hr Hnc eq_refl))).
  reflexivity.
Defined.

(** A worker killed by an exception of its command: [subprocess.run]
    raises [UnicodeDecodeError] on the output of the only step of
    [wf_single]; the worker dies, it is reaped, and the loop of
    [_execute_parallel] exits with the step in the log and [RUNNING]. *)
Example killed_worker_leaves_running :
  exists t, reachable_exn wf_single None 2 t (mkSystem single_aborted [])
            /\ t = [EvDispatch "A"; EvCrash "A"; EvReap]
            /\ ready_queue single_aborted = []
            /\ execution_order single_aborted = ["A"]
            /\ status_of (workflow single_aborted) "A" = Some RUNNING.
Proof.
  exists [EvDispatch "A"%string; EvCrash "A"%string; EvReap].
  split; [|repeat split].
  change [EvDispatch "A"%string; EvCrash "A"%string; EvReap]
    with ((([] ++ [EvDispatch "A"%string]) ++ [EvCrash "A"%string]) ++ [EvReap]).
  eapply reach_exn_step with (S := mkSystem single_aborted [mkThread "A" Dead]);
    [|apply pstep_exn_pstep; exact (pstep_reap single_aborted [mkThread "A" Dead])].
  eapply reach_exn_step
    with (S := mkSystem (mark_running (with_queue [] single_started) "A")
                        [mkThread "A" Started]).
  - eapply reach_exn_step with (S := mkSystem single_started []).
    + apply reach_exn_start. reflexivity.
    + apply pstep_exn_pstep.
      apply (@pstep_dispatch single_started [] (with_queue [] single_started) "A").
      * simpl. lia.
      * discriminate.
      * reflexivity.
  - apply (@pstep_exn_abort (mark_running (with_queue [] single_started) "A") [] []
             "A" run_undecodable (OtherError "UnicodeDecodeError")).
    reflexivity.
Qed.

(* ================================================================== *)
(** * Steps without retry policy *)
(* ================================================================== *)

Lemma no_policy_current (g w : Workflow) (k : string) (s : Step) :
  skeleton w = skeleton g -> no_retry_policy g k ->
  find_step (steps w) k = Some s ->
  forall fs, failure_strategy s = Some fs -> PyStr.startswith "retry:" fs = false.
Proof.
  intros Hsk (s0 & Hs0 & Hnone) Hs fs Hfs.
  destruct (skeleton_step Hsk _ Hs) as (s0' & Hs0' & _ & _ & Hf & _).
  rewrite Hs0 in Hs0'. injection Hs0' as <-.
  apply Hnone. now rewrite <- Hf.
Qed.

Lemma execute_step_no_policy (outcome : bool) (e : WorkflowEngine) (k : string)
      (s : Step) (x : exn) :
  find_step (steps (workflow e)) k = Some s ->
  (forall fs, failure_strategy s = Some fs -> PyStr.startswith "retry:" fs = false) ->
  _execute_step (fun _ _ => Exited outcome) e k <> Raise x.
Proof.
  intros Hs Hnone. unfold _execute_step, get_step. rewrite Hs. simpl.
  unfold apply_outcome, get_step. simpl. rewrite Hs. simpl.
  destruct outcome; [discriminate|].
  destruct (failure_strategy s) as [fs|] eqn:Efs; [|discriminate].
  rewrite (Hnone fs eq_refl), andb_false_r. discriminate.
Qed.

(** One step of a run keeps the books of a step without retry policy. *)
Lemma once_books_step (g : Workflow) (k : string) (t : list Event)
      (S S' : System) (ev : Event) :
  wf_workflow g -> system_ok g S -> no_retry_policy g k ->
  retry_books k 0 t S -> pstep S ev S' ->
  retry_books k 0 (t ++ [ev]) S'.
Proof.
  intros Hwf Hok Hpol Hbk Hst.
  pose proof (pstep_status Hwf Hok Hst) as H.
  pose proof (eo_skeleton (so_engine Hok)) as Hsk.
  destruct Hst; cbn [engine running_threads] in *.
  - (* reap *)
    apply retry_books_frame with (S := mkSystem e ts); cbn [engine];
      [ exact Hbk | reflexivity | reflexivity | reflexivity | reflexivity | ].
    intros st Hs. exists st. auto.
  - (* dispatch *)
    destruct H as (Hr & _ & Hch & Hb).
    destruct (String.eqb_spec sid k) as [->|Hn].
    + destruct Hbk as (st & rc & Hs & Hrc & Hbd & Hf & Hsu & Hfin & Ha & Hd).
      simpl in Hs, Hrc, Ha, Hd. rewrite Hr in Hs. injection Hs as <-.
      exists RUNNING, rc. cbn [engine].
      unfold failures, successes, dispatches in *.
      rewrite !count_events_snoc. simpl. rewrite String.eqb_refl. simpl.
      rewrite !Nat.add_0_r, (sb_retry Hb), (@attempts_same _ _ k (sb_log Hb)).
      simpl in Hf, Hsu, Hd.
      split; [now apply (status_changed_at Hch)|]. split; [assumption|].
      split; [assumption|]. split; [assumption|]. split; [assumption|].
      split; [discriminate|]. split; [assumption | lia].
    + apply retry_books_frame with (S := mkSystem e ts); cbn [engine];
        [ exact Hbk | reflexivity | now apply is_dispatch_other
          | apply attempts_same; apply (sb_log Hb) | apply (sb_retry Hb) | ].
      intros st Hs. exists st. split; [|now left].
      rewrite (status_changed_same Hch); [assumption | congruence].
  - (* run *)
    destruct H as (Hr & success' & Hout).
    destruct Hout as (Hl & _ & _ & _ & Hret & _ & s & Hs & Hcase).
    destruct (String.eqb_spec sid k) as [->|Hn].
    + destruct Hbk as (st & rc & Hst & Hrc & Hbd & Hf & Hsu & Hfin & Ha & Hd).
      simpl in Hst, Hrc, Ha, Hd. rewrite Hr in Hst. injection Hst as <-.
      assert (Erc : rc = retry_count s).
      { unfold retry_of in Hrc. rewrite Hs in Hrc. simpl in Hrc. congruence. }
      pose proof (no_policy_current Hsk Hpol Hs) as Hnone.
      simpl in Hf, Hsu, Hd.
      unfold retry_books, failures, successes, dispatches in *. cbn [engine].
      rewrite !count_events_snoc, (@attempts_snoc _ _ k _ Hl). simpl.
      rewrite String.eqb_refl. simpl.
      destruct Hcase as [(-> & Hch & Hrc')|[(-> & Hbud & Hch & Hrc')|(-> & Hbud & Hch & Hrc')]].
      * exists SUCCESS, rc. simpl.
        split; [now apply (status_changed_at Hch)|]. split; [congruence|].
        split; [assumption|]. split; [lia|]. split; [lia|].
        split; [discriminate|]. split; lia.
      * exfalso. destruct Hbud as (fs' & n & Hfs' & Hp' & _).
        rewrite (Hnone fs' Hfs') in Hp'. discriminate.
      * exists FAILED, rc. simpl.
        split; [now apply (status_changed_at Hch)|]. split; [congruence|].
        split; [assumption|]. split; [lia|]. split; [lia|].
        split; [intros _; lia|]. split; lia.
    + apply retry_books_frame with (S := mkSystem e (ts1 ++ mkThread sid Started :: ts2));
        cbn [engine];
        [ exact Hbk | intros o; now apply is_run_other | reflexivity | | | ].
      * rewrite (@attempts_snoc _ _ k _ Hl).
        destruct (String.eqb_spec sid k); [congruence | simpl; lia].
      * apply Hret. congruence.
      * intros st Hs'. exists st. split; [|now left].
        destruct Hcase as [(_ & Hch & _)|[(_ & _ & Hch & _)|(_ & _ & Hch & _)]];
          (rewrite (status_changed_same Hch); [assumption | congruence]).
  - (* crash *)
    destruct H as (Hr & _ & _).
    destruct (String.eqb_spec sid k) as [->|Hn].
    + exfalso. destruct (status_of_inv _ _ Hr) as (s & Hs & _).
      pose proof (no_policy_current Hsk Hpol Hs) as Hnone.
      revert H0. eapply execute_step_no_policy; eassumption.
    + apply retry_books_frame with (S := mkSystem e (ts1 ++ mkThread sid Started :: ts2));
        cbn [engine];
        [ exact Hbk | reflexivity | reflexivity | | reflexivity | ].
      * unfold attempts. simpl. rewrite count_occ_app. simpl.
        destruct (string_dec sid k); [congruence | lia].
      * intros st Hs. exists st. auto.
  - (* settle *)
    destruct H as (Hb & e1 & Hc & Hu & _).
    apply retry_books_frame
      with (S := mkSystem e (ts1 ++ mkThread sid (Finished success) :: ts2));
      cbn [engine];
      [ exact Hbk | reflexivity | reflexivity
        | apply attempts_same; apply (sb_log Hb) | apply (sb_retry Hb) | ].
    intros st Hs. eapply settle_moves; eassumption.
Qed.

(** In every state of a run the books of a step without retry policy are
    in order. *)
Lemma once_books_reachable (g : Workflow) (strat : option SchedulingStrategy)
      (mp : nat) (k : string) (t : list Event) (S : System) :
  wf_workflow g -> fresh g -> no_retry_policy g k ->
  reachable g strat mp t S -> retry_books k 0 t S.
Proof.
  intros Hwf Hf Hpol Hr. induction Hr as [e He|t S ev S' Hr IH Hst].
  - destruct (@update_ready_queue_spec g _ [] Hwf (@initial_ok g strat mp Hf))
      as (e' & Hr & _ & Hb & Hch & _).
    rewrite Hr in He. injection He as <-.
    destruct Hpol as (s & Hs & _).
    assert (Hst : status_of g k = Some PENDING).
    { rewrite (status_of_find _ _ Hs). f_equal. apply Hf. now apply (find_step_In _ _ Hs). }
    assert (Hrc : retry_of g k = Some 0%Z).
    { unfold retry_of. rewrite Hs. simpl. f_equal. apply Hf.
      now apply (find_step_In _ _ Hs). }
    destruct (@settle_moves g g (workflow e') k PENDING
                            (only_changes_refl _ _) Hch Hst) as (st' & Hst' & Hcase).
    exists st', 0%Z. cbn [engine].
    rewrite (sb_retry Hb). unfold attempts. rewrite (sb_log Hb). simpl.
    split; [assumption|]. split; [assumption|]. split; [lia|].
    destruct Hcase as [->|(_ & _ & _ & B1 & B2 & B3)].
    + repeat split; auto; try discriminate.
    + rewrite B1, B2, B3. repeat split; auto; try (intros ->; discriminate).
  - eapply once_books_step; eauto. eapply reachable_ok; eassumption.
Qed.

(** What does not touch the step [k] keeps it [aborted]. *)
Lemma aborted_frame (k : string) (t : list Event) (S S' : System) (ev : Event) :
  aborted k t S ->
  (forall o, is_run k o ev = false) -> is_dispatch k ev = false ->
  attempts (engine S') k = attempts (engine S) k ->
  retry_of (workflow (engine S')) k = retry_of (workflow (engine S)) k ->
  status_of (workflow (engine S')) k = status_of (workflow (engine S)) k ->
  ~ In k (started (running_threads S')) ->
  aborted k (t ++ [ev]) S'.
Proof.
  intros (Hs & Hrc & Ha & Hd & Hf & Hsu & Hn) Hrun Hdis Ea Er Es Hn'.
  unfold aborted, failures, successes, dispatches in *.
  rewrite !count_events_snoc, !Hrun, Hdis, Ea, Er, Es. simpl.
  repeat split; try assumption; lia.
Qed.

(** The end of a worker by an exception does not touch the other steps. *)
Lemma attempts_other (e : WorkflowEngine) (k sid : string) :
  sid <> k ->
  attempts (with_log (execution_order e ++ [sid]) e) k = attempts e k.
Proof.
  intros Hn. unfold attempts. simpl. rewrite count_occ_app. simpl.
  destruct (string_dec sid k); [congruence | lia].
Qed.

(** A step whose worker was killed stays as it is: nothing dispatches or
    runs it again. *)
Lemma aborted_step (g : Workflow) (k : string) (t : list Event)
      (S S' : System) (ev : Event) :
  wf_workflow g -> system_ok g S -> aborted k t S -> pstep_exn S ev S' ->
  aborted k (t ++ [ev]) S'.
Proof.
  intros Hwf Hok Hab Hst.
  pose proof Hab as (Hs & _ & _ & _ & _ & _ & Hn).
  destruct Hst as [S ev S' Hst|e ts1 ts2 sid run x Hx].
  - pose proof (pstep_status Hwf Hok Hst) as H.
    destruct Hst; cbn [engine running_threads] in *.
    + (* reap *)
      apply aborted_frame with (S := mkSystem e ts); cbn [engine running_threads];
        try reflexivity; [exact Hab|].
      unfold started. now rewrite filter_started_alive.
    + (* dispatch *)
      destruct H as (Hr & _ & Hch & Hb).
      assert (Hne : sid <> k) by (intros ->; congruence).
      apply aborted_frame with (S := mkSystem e ts); cbn [engine running_threads];
        [ exact Hab | reflexivity | now apply is_dispatch_other
          | apply attempts_same; apply (sb_log Hb) | apply (sb_retry Hb)
          | apply (status_changed_same Hch); congruence | ].
      rewrite started_app. intros Hin. apply in_app_or in Hin.
      destruct Hin as [Hin|[E|[]]]; [exact (Hn Hin) | exact (Hne E)].
    + (* run *)
      assert (Hne : sid <> k).
      { intros ->. apply Hn. apply started_In. }
      destruct H as (Hr & success' & Hout).
      destruct Hout as (Hl & _ & _ & _ & Hret & _ & s & _ & Hcase).
      apply aborted_frame with (S := mkSystem e (ts1 ++ mkThread sid Started :: ts2));
        cbn [engine running_threads];
        [ exact Hab | intros o; now apply is_run_other | reflexivity | | | | ].
      * rewrite (@attempts_snoc _ _ k _ Hl).
        destruct (String.eqb_spec sid k); [congruence | simpl; lia].
      * apply Hret. congruence.
      * destruct Hcase as [(_ & Hch & _)|[(_ & _ & Hch & _)|(_ & _ & Hch & _)]];
          (apply (status_changed_same Hch); congruence).
      * rewrite started_replace by discriminate. rewrite started_at in Hn.
        intros Hin. apply Hn. apply in_app_or in Hin. apply in_or_app.
        destruct Hin as [Hin|Hin]; [now left | right; now right].
    + (* crash *)
      assert (Hne : sid <> k).
      { intros ->. apply Hn. apply started_In. }
      apply aborted_frame with (S := mkSystem e (ts1 ++ mkThread sid Started :: ts2));
        cbn [engine running_threads];
        [ exact Hab | reflexivity | reflexivity | now apply attempts_other
          | reflexivity | reflexivity | ].
      rewrite started_replace by discriminate. rewrite started_at in Hn.
      intros Hin. apply Hn. apply in_app_or in Hin. apply in_or_app.
      destruct Hin as [Hin|Hin]; [now left | right; now right].
    + (* settle *)
      destruct H as (Hb & e1 & Hc & Hu & _).
      apply aborted_frame
        with (S := mkSystem e (ts1 ++ mkThread sid (Finished success) :: ts2));
        cbn [engine running_threads];
        [ exact Hab | reflexivity | reflexivity
          | apply attempts_same; apply (sb_log Hb) | apply (sb_retry Hb) | | ].
      * destruct (@settle_moves _ _ _ k RUNNING Hc Hu Hs) as (st' & Hst' & Hcase).
        rewrite Hst'. cbn [engine] in Hs. rewrite Hs.
        destruct Hcase as [->|(_ & _ & F & _)]; [reflexivity | discriminate F].
      * rewrite started_replace by discriminate.
        rewrite started_replace in Hn by discriminate. exact Hn.
  - (* the worker of [sid] is killed *)
    cbn [engine running_threads] in *.
    assert (Hne : sid <> k).
    { intros ->. apply Hn. apply started_In. }
    apply aborted_frame with (S := mkSystem e (ts1 ++ mkThread sid Started :: ts2));
      cbn [engine running_threads];
      [ exact Hab | reflexivity | reflexivity | now apply attempts_other
        | reflexivity | reflexivity | ].
    rewrite started_replace by discriminate. rewrite started_at in Hn.
    intros Hin. apply Hn. apply in_app_or in Hin. apply in_or_app.
    destruct Hin as [Hin|Hin]; [now left | right; now right].
Qed.

(** One step of a run in which workers may be killed: the books of a step
    without retry policy stay in order, or its own worker was killed. *)
Lemma once_exn_step (g : Workflow) (k : string) (t : list Event)
      (S S' : System) (ev : Event) :
  wf_workflow g -> system_ok g S -> no_retry_policy g k ->
  retry_books k 0 t S \/ aborted k t S -> pstep_exn S ev S' ->
  retry_books k 0 (t ++ [ev]) S' \/ aborted k (t ++ [ev]) S'.
Proof.
  intros Hwf Hok Hpol [Hbk|Hab] Hst;
    [|right; eapply aborted_step; eassumption].
  destruct Hst as [S ev S' Hst|e ts1 ts2 sid run x Hx].
  - left. eapply once_books_step; eassumption.
  - destruct (String.eqb_spec sid k) as [->|Hne].
    + right.
      pose proof (so_started Hok k (started_In ts1 ts2 k)) as Hrun.
      pose proof (so_started_nodup Hok) as Hnd.
      cbn [engine running_threads] in *.
      destruct Hbk as (st & rc & Hs & Hrc & Hbd & Hf & Hsu & _ & Ha & Hd).
      cbn [engine] in *. rewrite Hrun in Hs. injection Hs as <-.
      simpl in Hf, Hsu, Hd.
      assert (rc = 0%Z) by lia. subst rc.
      unfold aborted, failures, successes, dispatches in *.
      cbn [engine running_threads].
      rewrite !count_events_snoc. simpl.
      split; [exact Hrun|]. split; [exact Hrc|].
      split.
      { unfold attempts in *. simpl. rewrite count_occ_app. simpl.
        destruct (string_dec k k); [lia | congruence]. }
      split; [lia|]. split; [lia|]. split; [lia|].
      rewrite started_replace by discriminate. rewrite started_at in Hnd.
      now apply NoDup_remove_2 in Hnd.
    + left.
      apply retry_books_frame with (S := mkSystem e (ts1 ++ mkThread sid Started :: ts2));
        cbn [engine];
        [ exact Hbk | reflexivity | reflexivity | now apply attempts_other
          | reflexivity | ].
      intros st Hs. exists st. auto.
Qed.

(** In every state of a run, with or without killed workers, the books of
    a step without retry policy are in order, or its worker was killed. *)
Lemma once_exn_reachable (g : Workflow) (strat : option SchedulingStrategy)
      (mp : nat) (k : string) (t : list Event) (S : System) :
  wf_workflow g -> fresh g -> no_retry_policy g k ->
  reachable_exn g strat mp t S -> retry_books k 0 t S \/ aborted k t S.
Proof.
  intros Hwf Hf Hpol Hr. induction Hr as [e He|t S ev S' Hr IH Hst].
  - left. apply (once_books_reachable Hwf Hf Hpol (reach_start _ _ _ He)).
  - eapply once_exn_step; eauto. eapply reachable_exn_ok; eassumption.
Qed.

(** A step without retry policy is dispatched and logged at most once in a
    run, sequential or parallel, also when workers are killed by an
    exception of their command, and its command runs to its end at most
    once; its [retry_count] stays 0.  When it is [SUCCESS] or [FAILED] it
    was dispatched once, the log has its one entry and its command has
    succeeded once, or failed once: the first failure is final.  When it
    is [PENDING], [READY] or [SKIPPED] it was never dispatched and the log
    has no entry for it.  (A [RUNNING] step may or may not be in the log:
    l.270 writes the entry before the command runs, and a killed worker
    leaves the entry and the status.) *)
Theorem step_without_policy_runs_once (g : Workflow)
        (strat : option SchedulingStrategy) (mp : nat) (k : string)
        (t : list Event) (S : System) :
  wf_workflow g -> fresh g -> no_retry_policy g k ->
  reachable_exn g strat mp t S ->
  attempts (engine S) k <= 1
  /\ dispatches t k <= 1
  /\ failures t k + successes t k <= 1
  /\ retry_of (workflow (engine S)) k = Some 0%Z
  /\ (status_of (workflow (engine S)) k = Some SUCCESS ->
      attempts (engine S) k = 1 /\ dispatches t k = 1 /\ successes t k = 1)
  /\ (status_of (workflow (engine S)) k = Some FAILED ->
      attempts (engine S) k = 1 /\ dispatches t k = 1 /\ failures t k = 1)
  /\ (status_of (workflow (engine S)) k = Some PENDING
      \/ status_of (workflow (engine S)) k = Some READY
      \/ status_of (workflow (engine S)) k = Some SKIPPED ->
      attempts (engine S) k = 0 /\ dispatches t k = 0
      /\ failures t k = 0 /\ successes t k = 0).
Proof.
  intros Hwf Hf Hpol Hr.
  destruct (once_exn_reachable Hwf Hf Hpol Hr)
    as [(st & rc & Hst & Hrc & Hbd & Hfl & Hsu & _ & Ha & Hd)
       |(Hst & Hrc & Ha & Hd & Hfl & Hsu & _)].
  - assert (rc = 0%Z) by lia. subst rc.
    rewrite Hst, Hrc.
    destruct st; simpl in Hfl, Hsu, Hd;
      (split; [lia|]); (split; [lia|]); (split; [lia|]); (split; [reflexivity|]);
      (split; [intros E; try discriminate E; lia|]);
      (split; [intros E; try discriminate E; lia|]);
      (intros [E|[E|E]]; try discriminate E; lia).
  - rewrite Hst, Hrc, Ha, Hd, Hfl, Hsu.
    split; [lia|]. split; [lia|]. split; [lia|]. split; [reflexivity|].
    split; [intros E; discriminate E|].
    split; [intros E; discriminate E|].
    intros [E|[E|E]]; discriminate E.
Qed.

Lemma fan_no_policy : no_retry_policy wf_fan "B".
Proof.
  exists (mkStep "B" "b" ["A"%string] None None [] PENDING 0).
  split; [reflexivity | discriminate].
Qed.

Lemma step_without_policy_runs_once_witness :
  attempts fan_done "B" <= 1
  /\ retry_of (workflow fan_done) "B" = Some 0%Z.
Proof.
  destruct fan_done_reachable as [t Hr].
  destruct (@step_without_policy_runs_once wf_fan None 1 "B"%string t _
              (wf_check_sound wf_fan eq_refl) (fresh_check_sound wf_fan eq_refl)
              fan_no_policy (reachable_exn_of_reachable Hr)) as (H1 & _ & _ & H2 & _).
  split; assumption.
Defined.

(* ================================================================== *)
(** * Reading a retry policy *)
(* ================================================================== *)

Lemma digits_of_uint (d : Decimal.uint) :
  forall acc, PyStr.digits (Z.of_nat acc) true (DecimalString.NilEmpty.string_of_uint d)
              = Some (Z.of_nat (Nat.of_uint_acc d acc)).
Proof.
  induction d as [|d IH|d IH|d IH|d IH|d IH|d IH|d IH|d IH|d IH|d IH];
    intros acc; [reflexivity|..];
    (cbn [DecimalString.NilEmpty.string_of_uint PyStr.digits Nat.of_uint_acc];
     change (PyStr.is_digit _) with true; cbv iota;
     match goal with
     | |- context [PyStr.digit_value ?c] =>
         let v := eval vm_compute in (PyStr.digit_value c) in
         change (PyStr.digit_value c) with v
     end;
     rewrite <- IH; f_equal; rewrite Nat.tail_mul_spec; lia).
Qed.

Lemma digits_first (d : Decimal.uint) (b : bool) (acc : Z) :
  d <> Decimal.Nil ->
  PyStr.digits acc b (DecimalString.NilEmpty.string_of_uint d)
  = PyStr.digits acc true (DecimalString.NilEmpty.string_of_uint d).
Proof.
  destruct d; intros H; [congruence|..]; reflexivity.
Qed.

Lemma rstrip_ws_uint (d : Decimal.uint) :
  PyStr.rstrip_ws (DecimalString.NilEmpty.string_of_uint d)
  = DecimalString.NilEmpty.string_of_uint d.
Proof.
  induction d; [reflexivity|..];
    (cbn [DecimalString.NilEmpty.string_of_uint PyStr.rstrip_ws]; rewrite IHd;
     destruct (DecimalString.NilEmpty.string_of_uint d); reflexivity).
Qed.

Lemma lstrip_ws_uint (d : Decimal.uint) :
  PyStr.lstrip_ws (DecimalString.NilEmpty.string_of_uint d)
  = DecimalString.NilEmpty.string_of_uint d.
Proof. destruct d; reflexivity. Qed.

Lemma fields_uint (d : Decimal.uint) :
  PyStr.fields ":" (DecimalString.NilEmpty.string_of_uint d)
  = (DecimalString.NilEmpty.string_of_uint d, []).
Proof.
  induction d; [reflexivity|..];
    (cbn [DecimalString.NilEmpty.string_of_uint PyStr.fields]; rewrite IHd; reflexivity).
Qed.

Lemma to_uint_not_nil (n : nat) : Nat.to_uint n <> Decimal.Nil.
Proof.
  intros H. pose proof (DecimalNat.Unsigned.of_to n) as E. rewrite H in E.
  simpl in E. subst n. discriminate H.
Qed.

Lemma count_digits_uint (d : Decimal.uint) :
  PyStr.count_digits (DecimalString.NilEmpty.string_of_uint d)
  = String.length (DecimalString.NilEmpty.string_of_uint d).
Proof.
  induction d; [reflexivity|..];
    (cbn [DecimalString.NilEmpty.string_of_uint PyStr.count_digits String.length];
     change (PyStr.is_digit _) with true; cbv iota; now rewrite IHd).
Qed.

Lemma int_of_str (n : nat) :
  PyStr.int (str_of_nat n)
  = if String.length (str_of_nat n) <=? PyStr.max_str_digits
    then Some (Z.of_nat n) else None.
Proof.
  unfold PyStr.int, str_of_nat. rewrite count_digits_uint.
  destruct (Nat.leb_spec (String.length (DecimalString.NilEmpty.string_of_uint
                                           (Nat.to_uint n)))
                         PyStr.max_str_digits) as [Hle|Hgt].
  2:{ apply Nat.ltb_lt in Hgt. now rewrite Hgt. }
  assert (Hlt : (PyStr.max_str_digits
                 <? String.length (DecimalString.NilEmpty.string_of_uint
                                     (Nat.to_uint n))) = false)
    by (apply Nat.ltb_ge; exact Hle).
  rewrite Hlt. unfold PyStr.strip_ws.
  rewrite lstrip_ws_uint, rstrip_ws_uint.
  assert (E : PyStr.digits 0 false (DecimalString.NilEmpty.string_of_uint (Nat.to_uint n))
              = Some (Z.of_nat n)).
  { rewrite digits_first by apply to_uint_not_nil.
    change 0%Z with (Z.of_nat 0). rewrite digits_of_uint.
    change (Nat.of_uint_acc (Nat.to_uint n) 0) with (Nat.of_uint (Nat.to_uint n)).
    now rewrite DecimalNat.Unsigned.of_to. }
  pose proof (to_uint_not_nil n) as Hn. revert E Hn. clear Hle Hlt.
  destruct (Nat.to_uint n); cbn [DecimalString.NilEmpty.string_of_uint];
    intros E Hn; [congruence | exact E ..].
Qed.

(** The policy text and the number it allows: for every natural number
    [n] whose decimal digits are no more than the limit of the interpreter
    on the digits [int] converts (4300 unless it was changed), the policy
    [retry:n], written with these digits, reads back as [n] retries;
    beyond the limit reading it raises [ValueError]. *)
Theorem retry_policy_round_trip (n : nat) :
  (String.length (str_of_nat n) <= PyStr.max_str_digits ->
   max_retries_of ("retry:" ++ str_of_nat n) = Ok (Z.of_nat n))
  /\ (PyStr.max_str_digits < String.length (str_of_nat n) ->
      exists msg,
        max_retries_of ("retry:" ++ str_of_nat n) = Raise (ValueError msg)).
Proof.
  assert (H : max_retries_of ("retry:" ++ str_of_nat n)
              = if String.length (str_of_nat n) <=? PyStr.max_str_digits
                then Ok (Z.of_nat n)
                else Raise (ValueError "invalid literal for int() with base 10")).
  { unfold max_retries_of, PyStr.split_on.
    cbn [append PyStr.fields]. unfold str_of_nat at 1. rewrite fields_uint.
    cbn -[PyStr.int PyStr.strip_ws str_of_nat PyStr.max_str_digits Nat.leb].
    fold (str_of_nat n).
    assert (E : PyStr.strip_ws (str_of_nat n) = str_of_nat n).
    { unfold PyStr.strip_ws, str_of_nat. now rewrite lstrip_ws_uint, rstrip_ws_uint. }
    rewrite E, int_of_str.
    destruct (String.length (str_of_nat n) <=? PyStr.max_str_digits); reflexivity. }
  rewrite H. split; intros Hn.
  - apply Nat.leb_le in Hn. now rewrite Hn.
  - apply Nat.leb_gt in Hn. rewrite Hn. eexists. reflexivity.
Qed.

Lemma retry_policy_round_trip_witness :
  max_retries_of ("retry:" ++ str_of_nat 12) = Ok 12%Z.
Proof.
  apply (proj1 (retry_policy_round_trip 12)).
  apply Nat.leb_le. vm_compute. reflexivity.
Defined.

(** Reading the number of a policy that starts with [retry:] either gives
    an integer or raises [ValueError], as [int] does; it never raises
    [IndexError], since the text has a second field. *)
Theorem retry_policy_never_index_error (fs : string) :
  PyStr.startswith "retry:" fs = true ->
  (exists n, max_retries_of fs = Ok n)
  \/ max_retries_of fs = Raise (ValueError "invalid literal for int() with base 10").
Proof.
  unfold PyStr.startswith. intros H.
  do 6 (destruct fs as [|? fs]; [discriminate H|];
        simpl in H;
        match type of H with
        | (if ?c then _ else _) = _ => destruct c as [<-|]; [|discriminate H]
        end).
  unfold max_retries_of, PyStr.split_on. cbn [PyStr.fields].
  destruct (PyStr.fields ":" fs) as [t ts].
  cbn -[PyStr.int PyStr.strip_ws].
  destruct (PyStr.int (PyStr.strip_ws t)) as [n|]; [left; eauto | now right].
Qed.

Lemma retry_policy_never_index_error_witness :
  (exists n, max_retries_of "retry:twice" = Ok n)
  \/ max_retries_of "retry:twice"
     = Raise (ValueError "invalid literal for int() with base 10").
Proof.
  exact (@retry_policy_never_index_error "retry:twice"%string eq_refl).
Defined.

(* ================================================================== *)
(** * The condition evaluator as a function *)
(* ================================================================== *)

(** [_evaluate_condition] returns a truth value for every expression and
    every graph, it never raises (the reference it splits always has an
    underscore); and its value is settled by the statuses of the steps
    alone: on two graphs that give every step the same status it returns
    the same value. *)
Theorem evaluate_condition_is_pure (w w' : Workflow) (c : option string) :
  (forall k, status_of w k = status_of w' k) ->
  exists b, _evaluate_condition w c = Ok b /\ _evaluate_condition w' c = Ok b.
Proof.
  intros Hs. destruct (evaluate_total w c) as [b Hb]. exists b. split; [assumption|].
  rewrite <- Hb. unfold _evaluate_condition.
  destruct c as [[|a c]|]; try reflexivity.
  destruct (PyStr.split (PyStr.replace_eqeq (String a c))) as [|v [|u [|third rest]]];
    try reflexivity.
  destruct (PyStr.startswith "status_" v || PyStr.startswith "result_" v);
    [|reflexivity].
  destruct (PyStr.split1 "_" v) as [p [sid|]]; [|reflexivity].
  specialize (Hs sid). unfold status_of in Hs.
  destruct (find_step (steps w) sid), (find_step (steps w') sid);
    simpl in Hs; try discriminate; [|reflexivity].
  injection Hs as ->. reflexivity.
Qed.

Lemma evaluate_condition_is_pure_witness :
  exists b, _evaluate_condition wf_fan (Some "status_A == PENDING") = Ok b
            /\ _evaluate_condition (mkWorkflow "other" (steps wf_fan) [])
                                   (Some "status_A == PENDING") = Ok b.
Proof.
  apply (@evaluate_condition_is_pure wf_fan (mkWorkflow "other" (steps wf_fan) [])
           (Some "status_A == PENDING"%string)).
  reflexivity.
Defined.

(* ================================================================== *)
(** * The cascade and the ready queue *)
(* ================================================================== *)

(** When every step the cascade visits has a dependency that was not
    [SUCCESS] when it started, it finds none of them [READY]: the ready
    queue is left as it was. *)
Lemma skip_loop_keeps_queue (g : Workflow) (e0 : WorkflowEngine) :
  wf_workflow g -> engine_ok g e0 ->
  forall fuel e to_skip skipped e',
    skeleton (workflow e) = skeleton g ->
    ready_queue e = ready_queue e0 ->
    only_changes cascade_move (workflow e0) (workflow e) ->
    (forall x, status_of (workflow e0) x = Some READY ->
               status_of (workflow e) x = Some READY) ->
    (forall y, In y to_skip ->
               exists d, In d (deps_of g y)
                         /\ status_of (workflow e0) d <> Some SUCCESS) ->
    skip_loop fuel e to_skip skipped = Ok e' ->
    ready_queue e' = ready_queue e0
    /\ forall x, status_of (workflow e0) x = Some READY ->
                 status_of (workflow e') x = Some READY.
Proof.
  intros Hwf Hok0. induction fuel as [|fuel IH];
    intros e to_skip skipped e' Hsk Hq Hch Hrd Hinv Hrun.
  - destruct to_skip; simpl in Hrun; [|discriminate].
    injection Hrun as <-. auto.
  - destruct to_skip as [|y rest]; simpl in Hrun.
    { injection Hrun as <-. auto. }
    assert (Hrest : forall z, In z rest ->
                              exists d, In d (deps_of g z)
                                        /\ status_of (workflow e0) d <> Some SUCCESS)
      by (intros z Hz; apply Hinv; now right).
    destruct (mem y skipped).
    { eapply IH; eassumption. }
    unfold get_step in Hrun.
    destruct (find_step (steps (workflow e)) y) as [s|] eqn:Hs; [|discriminate].
    simpl in Hrun.
    pose proof (status_of_find _ _ Hs) as Hst.
    destruct (Hinv y (or_introl eq_refl)) as (d & Hd & Hns).
    assert (Hnr : status_of (workflow e0) y <> Some READY).
    { intros Hr. apply Hns.
      eapply (eo_deps Hok0); [exact Hr | reflexivity | exact Hd]. }
    destruct (status s) eqn:Es; simpl in Hrun;
      try (eapply IH; eassumption).
    + (* PENDING *)
      assert (Hp0 : status_of (workflow e0) y = Some PENDING)
        by (eapply cascade_old_status; [exact Hch | exact Hst | discriminate]).
      assert (Hmem : mem y (ready_queue e) = false).
      { apply mem_false. rewrite Hq. rewrite (eo_queue Hok0). congruence. }
      rewrite Hmem in Hrun.
      assert (Hy : In y (step_ids (steps g))).
      { rewrite <- (skeleton_ids Hsk). apply find_step_Some_ids. eauto. }
      assert (Hsk2 : skeleton (set_status (workflow e) y SKIPPED) = skeleton g)
        by (now rewrite skeleton_set_status).
      cbn [workflow with_workflow] in Hrun.
      rewrite (@get_inverse_skeleton g _ y Hwf Hsk2 Hy) in Hrun. simpl in Hrun.
      eapply IH; [| | | | | exact Hrun]; cbn [workflow ready_queue with_workflow].
      * exact Hsk2.
      * exact Hq.
      * eapply only_changes_trans; [apply cascade_move_trans | exact Hch |].
        eapply only_changes_changed;
          [exact Hst | now apply status_changed_set with (a := PENDING) | constructor].
      * intros x Hx. rewrite status_of_set_status.
        destruct (String.eqb_spec y x) as [->|Hn]; [congruence | now apply Hrd].
      * intros z Hz. apply in_app_or in Hz. destruct Hz as [Hz|Hz]; [now apply Hrest|].
        exists y. split; [|congruence].
        apply (@inv_of_deps g y z Hwf Hy (@inv_of_ids g y z Hwf Hz)). exact Hz.
    + (* READY *)
      exfalso. apply Hnr.
      eapply cascade_old_status; [exact Hch | exact Hst | discriminate].
Qed.

(** In a run the cascade that follows a final failure never has to take a
    step out of the ready queue: the queue is the same after it, and every
    step that was [READY] still is (a [READY] step has all its dependencies
    in [SUCCESS], so it is no descendant of the failed step). *)
Theorem cascade_never_dequeues (g : Workflow) (strat : option SchedulingStrategy)
        (mp : nat) (t : list Event) (e : WorkflowEngine) (ts1 ts2 : list Thread)
        (k : string) :
  wf_workflow g -> fresh g ->
  reachable g strat mp t (mkSystem e (ts1 ++ mkThread k (Finished false) :: ts2)) ->
  status_of (workflow e) k = Some FAILED ->
  exists e1,
    _skip_dependents e k = Ok e1
    /\ ready_queue e1 = ready_queue e
    /\ forall x, status_of (workflow e) x = Some READY ->
                 status_of (workflow e1) x = Some READY.
Proof.
  intros Hwf Hf Hr Hk. pose proof (reachable_ok Hwf Hf Hr) as Hok.
  pose proof (so_engine Hok) as Heo. cbn [engine] in Heo.
  assert (Hin : In k (step_ids (steps g))).
  { apply (skeleton_status_ids (eo_skeleton Heo)). eauto. }
  destruct (@skip_dependents_spec g e k Hwf Heo Hin) as (e1 & Hr1 & _).
  exists e1. split; [assumption|].
  unfold _skip_dependents in Hr1.
  rewrite (@get_inverse_skeleton g _ k Hwf (eo_skeleton Heo) Hin) in Hr1.
  simpl in Hr1.
  eapply (@skip_loop_keeps_queue g e Hwf Heo); [ | | | | | exact Hr1].
  - apply (eo_skeleton Heo).
  - reflexivity.
  - apply only_changes_refl.
  - auto.
  - intros y Hy. exists k. split; [|congruence].
    apply (@inv_of_deps g k y Hwf Hin (@inv_of_ids g k y Hwf Hy)). exact Hy.
Qed.

Lemma cascade_never_dequeues_witness :
  exists e1,
    _skip_dependents fan_failed "A" = Ok e1
    /\ ready_queue e1 = ready_queue fan_failed.
Proof.
  destruct (@cascade_never_dequeues wf_fan None 1 _ fan_failed [] [] "A"%string
              (wf_check_sound wf_fan eq_refl) (fresh_check_sound wf_fan eq_refl)
              fan_failed_reachable eq_refl)
    as (e1 & H1 & H2 & _).
  exists e1. split; assumption.
Defined.

(* ================================================================== *)
(** * From the file to the final statuses *)
(* ================================================================== *)

(** The sequential run of a validated graph returns. *)
Lemma sequential_run_returns (g : Workflow) (strat : option SchedulingStrategy)
      (run : Executor) :
  wf_workflow g -> fresh g -> policies_ok g -> strategy_ok g strat ->
  commands_end run ->
  exists fuel e' t,
    execute_sequentially run fuel (new_WorkflowEngine g strat 1) = Ok e'
    /\ reachable g strat 1 t (mkSystem e' [])
    /\ quiescent g e'
    /\ ready_queue e' = [].
Proof.
  intros Hwf Hf Hpol Hstr Hend.
  destruct (@update_ready_queue_spec g _ [] Hwf (@initial_ok g strat 1 Hf))
    as (e0 & Hr0 & _).
  pose proof (initial_quiescent strat 1 Hwf Hf Hr0) as Hq0.
  destruct (@sequential_terminates g strat 1 run Hwf Hf (le_n 1) Hpol Hstr Hend
              (run_measure g (workflow e0)) [] e0 (reach_start _ _ _ Hr0) Hq0 (le_n _))
    as (e' & t' & Hrun & Hr' & Hq' & Hqe).
  exists (run_measure g (workflow e0)), e', ([] ++ t').
  split; [|auto].
  unfold execute_sequentially. rewrite Hr0. simpl. exact Hrun.
Qed.

Lemma levels_strategy_ok (w : Workflow) (lv : dict nat) :
  (forall s, In s (steps w) -> dict_get lv (step_id s) = Some (level_formula lv s)) ->
  forall k, In k (step_ids (steps w)) -> dict_get lv k <> None.
Proof.
  intros Hlv k Hk. destruct (proj1 (find_step_Some_ids _ _) Hk) as [s Hs].
  destruct (find_step_In _ _ Hs) as [Hin <-]. rewrite (Hlv s Hin). discriminate.
Qed.

(** The strategy [run_workflow] builds from a name: it is built without
    error on a validated graph, and its level table covers the graph. *)
Lemma choose_strategy_ok (w : Workflow) (strategy_name : string) :
  wf_workflow w -> validate_workflow w = Ok true ->
  exists strat,
    (if String.eqb (PyStr.lower strategy_name) "bfs"
     then s <- new_BreadthFirstStrategy w ;; Ok (Some s)
     else if String.eqb (PyStr.lower strategy_name) "dfs"
          then s <- new_DepthFirstStrategy w ;; Ok (Some s)
          else Ok None) = Ok strat
    /\ strategy_ok w strat.
Proof.
  intros Hwf Hv. destruct (calculate_levels_spec Hwf Hv) as (lv & Hr & Hlv).
  unfold new_BreadthFirstStrategy, new_DepthFirstStrategy. rewrite Hr. simpl.
  destruct (String.eqb (PyStr.lower strategy_name) "bfs").
  - eexists. split; [reflexivity|]. simpl. now apply levels_strategy_ok.
  - destruct (String.eqb (PyStr.lower strategy_name) "dfs").
    + eexists. split; [reflexivity|]. simpl. now apply levels_strategy_ok.
    + exists None. split; [reflexivity | exact I].
Qed.

(** [run_workflow] (sequential) on a file whose entries have their two
    keys, distinct ids and retry policies that carry an integer, with
    commands that all end: either the graph has a cycle and [ValueError] is
    raised before anything runs, or the run returns, whatever the exit
    statuses of the commands and whatever the strategy name is (an unknown
    name means first-in first-out), with an empty ready queue, the graph of
    the file untouched but for statuses and retry counters, and every step
    [SUCCESS], [FAILED], [SKIPPED] or [PENDING]. *)
Theorem run_workflow_returns (run : Executor) (doc : Document)
        (data : list StepEntry) (strategy_name : string) :
  document_steps doc = Some data ->
  (forall d, In d data -> complete d) ->
  NoDup (map entry_id data) ->
  entries_policies_ok data ->
  commands_end run ->
  exists w,
    parse_workflow doc = Ok w
    /\ ((exists r,
            reaches_cycle w r
            /\ forall fuel, run_workflow run fuel doc strategy_name
                            = Raise (ValueError (cycle_message r)))
        \/ (acyclic w
            /\ exists fuel e',
                run_workflow run fuel doc strategy_name = Ok e'
                /\ ready_queue e' = []
                /\ skeleton (workflow e') = w
                /\ forall k, In k (step_ids (steps w)) ->
                             exists st, status_of (workflow e') k = Some st
                                        /\ (st = SUCCESS \/ st = FAILED
                                            \/ st = SKIPPED \/ st = PENDING))).
Proof.
  intros Hdoc Hc Hnd Hpol Hend.
  destruct (@parse_steps_well_formed (document_name doc) data Hc)
    as (w & Hp & _ & Hwf & Hf & _).
  destruct (@parse_steps_distinct (document_name doc) data Hc Hnd) as (w' & Hp' & Hsteps).
  rewrite Hp in Hp'. injection Hp' as <-.
  rewrite <- (parse_workflow_unfold _ Hdoc) in Hp.
  exists w. split; [assumption|].
  assert (Hpw : policies_ok w).
  { intros s fs Hs Hfs Hst. rewrite Hsteps in Hs. apply in_map_iff in Hs.
    destruct Hs as (d & <- & Hd). simpl in Hfs. eapply Hpol; eassumption. }
  unfold run_workflow. rewrite Hp. simpl.
  destruct (@validate_from_exact w Hwf (step_ids (steps w)) _ (marks_ok_empty w) eq_refl
                                (incl_refl _))
    as [Hv|(pre & r & post & _ & Hv & Hrc & _)];
    fold (validate_workflow w) in Hv.
  - right. split; [now apply validate_sound|]. rewrite Hv. simpl.
    destruct (@choose_strategy_ok w strategy_name Hwf Hv) as (strat & Hs & Hso).
    rewrite Hs. simpl.
    destruct (@sequential_run_returns w strat run Hwf Hf Hpw Hso Hend)
      as (fuel & e' & t & Hrun & Hr & Hq & Hqe).
    exists fuel, e'. split; [assumption|]. split; [assumption|].
    pose proof (reachable_ok Hwf Hf Hr) as Hok.
    pose proof (so_engine Hok) as Heo. cbn [engine] in Heo.
    split; [rewrite (eo_skeleton Heo); now apply skeleton_fresh|].
    intros k Hk.
    destruct (proj1 (skeleton_status_ids (eo_skeleton Heo) k) Hk) as [st Hst].
    exists st. split; [assumption|]. destruct st; auto.
    + exfalso. apply (eo_queue Heo) in Hst. rewrite Hqe in Hst. exact Hst.
    + exfalso. exact (proj2 Hq k Hst).
  - left. exists r. split; [assumption|]. intros fuel. rewrite Hv. reflexivity.
Qed.

Lemma run_workflow_returns_witness :
  exists w,
    parse_workflow doc_retry = Ok w
    /\ ((exists r,
            reaches_cycle w r
            /\ forall fuel, run_workflow (fun _ _ => false) fuel doc_retry "bfs"
                            = Raise (ValueError (cycle_message r)))
        \/ (acyclic w
            /\ exists fuel e',
                run_workflow (fun _ _ => false) fuel doc_retry "bfs" = Ok e'
                /\ ready_queue e' = []
                /\ skeleton (workflow e') = w
                /\ forall k, In k (step_ids (steps w)) ->
                             exists st, status_of (workflow e') k = Some st
                                        /\ (st = SUCCESS \/ st = FAILED
                                            \/ st = SKIPPED \/ st = PENDING))).
Proof.
  apply (@run_workflow_returns (fun _ _ => false) doc_retry _ "bfs"%string eq_refl).
  - intros d [<-|[<-|[]]]; split; discriminate.
  - simpl. constructor; [intros [H|[]]; discriminate H|].
    constructor; [intros [] | constructor].
  - intros d fs [<-|[<-|[]]] Hfs _; simpl in Hfs; [|discriminate Hfs].
    injection Hfs as <-. exists 2%Z. reflexivity.
  - exact (commands_end_exited false).
Defined.

(* ================================================================== *)
(** * The status table: widths *)
(* ================================================================== *)

Lemma length_append (a b : string) :
  String.length (a ++ b) = String.length a + String.length b.
Proof. induction a as [|c a IH]; simpl; [reflexivity | now rewrite IH]. Qed.

Lemma length_repeat_char (c : ascii) (n : nat) : String.length (repeat_char c n) = n.
Proof. induction n as [|n IH]; simpl; [reflexivity | now rewrite IH]. Qed.

Lemma length_take (n : nat) (s : string) :
  String.length (take n s) = Nat.min n (String.length s).
Proof.
  revert s. induction n as [|n IH]; intros [|c s]; simpl; try reflexivity.
  now rewrite IH.
Qed.

Lemma length_ljust (n : nat) (s : string) :
  String.length (ljust n s) = Nat.max n (String.length s).
Proof.
  unfold ljust. rewrite length_append, length_repeat_char. lia.
Qed.

Lemma length_cut (s : string) (n m : nat) :
  m + 3 = n ->
  String.length (if n <? String.length s then take m s ++ "..." else s) <= n.
Proof.
  intros E. destruct (Nat.ltb_spec n (String.length s)) as [H|H]; [|assumption].
  rewrite length_append, length_take. simpl. lia.
Qed.

Lemma length_status_name (st : Status) : String.length (status_name st) <= 10.
Proof. destruct st; simpl; lia. Qed.

(** The table [visualize_workflow] prints has one row per step, in the
    order of the graph, between three heading lines and a closing rule.  In
    a row, the status, dependency and command cells are exactly 10, 15 and
    25 characters wide whatever the step holds (a dependency list of more
    than 15 characters or a command of more than 25 is cut and ends with
    three dots); the row is as wide as the heading, 72 characters, unless
    the id is longer than 10 characters or the retry counter needs more
    than 8. *)
Theorem status_table_widths (w : Workflow) :
  List.length (visualize_workflow w) = List.length (steps w) + 4
  /\ String.length table_header = 72
  /\ forall step,
      In step (steps w) ->
      In (table_row step) (visualize_workflow w)
      /\ String.length (ljust 10 (status_name (status step))) = 10
      /\ String.length (ljust 15 (deps_cell step)) = 15
      /\ String.length (ljust 25 (command_cell step)) = 25
      /\ String.length (table_row step)
         = Nat.max 10 (String.length (step_id step)) + 54
           + Nat.max 8 (String.length (str_of_int (retry_count step))).
Proof.
  split; [|split].
  - unfold visualize_workflow. rewrite !length_app, length_map. simpl. lia.
  - reflexivity.
  - intros step Hin.
    pose proof (length_status_name (status step)) as Hs.
    assert (Hd : String.length (deps_cell step) <= 15)
      by (unfold deps_cell; now apply length_cut).
    assert (Hc : String.length (command_cell step) <= 25)
      by (unfold command_cell; now apply length_cut).
    split.
    { unfold visualize_workflow. apply in_or_app. right. apply in_or_app. left.
      now apply in_map. }
    rewrite <- and_assoc, <- and_assoc.
    assert (H3 : String.length (ljust 10 (status_name (status step))) = 10
                 /\ String.length (ljust 15 (deps_cell step)) = 15
                 /\ String.length (ljust 25 (command_cell step)) = 25)
      by (rewrite !length_ljust; lia).
    destruct H3 as (A & B & C).
    split; [tauto|].
    unfold table_row. rewrite !length_append, A, B, C, !length_ljust. simpl. lia.
Qed.

Lemma status_table_widths_witness :
  String.length (table_row (mkStep "A" "a" [] None None [] PENDING 0)) = 72.
Proof.
  destruct (@status_table_widths wf_fan) as (_ & _ & H).
  destruct (H (mkStep "A" "a" [] None None [] PENDING 0) (or_introl eq_refl))
    as (_ & _ & _ & _ & E).
  exact E.
Defined.

(* ================================================================== *)
(** * The tie-break of the strategies *)
(* ================================================================== *)

Lemma tie_requeued_reachable :
  reachable wf_tie (Some (BreadthFirstStrategy tie_levels)) 1
            [EvDispatch "A"; EvRun "A" false; EvSettle "A"]
            (mkSystem tie_requeued [mkThread "A" Dead]).
Proof.
  assert (R0 : reachable wf_tie (Some (BreadthFirstStrategy tie_levels)) 1 []
                         (mkSystem tie_started []))
    by (apply reach_start; reflexivity).
  assert (S1 : pstep (mkSystem tie_started []) (EvDispatch "A")
                     (mkSystem (mark_running tie_started "A")
                               ([] ++ [mkThread "A" Started]))).
  { apply pstep_dispatch; [simpl; lia | discriminate | reflexivity]. }
  pose proof (reach_step R0 S1) as R1.
  assert (S2 : pstep (mkSystem (mark_running tie_started "A")
                               ([] ++ mkThread "A" Started :: []))
                     (EvRun "A" false)
                     (mkSystem tie_retried ([] ++ mkThread "A" (Finished false) :: []))).
  { apply pstep_run. reflexivity. }
  pose proof (reach_step R1 S2) as R2.
  assert (S3 : pstep (mkSystem tie_retried ([] ++ mkThread "A" (Finished false) :: []))
                     (EvSettle "A")
                     (mkSystem tie_requeued ([] ++ mkThread "A" Dead :: []))).
  { apply pstep_settle. reflexivity. }
  exact (reach_step R2 S3).
Qed.

(** C8 (as stated it fails): two calls with the same ready set and the
    same levels would return the same step.  On [wf_tie], whose steps [A]
    and [B] both have level 0, the breadth-first strategy of a run is
    asked twice with the ready set [A], [B]: at the start the queue is
    [A], [B] and it returns [A]; after the failed and retried attempt of
    [A] the queue is [B], [A] and it returns [B]. *)
Lemma strategy_selection_counterexample :
  ~ (forall (g : Workflow) (lv : dict nat) (t t' : list Event) (S S' : System)
            (k k' : string),
        wf_workflow g -> fresh g -> validate_workflow g = Ok true ->
        new_BreadthFirstStrategy g = Ok (BreadthFirstStrategy lv) ->
        reachable g (Some (BreadthFirstStrategy lv)) 1 t S ->
        reachable g (Some (BreadthFirstStrategy lv)) 1 t' S' ->
        (forall x, In x (ready_queue (engine S)) <-> In x (ready_queue (engine S'))) ->
        get_next_steps (BreadthFirstStrategy lv) (ready_queue (engine S)) = Ok [k] ->
        get_next_steps (BreadthFirstStrategy lv) (ready_queue (engine S')) = Ok [k'] ->
        k = k').
Proof.
  intros H.
  assert (E : "A"%string = "B"%string); [|discriminate E].
  apply (H wf_tie tie_levels [] [EvDispatch "A"; EvRun "A" false; EvSettle "A"]
           (mkSystem tie_started []) (mkSystem tie_requeued [mkThread "A" Dead])).
  - exact (wf_check_sound wf_tie eq_refl).
  - exact (fresh_check_sound wf_tie eq_refl).
  - reflexivity.
  - reflexivity.
  - apply reach_start. reflexivity.
  - exact tie_requeued_reachable.
  - intros x. simpl. tauto.
  - reflexivity.
  - reflexivity.
Qed.

(** The same run in full, with either strategy, when every command fails:
    the strategy is asked with the queues [A; B], [B; A] and [A], and the
    log is [A], [B], [A].  A call depends on the order of the ready queue,
    not only on the set of ready steps. *)
Example tie_break_follows_queue :
  ready_queue tie_started = ["A"; "B"]
  /\ ready_queue tie_requeued = ["B"; "A"]
  /\ get_next_steps (BreadthFirstStrategy tie_levels) ["A"; "B"] = Ok ["A"]
  /\ get_next_steps (BreadthFirstStrategy tie_levels) ["B"; "A"] = Ok ["B"]
  /\ get_next_steps (DepthFirstStrategy tie_levels) ["A"; "B"] = Ok ["A"]
  /\ get_next_steps (DepthFirstStrategy tie_levels) ["B"; "A"] = Ok ["B"]
  /\ result_map execution_order
       (execute_sequentially (fun _ _ => false) 5
          (new_WorkflowEngine wf_tie (Some (BreadthFirstStrategy tie_levels)) 1))
     = Ok ["A"; "B"; "A"]
  /\ result_map execution_order
       (execute_sequentially (fun _ _ => false) 5
          (new_WorkflowEngine wf_tie (Some (DepthFirstStrategy tie_levels)) 1))
     = Ok ["A"; "B"; "A"].
Proof. vm_compute. repeat split; reflexivity. Qed.

(* ================================================================== *)
(** * Commands that do not end with an exit status *)
(* ================================================================== *)

(** [_execute_step] catches [CalledProcessError] only: a command whose
    output [subprocess.run] cannot decode aborts the sequential run with
    that exception, the step in the log and [RUNNING]. *)
Example undecodable_output_aborts (fuel : nat) :
  execute_sequentially run_undecodable (S fuel) (new_WorkflowEngine wf_single None 1)
  = Raise (OtherError "UnicodeDecodeError").
Proof. reflexivity. Qed.

(** A command that never ends blocks the sequential run: no number of
    iterations gives a result. *)
Example endless_command_blocks (fuel : nat) :
  execute_sequentially (fun _ _ => NeverEnds) fuel (new_WorkflowEngine wf_single None 1)
  = OutOfFuel.
Proof. destruct fuel; reflexivity. Qed.

(** A strategy whose level table does not cover the graph: the lookup
    [self.levels[s.id]] of the first choice raises [KeyError]. *)
Example uncovered_strategy_aborts :
  execute_sequentially (fun _ _ => true) 5
    (new_WorkflowEngine wf_single (Some (BreadthFirstStrategy [])) 1)
  = Raise (KeyError "A").
Proof. reflexivity. Qed.
